(** * A shallow embedding of the Owl reactivity engine (reactivity.js)

    The engine wraps plain containers (objects, arrays, sets, maps, weak
    maps) in proxies that record which callback read which key, and calls
    the callback back, once, when that key is written.

    The embedding follows the source function by function.  The JavaScript
    heap is explicit: objects live at locations, a proxy is an object of
    its own, and the three module-level weak maps of the source
    ([targetToKeysToCallbacks], [callbacksToTargets], [reactiveCache]) are
    fields of the state.  Code that can throw returns a result; the
    callbacks, which are client code, are a parameter of the engine and
    are later instantiated by client programs run with fuel. *)

From Stdlib Require Import ZArith.
From stdpp Require Import gmap strings list fin_maps relations sorting.

(** ** Values *)

(** Locations of the heap and identities of functions are numbers. *)
Abbreviation loc := nat (only parsing).
Abbreviation Callback := nat (only parsing).

(** Symbols.  [TARGET], [SKIP] and [KEYCHANGES] are the three private
    symbols of the module; [ToStringTag] and [IteratorSym] are the
    well-known [Symbol.toStringTag] and [Symbol.iterator]; client symbols
    are numbered. *)
Inductive Sym :=
| TARGET
| SKIP
| KEYCHANGES
| ToStringTag
| IteratorSym
| UserSym (n : nat).

(** JavaScript values.  Non-NaN numbers are compared by value by both
    [===] and SameValueZero, so an integer stands for them; [NaN] is kept
    apart because [===] is not reflexive on it.  Functions are identified
    by a number (they serve as callbacks); every other object is a
    reference into the heap. *)
Inductive Value :=
| VUndef
| VNull
| VBool (b : bool)
| VNum (z : Z)
| VNaN
| VStr (s : string)
| VSym (y : Sym)
| VFun (f : Callback)
| VRef (l : loc).

#[global] Instance Sym_eq_dec : EqDecision Sym.
Proof. solve_decision. Defined.

#[global] Instance Value_eq_dec : EqDecision Value.
Proof. solve_decision. Defined.

(** [a === b] *)
Definition strict_eq (a b : Value) : bool :=
  match a, b with
  | VNaN, _ => false
  | _, VNaN => false
  | _, _ => bool_decide (a = b)
  end.

(** SameValueZero, the key equality of [Map] and [Set]. *)
Definition same_value_zero (a b : Value) : bool := bool_decide (a = b).

(** [typeof v === "object"]; note that [typeof null] is ["object"]. *)
Definition typeof_is_object (v : Value) : bool :=
  match v with
  | VNull | VRef _ => true
  | _ => false
  end.

(** Truthiness, as used by [||] and [if]. *)
Definition truthy (v : Value) : bool :=
  match v with
  | VUndef | VNull | VNaN => false
  | VBool b => b
  | VNum z => negb (Z.eqb z 0)
  | VStr s => negb (String.eqb s "")
  | VSym _ | VFun _ | VRef _ => true
  end.

(** Property keys are strings or symbols. *)
Inductive PropKey :=
| KStr (s : string)
| KSym (y : Sym).

#[global] Instance PropKey_eq_dec : EqDecision PropKey.
Proof. solve_decision. Defined.

Definition key_value (k : PropKey) : Value :=
  match k with
  | KStr s => VStr s
  | KSym y => VSym y
  end.

(** ** Heap objects *)

(** The class of a native object, that is what
    [Object.prototype.toString] prints between ["[object "] and ["]"]
    for an object of the class that has no [Symbol.toStringTag] of its
    own. *)
Inductive Class :=
| CObject
| CArray
| CSet
| CMap
| CWeakMap
| CDate
| CPromise
| CRegExp
| CError.

#[global] Instance Class_eq_dec : EqDecision Class.
Proof. solve_decision. Defined.

Definition class_tag (c : Class) : string :=
  match c with
  | CObject => "Object"
  | CArray => "Array"
  | CSet => "Set"
  | CMap => "Map"
  | CWeakMap => "WeakMap"
  | CDate => "Date"
  | CPromise => "Promise"
  | CRegExp => "RegExp"
  | CError => "Error"
  end.

(** A data property with the two attributes the engine looks at. *)
Record PropDesc := mkProp {
  p_value : Value;
  p_writable : bool;
  p_configurable : bool;
}.

(** A native object: its class, its own properties in creation order, its
    extensibility, and, for collections, the entry list.  As in the
    language definition, a deleted or cleared entry leaves a hole so that
    running iterations keep their position.  The prototype of a native
    object is the standard prototype of its class (see [proto_lookup]). *)
Record RawObj := mkRaw {
  o_class : Class;
  o_props : list (PropKey * PropDesc);
  o_extensible : bool;
  o_data : list (option (Value * Value));
}.

Inductive CollKind := KSet | KMap | KWeakMap.

#[global] Instance CollKind_eq_dec : EqDecision CollKind.
Proof. solve_decision. Defined.

(** Which handler a proxy was built with. *)
Inductive HandlerKind :=
| HBasic
| HCollection (k : CollKind).

Inductive IterMethod := IKeys | IValues | IEntries | IIterator.

Inductive GenStatus := GenFresh | GenSuspended | GenCompleted.

(** An instance of the generator of [makeIteratorObserver]: the closure
    variables and the positions of its two native iterators. *)
Record GenObj := mkGen {
  g_target : loc;
  g_callback : Callback;
  g_kind : CollKind;
  g_method : IterMethod;
  g_status : GenStatus;
  g_keys_pos : nat;
  g_items_pos : nat;
}.

(** The objects of the heap: native objects, proxies, generators, the
    native iterators of the collections (the collection, the method
    that made the iterator, the index reached and whether it is
    exhausted), and the objects made by [Object.create(proxy)], which
    have no property of their own and a proxy as prototype. *)
Inductive Obj :=
| ORaw (o : RawObj)
| OProxy (target : loc) (callback : Callback) (h : HandlerKind)
| OGen (g : GenObj)
| OIter (target : loc) (k : CollKind) (m : IterMethod) (pos : nat) (finished : bool)
| OHeir (proto : loc).

(** ** The state *)

(** What the engine did, for the statements only: a notification of a
    key and a call of a callback, with the nesting depth at which they
    happened (0 for client code outside any callback). *)
Inductive Event :=
| EvNotify (depth : nat) (target : loc) (key : Value)
| EvCall (depth : nat) (callback : Callback).

Definition ev_depth (e : Event) : nat :=
  match e with
  | EvNotify d _ _ => d
  | EvCall d _ => d
  end.

Record State := mkState {
  heap : list Obj;
  targetToKeysToCallbacks : gmap loc (list (Value * list Callback));
  callbacksToTargets : gmap Callback (list loc);
  reactiveCache : gmap loc (gmap Callback loc);
  trace : list Event;
}.

Definition init : State := mkState [] ∅ ∅ ∅ [].

Definition set_heap (h : list Obj) (st : State) : State :=
  mkState h (targetToKeysToCallbacks st) (callbacksToTargets st)
    (reactiveCache st) (trace st).

Definition set_t2k (m : gmap loc (list (Value * list Callback))) (st : State) : State :=
  mkState (heap st) m (callbacksToTargets st) (reactiveCache st) (trace st).

Definition set_c2t (m : gmap Callback (list loc)) (st : State) : State :=
  mkState (heap st) (targetToKeysToCallbacks st) m (reactiveCache st) (trace st).

Definition set_cache (m : gmap loc (gmap Callback loc)) (st : State) : State :=
  mkState (heap st) (targetToKeysToCallbacks st) (callbacksToTargets st) m (trace st).

Definition add_event (e : Event) (st : State) : State :=
  mkState (heap st) (targetToKeysToCallbacks st) (callbacksToTargets st)
    (reactiveCache st) (trace st ++ [e]).

(** ** Results and the monad of the engine *)

Inductive Error :=
| TypeError
| RangeError
| CannotMakeReactive (* Error("Cannot make the given value reactive") *)
| ClientError (n : nat).

(** A computation returns, throws, or gives no result: it ran out of
    fuel, or it reached a part of the host that is not modelled (the
    conversion of a string to a number, the value of a method of a
    standard prototype, ...).  No statement draws anything from the
    absence of a result. *)
Inductive Res (A : Type) :=
| Ok (a : A) (st : State)
| Throw (e : Error) (st : State)
| OutOfFuel.

Arguments Ok {A} a st.
Arguments Throw {A} e st.
Arguments OutOfFuel {A}.

Definition M (A : Type) : Type := State → Res A.

Definition ret {A} (a : A) : M A := fun st => Ok a st.

Definition bind {A B} (m : M A) (k : A → M B) : M B := fun st =>
  match m st with
  | Ok a st' => k a st'
  | Throw e st' => Throw e st'
  | OutOfFuel => OutOfFuel
  end.

Definition throw {A} (e : Error) : M A := fun st => Throw e st.

Definition get_state : M State := fun st => Ok st st.

Definition modify (f : State → State) : M unit := fun st => Ok tt (f st).

Notation "x <- m ;; k" := (bind m (fun x => k))
  (at level 100, m at next level, right associativity).
Notation "m ;;; k" := (bind m (fun _ => k))
  (at level 100, right associativity).

Definition when (b : bool) (m : M unit) : M unit := if b then m else ret tt.

(** A [for (const x of xs)] loop over a list fixed beforehand. *)
Fixpoint for_each {A} (xs : list A) (f : A → M unit) : M unit :=
  match xs with
  | [] => ret tt
  | x :: xs' => f x ;;; for_each xs' f
  end.

(** ** Native containers

    The part of the host the engine relies on: the own data properties
    of ordinary objects and arrays, the properties they inherit from the
    standard prototypes, and the entry list of [Set], [Map] and
    [WeakMap].  Accessor properties defined by client code are not
    modelled, and client code leaves the standard prototypes as they
    are. *)

Fixpoint props_get (k : PropKey) (ps : list (PropKey * PropDesc)) : option PropDesc :=
  match ps with
  | [] => None
  | (k', d) :: ps' => if decide (k' = k) then Some d else props_get k ps'
  end.

(** Overwrite in place, or append a new property. *)
Fixpoint props_put (k : PropKey) (d : PropDesc) (ps : list (PropKey * PropDesc))
  : list (PropKey * PropDesc) :=
  match ps with
  | [] => [(k, d)]
  | (k', d') :: ps' =>
      if decide (k' = k) then (k, d) :: ps' else (k', d') :: props_put k d ps'
  end.

Fixpoint props_remove (k : PropKey) (ps : list (PropKey * PropDesc))
  : list (PropKey * PropDesc) :=
  match ps with
  | [] => []
  | (k', d') :: ps' =>
      if decide (k' = k) then props_remove k ps' else (k', d') :: props_remove k ps'
  end.

Definition with_props (ps : list (PropKey * PropDesc)) (o : RawObj) : RawObj :=
  mkRaw (o_class o) ps (o_extensible o) (o_data o).

Definition with_data (d : list (option (Value * Value))) (o : RawObj) : RawObj :=
  mkRaw (o_class o) (o_props o) (o_extensible o) d.

(** [objectHasOwnProperty.call(o, k)] *)
Definition obj_has (k : PropKey) (o : RawObj) : bool :=
  match props_get k (o_props o) with
  | Some _ => true
  | None => false
  end.

(** The value of the own property [k] of [o], [undefined] when [o] has
    no such property: [Object.getOwnPropertyDescriptor(o, k)?.value]. *)
Definition obj_get (k : PropKey) (o : RawObj) : Value :=
  match props_get k (o_props o) with
  | Some d => p_value d
  | None => VUndef
  end.

(** The assignment of [v] to [k] on an ordinary object, [k] being an own
    property or a key that nothing on the prototype chain stands against:
    the object after the assignment and whether it was accepted.  A
    non-writable property, or a new property on a non-extensible object,
    is left alone and the assignment is refused. *)
Definition obj_set (k : PropKey) (v : Value) (o : RawObj) : RawObj * bool :=
  match props_get k (o_props o) with
  | Some d =>
      if p_writable d
      then (with_props (props_put k (mkProp v true (p_configurable d)) (o_props o)) o, true)
      else (o, false)
  | None =>
      if o_extensible o
      then (with_props (props_put k (mkProp v true true) (o_props o)) o, true)
      else (o, false)
  end.

(** [Reflect.deleteProperty(o, k)]: only own properties are deleted, and
    arrays delete as ordinary objects do. *)
Definition obj_delete (k : PropKey) (o : RawObj) : RawObj * bool :=
  match props_get k (o_props o) with
  | Some d =>
      if p_configurable d
      then (with_props (props_remove k (o_props o)) o, true)
      else (o, false)
  | None => (o, true)
  end.

(** *** Array indices *)

Definition digit_of (a : Ascii.ascii) : option N :=
  let n := Ascii.N_of_ascii a in
  if ((48 <=? n) && (n <=? 57))%N then Some (n - 48)%N else None.

Fixpoint parse_digits (acc : N) (s : string) : option N :=
  match s with
  | EmptyString => Some acc
  | String a s' =>
      match digit_of a with
      | Some d => parse_digits (10 * acc + d)%N s'
      | None => None
      end
  end.

(** An array index is a string key that is the decimal numeral, without
    leading zero, of an integer from 0 to 2^32 - 2. *)
Definition array_index (k : PropKey) : option N :=
  match k with
  | KStr (String a s') =>
      if (Ascii.N_of_ascii a =? 48)%N && negb (bool_decide (s' = EmptyString)) then None
      else
        match parse_digits 0 (String a s') with
        | Some n => if (n <? 4294967295)%N then Some n else None
        | None => None
        end
  | _ => None
  end.

(** [Reflect.ownKeys(o)]: the array indices in ascending order, then the
    other strings and then the symbols, both in creation order. *)
Definition index_keys (ps : list (PropKey * PropDesc)) : list (N * PropKey) :=
  omap (fun p => match array_index p.1 with
                 | Some i => Some (i, p.1)
                 | None => None
                 end) ps.

Definition is_plain_string (k : PropKey) : bool :=
  match k, array_index k with
  | KStr _, None => true
  | _, _ => false
  end.

Definition is_symbol (k : PropKey) : bool :=
  match k with
  | KSym _ => true
  | KStr _ => false
  end.

Definition index_le (a b : N * PropKey) : Prop := (a.1 ≤ b.1)%N.

#[global] Instance index_le_dec a b : Decision (index_le a b).
Proof. unfold index_le. apply _. Defined.

Definition obj_own_keys (o : RawObj) : list PropKey :=
  (merge_sort index_le (index_keys (o_props o))).*2 ++
  filter (fun k => is_plain_string k = true) (o_props o).*1 ++
  filter (fun k => is_symbol k = true) (o_props o).*1.

(** *** The standard prototypes

    What an object inherits is decided by its class.  The table lists
    the properties that the language definition has given to the
    prototypes since its 2015 edition; the properties added by later
    editions, and the accessors of its annex B, are there or not
    according to the host.  The module keeps its three symbols to
    itself and client code its own, so that no prototype has them. *)

Inductive Inherited :=
| NotInherited                (* nothing is inherited under this key *)
| InheritedMethod                (* a function, in a writable data property *)
| InheritedConstant (v : Value)  (* a data property that is not writable *)
| InheritedGetter                (* an accessor with no setter *)
| HostDependent.

Definition object_proto_names : list string :=
  ["constructor"; "hasOwnProperty"; "isPrototypeOf"; "propertyIsEnumerable";
   "toLocaleString"; "toString"; "valueOf"].

Definition annex_b_names : list string :=
  ["__proto__"; "__defineGetter__"; "__defineSetter__"; "__lookupGetter__";
   "__lookupSetter__"].

Definition array_proto_names : list string :=
  ["concat"; "copyWithin"; "entries"; "every"; "fill"; "filter"; "find"; "findIndex";
   "forEach"; "indexOf"; "join"; "keys"; "lastIndexOf"; "map"; "pop"; "push";
   "reduce"; "reduceRight"; "reverse"; "shift"; "slice"; "some"; "sort"; "splice";
   "unshift"; "values"].

Definition array_later_names : list string :=
  ["includes"; "flat"; "flatMap"; "at"; "findLast"; "findLastIndex"; "toReversed";
   "toSorted"; "toSpliced"; "with"].

Definition set_proto_names : list string :=
  ["add"; "clear"; "delete"; "entries"; "forEach"; "has"; "keys"; "values"].

Definition set_later_names : list string :=
  ["difference"; "intersection"; "isDisjointFrom"; "isSubsetOf"; "isSupersetOf";
   "symmetricDifference"; "union"].

Definition map_proto_names : list string :=
  ["clear"; "delete"; "entries"; "forEach"; "get"; "has"; "keys"; "set"; "values"].

Definition weakmap_proto_names : list string := ["delete"; "get"; "has"; "set"].

Definition map_later_names : list string := ["getOrInsert"; "getOrInsertComputed"].

Definition named (s : string) (names : list string) : bool := bool_decide (s ∈ names).

Definition class_lookup (own later : list string) (sized : bool) (s : string)
  : Inherited :=
  if named s own then InheritedMethod
  else if sized && String.eqb s "size" then InheritedGetter
  else if named s later then HostDependent
  else NotInherited.

Definition proto_lookup (c : Class) (k : PropKey) : Inherited :=
  match k with
  | KSym TARGET | KSym SKIP | KSym KEYCHANGES | KSym (UserSym _) => NotInherited
  | KSym ToStringTag =>
      match c with
      | CSet | CMap | CWeakMap | CPromise => InheritedConstant (VStr (class_tag c))
      | _ => NotInherited
      end
  | KSym IteratorSym =>
      match c with
      | CArray | CSet | CMap => InheritedMethod
      | _ => NotInherited
      end
  | KStr s =>
      if named s object_proto_names then InheritedMethod
      else if named s annex_b_names then HostDependent
      else
        match c with
        | CObject => NotInherited
        | CArray => class_lookup array_proto_names array_later_names false s
        | CSet => class_lookup set_proto_names set_later_names true s
        | CMap => class_lookup map_proto_names map_later_names true s
        | CWeakMap => class_lookup weakmap_proto_names map_later_names false s
        | CDate | CPromise | CRegExp | CError => HostDependent
        end
  end.

(** [Reflect.get(o, k)], when the model has the value: the own property,
    or what is inherited.  The value of an inherited method or getter is
    not named. *)
Definition reflect_get (k : PropKey) (o : RawObj) : option Value :=
  match props_get k (o_props o) with
  | Some d => Some (p_value d)
  | None =>
      match proto_lookup (o_class o) k with
      | NotInherited => Some VUndef
      | InheritedConstant v => Some v
      | InheritedMethod | InheritedGetter | HostDependent => None
      end
  end.

(** [Reflect.has(o, k)], that is [k in o] *)
Definition reflect_has (k : PropKey) (o : RawObj) : option bool :=
  if obj_has k o then Some true
  else
    match proto_lookup (o_class o) k with
    | NotInherited => Some false
    | InheritedMethod | InheritedConstant _ | InheritedGetter => Some true
    | HostDependent => None
    end.

(** *** Arrays *)

Definition is_array (o : RawObj) : bool := bool_decide (o_class o = CArray).

(** The value of the own property [length], when it is a length. *)
Definition array_length (o : RawObj) : option N :=
  match obj_get (KStr "length") o with
  | VNum z => if (0 <=? z)%Z then Some (Z.to_N z) else None
  | _ => None
  end.

(** What a host operation gives: a result, an exception, or nothing the
    model has. *)
Inductive Outcome (A : Type) :=
| Done (a : A)
| Raise (e : Error)
| Beyond.

Arguments Done {A} a.
Arguments Raise {A} e.
Arguments Beyond {A}.

(** The length asked for by [array.length = v]: [ToUint32(v)] has to be
    [ToNumber(v)], or a [RangeError] is thrown.  The conversion of a
    string reads a numeral and that of an object runs its code: the
    model has neither. *)
Definition to_length (v : Value) : Outcome N :=
  match v with
  | VNum z =>
      if (0 <=? z)%Z && (z <? 4294967296)%Z then Done (Z.to_N z) else Raise RangeError
  | VNaN | VUndef => Raise RangeError
  | VNull => Done 0%N
  | VBool b => Done (if b then 1%N else 0%N)
  | VSym _ => Raise TypeError
  | VStr _ | VFun _ | VRef _ => Beyond
  end.

Definition has_index_from (n : N) (k : PropKey) : bool :=
  match array_index k with
  | Some i => (n <=? i)%N
  | None => false
  end.

(** The greatest index from [n] on whose property is not configurable. *)
Definition stuck_index (n : N) (ps : list (PropKey * PropDesc)) : option N :=
  match omap (fun p => match array_index p.1 with
                       | Some i =>
                           if (n <=? i)%N && negb (p_configurable p.2) then Some i
                           else None
                       | None => None
                       end) ps with
  | [] => None
  | i :: rest => Some (foldr N.max i rest)
  end.

Definition put_length (n : N) (o : RawObj) : RawObj :=
  match props_get (KStr "length") (o_props o) with
  | Some d =>
      with_props (props_put (KStr "length")
                    (mkProp (VNum (Z.of_N n)) (p_writable d) (p_configurable d))
                    (o_props o)) o
  | None => o
  end.

(** [ArraySetLength] for a writable [length]: growing only sets it;
    shrinking deletes the elements from the end down to the new length
    and stops at one that is not configurable, which makes the
    assignment fail with the length just above it. *)
Definition array_set_length (n : N) (o : RawObj) : RawObj * bool :=
  match stuck_index n (o_props o) with
  | None =>
      (put_length n
         (with_props (filter (fun p => has_index_from n p.1 = false) (o_props o)) o),
       true)
  | Some i =>
      (put_length (i + 1)
         (with_props (filter (fun p => has_index_from (i + 1) p.1 = false) (o_props o)) o),
       false)
  end.

(** [Reflect.set(o, k, v)], with the object itself, or a proxy of it
    that has no trap for the operations involved, as receiver. *)
Definition reflect_set (k : PropKey) (v : Value) (o : RawObj) : Outcome (RawObj * bool) :=
  match props_get k (o_props o) with
  | Some d =>
      if negb (p_writable d) then Done (o, false)
      else if is_array o && bool_decide (k = KStr "length") then
        match to_length v, array_length o with
        | Done n, Some _ => Done (array_set_length n o)
        | Raise e, _ => Raise e
        | _, _ => Beyond
        end
      else Done (obj_set k v o)
  | None =>
      match proto_lookup (o_class o) k with
      | NotInherited | InheritedMethod =>
          match is_array o, array_index k with
          | true, Some i =>
              match array_length o, props_get (KStr "length") (o_props o) with
              | Some len, Some dlen =>
                  if (i <? len)%N then Done (obj_set k v o)
                  else if negb (p_writable dlen) then Done (o, false)
                  else if o_extensible o
                  then Done (put_length (i + 1) (obj_set k v o).1, true)
                  else Done (o, false)
              | _, _ => Beyond
              end
          | _, _ => Done (obj_set k v o)
          end
      | InheritedConstant _ | InheritedGetter => Done (o, false)
      | HostDependent => Beyond
      end
  end.

(** [Object.prototype.toString]: the built-in tag of the class, and the
    tag printed, which is the value of [Symbol.toStringTag] when that is
    a string. *)
Definition builtin_tag (c : Class) : string :=
  match c with
  | CArray => "Array"
  | CDate => "Date"
  | CRegExp => "RegExp"
  | CError => "Error"
  | CObject | CSet | CMap | CWeakMap | CPromise => "Object"
  end.

Definition tag_of (o : RawObj) : string :=
  match reflect_get (KSym ToStringTag) o with
  | Some (VStr s) => s
  | _ => builtin_tag (o_class o)
  end.

(** The entries of a collection.  A [Set] stores each member as both key
    and value of its entry. *)
Fixpoint data_find (k : Value) (d : list (option (Value * Value))) : option Value :=
  match d with
  | [] => None
  | Some (k', v) :: d' => if same_value_zero k' k then Some v else data_find k d'
  | None :: d' => data_find k d'
  end.

Definition data_has (k : Value) (d : list (option (Value * Value))) : bool :=
  match data_find k d with
  | Some _ => true
  | None => false
  end.

Definition data_get (k : Value) (d : list (option (Value * Value))) : Value :=
  match data_find k d with
  | Some v => v
  | None => VUndef
  end.

(** [Map.prototype.set]: an existing entry keeps its place. *)
Fixpoint data_put (k v : Value) (d : list (option (Value * Value)))
  : list (option (Value * Value)) :=
  match d with
  | [] => [Some (k, v)]
  | Some (k', v') :: d' =>
      if same_value_zero k' k then Some (k', v) :: d' else Some (k', v') :: data_put k v d'
  | None :: d' => None :: data_put k v d'
  end.

(** [Set.prototype.add]: nothing happens when the member is there. *)
Definition data_add (k : Value) (d : list (option (Value * Value)))
  : list (option (Value * Value)) :=
  if data_has k d then d else d ++ [Some (k, k)].

Fixpoint data_remove (k : Value) (d : list (option (Value * Value)))
  : list (option (Value * Value)) :=
  match d with
  | [] => []
  | Some (k', v') :: d' =>
      if same_value_zero k' k then None :: d' else Some (k', v') :: data_remove k d'
  | None :: d' => None :: data_remove k d'
  end.

Definition data_clear (d : list (option (Value * Value)))
  : list (option (Value * Value)) :=
  (fun _ => None) <$> d.

Definition data_entries (d : list (option (Value * Value))) : list (Value * Value) :=
  omap id d.

Definition data_keys (d : list (option (Value * Value))) : list Value :=
  (data_entries d).*1.

Definition data_size (d : list (option (Value * Value))) : nat :=
  length (data_entries d).

(** The step of a native iterator standing at [pos]: the first entry
    at or after [pos] that is not a hole, and its index. *)
Fixpoint next_live_from (d : list (option (Value * Value))) (i : nat)
  : option (nat * (Value * Value)) :=
  match d with
  | [] => None
  | Some e :: _ => Some (i, e)
  | None :: d' => next_live_from d' (S i)
  end.

Definition next_live (d : list (option (Value * Value))) (pos : nat)
  : option (nat * (Value * Value)) :=
  next_live_from (drop pos d) pos.

(** [CanBeHeldWeakly]: only objects may be keys of a [WeakMap]. *)
Definition can_be_held_weakly (v : Value) : bool :=
  match v with
  | VRef _ | VFun _ => true
  | _ => false
  end.

(** ** JavaScript [Map] and [Set] as used by the registry

    [keyToCallbacks] is a [Map] from keys to [Set]s of callbacks.  Both
    keep insertion order, which is the order of [for ... of]. *)

Fixpoint jsmap_get {V} (k : Value) (m : list (Value * V)) : option V :=
  match m with
  | [] => None
  | (k', v) :: m' => if same_value_zero k' k then Some v else jsmap_get k m'
  end.

Fixpoint jsmap_set {V} (k : Value) (v : V) (m : list (Value * V)) : list (Value * V) :=
  match m with
  | [] => [(k, v)]
  | (k', v') :: m' =>
      if same_value_zero k' k then (k', v) :: m' else (k', v') :: jsmap_set k v m'
  end.

Definition jsset_add `{EqDecision A} (x : A) (s : list A) : list A :=
  if bool_decide (x ∈ s) then s else s ++ [x].

Definition jsset_delete `{EqDecision A} (x : A) (s : list A) : list A :=
  filter (λ y, y ≠ x) s.

(** ** The engine

    [depth] is the nesting depth of the code being run (it only tags the
    events), [fuel] bounds the recursion of [reactive] and the live loop
    of [forEach], and [call cb] is what calling the function [cb] with no
    argument does. *)

Section Engine.

Variable depth : nat.
Variable fuel : nat.
Variable call : Callback → M unit.

Definition log (e : Event) : M unit := modify (add_event e).

Definition out_of_fuel {A} : M A := fun _ => OutOfFuel.

(** A value of the host, when the model has it. *)
Definition within {A} (x : option A) : M A :=
  match x with
  | Some a => ret a
  | None => out_of_fuel
  end.

Definition outcome {A} (x : Outcome A) : M A :=
  match x with
  | Done a => ret a
  | Raise e => throw e
  | Beyond => out_of_fuel
  end.

(** The native object at [l].  Targets of proxies are native objects;
    anything else at [l] is answered with a [TypeError]. *)
Definition raw_obj (l : loc) : M RawObj := fun st =>
  match heap st !! l with
  | Some (ORaw o) => Ok o st
  | _ => Throw TypeError st
  end.

Definition update_raw (l : loc) (o : RawObj) : M unit :=
  modify (fun st => set_heap (<[l := ORaw o]> (heap st)) st).

(** [new ...]: the object is stored at a fresh location. *)
Definition alloc (o : Obj) : M loc := fun st =>
  Ok (length (heap st)) (set_heap (heap st ++ [o]) st).

(** *** The subscription registry *)

(** [observeTargetKey(target, key, callback)] *)
Definition observeTargetKey (target : loc) (key : Value) (callback : Callback) : M unit :=
  fun st =>
    let t2k := targetToKeysToCallbacks st in
    let t2k1 :=
      match t2k !! target with
      | Some _ => t2k
      | None => <[target := []]> t2k
      end in
    let keyToCallbacks := default [] (t2k1 !! target) in
    let keyToCallbacks1 :=
      match jsmap_get key keyToCallbacks with
      | Some _ => keyToCallbacks
      | None => jsmap_set key [] keyToCallbacks
      end in
    let callbacks := default [] (jsmap_get key keyToCallbacks1) in
    let keyToCallbacks2 := jsmap_set key (jsset_add callback callbacks) keyToCallbacks1 in
    let t2k2 := <[target := keyToCallbacks2]> t2k1 in
    let c2t := callbacksToTargets st in
    let c2t1 :=
      match c2t !! callback with
      | Some _ => c2t
      | None => <[callback := []]> c2t
      end in
    let targets := default [] (c2t1 !! callback) in
    let c2t2 := <[callback := jsset_add target targets]> c2t1 in
    Ok tt (set_c2t c2t2 (set_t2k t2k2 st)).

(** The body of the outer loop of [clearReactivesForCallback]: the
    callback is deleted from the set of every key observed on [target]. *)
Definition clear_target (callback : Callback)
    (t2k : gmap loc (list (Value * list Callback))) (target : loc)
  : gmap loc (list (Value * list Callback)) :=
  match t2k !! target with
  | None => t2k
  | Some observedKeys =>
      <[target := prod_map id (jsset_delete callback) <$> observedKeys]> t2k
  end.

(** [clearReactivesForCallback(callback)] *)
Definition clearReactivesForCallback (callback : Callback) : M unit := fun st =>
  match callbacksToTargets st !! callback with
  | None => Ok tt st
  | Some targetsToClear =>
      let t2k := foldl (clear_target callback) (targetToKeysToCallbacks st) targetsToClear in
      Ok tt (set_c2t (<[callback := []]> (callbacksToTargets st)) (set_t2k t2k st))
  end.

(** [notifyReactives(target, key)].  The loop runs on [[...callbacks]],
    the members of the set when the call starts. *)
Definition notifyReactives (target : loc) (key : Value) : M unit :=
  log (EvNotify depth target key) ;;;
  st <- get_state ;;
  match targetToKeysToCallbacks st !! target with
  | None => ret tt
  | Some keyToCallbacks =>
      match jsmap_get key keyToCallbacks with
      | None => ret tt
      | Some callbacks =>
          for_each callbacks (fun callback =>
            clearReactivesForCallback callback ;;;
            log (EvCall depth callback) ;;;
            call callback)
      end
  end.

(** [getSubscriptions(callback)] *)
Definition getSubscriptions (callback : Callback) : M (list (loc * list Value)) :=
  st <- get_state ;;
  let targets := default [] (callbacksToTargets st !! callback) in
  ret ((fun target =>
          match targetToKeysToCallbacks st !! target with
          | Some keysToCallbacks => (target, keysToCallbacks.*1)
          | None => (target, [])
          end) <$> targets).

(** *** Capability probe *)

Definition SUPPORTED_RAW_TYPES : list string := ["Object"; "Array"; "Set"; "Map"; "WeakMap"].
Definition COLLECTION_RAWTYPES : list string := ["Set"; "Map"; "WeakMap"].

Definition list_has (s : string) (l : list string) : bool := bool_decide (s ∈ l).

(** The non-writable, non-configurable test of the [get] trap. *)
Definition is_frozen_prop (desc : option PropDesc) : bool :=
  match desc with
  | Some d => negb (p_writable d) && negb (p_configurable d)
  | None => false
  end.

(** The [get] trap of [basicProxyHandler] up to [Reflect.get]: the value
    read from the target and whether it goes through
    [possiblyReactive] (it does not for [TARGET] and for frozen
    properties). *)
Definition basic_get_read (callback : Callback) (target : loc) (key : PropKey)
  : M (Value * bool) :=
  if decide (key = KSym TARGET) then ret (VRef target, false)
  else
    o <- raw_obj target ;;
    let desc := props_get key (o_props o) in
    if is_frozen_prop desc then
      v <- within (reflect_get key o) ;;
      ret (v, false)
    else
      observeTargetKey target (key_value key) callback ;;;
      o <- raw_obj target ;;
      v <- within (reflect_get key o) ;;
      ret (v, true).

(** The same for the [get] of [collectionsProxyHandler], on a key that
    is not one of the special handlers. *)
Definition collection_get_read (callback : Callback) (target : loc) (key : PropKey)
  : M (Value * bool) :=
  if decide (key = KSym TARGET) then ret (VRef target, false)
  else
    observeTargetKey target (key_value key) callback ;;;
    o <- raw_obj target ;;
    v <- within (reflect_get key o) ;;
    ret (v, true).

Definition proxy_get_read (h : HandlerKind) (callback : Callback) (target : loc)
    (key : PropKey) : M (Value * bool) :=
  match h with
  | HBasic => basic_get_read callback target key
  | HCollection _ => collection_get_read callback target key
  end.

(** [Object.prototype.toString.call(obj)] on an object whose
    [Symbol.toStringTag] is read through the [get] trap of a proxy, the
    object being the proxy itself ([through_proxy]) or an object that
    inherits from it.  The trap observes the key and hands what it read
    to [possiblyReactive]: a string comes back as it is and is the tag; an
    object would be wrapped first, which is not modelled; for any other
    value the tag is the built-in one, ["Array"] for the proxy of an
    array and ["Object"] otherwise. *)
Definition tag_through (through_proxy : bool) (h : HandlerKind) (callback : Callback)
    (target : loc) : M string :=
  r <- proxy_get_read h callback target (KSym ToStringTag) ;;
  o <- raw_obj target ;;
  match r.1 with
  | VStr s => ret s
  | VRef _ => if r.2 then out_of_fuel else ret "Object"
  | _ => ret (if through_proxy && is_array o then "Array" else "Object")
  end.

(** [Object.prototype.toString.call(obj)], without the ["[object "]
    around the tag. *)
Definition objectToString_tag (obj : Value) : M string :=
  match obj with
  | VUndef => ret "Undefined"
  | VNull => ret "Null"
  | VBool _ => ret "Boolean"
  | VNum _ | VNaN => ret "Number"
  | VStr _ => ret "String"
  | VSym _ => ret "Symbol"
  | VFun _ => ret "Function"
  | VRef l =>
      st <- get_state ;;
      match heap st !! l with
      | Some (ORaw o) => ret (tag_of o)
      | Some (OProxy target callback h) => tag_through true h callback target
      | Some (OHeir p) =>
          match heap st !! p with
          | Some (OProxy target callback h) => tag_through false h callback target
          | _ => throw TypeError
          end
      | Some (OGen _) => ret "Generator"
      | Some (OIter _ k _ _ _) =>
          ret (match k with KSet => "Set Iterator" | _ => "Map Iterator" end)
      | None => throw TypeError
      end
  end.

(** [rawType(obj)] *)
Definition rawType (obj : Value) : M string := objectToString_tag obj.

(** [canBeMadeReactive(value)] *)
Definition canBeMadeReactive (value : Value) : M bool :=
  if negb (typeof_is_object value) then ret false
  else
    t <- rawType value ;;
    ret (list_has t SUPPORTED_RAW_TYPES).

(** *** Wrapper factory *)

(** The [has] trap of [basicProxyHandler], which the collection handler
    inherits. *)
Definition proxy_has (callback : Callback) (target : loc) (key : PropKey) : M bool :=
  observeTargetKey target (VSym KEYCHANGES) callback ;;;
  o <- raw_obj target ;;
  within (reflect_has key o).

(** The keys that only the module or client code can have put on an
    object. *)
Definition is_private (key : PropKey) : bool :=
  match key with
  | KSym TARGET | KSym SKIP | KSym KEYCHANGES | KSym (UserSym _) => true
  | _ => false
  end.

(** [key in obj].  On an object made by [Object.create(proxy)] the
    question goes up to the proxy, whose [has] trap answers.  Functions,
    generators and iterators keep no property in the model: they have
    none of the private keys, and what else they have or inherit is not
    modelled. *)
Definition has_property (key : PropKey) (obj : Value) : M bool :=
  match obj with
  | VRef l =>
      st <- get_state ;;
      match heap st !! l with
      | Some (ORaw o) => within (reflect_has key o)
      | Some (OProxy target callback _) => proxy_has callback target key
      | Some (OHeir p) =>
          match heap st !! p with
          | Some (OProxy target callback _) => proxy_has callback target key
          | _ => throw TypeError
          end
      | Some (OGen _) | Some (OIter _ _ _ _ _) =>
          if is_private key then ret false else out_of_fuel
      | None => throw TypeError
      end
  | VFun _ => if is_private key then ret false else out_of_fuel
  | _ => throw TypeError
  end.

(** [obj[key]], before any wrapping of the result.  Reading a property
    of [null] or [undefined] throws; a number, a string, a boolean or a
    symbol has none of the private keys. *)
Definition read_property (key : PropKey) (obj : Value) : M (Value * bool) :=
  match obj with
  | VUndef | VNull => throw TypeError
  | VRef l =>
      st <- get_state ;;
      match heap st !! l with
      | Some (ORaw o) =>
          v <- within (reflect_get key o) ;;
          ret (v, false)
      | Some (OProxy target callback h) => proxy_get_read h callback target key
      | Some (OHeir p) =>
          match heap st !! p with
          | Some (OProxy target callback h) => proxy_get_read h callback target key
          | _ => throw TypeError
          end
      | Some (OGen _) | Some (OIter _ _ _ _ _) =>
          if is_private key then ret (VUndef, false) else out_of_fuel
      | None => throw TypeError
      end
  | _ => if is_private key then ret (VUndef, false) else out_of_fuel
  end.

(** [toRaw(value)]: [value[TARGET] || value] *)
Definition toRaw (value : Value) : M Value :=
  r <- read_property (KSym TARGET) value ;;
  ret (if truthy r.1 then r.1 else value).

(** [markRaw(value)] is defined below, once the [set] trap is. *)

(** The table [rawTypeToFuncHandlers], by the kind of handlers built. *)
Definition rawTypeToFuncHandlers (t : string) : option CollKind :=
  if String.eqb t "Set" then Some KSet
  else if String.eqb t "Map" then Some KMap
  else if String.eqb t "WeakMap" then Some KWeakMap
  else None.

(** The end of [reactive], from the look-up in [reactiveCache] on, for a
    target that is not itself a proxy. *)
Definition reactive_cached (target : Value) (callback : Callback) : M Value :=
  match target with
  | VRef l =>
      modify (fun st =>
        match reactiveCache st !! l with
        | Some _ => st
        | None => set_cache (<[l := ∅]> (reactiveCache st)) st
        end) ;;;
      st <- get_state ;;
      let reactivesForTarget := default ∅ (reactiveCache st !! l) in
      match reactivesForTarget !! callback with
      | Some proxy => ret (VRef proxy)
      | None =>
          targetRawType <- rawType target ;;
          handler <-
            (if list_has targetRawType COLLECTION_RAWTYPES
             then match rawTypeToFuncHandlers targetRawType with
                  | Some k => ret (HCollection k)
                  | None => throw TypeError
                  end
             else ret HBasic) ;;
          proxy <- alloc (OProxy l callback handler) ;;
          modify (fun st =>
            set_cache (<[l := <[callback := proxy]> (default ∅ (reactiveCache st !! l))]>
                         (reactiveCache st)) st) ;;;
          ret (VRef proxy)
      end
  | _ => throw TypeError
  end.

(** [reactive(target, callback)], with [n] bounding the recursion on
    [target[TARGET]].  The default value of [callback], a function made
    anew by each call, is left to the caller. *)
Fixpoint reactive_n (n : nat) (target : Value) (callback : Callback) : M Value :=
  match n with
  | 0 => out_of_fuel
  | S n' =>
      ok <- canBeMadeReactive target ;;
      if negb ok then throw CannotMakeReactive
      else
        skip <- has_property (KSym SKIP) target ;;
        if skip then ret target
        else
          r <- read_property (KSym TARGET) target ;;
          let originalTarget := r.1 in
          if truthy originalTarget then reactive_n n' originalTarget callback
          else reactive_cached target callback
  end.

Definition reactive (target : Value) (callback : Callback) : M Value :=
  reactive_n fuel target callback.

(** [possiblyReactive(val, cb)] *)
Definition possiblyReactive (val : Value) (cb : Callback) : M Value :=
  ok <- canBeMadeReactive val ;;
  if ok then reactive val cb else ret val.

Definition finish_read (callback : Callback) (r : Value * bool) : M Value :=
  if r.2 then possiblyReactive r.1 callback else ret r.1.

(** *** [basicProxyHandler(callback)] *)

Definition basic_get (callback : Callback) (target : loc) (key : PropKey) : M Value :=
  r <- basic_get_read callback target key ;;
  finish_read callback r.

Definition basic_set (target : loc) (key : PropKey) (value : Value) : M bool :=
  o <- raw_obj target ;;
  let isNewKey := negb (obj_has key o) in
  originalValue <- within (reflect_get key o) ;;
  r <- outcome (reflect_set key value o) ;;
  let ret_ := r.2 in
  update_raw target r.1 ;;;
  when isNewKey (notifyReactives target (VSym KEYCHANGES)) ;;;
  when (negb (strict_eq originalValue value)
        || (is_array o && bool_decide (key = KStr "length")))
    (notifyReactives target (key_value key)) ;;;
  ret ret_.

Definition basic_deleteProperty (target : loc) (key : PropKey) : M bool :=
  o <- raw_obj target ;;
  let ret_ := (obj_delete key o).2 in
  update_raw target (obj_delete key o).1 ;;;
  notifyReactives target (VSym KEYCHANGES) ;;;
  notifyReactives target (key_value key) ;;;
  ret ret_.

Definition basic_ownKeys (callback : Callback) (target : loc) : M (list PropKey) :=
  observeTargetKey target (VSym KEYCHANGES) callback ;;;
  o <- raw_obj target ;;
  ret (obj_own_keys o).

Definition basic_has (callback : Callback) (target : loc) (key : PropKey) : M bool :=
  proxy_has callback target key.

(** [markRaw(value)]: [value[SKIP] = true] in strict code, so a write
    that is refused throws.  No prototype has the key [SKIP], so on a
    native object the write is the ordinary one.  On a proxy the write
    goes through the [set] trap.  Functions and generators keep no
    properties in the model.  On an object that inherits from a proxy
    the write goes up to the [set] trap with the object as receiver,
    which is not modelled. *)
Definition markRaw (value : Value) : M Value :=
  match value with
  | VFun _ => ret value
  | VRef l =>
      st <- get_state ;;
      match heap st !! l with
      | Some (ORaw o) =>
          if (obj_set (KSym SKIP) (VBool true) o).2
          then update_raw l (obj_set (KSym SKIP) (VBool true) o).1 ;;; ret value
          else throw TypeError
      | Some (OProxy target _ _) =>
          ok <- basic_set target (KSym SKIP) (VBool true) ;;
          if ok then ret value else throw TypeError
      | Some (OGen _) | Some (OIter _ _ _ _ _) => ret value
      | Some (OHeir _) => out_of_fuel
      | None => throw TypeError
      end
  | _ => throw TypeError
  end.

(** *** Native methods of the collections *)

Inductive Native := NHas | NGet | NSet | NAdd | NDelete.

(** [target[name](key, value)] on a native collection.  A method the
    class does not have is [undefined], and calling it throws. *)
Definition native_call (name : Native) (target : loc) (key value : Value) : M Value :=
  o <- raw_obj target ;;
  let d := o_data o in
  match o_class o, name with
  | CSet, NHas | CMap, NHas | CWeakMap, NHas => ret (VBool (data_has key d))
  | CMap, NGet | CWeakMap, NGet => ret (data_get key d)
  | CMap, NSet =>
      update_raw target (with_data (data_put key value d) o) ;;; ret (VRef target)
  | CWeakMap, NSet =>
      if can_be_held_weakly key
      then update_raw target (with_data (data_put key value d) o) ;;; ret (VRef target)
      else throw TypeError
  | CSet, NAdd =>
      update_raw target (with_data (data_add key d) o) ;;; ret (VRef target)
  | CSet, NDelete | CMap, NDelete | CWeakMap, NDelete =>
      update_raw target (with_data (data_remove key d) o) ;;; ret (VBool (data_has key d))
  | _, _ => throw TypeError
  end.

(** [[...target.keys()]] and [target.clear()] of a [Set] or [Map]. *)
Definition native_keys (target : loc) : M (list Value) :=
  o <- raw_obj target ;;
  match o_class o with
  | CSet | CMap => ret (data_keys (o_data o))
  | _ => throw TypeError
  end.

Definition native_clear (target : loc) : M unit :=
  o <- raw_obj target ;;
  match o_class o with
  | CSet | CMap => update_raw target (with_data (data_clear (o_data o)) o)
  | _ => throw TypeError
  end.

Definition native_size (target : loc) : M Value :=
  o <- raw_obj target ;;
  match o_class o with
  | CSet | CMap => ret (VNum (Z.of_nat (data_size (o_data o))))
  | _ => ret VUndef
  end.

(** [target.forEach(f)]: the entries are visited in order, those added
    during the visit included; [pos] is the index reached. *)
Fixpoint native_forEach (n : nat) (target : loc) (pos : nat)
    (f : Value → Value → Value → M unit) : M unit :=
  match n with
  | 0 => out_of_fuel
  | S n' =>
      o <- raw_obj target ;;
      match o_class o with
      | CSet | CMap =>
          match next_live (o_data o) pos with
          | None => ret tt
          | Some (i, (k, v)) =>
              f v k (VRef target) ;;;
              native_forEach n' target (S i) f
          end
      | _ => throw TypeError
      end
  end.

(** *** Handlers of the collections *)

(** [makeKeyObserver(methodName, target, callback)] *)
Definition makeKeyObserver (methodName : Native) (target : loc) (callback : Callback)
    (key : Value) : M Value :=
  key <- toRaw key ;;
  observeTargetKey target key callback ;;;
  r <- native_call methodName target key VUndef ;;
  possiblyReactive r callback.

(** [delegateAndNotify(setterName, getterName, target)] *)
Definition delegateAndNotify (setterName getterName : Native) (target : loc)
    (key value : Value) : M Value :=
  key <- toRaw key ;;
  hadKey <- native_call NHas target key VUndef ;;
  originalValue <- native_call getterName target key VUndef ;;
  ret_ <- native_call setterName target key value ;;
  hasKey <- native_call NHas target key VUndef ;;
  when (negb (strict_eq hadKey hasKey)) (notifyReactives target (VSym KEYCHANGES)) ;;;
  when (negb (strict_eq originalValue value)) (notifyReactives target key) ;;;
  ret ret_.

(** [makeClearNotifier(target)] *)
Definition makeClearNotifier (target : loc) : M unit :=
  allKeys <- native_keys target ;;
  native_clear target ;;;
  notifyReactives target (VSym KEYCHANGES) ;;;
  for_each allKeys (fun key => notifyReactives target key).

(** The [size] getter of the handlers of [Set] and [Map]. *)
Definition size_getter (target : loc) (callback : Callback) : M Value :=
  observeTargetKey target (VSym KEYCHANGES) callback ;;;
  native_size target.

(** [makeForEachObserver(target, callback)]; [forEachCb] is the client
    function, already bound to [thisArg]. *)
Definition makeForEachObserver (target : loc) (callback : Callback)
    (forEachCb : Value → Value → Value → M unit) : M unit :=
  observeTargetKey target (VSym KEYCHANGES) callback ;;;
  native_forEach fuel target 0 (fun val key targetObj =>
    observeTargetKey target key callback ;;;
    a <- possiblyReactive val callback ;;
    b <- possiblyReactive key callback ;;
    c <- possiblyReactive targetObj callback ;;
    forEachCb a b c).

(** Calling the generator function of [makeIteratorObserver] only makes
    the generator; its body runs on [next()]. *)
Definition makeIteratorObserver (k : CollKind) (methodName : IterMethod)
    (target : loc) (callback : Callback) : M Value :=
  g <- alloc (OGen (mkGen target callback k methodName GenFresh 0 0)) ;;
  ret (VRef g).

(** The array [[key, value]] a native [entries()] iterator produces. *)
Definition entry_array (k v : Value) : RawObj :=
  mkRaw CArray
    [(KStr "0", mkProp k true true);
     (KStr "1", mkProp v true true);
     (KStr "length", mkProp (VNum 2) true false)]
    true [].

(** What [target[methodName]()] produces for an entry. *)
Definition native_item (k : CollKind) (methodName : IterMethod) (e : Value * Value)
  : M Value :=
  let entries := l <- alloc (ORaw (entry_array e.1 e.2)) ;; ret (VRef l) in
  match methodName, k with
  | IKeys, _ => ret e.1
  | IValues, _ => ret e.2
  | IEntries, _ => entries
  | IIterator, KSet => ret e.2
  | IIterator, _ => entries
  end.

Definition update_gen (g : loc) (gen : GenObj) : M unit :=
  modify (fun st => set_heap (<[g := OGen gen]> (heap st)) st).

(** One turn of the [for ... of] loop of the generator, up to its
    [yield]: the value yielded, or [None] when the loop is over. *)
Definition generator_turn (g : loc) (gen : GenObj) : M (option Value) :=
  let target := g_target gen in
  let callback := g_callback gen in
  o <- raw_obj target ;;
  match next_live (o_data o) (g_items_pos gen) with
  | None =>
      update_gen g (mkGen target callback (g_kind gen) (g_method gen)
                      GenCompleted (g_keys_pos gen) (g_items_pos gen)) ;;;
      ret None
  | Some (i, e) =>
      item <- native_item (g_kind gen) (g_method gen) e ;;
      let keys_next := next_live (o_data o) (g_keys_pos gen) in
      let key := match keys_next with Some (_, e') => e'.1 | None => VUndef end in
      let keys_pos := match keys_next with Some (j, _) => S j | None => g_keys_pos gen end in
      observeTargetKey target key callback ;;;
      update_gen g (mkGen target callback (g_kind gen) (g_method gen)
                      GenSuspended keys_pos (S i)) ;;;
      y <- possiblyReactive item callback ;;
      ret (Some y)
  end.

(** [g.next()] on a generator of [makeIteratorObserver]. *)
Definition generator_next (g : loc) : M (option Value) :=
  st <- get_state ;;
  match heap st !! g with
  | Some (OGen gen) =>
      match g_status gen with
      | GenCompleted => ret None
      | GenFresh =>
          observeTargetKey (g_target gen) (VSym KEYCHANGES) (g_callback gen) ;;;
          generator_turn g gen
      | GenSuspended => generator_turn g gen
      end
  | _ => throw TypeError
  end.

(** The methods a client may call on a collection. *)
Inductive Method :=
| MHas | MGet | MSet | MAdd | MDelete | MClear
| MKeys | MValues | MEntries | MIterator.

Definition method_key (m : Method) : PropKey :=
  match m with
  | MHas => KStr "has"
  | MGet => KStr "get"
  | MSet => KStr "set"
  | MAdd => KStr "add"
  | MDelete => KStr "delete"
  | MClear => KStr "clear"
  | MKeys => KStr "keys"
  | MValues => KStr "values"
  | MEntries => KStr "entries"
  | MIterator => KSym IteratorSym
  end.

(** The own keys of the object [specialHandlers], by kind, as
    [rawTypeToFuncHandlers] lists them. *)
Definition specialHandlers_keys (k : CollKind) : list PropKey :=
  match k with
  | KSet =>
      [KStr "has"; KStr "add"; KStr "delete"; KStr "keys"; KStr "values";
       KStr "entries"; KSym IteratorSym; KStr "forEach"; KStr "clear"; KStr "size"]
  | KMap =>
      [KStr "has"; KStr "get"; KStr "set"; KStr "delete"; KStr "keys"; KStr "values";
       KStr "entries"; KSym IteratorSym; KStr "forEach"; KStr "clear"; KStr "size"]
  | KWeakMap =>
      [KStr "has"; KStr "get"; KStr "set"; KStr "delete"]
  end.

(** [objectHasOwnProperty.call(specialHandlers, key)] *)
Definition has_special (k : CollKind) (key : PropKey) : bool :=
  bool_decide (key ∈ specialHandlers_keys k).

(** Calling what a read gave: only a function can be called, and what a
    function of client code found in a property does is not modelled. *)
Definition call_value (f : Value) : M Value :=
  match f with
  | VFun _ => out_of_fuel
  | _ => throw TypeError
  end.

(** [proxy[m](key, value)] on a proxy built with
    [collectionsProxyHandler(target, callback, k)]: the [get] trap gives
    the special handler, which is then called.  When there is none, the
    trap observes the key and reads the property of the target, which is
    then called. *)
Definition collection_call (k : CollKind) (callback : Callback) (target : loc)
    (m : Method) (key value : Value) : M Value :=
  if has_special k (method_key m) then
    match m with
    | MHas => makeKeyObserver NHas target callback key
    | MGet => makeKeyObserver NGet target callback key
    | MSet => delegateAndNotify NSet NGet target key value
    | MAdd => delegateAndNotify NAdd NHas target key value
    | MDelete => delegateAndNotify NDelete NHas target key value
    | MClear => makeClearNotifier target ;;; ret VUndef
    | MKeys => makeIteratorObserver k IKeys target callback
    | MValues => makeIteratorObserver k IValues target callback
    | MEntries => makeIteratorObserver k IEntries target callback
    | MIterator => makeIteratorObserver k IIterator target callback
    end
  else
    r <- collection_get_read callback target (method_key m) ;;
    f <- finish_read callback r ;;
    call_value f.

(** [proxy.forEach(forEachCb)] *)
Definition collection_forEach (k : CollKind) (callback : Callback) (target : loc)
    (forEachCb : Value → Value → Value → M unit) : M unit :=
  if has_special k (KStr "forEach") then makeForEachObserver target callback forEachCb
  else
    r <- collection_get_read callback target (KStr "forEach") ;;
    f <- finish_read callback r ;;
    call_value f ;;;
    ret tt.

(** [proxy[key]] read without a call, on a collection proxy: [size] is a
    getter of the special handlers; another special handler is a closure,
    which the model has no value for. *)
Definition collection_get (k : CollKind) (callback : Callback) (target : loc)
    (key : PropKey) : M Value :=
  if decide (key = KSym TARGET) then ret (VRef target)
  else if has_special k key then
    if bool_decide (key = KStr "size") then size_getter target callback
    else out_of_fuel
  else
    r <- collection_get_read callback target key ;;
    finish_read callback r.

(** *** Operations of client code

    What client code does to a value, whether it is a proxy or not.
    Client code is strict ([reactivity.js] is a module): a refused write
    or delete throws. *)

Definition native_method (m : Method) : option Native :=
  match m with
  | MHas => Some NHas
  | MGet => Some NGet
  | MSet => Some NSet
  | MAdd => Some NAdd
  | MDelete => Some NDelete
  | _ => None
  end.

Definition iter_method (m : Method) : option IterMethod :=
  match m with
  | MKeys => Some IKeys
  | MValues => Some IValues
  | MEntries => Some IEntries
  | MIterator => Some IIterator
  | _ => None
  end.

Definition class_kind (c : Class) : option CollKind :=
  match c with
  | CSet => Some KSet
  | CMap => Some KMap
  | CWeakMap => Some KWeakMap
  | _ => None
  end.

(** The read through the traps of the proxy [view]. *)
Definition view_get (view : option Obj) (key : PropKey) : M Value :=
  match view with
  | Some (OProxy target callback HBasic) => basic_get callback target key
  | Some (OProxy target callback (HCollection k)) => collection_get k callback target key
  | _ => throw TypeError
  end.

Definition is_sized (c : Class) : bool :=
  match c with
  | CSet | CMap => true
  | _ => false
  end.

(** [v[key]].  The [size] of a native set or map is an accessor of the
    prototype, which answers with the number of entries. *)
Definition js_get (v : Value) (key : PropKey) : M Value :=
  match v with
  | VUndef | VNull => throw TypeError
  | VRef l =>
      st <- get_state ;;
      match heap st !! l with
      | Some (ORaw o) =>
          if bool_decide (key = KStr "size") && negb (obj_has key o) && is_sized (o_class o)
          then native_size l
          else within (reflect_get key o)
      | Some (OProxy target callback h) => view_get (Some (OProxy target callback h)) key
      | Some (OHeir p) => view_get (heap st !! p) key
      | Some (OGen _) | Some (OIter _ _ _ _ _) =>
          if is_private key then ret VUndef else out_of_fuel
      | None => throw TypeError
      end
  | _ => if is_private key then ret VUndef else out_of_fuel
  end.

(** [v[key] = x].  Functions, generators and iterators keep no
    property in the model, and a write to an object that inherits from a
    proxy reaches the [set] trap with that object as receiver: what
    these writes do is not modelled. *)
Definition js_set (v : Value) (key : PropKey) (x : Value) : M unit :=
  match v with
  | VFun _ => out_of_fuel
  | VRef l =>
      st <- get_state ;;
      match heap st !! l with
      | Some (ORaw o) =>
          r <- outcome (reflect_set key x o) ;;
          if r.2 then update_raw l r.1 else throw TypeError
      | Some (OProxy target _ _) =>
          ok <- basic_set target key x ;;
          if ok then ret tt else throw TypeError
      | Some (OGen _) | Some (OIter _ _ _ _ _) | Some (OHeir _) => out_of_fuel
      | None => throw TypeError
      end
  | _ => throw TypeError
  end.

(** [delete v[key]]: only an own property is deleted. *)
Definition js_delete (v : Value) (key : PropKey) : M unit :=
  match v with
  | VUndef | VNull => throw TypeError
  | VRef l =>
      st <- get_state ;;
      match heap st !! l with
      | Some (ORaw o) =>
          if (obj_delete key o).2 then update_raw l (obj_delete key o).1
          else throw TypeError
      | Some (OProxy target _ _) =>
          ok <- basic_deleteProperty target key ;;
          if ok then ret tt else throw TypeError
      | Some (OGen _) | Some (OIter _ _ _ _ _) | Some (OHeir _) => ret tt
      | None => throw TypeError
      end
  | VStr _ | VFun _ => if is_private key then ret tt else out_of_fuel
  | _ => ret tt
  end.

(** [Reflect.ownKeys(v)] *)
Definition js_ownKeys (v : Value) : M (list PropKey) :=
  match v with
  | VRef l =>
      st <- get_state ;;
      match heap st !! l with
      | Some (ORaw o) => ret (obj_own_keys o)
      | Some (OProxy target callback _) => basic_ownKeys callback target
      | Some (OGen _) | Some (OIter _ _ _ _ _) | Some (OHeir _) => ret []
      | None => throw TypeError
      end
  | VFun _ => out_of_fuel
  | _ => throw TypeError
  end.

(** The native object behind [v] for the operations no trap
    intercepts: the target when [v] is a proxy. *)
Definition untrapped_target (v : Value) : M loc :=
  match v with
  | VRef l =>
      st <- get_state ;;
      match heap st !! l with
      | Some (ORaw _) => ret l
      | Some (OProxy target _ _) => ret target
      | Some _ => out_of_fuel
      | None => throw TypeError
      end
  | VFun _ => out_of_fuel
  | _ => throw TypeError
  end.

(** [[DefineOwnProperty]] with a descriptor that gives the value and
    the two attributes.  A configurable property takes any descriptor; one
    that is not stays so, takes a value only while it is writable, and
    cannot become writable again.  On an array a new index from the
    length on moves the length; the definition of [length] itself is not
    modelled. *)
Definition define_own (k : PropKey) (d : PropDesc) (o : RawObj) : Outcome RawObj :=
  if is_array o && bool_decide (k = KStr "length") then Beyond
  else
    match props_get k (o_props o) with
    | Some old =>
        if p_configurable old then Done (with_props (props_put k d (o_props o)) o)
        else if p_configurable d then Raise TypeError
        else if p_writable old then Done (with_props (props_put k d (o_props o)) o)
        else if p_writable d then Raise TypeError
        else if bool_decide (p_value d = p_value old) then Done o
        else Raise TypeError
    | None =>
        if negb (o_extensible o) then Raise TypeError
        else
          match is_array o, array_index k with
          | true, Some i =>
              match array_length o, props_get (KStr "length") (o_props o) with
              | Some len, Some dlen =>
                  if (i <? len)%N then Done (with_props (props_put k d (o_props o)) o)
                  else if negb (p_writable dlen) then Raise TypeError
                  else Done (put_length (i + 1)
                               (with_props (props_put k d (o_props o)) o))
              | _, _ => Beyond
              end
          | _, _ => Done (with_props (props_put k d (o_props o)) o)
          end
    end.

(** [Object.defineProperty(v, key, {value, writable, configurable})]:
    a proxy of the engine has no trap for it. *)
Definition js_defineProperty (v : Value) (key : PropKey) (d : PropDesc) : M unit :=
  l <- untrapped_target v ;;
  o <- raw_obj l ;;
  o' <- outcome (define_own key d o) ;;
  update_raw l o'.

Definition freeze_props (o : RawObj) : RawObj :=
  mkRaw (o_class o)
    (prod_map id (fun d => mkProp (p_value d) false false) <$> o_props o)
    false (o_data o).

(** [Object.freeze(v)]: the object is made non-extensible, its own keys
    are listed, and each property is made non-writable and
    non-configurable.  A proxy of the engine has a trap for the listing
    only, [ownKeys], which subscribes the callback to the changes of the
    key set.  A value that is not an object is returned as it is. *)
Definition js_freeze (v : Value) : M unit :=
  match v with
  | VRef l =>
      st <- get_state ;;
      match heap st !! l with
      | Some (ORaw o) => update_raw l (freeze_props o)
      | Some (OProxy target callback _) =>
          o <- raw_obj target ;;
          update_raw target (mkRaw (o_class o) (o_props o) false (o_data o)) ;;;
          basic_ownKeys callback target ;;;
          o <- raw_obj target ;;
          update_raw target (freeze_props o)
      | Some (OGen _) | Some (OIter _ _ _ _ _) | Some (OHeir _) => ret tt
      | None => throw TypeError
      end
  | _ => ret tt
  end.

(** The call of a method through the traps of the proxy [view]. *)
Definition view_call (view : option Obj) (m : Method) (key value : Value) : M Value :=
  match view with
  | Some (OProxy target callback (HCollection k)) =>
      collection_call k callback target m key value
  | Some (OProxy target callback HBasic) =>
      f <- basic_get callback target (method_key m) ;;
      call_value f
  | _ => throw TypeError
  end.

(** [v[m](key, value)] for the methods of the collections *)
Definition js_call (v : Value) (m : Method) (key value : Value) : M Value :=
  match v with
  | VRef l =>
      st <- get_state ;;
      match heap st !! l with
      | Some (ORaw o) =>
          match class_kind (o_class o) with
          | Some k =>
              if has_special k (method_key m) then
                match native_method m, iter_method m with
                | Some n, _ => native_call n l key value
                | None, Some im =>
                    it <- alloc (OIter l k im 0 false) ;;
                    ret (VRef it)
                | None, None => native_clear l ;;; ret VUndef
                end
              else
                f <- within (reflect_get (method_key m) o) ;;
                call_value f
          | None =>
              f <- within (reflect_get (method_key m) o) ;;
              call_value f
          end
      | Some (OProxy target callback h) =>
          view_call (Some (OProxy target callback h)) m key value
      | Some (OHeir p) => view_call (heap st !! p) m key value
      | _ => out_of_fuel
      end
  | _ => out_of_fuel
  end.

(** [it.next()] on a native iterator *)
Definition native_next (it : loc) (target : loc) (k : CollKind) (im : IterMethod)
    (pos : nat) (finished : bool) : M (option Value) :=
  if finished then ret None
  else
    o <- raw_obj target ;;
    match next_live (o_data o) pos with
    | None =>
        modify (fun st => set_heap (<[it := OIter target k im pos true]> (heap st)) st) ;;;
        ret None
    | Some (i, e) =>
        modify (fun st => set_heap (<[it := OIter target k im (S i) false]> (heap st)) st) ;;;
        item <- native_item k im e ;;
        ret (Some item)
    end.

(** [g.next()] *)
Definition js_next (g : Value) : M (option Value) :=
  match g with
  | VRef l =>
      st <- get_state ;;
      match heap st !! l with
      | Some (OGen _) => generator_next l
      | Some (OIter target k im pos finished) => native_next l target k im pos finished
      | _ => throw TypeError
      end
  | _ => throw TypeError
  end.

(** [proxy.forEach(f)] through the traps of the proxy [view] *)
Definition view_forEach (view : option Obj) (f : Value → Value → Value → M unit)
  : M unit :=
  match view with
  | Some (OProxy target callback (HCollection k)) =>
      collection_forEach k callback target f
  | Some (OProxy target callback HBasic) =>
      g <- basic_get callback target (KStr "forEach") ;;
      call_value g ;;;
      ret tt
  | _ => throw TypeError
  end.

(** [v.forEach(f)] *)
Definition js_forEach (v : Value) (f : Value → Value → Value → M unit) : M unit :=
  match v with
  | VRef l =>
      st <- get_state ;;
      match heap st !! l with
      | Some (ORaw o) =>
          if is_sized (o_class o) then native_forEach fuel l 0 f else out_of_fuel
      | Some (OProxy target callback h) => view_forEach (Some (OProxy target callback h)) f
      | Some (OHeir p) => view_forEach (heap st !! p) f
      | _ => out_of_fuel
      end
  | _ => out_of_fuel
  end.

(** [new C()], or [{}] and [[]] *)
Definition js_new (c : Class) : M Value :=
  let props :=
    match c with
    | CArray => [(KStr "length", mkProp (VNum 0) true false)]
    | _ => []
    end in
  l <- alloc (ORaw (mkRaw c props true [])) ;;
  ret (VRef l).

(** [Object.create(proto)] for a proxy [proto].  An object made with
    another prototype is not one of the native objects above, whose
    prototype is the standard one: it is not modelled. *)
Definition js_create (proto : Value) : M Value :=
  match proto with
  | VRef p =>
      st <- get_state ;;
      match heap st !! p with
      | Some (OProxy _ _ _) =>
          l <- alloc (OHeir p) ;;
          ret (VRef l)
      | Some _ => out_of_fuel
      | None => throw TypeError
      end
  | VNull | VFun _ => out_of_fuel
  | _ => throw TypeError
  end.

End Engine.

Global Arguments observeTargetKey : simpl never.
Global Arguments clearReactivesForCallback : simpl never.
Global Arguments notifyReactives : simpl never.
Global Arguments objectToString_tag : simpl never.
Global Arguments rawType : simpl never.
Global Arguments canBeMadeReactive : simpl never.
Global Arguments has_property : simpl never.
Global Arguments read_property : simpl never.
Global Arguments proxy_get_read : simpl never.
Global Arguments proxy_has : simpl never.
Global Arguments toRaw : simpl never.
Global Arguments reactive_cached : simpl never.
Global Arguments reactive : simpl never.
Global Arguments possiblyReactive : simpl never.
Global Arguments finish_read : simpl never.
Global Arguments basic_get : simpl never.
Global Arguments basic_set : simpl never.
Global Arguments basic_deleteProperty : simpl never.
Global Arguments basic_ownKeys : simpl never.
Global Arguments markRaw : simpl never.
Global Arguments native_call : simpl never.
Global Arguments native_keys : simpl never.
Global Arguments native_clear : simpl never.
Global Arguments native_size : simpl never.
Global Arguments makeKeyObserver : simpl never.
Global Arguments delegateAndNotify : simpl never.
Global Arguments makeClearNotifier : simpl never.
Global Arguments size_getter : simpl never.
Global Arguments makeForEachObserver : simpl never.
Global Arguments makeIteratorObserver : simpl never.
Global Arguments native_item : simpl never.
Global Arguments generator_turn : simpl never.
Global Arguments generator_next : simpl never.
Global Arguments collection_call : simpl never.
Global Arguments collection_forEach : simpl never.
Global Arguments collection_get : simpl never.
Global Arguments js_get : simpl never.
Global Arguments js_set : simpl never.
Global Arguments js_delete : simpl never.
Global Arguments js_ownKeys : simpl never.
Global Arguments js_defineProperty : simpl never.
Global Arguments js_freeze : simpl never.
Global Arguments js_call : simpl never.
Global Arguments js_next : simpl never.
Global Arguments js_forEach : simpl never.
Global Arguments js_new : simpl never.
Global Arguments raw_obj : simpl never.
Global Arguments update_raw : simpl never.
Global Arguments alloc : simpl never.
Global Arguments update_gen : simpl never.
Global Arguments untrapped_target : simpl never.
Global Arguments native_next : simpl never.
Global Arguments js_create : simpl never.
Global Arguments tag_through : simpl never.

(** ** Client programs

    Client code, the callbacks included, acts on the engine through the
    operations below.  Keys of client code are strings and symbols of its
    own: the private symbols of the module cannot be named, and client
    code here defines no [Symbol.toStringTag].  What the methods of the
    standard prototypes do is not part of the model; a program spells
    out the reads and writes they perform. *)

Inductive UKey :=
| UStr (s : string)
| USym (n : nat).

Definition ukey (k : UKey) : PropKey :=
  match k with
  | UStr s => KStr s
  | USym n => KSym (UserSym n)
  end.

Inductive Op :=
| OReactive (v : Value) (cb : Callback)
| OMarkRaw (v : Value)
| OToRaw (v : Value)
| OGetSubscriptions (cb : Callback)
| ONew (c : Class)
| OCreate (proto : Value)
| OGet (v : Value) (k : UKey)
| OSet (v : Value) (k : UKey) (x : Value)
| ODelete (v : Value) (k : UKey)
| OIn (k : UKey) (v : Value)
| OOwnKeys (v : Value)
| ODefine (v : Value) (k : UKey) (d : PropDesc)
| OFreeze (v : Value)
| OCall (v : Value) (m : Method) (key value : Value)
| ONext (g : Value).

Inductive Answer :=
| AUnit
| AValue (v : Value)
| ABool (b : bool)
| AKeys (ks : list PropKey)
| ASubs (subs : list (loc * list Value))
| ANext (item : option Value).

(** A program is the tree of the operations it performs, each
    continuation taking the answer of the operation; [PTry] is
    [try { p } catch { handler }]. *)
Inductive Prog :=
| PDone
| PThrow (n : nat)
| PDo (op : Op) (k : Answer → Prog)
| PForEach (v : Value) (f : Value → Value → Value → Prog) (k : Prog)
| PTry (p : Prog) (handler : Prog) (k : Prog).

Section Exec.

Variable depth : nat.
Variable fuel : nat.
Variable call : Callback → M unit.

Definition exec_op (op : Op) : M Answer :=
  match op with
  | OReactive v cb => r <- reactive fuel v cb ;; ret (AValue r)
  | OMarkRaw v => r <- markRaw depth call v ;; ret (AValue r)
  | OToRaw v => r <- toRaw v ;; ret (AValue r)
  | OGetSubscriptions cb => r <- getSubscriptions cb ;; ret (ASubs r)
  | ONew c => r <- js_new c ;; ret (AValue r)
  | OCreate proto => r <- js_create proto ;; ret (AValue r)
  | OGet v k => r <- js_get fuel v (ukey k) ;; ret (AValue r)
  | OSet v k x => js_set depth call v (ukey k) x ;;; ret AUnit
  | ODelete v k => js_delete depth call v (ukey k) ;;; ret AUnit
  | OIn k v => r <- has_property (ukey k) v ;; ret (ABool r)
  | OOwnKeys v => r <- js_ownKeys v ;; ret (AKeys r)
  | ODefine v k d => js_defineProperty v (ukey k) d ;;; ret AUnit
  | OFreeze v => js_freeze v ;;; ret AUnit
  | OCall v m key value => r <- js_call depth fuel call v m key value ;; ret (AValue r)
  | ONext g => r <- js_next fuel g ;; ret (ANext r)
  end.

End Exec.

(** [try m catch handler] *)
Definition try_catch (m handler : M unit) : M unit := fun st =>
  match m st with
  | Throw _ st' => handler st'
  | r => r
  end.

(** Running a program.  [body cb] is the code of the function [cb].  The
    fuel bounds the nesting of callbacks, and through [reactive] and
    [forEach] the loops of the engine whose length depends on the
    state. *)
Fixpoint run (body : Callback → Prog) (fuel : nat) (depth : nat) (p : Prog) {struct fuel}
  : M unit :=
  let call : Callback → M unit :=
    match fuel with
    | 0 => fun _ _ => OutOfFuel
    | S fuel' => fun cb => run body fuel' (S depth) (body cb)
    end in
  (fix go (p : Prog) : M unit :=
     match p with
     | PDone => ret tt
     | PThrow n => throw (ClientError n)
     | PDo op k => a <- exec_op depth fuel call op ;; go (k a)
     | PForEach v f k =>
         js_forEach fuel v (fun a b c => go (f a b c)) ;;; go k
     | PTry p handler k => try_catch (go p) (go handler) ;;; go k
     end) p.

(** The call of the function [cb] from engine code running at [depth]. *)
Definition callback_call (body : Callback → Prog) (fuel depth : nat) : Callback → M unit :=
  match fuel with
  | 0 => fun _ _ => OutOfFuel
  | S fuel' => fun cb => run body fuel' (S depth) (body cb)
  end.

(** ** Vocabulary of the statements *)

(** The callbacks subscribed to [(target, key)], in registration order. *)
Definition subscribers (st : State) (target : loc) (key : Value) : list Callback :=
  match targetToKeysToCallbacks st !! target with
  | Some keyToCallbacks => default [] (jsmap_get key keyToCallbacks)
  | None => []
  end.

(** The containers the reverse index lists for a callback. *)
Definition targets_of (st : State) (cb : Callback) : list loc :=
  default [] (callbacksToTargets st !! cb).

(** The reverse index knows every container a callback is subscribed on,
    and no set of callbacks lists a callback twice. *)
Definition registry_ok (st : State) : Prop :=
  ∀ t observedKeys k cbs,
    targetToKeysToCallbacks st !! t = Some observedKeys →
    (k, cbs) ∈ observedKeys →
    NoDup cbs ∧ ∀ cb, cb ∈ cbs → t ∈ targets_of st cb.

(** [cb2] holds the same subscriptions in [st'] as in [st]. *)
Definition same_subscriptions (cb2 : Callback) (st st' : State) : Prop :=
  (∀ t k, cb2 ∈ subscribers st' t k ↔ cb2 ∈ subscribers st t k) ∧
  targets_of st' cb2 = targets_of st cb2.

Definition state_of {A} (r : Res A) : option State :=
  match r with
  | Ok _ st | Throw _ st => Some st
  | OutOfFuel => None
  end.

Definition returns {A} (r : Res A) : Prop :=
  match r with
  | Ok _ _ => True
  | _ => False
  end.

(** The events logged between two states. *)
Definition new_events (st st' : State) : list Event :=
  drop (length (trace st)) (trace st').

(** The notifications fired at depth [d], that is by the code running at
    that depth and not by the callbacks it calls. *)
Definition notifications (d : nat) (evs : list Event) : list (loc * Value) :=
  omap (fun e =>
          match e with
          | EvNotify d' t k => if decide (d' = d) then Some (t, k) else None
          | EvCall _ _ => None
          end) evs.

(** The callbacks called at depth [d]. *)
Definition calls (d : nat) (evs : list Event) : list Callback :=
  omap (fun e =>
          match e with
          | EvCall d' cb => if decide (d' = d) then Some cb else None
          | EvNotify _ _ _ => None
          end) evs.

(** A callback called from depth [d] logs at greater depths only. *)
Definition quiet (d : nat) (st st' : State) : Prop :=
  ∃ evs, trace st' = trace st ++ evs ∧ Forall (fun e => d < ev_depth e) evs.

Definition quiet_calls (d : nat) (call : Callback → M unit) : Prop :=
  ∀ cb st st', state_of (call cb st) = Some st' → quiet d st st'.

(** *** The notifier in the words of the specification

    "For the set of callbacks subscribed to (rawValue, fieldKey) at call
    time: first clear all registry entries belonging to each such
    callback (every container/field it touches), then invoke the
    callback, in subscriber-registration order." *)

(** Every registry entry of [cb] is removed, whatever the reverse index
    says. *)
Definition remove_everywhere (cb : Callback) (st : State) : State :=
  set_c2t (alter (fun _ => []) cb (callbacksToTargets st))
    (set_t2k
       ((fun observedKeys : list (Value * list Callback) =>
           prod_map id (jsset_delete cb) <$> observedKeys)
          <$> targetToKeysToCallbacks st) st).

Definition notify_spec (depth : nat) (call : Callback → M unit)
    (target : loc) (key : Value) : M unit := fun st =>
  let snapshot := subscribers st target key in
  for_each snapshot (fun cb =>
    modify (remove_everywhere cb) ;;;
    log (EvCall depth cb) ;;;
    call cb) (add_event (EvNotify depth target key) st).

(** ** What the engine and its clients can do to a state

    Every change of state made by the code above is one of the
    following.  The conditions record what the code has checked when it
    makes the change; [depth] bounds from below the depth of the events
    logged. *)

Definition has_view (st : State) (t : loc) (cb : Callback) : Prop :=
  ∃ p h, heap st !! p = Some (OProxy t cb h).

Definition supported (c : Class) : bool := list_has (class_tag c) SUPPORTED_RAW_TYPES.

Definition handler_of (c : Class) : HandlerKind :=
  match class_kind c with
  | Some k => HCollection k
  | None => HBasic
  end.

(** The handler [reactive] builds for a raw type. *)
Definition handler_for (tag : string) : HandlerKind :=
  match rawTypeToFuncHandlers tag with
  | Some k => HCollection k
  | None => HBasic
  end.

(** A native object keeps its class, stays marked with [SKIP] once it
    is, and acquires neither a [TARGET] property nor a
    [Symbol.toStringTag] of its own. *)
Definition raw_evolves (o o' : RawObj) : Prop :=
  o_class o' = o_class o ∧
  (obj_has (KSym SKIP) o = true → obj_has (KSym SKIP) o' = true) ∧
  (obj_has (KSym TARGET) o = false → obj_has (KSym TARGET) o' = false) ∧
  (obj_has (KSym ToStringTag) o = false → obj_has (KSym ToStringTag) o' = false).

Inductive prim (depth : nat) : State → State → Prop :=
| prim_log e st :
    depth ≤ ev_depth e →
    prim depth st (add_event e st)
| prim_observe t k cb st st' :
    has_view st t cb →
    observeTargetKey t k cb st = Ok tt st' →
    prim depth st st'
| prim_clear cb st st' :
    clearReactivesForCallback cb st = Ok tt st' →
    prim depth st st'
| prim_alloc_raw o st :
    obj_has (KSym TARGET) o = false →
    obj_has (KSym SKIP) o = false →
    obj_has (KSym ToStringTag) o = false →
    prim depth st (set_heap (heap st ++ [ORaw o]) st)
| prim_update l o o' st :
    heap st !! l = Some (ORaw o) →
    raw_evolves o o' →
    prim depth st (set_heap (<[l := ORaw o']> (heap st)) st)
| prim_alloc_proxy t cb o st :
    heap st !! t = Some (ORaw o) →
    list_has (tag_of o) SUPPORTED_RAW_TYPES = true →
    obj_has (KSym SKIP) o = false →
    prim depth st (set_heap (heap st ++ [OProxy t cb (handler_for (tag_of o))]) st)
| prim_cache_init t st :
    reactiveCache st !! t = None →
    prim depth st (set_cache (<[t := ∅]> (reactiveCache st)) st)
| prim_cache_set t cb p h st :
    heap st !! p = Some (OProxy t cb h) →
    default ∅ (reactiveCache st !! t) !! cb = None →
    prim depth st
      (set_cache (<[t := <[cb := p]> (default ∅ (reactiveCache st !! t))]>
                    (reactiveCache st)) st)
| prim_alloc_gen gen st :
    has_view st (g_target gen) (g_callback gen) →
    prim depth st (set_heap (heap st ++ [OGen gen]) st)
| prim_update_gen l gen gen' st :
    heap st !! l = Some (OGen gen) →
    g_target gen' = g_target gen →
    g_callback gen' = g_callback gen →
    prim depth st (set_heap (<[l := OGen gen']> (heap st)) st)
| prim_alloc_iter t k m pos finished st :
    prim depth st (set_heap (heap st ++ [OIter t k m pos finished]) st)
| prim_update_iter l t k m pos finished t' k' m' pos' finished' st :
    heap st !! l = Some (OIter t k m pos finished) →
    prim depth st (set_heap (<[l := OIter t' k' m' pos' finished']> (heap st)) st)
| prim_alloc_heir p t cb h st :
    heap st !! p = Some (OProxy t cb h) →
    prim depth st (set_heap (heap st ++ [OHeir p]) st).

Definition steps (depth : nat) : State → State → Prop := rtc (prim depth).

(** A generator of [makeIteratorObserver] belongs to a proxy. *)
Definition generators_ok (st : State) : Prop :=
  ∀ l gen, heap st !! l = Some (OGen gen) → has_view st (g_target gen) (g_callback gen).

(** The states of an execution that starts with an empty heap and an
    empty registry.  Client code creates and changes native objects as
    it likes, but for two keys: [TARGET], a symbol the module keeps to
    itself, and [Symbol.toStringTag], which client code is taken not to
    define on its objects.  What the probe of [reactive] makes of an
    object that has a [Symbol.toStringTag] of its own is stated for any
    state, reachable or not. *)
Definition reachable (st : State) : Prop := steps 0 init st.

(** A property of the state that the steps of the engine keep. *)
Definition stable (d : nat) (P : State → Prop) : Prop :=
  ∀ st st', steps d st st' → P st → P st'.

(** The result of a computation started in [st0] is reached by steps of
    the engine. *)
Definition res_steps (depth : nat) (st0 : State) {A} (r : Res A) : Prop :=
  match r with
  | Ok _ st' | Throw _ st' => steps depth st0 st'
  | OutOfFuel => True
  end.

Definition sound (depth : nat) (P : State → Prop) {A} (m : M A) : Prop :=
  ∀ st, P st → res_steps depth st (m st).

(** ** Invariants of the reachable states *)

(** The cache maps a container and a callback to the proxy made for
    them. *)
Definition cache_ok (st : State) : Prop :=
  ∀ t m cb p,
    reactiveCache st !! t = Some m → m !! cb = Some p →
    ∃ h, heap st !! p = Some (OProxy t cb h).

(** The target of a proxy is a native object of a supported class, and
    the handler is the one for that class: there is no proxy of a
    proxy. *)
Definition proxies_ok (st : State) : Prop :=
  ∀ p t cb h,
    heap st !! p = Some (OProxy t cb h) →
    ∃ o, heap st !! t = Some (ORaw o) ∧ supported (o_class o) = true ∧
         h = handler_of (o_class o).

(** No native object has a property named by the private symbol
    [TARGET]. *)
Definition no_target_prop (st : State) : Prop :=
  ∀ l o, heap st !! l = Some (ORaw o) → obj_has (KSym TARGET) o = false.

(** Only containers that have a proxy appear in the registry. *)
Definition registry_views (st : State) : Prop :=
  (∀ t, is_Some (targetToKeysToCallbacks st !! t) → ∃ cb, has_view st t cb) ∧
  (∀ t cb, t ∈ targets_of st cb → has_view st t cb).

(** No native object has a [Symbol.toStringTag] of its own: the tag
    that [Object.prototype.toString] prints is the one of the class. *)
Definition no_tag_prop (st : State) : Prop :=
  ∀ l o, heap st !! l = Some (ORaw o) → obj_has (KSym ToStringTag) o = false.

Definition wf (st : State) : Prop :=
  registry_ok st ∧ cache_ok st ∧ proxies_ok st ∧ no_target_prop st ∧
  no_tag_prop st ∧ generators_ok st ∧ registry_views st.

(** The prototype of an object made by [Object.create(proxy)] is a
    proxy. *)
Definition heirs_ok (st : State) : Prop :=
  ∀ l p, heap st !! l = Some (OHeir p) → ∃ t cb h, heap st !! p = Some (OProxy t cb h).


(** *** The mutators of the collections

    What [rawTypeToFuncHandlers] pairs with [add], [set] and [delete]:
    the read that captures the prior value ([has] for [add] and
    [delete], [get] for [set]) and the entries the native mutator
    leaves. *)

Definition prior_value (m : Method) (k : Value) (d : list (option (Value * Value)))
  : Value :=
  match m with
  | MSet => data_get k d
  | _ => VBool (data_has k d)
  end.

Definition data_after (m : Method) (k v : Value) (d : list (option (Value * Value)))
  : list (option (Value * Value)) :=
  match m with
  | MSet => data_put k v d
  | MAdd => data_add k d
  | MDelete => data_remove k d
  | _ => d
  end.

Definition is_mutator (m : Method) : bool :=
  match m with
  | MSet | MAdd | MDelete => true
  | _ => false
  end.

(** The state a computation ends in. *)
Definition final_state {A} (r : Res A) : State :=
  match r with
  | Ok _ st | Throw _ st => st
  | OutOfFuel => init
  end.

(** The proxy the cache holds for a container and a callback. *)
Definition cached (st : State) (l : loc) (cb : Callback) : option loc :=
  default ∅ (reactiveCache st !! l) !! cb.

(** [v] is a proxy made by [reactive]. *)
Definition is_view (st : State) (v : Value) : Prop :=
  ∃ l t cb h, v = VRef l ∧ heap st !! l = Some (OProxy t cb h).

(** [v] is an object that has a proxy made by [reactive] as
    prototype. *)
Definition is_heir (st : State) (v : Value) : Prop :=
  ∃ l p, v = VRef l ∧ heap st !! l = Some (OHeir p).

(** A reference held by client code refers to an object of the heap. *)
Definition value_ok (st : State) (v : Value) : Prop :=
  ∀ l, v = VRef l → is_Some (heap st !! l).

(** [o'] is [o] but for the own properties whose key is in [ks]. *)
Definition same_but (ks : PropKey → bool) (o o' : RawObj) : Prop :=
  o_class o' = o_class o ∧ o_extensible o' = o_extensible o ∧ o_data o' = o_data o ∧
  ∀ k, ks k = false → props_get k (o_props o') = props_get k (o_props o).

Definition only (key : PropKey) : PropKey → bool := fun k => bool_decide (k = key).

(** ** Sample executions

    Small client programs, used to exhibit reachable states. *)

Definition value_of (a : Answer) : Value :=
  match a with
  | AValue v => v
  | _ => VUndef
  end.

(** Callbacks that do nothing. *)
Definition idle : Callback → Prog := fun _ => PDone.

(** The state a program leaves when run from the initial state. *)
Definition state_after (body : Callback → Prog) (p : Prog) : State :=
  match run body 3 0 p init with
  | Ok _ st | Throw _ st => st
  | OutOfFuel => init
  end.

(** [x = {a: 1, b: 2}; v1 = reactive(x, cb1); v2 = reactive(x, cb2);
    v1.a; v1.b; v2.a]: both callbacks are subscribed to [a], in this
    order, and [cb1] to [b]. *)
Definition two_readers : Prog :=
  PDo (ONew CObject) (fun x =>
  PDo (OSet (value_of x) (UStr "a") (VNum 1)) (fun _ =>
  PDo (OSet (value_of x) (UStr "b") (VNum 2)) (fun _ =>
  PDo (OReactive (value_of x) 1) (fun v1 =>
  PDo (OReactive (value_of x) 2) (fun v2 =>
  PDo (OGet (value_of v1) (UStr "a")) (fun _ =>
  PDo (OGet (value_of v1) (UStr "b")) (fun _ =>
  PDo (OGet (value_of v2) (UStr "a")) (fun _ => PDone)))))))).

(** The object [{a: 1, b: 2}] of [two_readers]. *)
Definition two_readers_object : RawObj :=
  mkRaw CObject
    [(KStr "a", mkProp (VNum 1) true true); (KStr "b", mkProp (VNum 2) true true)]
    true [].

(** [m = new Map(); v = reactive(m, cb1); v.set("k", NaN); v.get("k")]:
    the map holds [NaN] at ["k"] and [cb1] is subscribed to ["k"]. *)
Definition nan_map : Prog :=
  PDo (ONew CMap) (fun m =>
  PDo (OReactive (value_of m) 1) (fun v =>
  PDo (OCall (value_of v) MSet (VStr "k") VNaN) (fun _ =>
  PDo (OCall (value_of v) MGet (VStr "k") VUndef) (fun _ => PDone)))).

Definition nan_map_object : RawObj :=
  mkRaw CMap [] true [Some (VStr "k", VNaN)].

(** [x = {}] *)
Definition one_object : Prog := PDo (ONew CObject) (fun _ => PDone).

Definition empty_object : RawObj := mkRaw CObject [] true [].


(** ** [batched]

    [batched(callback)] returns an [async] function that shares the flag
    [called] with the microtasks it queues.  The model has the flag, the
    queue of microtasks of the host, which runs them first in, first
    out, once the synchronous code has returned, and a history of what
    happened, for the statements.

    A call of the batched function runs to [await Promise.resolve()]:
    the promise being resolved, the rest of the call is queued at once
    as a microtask, and the call returns.  [Promise.resolve().then(f)]
    queues [f] at once in the same way. *)

(** What client code, the callback included, does that matters here: it
    calls the batched function, queues a microtask of its own, or
    throws, which ends it. *)
#[warnings="-register-all"]
Inductive Action :=
| ATrigger
| AMicrotask (code : list Action)
| AThrow.

Inductive Job :=
| JResume                   (* the rest of a call, after its [await] *)
| JReset                    (* [() => (called = false)] *)
| JRun (code : list Action) (* a microtask of the client *).

Inductive BEvent := BTrigger | BInvoke | BReset.

Record BState := mkB {
  called : bool;
  microtasks : list Job;
  history : list BEvent;
}.

(** [batched(callback)] has just returned, and nothing is queued. *)
Definition quiescent : BState := mkB false [] [].

Fixpoint invokes (evs : list BEvent) : nat :=
  match evs with
  | [] => 0
  | BInvoke :: evs => S (invokes evs)
  | _ :: evs => invokes evs
  end.

(** The number of times the callback has been called. *)
Definition invocations (st : BState) : nat := invokes (history st).

(** The batched function, up to its [await]. *)
Definition batch_trigger (st : BState) : BState :=
  mkB (called st) (microtasks st ++ [JResume]) (history st ++ [BTrigger]).

(** Synchronous client code. *)
Fixpoint exec (code : list Action) (st : BState) : BState :=
  match code with
  | [] => st
  | ATrigger :: rest => exec rest (batch_trigger st)
  | AMicrotask c :: rest =>
      exec rest (mkB (called st) (microtasks st ++ [JRun c]) (history st))
  | AThrow :: _ => st
  end.

Section Batched.

(** The code the callback runs, given the number of times it has been
    called before. *)
Variable callback : nat → list Action.

(** The batched function, after its [await]:
    [if (!called) { called = true; Promise.resolve().then(() => (called = false)); callback(); }].
    An exception of the callback rejects the promise of the call, which
    nobody holds. *)
Definition resume (st : BState) : BState :=
  if called st then st
  else
    exec (callback (invocations st))
      (mkB true (microtasks st ++ [JReset]) (history st ++ [BInvoke])).

Definition run_job (j : Job) (st : BState) : BState :=
  match j with
  | JResume => resume st
  | JReset => mkB false (microtasks st) (history st ++ [BReset])
  | JRun code => exec code st
  end.

(** The host takes the first microtask off the queue and runs it. *)
Definition next_job (st : BState) : option BState :=
  match microtasks st with
  | [] => None
  | j :: q => Some (run_job j (mkB (called st) q (history st)))
  end.

(** The host runs [n] microtasks, or all there are. *)
Fixpoint run_jobs (n : nat) (st : BState) : BState :=
  match n with
  | 0 => st
  | S n =>
      match next_job st with
      | Some st' => run_jobs n st'
      | None => st
      end
  end.

End Batched.

(** The microtasks and the events of a piece of synchronous code. *)
Fixpoint queued (code : list Action) : list Job :=
  match code with
  | [] => []
  | ATrigger :: rest => JResume :: queued rest
  | AMicrotask c :: rest => JRun c :: queued rest
  | AThrow :: _ => []
  end.

Fixpoint logged (code : list Action) : list BEvent :=
  match code with
  | [] => []
  | ATrigger :: rest => BTrigger :: logged rest
  | AMicrotask c :: rest => logged rest
  | AThrow :: _ => []
  end.

(** A callback that calls the batched function again, and one that does
    nothing. *)
Definition retrigger : nat → list Action := fun _ => [ATrigger].
Definition silent : nat → list Action := fun _ => [].

(** [x = {}; y = {}; x.child = y; v = reactive(x, cb)] *)
Definition nested : Prog :=
  PDo (ONew CObject) (fun x =>
  PDo (ONew CObject) (fun y =>
  PDo (OSet (value_of x) (UStr "child") (value_of y)) (fun _ =>
  PDo (OReactive (value_of x) 1) (fun _ => PDone)))).

Definition nested_object : RawObj :=
  mkRaw CObject [(KStr "child", mkProp (VRef 1) true true)] true [].

(** [x = {a: 1}; Object.freeze(x)] *)
Definition frozen : Prog :=
  PDo (ONew CObject) (fun x =>
  PDo (OSet (value_of x) (UStr "a") (VNum 1)) (fun _ =>
  PDo (OFreeze (value_of x)) (fun _ => PDone))).

Definition frozen_object : RawObj :=
  mkRaw CObject [(KStr "a", mkProp (VNum 1) false false)] false [].

(** ** Reads and writes

    A read leaves every object of the heap as it is, but for the
    position of an iterator, and logs nothing. *)

Definition same_object (a b : Obj) : Prop :=
  match a, b with
  | OGen _, OGen _ => True
  | OIter _ _ _ _ _, OIter _ _ _ _ _ => True
  | _, _ => a = b
  end.

Definition untouched (st st' : State) : Prop :=
  trace st' = trace st ∧
  ∀ l a, heap st !! l = Some a → ∃ b, heap st' !! l = Some b ∧ same_object a b.

(** The state a computation ends in is related to the one it started
    in. *)
Definition keeps (R : State → State → Prop) (st : State) {A} (r : Res A) : Prop :=
  match r with
  | Ok _ st' | Throw _ st' => R st st'
  | OutOfFuel => True
  end.

Definition respects (R : State → State → Prop) {A} (m : M A) : Prop :=
  ∀ st, keeps R st (m st).

(** The operations of client code that read. *)
Definition is_read (op : Op) : bool :=
  match op with
  | OReactive _ _ | OToRaw _ | OGetSubscriptions _
  | OGet _ _ | OIn _ _ | OOwnKeys _ | ONext _ => true
  | OCall _ m _ _ =>
      match m with
      | MHas | MGet | MKeys | MValues | MEntries | MIterator => true
      | _ => false
      end
  | _ => false
  end.

(** No subscription is added. *)
Definition no_new_subscription (st st' : State) : Prop :=
  ∀ t k cb, cb ∈ subscribers st' t k → cb ∈ subscribers st t k.

(** The operations of client code that write to an object. *)
Definition is_write (op : Op) : bool :=
  match op with
  | OSet _ _ _ | ODelete _ _ | OMarkRaw _ | ODefine _ _ _ => true
  | _ => false
  end.

(** No subscription is added, but for the one of [cb0] to [k0] on
    [t0]. *)
Definition subscribes_at_most (t0 : loc) (k0 : Value) (cb0 : Callback)
    (st st' : State) : Prop :=
  ∀ t k cb, cb ∈ subscribers st' t k →
    cb ∈ subscribers st t k ∨ (t = t0 ∧ k = k0 ∧ cb = cb0).

(** What [has] and [get] answer on a wrapped collection. *)
Definition lookup_answer (m : Method) (k : Value) (d : list (option (Value * Value)))
  : Value :=
  match m with
  | MGet => data_get k d
  | _ => VBool (data_has k d)
  end.

(** The values an iterator gives in its first [n] turns, as
    [for (const v of g)] collects them. *)
Fixpoint drain (fuel n : nat) (g : Value) : M (list Value) :=
  match n with
  | 0 => ret []
  | S n' =>
      r <- js_next fuel g ;;
      match r with
      | None => ret []
      | Some v => vs <- drain fuel n' g ;; ret (v :: vs)
      end
  end.

(** What [keys()] and [values()] give for an entry. *)
Definition item_of (im : IterMethod) (e : Value * Value) : Value :=
  match im with
  | IKeys => e.1
  | _ => e.2
  end.

Definition iterator_method (im : IterMethod) : Method :=
  match im with
  | IKeys => MKeys
  | IValues => MValues
  | IEntries => MEntries
  | IIterator => MIterator
  end.

(** [s = new Set(); s.add(1); s.add(2); v = reactive(s, cb)] *)
Definition two_members : Prog :=
  PDo (ONew CSet) (fun s =>
  PDo (OCall (value_of s) MAdd (VNum 1) VUndef) (fun _ =>
  PDo (OCall (value_of s) MAdd (VNum 2) VUndef) (fun _ =>
  PDo (OReactive (value_of s) 1) (fun _ => PDone)))).

Definition two_members_object : RawObj :=
  mkRaw CSet [] true [Some (VNum 1, VNum 1); Some (VNum 2, VNum 2)].

(** *** The states of a batched function

    The host runs synchronous code of the client and microtasks, in
    any order here. *)
Inductive batch_reachable (callback : nat → list Action) : BState → Prop :=
| batch_start : batch_reachable callback quiescent
| batch_exec code st :
    batch_reachable callback st → batch_reachable callback (exec code st)
| batch_job st st' :
    batch_reachable callback st → next_job callback st = Some st' →
    batch_reachable callback st'.

(** The resets in the queue. *)
Fixpoint resets (q : list Job) : nat :=
  match q with
  | [] => 0
  | JReset :: q => S (resets q)
  | _ :: q => resets q
  end.

(** A history in which the calls of the callback and the resets
    alternate, from the flag [flag]; the result is the flag at the end. *)
Fixpoint alternates (flag : bool) (evs : list BEvent) : option bool :=
  match evs with
  | [] => Some flag
  | BTrigger :: evs => alternates flag evs
  | BInvoke :: evs => if flag then None else alternates true evs
  | BReset :: evs => if flag then alternates false evs else None
  end.

(** Callbacks of which the first throws and the others do nothing. *)
Definition thrower : Callback → Prog :=
  fun cb => if decide (cb = 1) then PThrow 0 else PDone.

(** [x = {a: 1}; v = reactive(x, cb1); v.a; Object.freeze(x)] *)
Definition read_then_freeze : Prog :=
  PDo (ONew CObject) (fun x =>
  PDo (OSet (value_of x) (UStr "a") (VNum 1)) (fun _ =>
  PDo (OReactive (value_of x) 1) (fun v =>
  PDo (OGet (value_of v) (UStr "a")) (fun _ =>
  PDo (OFreeze (value_of x)) (fun _ => PDone))))).




(** [x = {}; v = reactive(x, cb7); h = Object.create(v)] *)
Definition heir_of_view : Prog :=
  PDo (ONew CObject) (fun x =>
  PDo (OReactive (value_of x) 7) (fun v =>
  PDo (OCreate (value_of v)) (fun _ => PDone))).



(** * Properties *)

(** ** Sets and maps of the registry *)

Lemma jsmap_get_set {V} (k k' : Value) (v : V) m :
  jsmap_get k' (jsmap_set k v m) = if decide (k = k') then Some v else jsmap_get k' m.
Proof.
  induction m as [|[k0 v0] m IH]; simpl.
  - unfold same_value_zero. case_bool_decide; case_decide; congruence.
  - unfold same_value_zero in *.
    destruct (bool_decide (k0 = k)) eqn:E0; simpl.
    + apply bool_decide_eq_true in E0 as ->. unfold same_value_zero.
      case_bool_decide; case_decide; congruence.
    + apply bool_decide_eq_false in E0. unfold same_value_zero.
      case_bool_decide; [|done]. subst. case_decide; congruence.
Qed.

Lemma jsmap_get_fmap {V W} (f : V → W) (k : Value) (m : list (Value * V)) :
  jsmap_get k (prod_map id f <$> m) = f <$> jsmap_get k m.
Proof.
  induction m as [|[k0 v0] m IH]; simpl; [done|].
  destruct (same_value_zero k0 k); done.
Qed.

Lemma elem_of_jsset_add `{EqDecision A} (x y : A) s :
  y ∈ jsset_add x s ↔ y = x ∨ y ∈ s.
Proof.
  unfold jsset_add. case_bool_decide.
  - split; [auto|]. intros [->|]; done.
  - rewrite elem_of_app, list_elem_of_singleton. tauto.
Qed.

Lemma NoDup_jsset_add `{EqDecision A} (x : A) s : NoDup s → NoDup (jsset_add x s).
Proof.
  intros Hs. unfold jsset_add. case_bool_decide; [done|].
  apply NoDup_app. split_and!; [done| |apply NoDup_singleton].
  intros y Hy ->%list_elem_of_singleton. done.
Qed.

Lemma elem_of_jsset_delete `{EqDecision A} (x y : A) s :
  y ∈ jsset_delete x s ↔ y ≠ x ∧ y ∈ s.
Proof. unfold jsset_delete. by rewrite list_elem_of_filter. Qed.

Lemma jsset_delete_idemp `{EqDecision A} (x : A) s :
  jsset_delete x (jsset_delete x s) = jsset_delete x s.
Proof. unfold jsset_delete. rewrite list_filter_filter. apply list_filter_iff. tauto. Qed.

Lemma jsset_delete_notin `{EqDecision A} (x : A) s :
  x ∉ s → jsset_delete x s = s.
Proof.
  intros Hx. unfold jsset_delete. induction s as [|y s IH]; [done|].
  rewrite filter_cons. apply not_elem_of_cons in Hx as [? ?].
  rewrite decide_True by done. f_equal. auto.
Qed.

Lemma NoDup_jsset_delete `{EqDecision A} (x : A) s : NoDup s → NoDup (jsset_delete x s).
Proof. apply NoDup_filter. Qed.

Lemma jsset_delete_other `{EqDecision A} (x y : A) s :
  x ≠ y → filter (λ z, z ≠ y) (jsset_delete x s) = jsset_delete x (filter (λ z, z ≠ y) s).
Proof. intros _. unfold jsset_delete. rewrite !list_filter_filter. apply list_filter_iff. tauto. Qed.

Lemma jsmap_get_elem_of {V} (k : Value) (v : V) m :
  jsmap_get k m = Some v → (k, v) ∈ m.
Proof.
  induction m as [|[k0 v0] m IH]; simpl; [done|].
  unfold same_value_zero. case_bool_decide.
  - intros [= ->]. subst. left.
  - intros. right. auto.
Qed.

Lemma elem_of_jsmap_set {V} (k k' : Value) (v v' : V) m :
  (k', v') ∈ jsmap_set k v m → (k' = k ∧ v' = v) ∨ (k', v') ∈ m.
Proof.
  induction m as [|[k0 v0] m IH]; simpl.
  - intros ?%list_elem_of_singleton. left. split; congruence.
  - unfold same_value_zero. case_bool_decide.
    + intros [E|?]%elem_of_cons; [left; split; congruence|right; by right].
    + intros [E|?]%elem_of_cons; [right; rewrite E; left|].
      destruct IH as [?|?]; [done|by left|right; by right].
Qed.

Lemma jsmap_set_set {V} (k : Value) (v v0 : V) m :
  jsmap_set k v (jsmap_set k v0 m) = jsmap_set k v m.
Proof.
  induction m as [|[k1 v1] m IH]; simpl.
  - unfold same_value_zero. by rewrite bool_decide_eq_true_2.
  - destruct (same_value_zero k1 k) eqn:E; simpl; rewrite E; [done|by f_equal].
Qed.

(** ** The registry *)

Lemma subscribers_add_event e st t k :
  subscribers (add_event e st) t k = subscribers st t k.
Proof. done. Qed.

Lemma observeTargetKey_returns t k cb st :
  ∃ st', observeTargetKey t k cb st = Ok tt st'.
Proof. unfold observeTargetKey. eauto. Qed.

Lemma observeTargetKey_subscribers t k cb st st' t' k' :
  observeTargetKey t k cb st = Ok tt st' →
  subscribers st' t' k' =
    if decide (t = t' ∧ k = k') then jsset_add cb (subscribers st t k)
    else subscribers st t' k'.
Proof.
  unfold observeTargetKey. intros [= <-]. unfold subscribers; simpl.
  destruct (decide (t = t')) as [<-|Hne].
  - rewrite lookup_insert_eq.
    destruct (targetToKeysToCallbacks st !! t) as [m|] eqn:Hm; simpl.
    + rewrite Hm; simpl. rewrite jsmap_get_set.
      destruct (decide (k = k')) as [<-|Hk].
      * rewrite decide_True by done. simpl.
        destruct (jsmap_get k m) eqn:Hk; simpl; [by rewrite Hk|].
        by rewrite jsmap_get_set, decide_True.
      * rewrite decide_False by tauto.
        destruct (jsmap_get k m) eqn:Hk'; simpl; [done|].
        by rewrite jsmap_get_set, decide_False.
    + rewrite lookup_insert_eq; simpl.
      repeat (unfold same_value_zero; simpl;
              repeat case_bool_decide; repeat case_decide; simpl;
              try done; try tauto; try congruence).
  - rewrite decide_False by tauto.
    destruct (targetToKeysToCallbacks st !! t) eqn:Hm;
      rewrite ?lookup_insert_ne by done; done.
Qed.

Lemma observeTargetKey_targets t k cb st st' cb' :
  observeTargetKey t k cb st = Ok tt st' →
  targets_of st' cb' =
    if decide (cb = cb') then jsset_add t (targets_of st cb) else targets_of st cb'.
Proof.
  unfold observeTargetKey. intros [= <-]. unfold targets_of; simpl.
  destruct (decide (cb = cb')) as [<-|Hne].
  - rewrite lookup_insert_eq. simpl.
    destruct (callbacksToTargets st !! cb) eqn:E; simpl; [by rewrite E|].
    by rewrite lookup_insert_eq.
  - rewrite lookup_insert_ne by done.
    destruct (callbacksToTargets st !! cb) eqn:E; [done|].
    by rewrite lookup_insert_ne.
Qed.

Lemma observeTargetKey_frame t k cb st st' :
  observeTargetKey t k cb st = Ok tt st' →
  heap st' = heap st ∧ reactiveCache st' = reactiveCache st ∧ trace st' = trace st.
Proof. unfold observeTargetKey. by intros [= <-]. Qed.

(** The registry entries after [observeTargetKey]: those of before, and
    the one observed. *)
Lemma observeTargetKey_entries t k cb st st' t' obs' k' cbs' :
  observeTargetKey t k cb st = Ok tt st' →
  targetToKeysToCallbacks st' !! t' = Some obs' →
  (k', cbs') ∈ obs' →
  (t' = t ∧ k' = k ∧ cbs' = jsset_add cb (subscribers st t k)) ∨
  (∃ obs, targetToKeysToCallbacks st !! t' = Some obs ∧ (k', cbs') ∈ obs).
Proof.
  unfold observeTargetKey. intros [= <-]; simpl. unfold subscribers.
  destruct (decide (t = t')) as [<-|Hne].
  - rewrite lookup_insert_eq. intros [= <-].
    destruct (targetToKeysToCallbacks st !! t) as [m|] eqn:Hm; simpl.
    + rewrite Hm; simpl.
      destruct (jsmap_get k m) as [s|] eqn:Hk; simpl.
      * rewrite Hk; simpl. intros [[-> ->]|?]%elem_of_jsmap_set; eauto.
      * rewrite jsmap_get_set, decide_True by done; simpl.
        rewrite jsmap_set_set.
        intros [[-> ->]|?]%elem_of_jsmap_set; eauto.
    + rewrite lookup_insert_eq; simpl.
      assert (same_value_zero k k = true) as -> by by apply bool_decide_eq_true_2.
      simpl. intros ?%list_elem_of_singleton. left. split_and!; congruence.
  - intros Hl Hin. right.
    destruct (targetToKeysToCallbacks st !! t) eqn:Hm;
      rewrite ?lookup_insert_ne in Hl by done; eauto.
Qed.

Lemma observeTargetKey_registry_ok t k cb st st' :
  observeTargetKey t k cb st = Ok tt st' → registry_ok st → registry_ok st'.
Proof.
  intros Hobs Hok t' obs' k' cbs' Hl Hin.
  assert (Hsub : ∀ k0, NoDup (subscribers st t k0) ∧
                       ∀ cb0, cb0 ∈ subscribers st t k0 → t ∈ targets_of st cb0).
  { intros k0. unfold subscribers.
    destruct (targetToKeysToCallbacks st !! t) as [m|] eqn:Hm;
      [|split; [constructor|intros ? []%elem_of_nil]].
    destruct (jsmap_get k0 m) as [s|] eqn:Hk; simpl;
      [|split; [constructor|intros ? []%elem_of_nil]].
    eapply Hok; eauto using jsmap_get_elem_of. }
  destruct (observeTargetKey_entries _ _ _ _ _ _ _ _ _ Hobs Hl Hin)
    as [(-> & -> & ->)|(obs & Hobs0 & Hin0)].
  - destruct (Hsub k) as [Hnd Hc]. split; [by apply NoDup_jsset_add|].
    intros cb0 [->|Hcb0]%elem_of_jsset_add;
      rewrite (observeTargetKey_targets _ _ _ _ _ _ Hobs); case_decide; subst;
      rewrite ?elem_of_jsset_add; eauto; congruence.
  - destruct (Hok _ _ _ _ Hobs0 Hin0) as [Hnd Hc]. split; [done|].
    intros cb0 Hcb0. rewrite (observeTargetKey_targets _ _ _ _ _ _ Hobs).
    case_decide; subst; rewrite ?elem_of_jsset_add; eauto.
Qed.

Lemma clear_target_lookup cb m a t :
  clear_target cb m a !! t =
    if decide (a = t)
    then (λ obs : list (Value * list Callback), prod_map id (jsset_delete cb) <$> obs)
           <$> (m !! t)
    else m !! t.
Proof.
  unfold clear_target. case_decide as E.
  - subst a. destruct (m !! t) eqn:Hm; simpl; [by rewrite lookup_insert_eq|done].
  - destruct (m !! a); [by rewrite lookup_insert_ne|done].
Qed.

Lemma clear_fmap_idemp cb (obs : list (Value * list Callback)) :
  prod_map id (jsset_delete cb) <$> (prod_map id (jsset_delete cb) <$> obs) =
  prod_map id (jsset_delete cb) <$> obs.
Proof.
  rewrite <- list_fmap_compose. apply list_fmap_ext.
  intros i [k cbs] _. unfold prod_map; simpl. by rewrite jsset_delete_idemp.
Qed.

Lemma foldl_clear_target_lookup cb ts m t :
  foldl (clear_target cb) m ts !! t =
    if bool_decide (t ∈ ts)
    then (λ obs : list (Value * list Callback), prod_map id (jsset_delete cb) <$> obs)
           <$> (m !! t)
    else m !! t.
Proof.
  revert m. induction ts as [|a ts IH]; intros m; simpl.
  - done.
  - rewrite IH, clear_target_lookup.
    destruct (decide (a = t)) as [->|Hne].
    + rewrite (bool_decide_eq_true_2 (t ∈ t :: ts)) by left.
      case_bool_decide; [|done].
      destruct (m !! t); simpl; [|done]. by rewrite clear_fmap_idemp.
    + case_bool_decide as E1; case_bool_decide as E2; try done.
      * exfalso. apply E2. by right.
      * exfalso. apply elem_of_cons in E2 as [?|?]; congruence.
Qed.

Lemma clearReactivesForCallback_returns cb st :
  ∃ st', clearReactivesForCallback cb st = Ok tt st'.
Proof. unfold clearReactivesForCallback. destruct (_ !! cb); eauto. Qed.

Lemma clearReactivesForCallback_subscribers cb st st' t k :
  clearReactivesForCallback cb st = Ok tt st' →
  subscribers st' t k =
    if bool_decide (t ∈ targets_of st cb) then jsset_delete cb (subscribers st t k)
    else subscribers st t k.
Proof.
  unfold clearReactivesForCallback, targets_of.
  destruct (callbacksToTargets st !! cb) as [ts|] eqn:Hts; simpl; intros [= <-].
  - unfold subscribers; simpl. rewrite foldl_clear_target_lookup.
    case_bool_decide; [|done].
    destruct (targetToKeysToCallbacks st !! t) as [obs|]; simpl; [|done].
    rewrite jsmap_get_fmap. by destruct (jsmap_get k obs).
  - done.
Qed.

Lemma clearReactivesForCallback_targets cb st st' cb' :
  clearReactivesForCallback cb st = Ok tt st' →
  targets_of st' cb' = if decide (cb' = cb) then [] else targets_of st cb'.
Proof.
  unfold clearReactivesForCallback, targets_of.
  destruct (callbacksToTargets st !! cb) as [ts|] eqn:Hts; simpl; intros [= <-]; simpl.
  - case_decide as E; [subst; by rewrite lookup_insert_eq|].
    by rewrite lookup_insert_ne.
  - case_decide as E; [subst; by rewrite Hts|done].
Qed.

Lemma clearReactivesForCallback_frame cb st st' :
  clearReactivesForCallback cb st = Ok tt st' →
  heap st' = heap st ∧ reactiveCache st' = reactiveCache st ∧ trace st' = trace st.
Proof.
  unfold clearReactivesForCallback.
  destruct (callbacksToTargets st !! cb); by intros [= <-].
Qed.

(** The registry entries after a clear: those of before, without the
    callback where the reverse index led to them. *)
Lemma clearReactivesForCallback_entries cb st st' t obs' k cbs' :
  clearReactivesForCallback cb st = Ok tt st' →
  targetToKeysToCallbacks st' !! t = Some obs' →
  (k, cbs') ∈ obs' →
  ∃ obs cbs, targetToKeysToCallbacks st !! t = Some obs ∧ (k, cbs) ∈ obs ∧
    cbs' = if bool_decide (t ∈ targets_of st cb) then jsset_delete cb cbs else cbs.
Proof.
  unfold clearReactivesForCallback, targets_of.
  destruct (callbacksToTargets st !! cb) as [ts|] eqn:Hts; simpl; intros [= <-]; simpl.
  - rewrite foldl_clear_target_lookup. case_bool_decide.
    + destruct (targetToKeysToCallbacks st !! t) as [obs|]; simpl; [|done].
      intros [= <-]. intros ([k0 cbs] & [= -> ->] & Hin)%list_elem_of_fmap.
      eauto.
    + intros Hl Hin. eauto.
  - intros Hl Hin. eauto.
Qed.

Lemma clearReactivesForCallback_registry_ok cb st st' :
  clearReactivesForCallback cb st = Ok tt st' → registry_ok st → registry_ok st'.
Proof.
  intros Hc Hok t obs' k cbs' Hl Hin.
  destruct (clearReactivesForCallback_entries _ _ _ _ _ _ _ Hc Hl Hin)
    as (obs & cbs & Hobs & Hin0 & ->).
  destruct (Hok _ _ _ _ Hobs Hin0) as [Hnd Hcons].
  split; [case_bool_decide; auto using NoDup_jsset_delete|].
  intros cb0 Hcb0. rewrite (clearReactivesForCallback_targets _ _ _ _ Hc).
  case_bool_decide as Ht.
  - apply elem_of_jsset_delete in Hcb0 as [Hne Hcb0].
    rewrite decide_False by done. auto.
  - case_decide as E; [subst; exfalso; auto|auto].
Qed.

Lemma fmap_clear_id cb (obs : list (Value * list Callback)) :
  (∀ k cbs, (k, cbs) ∈ obs → cb ∉ cbs) →
  prod_map id (jsset_delete cb) <$> obs = obs.
Proof.
  induction obs as [|[k cbs] obs IH]; intros H; simpl; [done|].
  unfold prod_map at 1; simpl. rewrite jsset_delete_notin by (eapply H; left).
  f_equal. apply IH. intros ???. eapply H. by right.
Qed.

(** Under the invariant of the registry, following the reverse index
    removes the callback from the whole registry. *)
Lemma clearReactivesForCallback_everywhere cb st :
  registry_ok st →
  clearReactivesForCallback cb st = Ok tt (remove_everywhere cb st).
Proof.
  intros Hok. unfold clearReactivesForCallback, remove_everywhere.
  assert (Hid : ∀ t obs, targetToKeysToCallbacks st !! t = Some obs →
                         t ∉ targets_of st cb →
                         prod_map id (jsset_delete cb) <$> obs = obs).
  { intros t obs Hobs Ht. apply fmap_clear_id. intros k cbs Hin Hcb.
    apply Ht. eapply Hok; eauto. }
  destruct (callbacksToTargets st !! cb) as [ts|] eqn:Hts.
  - f_equal. unfold set_c2t, set_t2k; simpl. f_equal.
    + apply map_eq. intros t. rewrite foldl_clear_target_lookup, lookup_fmap.
      case_bool_decide as Ht; [done|].
      destruct (targetToKeysToCallbacks st !! t) as [obs|] eqn:Hobs; simpl; [|done].
      f_equal. symmetry. eapply Hid; eauto. unfold targets_of. by rewrite Hts.
    + apply map_eq. intros c. rewrite lookup_alter, lookup_insert.
      case_decide; subst; [by rewrite Hts|done].
  - f_equal. destruct st as [h t2k c2t cache tr]; unfold set_c2t, set_t2k; simpl in *.
    f_equal.
    + apply map_eq. intros t. rewrite lookup_fmap.
      destruct (t2k !! t) as [obs|] eqn:Hobs; simpl; [|done].
      f_equal. symmetry. eapply Hid; eauto. unfold targets_of; simpl. rewrite Hts.
      apply not_elem_of_nil.
    + apply map_eq. intros c. rewrite lookup_alter.
      case_decide; subst; [by rewrite Hts|done].
Qed.

Lemma remove_everywhere_subscribers cb st t k :
  subscribers (remove_everywhere cb st) t k = jsset_delete cb (subscribers st t k).
Proof.
  unfold subscribers, remove_everywhere; simpl. rewrite lookup_fmap.
  destruct (targetToKeysToCallbacks st !! t) as [obs|]; simpl; [|done].
  rewrite jsmap_get_fmap. by destruct (jsmap_get k obs).
Qed.

(** ** Stepping through monadic code *)

Lemma bind_unfold {A B} (m : M A) (k : A → M B) st :
  bind m k st =
    match m st with
    | Ok a st' => k a st'
    | Throw e st' => Throw e st'
    | OutOfFuel => OutOfFuel
    end.
Proof. done. Qed.

Lemma ret_unfold {A} (a : A) st : ret a st = Ok a st.
Proof. done. Qed.

Lemma throw_unfold {A} e st : throw (A:=A) e st = Throw e st.
Proof. done. Qed.

Lemma modify_unfold f st : modify f st = Ok tt (f st).
Proof. done. Qed.

Lemma log_unfold e st : log e st = Ok tt (add_event e st).
Proof. done. Qed.

Lemma get_state_unfold st : get_state st = Ok st st.
Proof. done. Qed.

Lemma out_of_fuel_unfold {A} st : out_of_fuel (A:=A) st = OutOfFuel.
Proof. done. Qed.

(** Unfolds the monadic code applied to the current state, one
    operation after the other, without touching the continuations. *)
Ltac msteps :=
  repeat (progress (rewrite ?bind_unfold, ?ret_unfold, ?throw_unfold, ?modify_unfold,
                      ?log_unfold, ?get_state_unfold, ?out_of_fuel_unfold;
                    cbv beta iota)).

(** ** Events *)

Lemma notifications_app d a b :
  notifications d (a ++ b) = notifications d a ++ notifications d b.
Proof. apply omap_app. Qed.

Lemma calls_app d a b : calls d (a ++ b) = calls d a ++ calls d b.
Proof. apply omap_app. Qed.

Lemma notifications_notify d t k : notifications d [EvNotify d t k] = [(t, k)].
Proof. unfold notifications; simpl. by rewrite decide_True. Qed.

Lemma notifications_call d d' cb : notifications d [EvCall d' cb] = [].
Proof. done. Qed.

Lemma calls_call d cb : calls d [EvCall d cb] = [cb].
Proof. unfold calls; simpl. by rewrite decide_True. Qed.

Lemma calls_notify d d' t k : calls d [EvNotify d' t k] = [].
Proof. done. Qed.

Lemma deeper_events_silent d evs :
  Forall (fun e => d < ev_depth e) evs →
  notifications d evs = [] ∧ calls d evs = [].
Proof.
  induction 1 as [|e evs He _ [IH1 IH2]]; [done|].
  change (e :: evs) with ([e] ++ evs).
  rewrite notifications_app, calls_app, IH1, IH2.
  unfold notifications, calls.
  destruct e; simpl in *; rewrite ?decide_False by lia; done.
Qed.

Lemma new_events_app st st' evs : trace st' = trace st ++ evs → new_events st st' = evs.
Proof. intros H. unfold new_events. by rewrite H, drop_app_length. Qed.

(** ** The notifier, for any behaviour of the callbacks

    [Inv] is a condition on the states that the engine and the callbacks
    maintain; it may be taken to hold of every state. *)

Section Notifier.

Variable depth : nat.
Variable call : Callback → M unit.
Variable Inv : State → Prop.

Hypothesis Inv_clear :
  ∀ cb st st', clearReactivesForCallback cb st = Ok tt st' → Inv st → Inv st'.
Hypothesis Inv_event : ∀ e st, Inv st → Inv (add_event e st).
Hypothesis Inv_call :
  ∀ cb st st', Inv st → state_of (call cb st) = Some st' → Inv st'.

(** The loop of [notifyReactives] and the loop of the specification
    agree as long as the registry stays consistent. *)
Lemma notify_loop_refines (cbs : list Callback) st :
  (∀ st, Inv st → registry_ok st) →
  Inv st →
  for_each cbs (fun callback =>
    clearReactivesForCallback callback ;;;
    log (EvCall depth callback) ;;;
    call callback) st =
  for_each cbs (fun cb =>
    modify (remove_everywhere cb) ;;;
    log (EvCall depth cb) ;;;
    call cb) st.
Proof.
  intros Hreg. revert st. induction cbs as [|cb cbs IH]; intros st Hinv; simpl; [done|].
  msteps. rewrite (clearReactivesForCallback_everywhere cb st) by auto. msteps.
  assert (Hinv1 : Inv (add_event (EvCall depth cb) (remove_everywhere cb st))).
  { apply Inv_event. eapply Inv_clear; [|exact Hinv].
    apply clearReactivesForCallback_everywhere. auto. }
  destruct (call cb _) as [[] st1|e st1|] eqn:Hcall; [|done|done].
  apply IH. eapply Inv_call; [exact Hinv1|]. by rewrite Hcall.
Qed.

Lemma notifyReactives_refines t k st :
  (∀ st, Inv st → registry_ok st) →
  Inv st →
  notifyReactives depth call t k st = notify_spec depth call t k st.
Proof.
  intros Hreg Hinv. unfold notifyReactives, notify_spec.
  msteps. unfold subscribers. simpl.
  destruct (targetToKeysToCallbacks st !! t) as [m|]; [|done].
  destruct (jsmap_get k m) as [cbs|]; simpl; [|done].
  apply notify_loop_refines; auto.
Qed.

Lemma notifyReactives_preserves t k st st' :
  Inv st → state_of (notifyReactives depth call t k st) = Some st' → Inv st'.
Proof.
  intros Hinv. unfold notifyReactives. msteps.
  assert (Hinv0 : Inv (add_event (EvNotify depth t k) st)) by auto.
  destruct (targetToKeysToCallbacks _ !! t) as [m|]; [|msteps; by intros [= <-]].
  destruct (jsmap_get k m) as [cbs|]; [|msteps; by intros [= <-]].
  revert Hinv0. generalize (add_event (EvNotify depth t k) st). clear st Hinv.
  induction cbs as [|cb cbs IH]; intros st Hinv; simpl; [msteps; by intros [= <-]|].
  msteps. destruct (clearReactivesForCallback_returns cb st) as [st1 Hc]. rewrite Hc.
  msteps.
  assert (Hinv1 : Inv (add_event (EvCall depth cb) st1)) by eauto.
  destruct (call cb _) as [[] st2|e st2|] eqn:Hcall; simpl; [| |done].
  - apply IH. eapply Inv_call; [exact Hinv1|by rewrite Hcall].
  - intros [= <-]. eapply Inv_call; [exact Hinv1|by rewrite Hcall].
Qed.

Hypothesis call_quiet :
  ∀ cb st st', Inv st → state_of (call cb st) = Some st' → quiet depth st st'.

(** Events of the loop: one call per callback, in order, and nothing
    else at this depth. *)
Lemma notify_loop_events (cbs : list Callback) st :
  Inv st →
  match for_each cbs (fun callback =>
          clearReactivesForCallback callback ;;;
          log (EvCall depth callback) ;;;
          call callback) st with
  | Ok _ st' =>
      Inv st' ∧
      ∃ evs, trace st' = trace st ++ evs ∧ notifications depth evs = [] ∧
             calls depth evs = cbs
  | Throw _ st' =>
      Inv st' ∧
      ∃ evs, trace st' = trace st ++ evs ∧ notifications depth evs = [] ∧
             calls depth evs `prefix_of` cbs
  | OutOfFuel => True
  end.
Proof.
  revert st. induction cbs as [|cb cbs IH]; intros st Hinv; simpl.
  { msteps. split; [done|]. exists []. by rewrite app_nil_r. }
  msteps.
  destruct (clearReactivesForCallback_returns cb st) as [st1 Hc]. rewrite Hc.
  destruct (clearReactivesForCallback_frame _ _ _ Hc) as (_ & _ & Htr).
  msteps.
  assert (Hinv1 : Inv (add_event (EvCall depth cb) st1)) by eauto.
  destruct (call cb _) as [[] st2|e st2|] eqn:Hcall; [| |done].
  - destruct (call_quiet cb (add_event (EvCall depth cb) st1) st2)
      as (evs2 & Htr2 & Hdeep); [done|by rewrite Hcall|].
    simpl in Htr2. rewrite Htr in Htr2.
    destruct (deeper_events_silent _ _ Hdeep) as [Hn2 Hc2].
    assert (Hinv2 : Inv st2) by (eapply Inv_call; [exact Hinv1|by rewrite Hcall]).
    specialize (IH st2 Hinv2).
    destruct (for_each cbs _ st2) as [[] st3|e st3|]; [| |done].
    + destruct IH as (Hinv3 & evs & Htr3 & Hn3 & Hc3). split; [done|].
      exists ([EvCall depth cb] ++ evs2 ++ evs). split_and!.
      * rewrite Htr3, Htr2. by rewrite <- !app_assoc.
      * by rewrite !notifications_app, Hn2, Hn3.
      * by rewrite !calls_app, Hc2, Hc3, calls_call.
    + destruct IH as (Hinv3 & evs & Htr3 & Hn3 & Hc3). split; [done|].
      exists ([EvCall depth cb] ++ evs2 ++ evs). split_and!.
      * rewrite Htr3, Htr2. by rewrite <- !app_assoc.
      * by rewrite !notifications_app, Hn2, Hn3.
      * rewrite !calls_app, Hc2, calls_call. simpl. by apply prefix_cons.
  - destruct (call_quiet cb (add_event (EvCall depth cb) st1) st2)
      as (evs2 & Htr2 & Hdeep); [done|by rewrite Hcall|].
    simpl in Htr2. rewrite Htr in Htr2.
    destruct (deeper_events_silent _ _ Hdeep) as [Hn2 Hc2].
    split; [eapply Inv_call; [exact Hinv1|by rewrite Hcall]|].
    exists ([EvCall depth cb] ++ evs2). split_and!.
    + rewrite Htr2. by rewrite <- !app_assoc.
    + by rewrite !notifications_app, Hn2.
    + rewrite !calls_app, Hc2, calls_call. apply prefix_cons, prefix_nil.
Qed.

(** Events of [notifyReactives(target, key)]: the notification itself,
    then the calls of the callbacks subscribed when it started. *)
Lemma notifyReactives_events t k st :
  Inv st →
  match notifyReactives depth call t k st with
  | Ok _ st' =>
      Inv st' ∧
      ∃ evs, trace st' = trace st ++ evs ∧ notifications depth evs = [(t, k)] ∧
             calls depth evs = subscribers st t k
  | Throw _ st' =>
      Inv st' ∧
      ∃ evs, trace st' = trace st ++ evs ∧ notifications depth evs = [(t, k)] ∧
             calls depth evs `prefix_of` subscribers st t k
  | OutOfFuel => True
  end.
Proof.
  intros Hinv. unfold notifyReactives.
  msteps. unfold subscribers. simpl.
  assert (Hinv0 : Inv (add_event (EvNotify depth t k) st)) by auto.
  destruct (targetToKeysToCallbacks st !! t) as [m|]; simpl;
    [|msteps; split; [done|]; exists [EvNotify depth t k];
      by rewrite notifications_notify].
  destruct (jsmap_get k m) as [cbs|]; simpl;
    [|msteps; split; [done|]; exists [EvNotify depth t k];
      by rewrite notifications_notify].
  pose proof (notify_loop_events cbs (add_event (EvNotify depth t k) st) Hinv0) as H.
  destruct (for_each cbs _ _) as [[] st'|e st'|]; [| |done].
  - destruct H as (Hinv' & evs & Htr & Hn' & Hc). split; [done|].
    exists ([EvNotify depth t k] ++ evs).
    split_and!; [by rewrite Htr; simpl; rewrite <- app_assoc| |].
    + by rewrite notifications_app, notifications_notify, Hn'.
    + by rewrite calls_app, calls_notify.
  - destruct H as (Hinv' & evs & Htr & Hn' & Hc). split; [done|].
    exists ([EvNotify depth t k] ++ evs).
    split_and!; [by rewrite Htr; simpl; rewrite <- app_assoc| |].
    + by rewrite notifications_app, notifications_notify, Hn'.
    + by rewrite calls_app, calls_notify.
Qed.

End Notifier.

Lemma notifyReactives_returns depth call t k st :
  (∀ cb st, returns (call cb st)) → returns (notifyReactives depth call t k st).
Proof.
  intros Hret. unfold notifyReactives.
  msteps.
  destruct (targetToKeysToCallbacks _ !! t) as [m|]; [|done].
  destruct (jsmap_get k m) as [cbs|]; simpl; [|done].
  generalize (add_event (EvNotify depth t k) st). clear st.
  induction cbs as [|cb cbs IH]; intros st; simpl; [done|].
  msteps.
  destruct (clearReactivesForCallback_returns cb st) as [st1 ->].
  msteps.
  specialize (Hret cb (add_event (EvCall depth cb) st1)).
  destruct (call cb _) as [[] st2|e st2|]; [|done|done]. apply IH.
Qed.

(** ** Clearing is per callback *)

Lemma same_subscriptions_refl cb st : same_subscriptions cb st st.
Proof. done. Qed.

Lemma same_subscriptions_trans cb st1 st2 st3 :
  same_subscriptions cb st1 st2 → same_subscriptions cb st2 st3 →
  same_subscriptions cb st1 st3.
Proof.
  intros [H1 H1'] [H2 H2']. split; [|congruence].
  intros t k. by rewrite H2, H1.
Qed.

Lemma clearReactivesForCallback_others cb cb2 st st' :
  cb ≠ cb2 →
  clearReactivesForCallback cb st = Ok tt st' →
  same_subscriptions cb2 st st' ∧
  ∀ t k, jsset_delete cb (subscribers st' t k) = jsset_delete cb (subscribers st t k).
Proof.
  intros Hne Hc. split; [split|].
  - intros t k. rewrite (clearReactivesForCallback_subscribers _ _ _ _ _ Hc).
    case_bool_decide; [|done]. rewrite elem_of_jsset_delete.
    split; [tauto|]. intros ?. split; [congruence|done].
  - rewrite (clearReactivesForCallback_targets _ _ _ _ Hc). by rewrite decide_False.
  - intros t k. rewrite (clearReactivesForCallback_subscribers _ _ _ _ _ Hc).
    case_bool_decide; [|done]. apply jsset_delete_idemp.
Qed.

Section Frame.

Variable depth : nat.
Variable call : Callback → M unit.
Variable cb2 : Callback.

Hypothesis call_frame :
  ∀ c st1 st2, c ≠ cb2 → state_of (call c st1) = Some st2 → same_subscriptions cb2 st1 st2.

Lemma notify_loop_others (cbs : list Callback) st st' :
  cb2 ∉ cbs →
  state_of (for_each cbs (fun callback =>
              clearReactivesForCallback callback ;;;
              log (EvCall depth callback) ;;;
              call callback) st) = Some st' →
  same_subscriptions cb2 st st'.
Proof.
  revert st. induction cbs as [|cb cbs IH]; intros st Hnot; simpl.
  { msteps. simpl. by intros [= <-]. }
  apply not_elem_of_cons in Hnot as [Hne Hnot].
  msteps.
  destruct (clearReactivesForCallback_returns cb st) as [st1 Hc]. rewrite Hc. msteps.
  destruct (clearReactivesForCallback_others cb cb2 st st1) as [Hs1 _]; [done..|].
  assert (Hs2 : same_subscriptions cb2 st (add_event (EvCall depth cb) st1)) by done.
  destruct (call cb _) as [[] st2|e st2|] eqn:Hcall; simpl; [| |done].
  - intros Hst. eapply same_subscriptions_trans; [exact Hs2|].
    eapply same_subscriptions_trans; [|by apply (IH st2)].
    eapply call_frame; [|by rewrite Hcall]. done.
  - intros [= <-]. eapply same_subscriptions_trans; [exact Hs2|].
    eapply call_frame; [|by rewrite Hcall]. done.
Qed.

Lemma notifyReactives_others t k st st' :
  cb2 ∉ subscribers st t k →
  state_of (notifyReactives depth call t k st) = Some st' →
  same_subscriptions cb2 st st'.
Proof.
  unfold notifyReactives, subscribers. msteps. simpl.
  destruct (targetToKeysToCallbacks st !! t) as [m|]; [|msteps; by intros _ [= <-]].
  destruct (jsmap_get k m) as [cbs|]; simpl; [|msteps; by intros _ [= <-]].
  intros Hnot Hst.
  by apply (notify_loop_others cbs (add_event (EvNotify depth t k) st)).
Qed.

End Frame.

(** ** Steps of the engine *)

Lemma prim_depth_mono d d' st st' : d' ≤ d → prim d st st' → prim d' st st'.
Proof.
  intros Hle H. destruct H; try (econstructor; eauto; fail).
  apply prim_log. lia.
Qed.

Lemma steps_depth_mono d d' st st' : d' ≤ d → steps d st st' → steps d' st st'.
Proof.
  intros Hle H. induction H as [|st1 st2 st3 H12 _ IH]; [apply rtc_refl|].
  eapply rtc_l; [|exact IH]. by eapply prim_depth_mono.
Qed.

Lemma steps_refl d st : steps d st st.
Proof. apply rtc_refl. Qed.

Lemma steps_trans d st1 st2 st3 : steps d st1 st2 → steps d st2 st3 → steps d st1 st3.
Proof. apply rtc_trans. Qed.

Lemma steps_prim d st st' : prim d st st' → steps d st st'.
Proof. apply rtc_once. Qed.

Lemma res_steps_trans d st0 st {A} (r : Res A) :
  steps d st0 st → res_steps d st r → res_steps d st0 r.
Proof. intros H. destruct r; simpl; eauto using steps_trans. Qed.

Lemma res_steps_depth_mono d d' st0 {A} (r : Res A) :
  d' ≤ d → res_steps d st0 r → res_steps d' st0 r.
Proof. intros H. destruct r; simpl; eauto using steps_depth_mono. Qed.

Lemma res_steps_bind d st0 {A B} (m : M A) (k : A → M B) st :
  res_steps d st0 (m st) →
  (∀ a st1, m st = Ok a st1 → steps d st0 st1 → res_steps d st0 (k a st1)) →
  res_steps d st0 (bind m k st).
Proof.
  intros Hm Hk. rewrite bind_unfold. destruct (m st) as [a st1|e st1|]; simpl in *; eauto.
Qed.

Lemma res_steps_same d st0 st {A} (r : Res A) :
  steps d st0 st → (∀ st', state_of r = Some st' → st' = st) → res_steps d st0 r.
Proof.
  intros Hst H. destruct r as [a st'|e st'|]; simpl in *; [| |done];
    by rewrite (H st' eq_refl).
Qed.

(** Proxies stay where they are, and so do the kinds of the other
    objects. *)
Lemma prim_heap_proxy d st st' p t cb h :
  prim d st st' → heap st !! p = Some (OProxy t cb h) → heap st' !! p = Some (OProxy t cb h).
Proof.
  intros H Hp. destruct H; simpl; try done.
  - by destruct (observeTargetKey_frame _ _ _ _ _ H0) as (-> & _).
  - by destruct (clearReactivesForCallback_frame _ _ _ H) as (-> & _).
  - by apply lookup_app_l_Some.
  - destruct (decide (l = p)) as [->|]; [congruence|]. by rewrite list_lookup_insert_ne.
  - by apply lookup_app_l_Some.
  - by apply lookup_app_l_Some.
  - destruct (decide (l = p)) as [->|]; [congruence|]. by rewrite list_lookup_insert_ne.
  - by apply lookup_app_l_Some.
  - destruct (decide (l = p)) as [->|]; [congruence|]. by rewrite list_lookup_insert_ne.
  - by apply lookup_app_l_Some.
Qed.

Lemma steps_heap_proxy d st st' p t cb h :
  steps d st st' → heap st !! p = Some (OProxy t cb h) → heap st' !! p = Some (OProxy t cb h).
Proof. induction 1; eauto using prim_heap_proxy. Qed.

Lemma steps_has_view d st st' t cb : steps d st st' → has_view st t cb → has_view st' t cb.
Proof. intros H (p & h & Hp). exists p, h. eauto using steps_heap_proxy. Qed.

Lemma prim_heap_raw d st st' l o :
  prim d st st' → heap st !! l = Some (ORaw o) →
  ∃ o', heap st' !! l = Some (ORaw o') ∧ raw_evolves o o'.
Proof.
  assert (Hrefl : raw_evolves o o) by done.
  intros H Hl. destruct H; simpl; eauto.
  - destruct (observeTargetKey_frame _ _ _ _ _ H0) as (-> & _). eauto.
  - destruct (clearReactivesForCallback_frame _ _ _ H) as (-> & _). eauto.
  - exists o. split; [by apply lookup_app_l_Some|done].
  - destruct (decide (l0 = l)) as [->|].
    + rewrite list_lookup_insert_eq by (by eapply lookup_lt_Some).
      exists o'. split; [done|congruence].
    + rewrite list_lookup_insert_ne by done. eauto.
  - exists o. split; [by apply lookup_app_l_Some|done].
  - exists o. split; [by apply lookup_app_l_Some|done].
  - destruct (decide (l0 = l)) as [->|]; [congruence|].
    rewrite list_lookup_insert_ne by done. eauto.
  - exists o. split; [by apply lookup_app_l_Some|done].
  - destruct (decide (l0 = l)) as [->|]; [congruence|].
    rewrite list_lookup_insert_ne by done. eauto.
  - exists o. split; [by apply lookup_app_l_Some|done].
Qed.

Lemma raw_evolves_trans o1 o2 o3 : raw_evolves o1 o2 → raw_evolves o2 o3 → raw_evolves o1 o3.
Proof. intros (?&?&?&?) (?&?&?&?). split_and!; [congruence|auto..]. Qed.

Lemma steps_heap_raw d st st' l o :
  steps d st st' → heap st !! l = Some (ORaw o) →
  ∃ o', heap st' !! l = Some (ORaw o') ∧ raw_evolves o o'.
Proof.
  intros H. revert o. induction H as [|st1 st2 st3 H12 _ IH]; intros o Hl.
  - exists o. done.
  - destruct (prim_heap_raw _ _ _ _ _ H12 Hl) as (o2 & Hl2 & He2).
    destruct (IH _ Hl2) as (o3 & Hl3 & He3). eauto using raw_evolves_trans.
Qed.

Lemma prim_heap_gen d st st' l gen :
  prim d st st' → heap st !! l = Some (OGen gen) →
  ∃ gen', heap st' !! l = Some (OGen gen') ∧
          g_target gen' = g_target gen ∧ g_callback gen' = g_callback gen.
Proof.
  intros H Hl. destruct H; simpl; eauto.
  - destruct (observeTargetKey_frame _ _ _ _ _ H0) as (-> & _). eauto.
  - destruct (clearReactivesForCallback_frame _ _ _ H) as (-> & _). eauto.
  - exists gen. split; [by apply lookup_app_l_Some|done].
  - destruct (decide (l0 = l)) as [->|]; [congruence|].
    rewrite list_lookup_insert_ne by done. eauto.
  - exists gen. split; [by apply lookup_app_l_Some|done].
  - exists gen. split; [by apply lookup_app_l_Some|done].
  - destruct (decide (l0 = l)) as [->|].
    + rewrite list_lookup_insert_eq by (by eapply lookup_lt_Some).
      exists gen'. split; [done|]. assert (gen0 = gen) as -> by congruence. done.
    + rewrite list_lookup_insert_ne by done. eauto.
  - exists gen. split; [by apply lookup_app_l_Some|done].
  - destruct (decide (l0 = l)) as [->|]; [congruence|].
    rewrite list_lookup_insert_ne by done. eauto.
  - exists gen. split; [by apply lookup_app_l_Some|done].
Qed.

(** An object made by [Object.create(proxy)] stays as it is. *)
Lemma prim_heap_heir d st st' l p :
  prim d st st' → heap st !! l = Some (OHeir p) → heap st' !! l = Some (OHeir p).
Proof.
  intros H Hp. destruct H; simpl; try done.
  - by destruct (observeTargetKey_frame _ _ _ _ _ H0) as (-> & _).
  - by destruct (clearReactivesForCallback_frame _ _ _ H) as (-> & _).
  - by apply lookup_app_l_Some.
  - destruct (decide (l0 = l)) as [->|]; [congruence|]. by rewrite list_lookup_insert_ne.
  - by apply lookup_app_l_Some.
  - by apply lookup_app_l_Some.
  - destruct (decide (l0 = l)) as [->|]; [congruence|]. by rewrite list_lookup_insert_ne.
  - by apply lookup_app_l_Some.
  - destruct (decide (l0 = l)) as [->|]; [congruence|]. by rewrite list_lookup_insert_ne.
  - by apply lookup_app_l_Some.
Qed.

Lemma steps_heap_heir d st st' l p :
  steps d st st' → heap st !! l = Some (OHeir p) → heap st' !! l = Some (OHeir p).
Proof. induction 1; eauto using prim_heap_heir. Qed.

Lemma prim_has_view d st st' t cb : prim d st st' → has_view st t cb → has_view st' t cb.
Proof. intros H (p & h & Hp). exists p, h. eauto using prim_heap_proxy. Qed.

Lemma prim_generators_ok d st st' : prim d st st' → generators_ok st → generators_ok st'.
Proof.
  intros H Hok lg g Hl.
  assert (Hold : ∀ g0, heap st !! lg = Some (OGen g0) → g_target g = g_target g0 →
                       g_callback g = g_callback g0 →
                       has_view st' (g_target g) (g_callback g)).
  { intros g0 Hg0 -> ->. eapply prim_has_view; eauto. }
  assert (Happ : ∀ o, heap st' = heap st ++ [o] → (∀ g0, o ≠ OGen g0) →
                      has_view st' (g_target g) (g_callback g)).
  { intros o Heq Ho. rewrite Heq in Hl.
    apply lookup_app_Some in Hl as [Hl|[_ Hl]]; [by eapply Hold|].
    apply list_lookup_singleton_Some in Hl as [_ Ho']. by destruct (Ho g). }
  assert (Hins : ∀ l0 o, heap st' = <[l0 := o]> (heap st) →
                 (∀ g0, o = OGen g0 → ∃ g1, heap st !! l0 = Some (OGen g1) ∧
                        g_target g0 = g_target g1 ∧ g_callback g0 = g_callback g1) →
                 has_view st' (g_target g) (g_callback g)).
  { intros l0 o Heq Ho. rewrite Heq in Hl.
    destruct (decide (l0 = lg)) as [->|].
    - apply list_lookup_insert_Some in Hl as [(_ & -> & _)|[? _]]; [|done].
      destruct (Ho g eq_refl) as (g1 & Hg1 & Ht & Hc). eauto.
    - rewrite list_lookup_insert_ne in Hl by done. eauto. }
  destruct H; simpl in *.
  - eauto.
  - destruct (observeTargetKey_frame _ _ _ _ _ H0) as (Hh & _). rewrite Hh in Hl. eauto.
  - destruct (clearReactivesForCallback_frame _ _ _ H) as (Hh & _). rewrite Hh in Hl. eauto.
  - by eapply (Happ (ORaw o)).
  - by eapply (Hins l (ORaw o')).
  - by eapply (Happ (OProxy t cb (handler_for (tag_of o)))).
  - eauto.
  - eauto.
  - apply lookup_app_Some in Hl as [Hl|[_ Hl]]; [by eapply Hold|].
    apply list_lookup_singleton_Some in Hl as [_ Hg]. simplify_eq.
    eapply (prim_has_view d); [|eassumption]. by apply prim_alloc_gen.
  - eapply (Hins l (OGen gen')); [done|]. intros g0 [= <-]. eauto.
  - by eapply (Happ (OIter t k m pos finished)).
  - by eapply (Hins l (OIter t' k' m' pos' finished')).
  - by eapply (Happ (OHeir p)).
Qed.

Lemma steps_generators_ok d st st' : steps d st st' → generators_ok st → generators_ok st'.
Proof. induction 1; eauto using prim_generators_ok. Qed.

(** ** Own properties *)

Lemma props_get_put k k' d ps :
  props_get k' (props_put k d ps) = if decide (k = k') then Some d else props_get k' ps.
Proof.
  induction ps as [|[k0 d0] ps IH]; simpl.
  - repeat case_decide; congruence.
  - destruct (decide (k0 = k)) as [->|]; simpl; repeat case_decide; congruence.
Qed.

Lemma props_get_remove k k' ps :
  props_get k' (props_remove k ps) = if decide (k = k') then None else props_get k' ps.
Proof.
  induction ps as [|[k0 d0] ps IH]; simpl.
  - by case_decide.
  - destruct (decide (k0 = k)) as [->|]; simpl; repeat case_decide; congruence.
Qed.

Lemma props_get_fmap (f : PropDesc → PropDesc) k ps :
  props_get k (prod_map id f <$> ps) = f <$> props_get k ps.
Proof.
  induction ps as [|[k0 d0] ps IH]; simpl; [done|]. by case_decide.
Qed.

Lemma obj_has_put k k' d o :
  obj_has k' (with_props (props_put k d (o_props o)) o) =
    if decide (k = k') then true else obj_has k' o.
Proof. unfold obj_has; simpl. rewrite props_get_put. by case_decide. Qed.

Lemma obj_has_remove k k' o :
  obj_has k' (with_props (props_remove k (o_props o)) o) =
    if decide (k = k') then false else obj_has k' o.
Proof. unfold obj_has; simpl. rewrite props_get_remove. by case_decide. Qed.

Lemma raw_evolves_refl o : raw_evolves o o.
Proof. done. Qed.

Lemma raw_evolves_put k d o :
  k ≠ KSym TARGET → k ≠ KSym ToStringTag →
  raw_evolves o (with_props (props_put k d (o_props o)) o).
Proof.
  intros Hk Hk'. split_and!; [done|..]; rewrite obj_has_put; case_decide; congruence.
Qed.

Lemma raw_evolves_set k v o :
  k ≠ KSym TARGET → k ≠ KSym ToStringTag → raw_evolves o (obj_set k v o).1.
Proof.
  intros Hk Hk'. unfold obj_set.
  destruct (props_get k (o_props o)) as [d|].
  - destruct (p_writable d); simpl; auto using raw_evolves_put, raw_evolves_refl.
  - destruct (o_extensible o); simpl; auto using raw_evolves_put, raw_evolves_refl.
Qed.

Lemma raw_evolves_delete k o : k ≠ KSym SKIP → raw_evolves o (obj_delete k o).1.
Proof.
  intros Hk. unfold obj_delete.
  destruct (props_get k (o_props o)) as [d|]; [|apply raw_evolves_refl].
  destruct (p_configurable d); simpl; [|apply raw_evolves_refl].
  split_and!; [done|..]; rewrite obj_has_remove; case_decide; congruence.
Qed.

Lemma raw_evolves_data d o : raw_evolves o (with_data d o).
Proof. done. Qed.

Lemma raw_evolves_freeze o : raw_evolves o (freeze_props o).
Proof.
  split_and!; [done|..]; unfold obj_has; simpl; rewrite props_get_fmap;
    by destruct (props_get _ _).
Qed.

Lemma raw_evolves_prevent o :
  raw_evolves o (mkRaw (o_class o) (o_props o) false (o_data o)).
Proof. done. Qed.

(** *** Arrays *)

Lemma props_get_filter (P : PropKey → bool) k ps :
  props_get k (filter (fun p : PropKey * PropDesc => P p.1 = true) ps) =
    if P k then props_get k ps else None.
Proof.
  induction ps as [|[k0 d0] ps IH]; simpl; [by destruct (P k)|].
  destruct (decide (k0 = k)) as [->|Hne].
  - destruct (P k) eqn:HP.
    + rewrite filter_cons_True by done. simpl. by rewrite decide_True.
    + rewrite filter_cons_False by (simpl; congruence). exact IH.
  - destruct (P k0) eqn:HP0.
    + rewrite filter_cons_True by done. simpl. rewrite decide_False by done. exact IH.
    + rewrite filter_cons_False by (simpl; congruence). exact IH.
Qed.

(** The properties left when the elements from [n] on are deleted. *)
Lemma props_get_truncate n k ps :
  props_get k (filter (fun p : PropKey * PropDesc => has_index_from n p.1 = false) ps) =
    if has_index_from n k then None else props_get k ps.
Proof.
  rewrite (list_filter_iff _ (fun p : PropKey * PropDesc => negb (has_index_from n p.1) = true)).
  - rewrite (props_get_filter (fun k => negb (has_index_from n k))).
    by destruct (has_index_from n k).
  - intros [k0 d0]. simpl. by destruct (has_index_from n k0).
Qed.


Lemma put_length_class n o : o_class (put_length n o) = o_class o.
Proof. unfold put_length. by destruct (props_get _ _). Qed.

Lemma raw_evolves_put_length n o : raw_evolves o (put_length n o).
Proof.
  unfold put_length. destruct (props_get (KStr "length") (o_props o)) as [d|];
    [|apply raw_evolves_refl].
  by apply raw_evolves_put.
Qed.

Lemma raw_evolves_truncate n o :
  raw_evolves o
    (with_props (filter (fun p : PropKey * PropDesc => has_index_from n p.1 = false)
                   (o_props o)) o).
Proof.
  split_and!; [done|..]; unfold obj_has; simpl; by rewrite props_get_truncate.
Qed.

Lemma raw_evolves_array_set_length n o : raw_evolves o (array_set_length n o).1.
Proof.
  unfold array_set_length. destruct (stuck_index n (o_props o)); simpl;
    (eapply raw_evolves_trans; [apply raw_evolves_truncate|apply raw_evolves_put_length]).
Qed.

Lemma raw_evolves_reflect_set k v o r :
  k ≠ KSym TARGET → k ≠ KSym ToStringTag →
  reflect_set k v o = Done r → raw_evolves o r.1.
Proof.
  intros Hk Hk'. unfold reflect_set.
  destruct (props_get k (o_props o)) as [d|].
  - destruct (p_writable d); simpl; [|intros [= <-]; apply raw_evolves_refl].
    destruct (is_array o && bool_decide (k = KStr "length")).
    + destruct (to_length v) as [n|e|]; [|done..].
      destruct (array_length o); [|done].
      intros [= <-]. apply raw_evolves_array_set_length.
    + intros [= <-]. by apply raw_evolves_set.
  - destruct (proto_lookup (o_class o) k);
      try (intros [= <-]; apply raw_evolves_refl); try done.
    + destruct (is_array o), (array_index k) as [i|];
        try (intros [= <-]; by apply raw_evolves_set).
      destruct (array_length o) as [len|]; [|done].
      destruct (props_get (KStr "length") (o_props o)) as [dlen|]; [|done].
      destruct (i <? len)%N; [intros [= <-]; by apply raw_evolves_set|].
      destruct (p_writable dlen); simpl; [|intros [= <-]; apply raw_evolves_refl].
      destruct (o_extensible o); intros [= <-]; [|apply raw_evolves_refl].
      simpl. eapply raw_evolves_trans; [by apply raw_evolves_set|apply raw_evolves_put_length].
    + destruct (is_array o), (array_index k) as [i|];
        try (intros [= <-]; by apply raw_evolves_set).
      destruct (array_length o) as [len|]; [|done].
      destruct (props_get (KStr "length") (o_props o)) as [dlen|]; [|done].
      destruct (i <? len)%N; [intros [= <-]; by apply raw_evolves_set|].
      destruct (p_writable dlen); simpl; [|intros [= <-]; apply raw_evolves_refl].
      destruct (o_extensible o); intros [= <-]; [|apply raw_evolves_refl].
      simpl. eapply raw_evolves_trans; [by apply raw_evolves_set|apply raw_evolves_put_length].
Qed.

Lemma raw_evolves_define_own k d o o' :
  k ≠ KSym TARGET → k ≠ KSym ToStringTag →
  define_own k d o = Done o' → raw_evolves o o'.
Proof.
  intros Hk Hk'. unfold define_own.
  destruct (is_array o && bool_decide (k = KStr "length")); [done|].
  destruct (props_get k (o_props o)) as [old|].
  - destruct (p_configurable old); [intros [= <-]; by apply raw_evolves_put|].
    destruct (p_configurable d); [done|].
    destruct (p_writable old); [intros [= <-]; by apply raw_evolves_put|].
    destruct (p_writable d); [done|].
    case_bool_decide; [intros [= <-]; apply raw_evolves_refl|done].
  - destruct (o_extensible o); simpl; [|done].
    destruct (is_array o), (array_index k) as [i|];
      try (intros [= <-]; by apply raw_evolves_put).
    destruct (array_length o) as [len|]; [|done].
    destruct (props_get (KStr "length") (o_props o)) as [dlen|]; [|done].
    destruct (i <? len)%N; [intros [= <-]; by apply raw_evolves_put|].
    destruct (p_writable dlen); simpl; [|done].
    intros [= <-].
    eapply raw_evolves_trans; [by apply raw_evolves_put|apply raw_evolves_put_length].
Qed.

(** *** What is inherited *)

Lemma reflect_get_own k o d :
  props_get k (o_props o) = Some d → reflect_get k o = Some (p_value d).
Proof. unfold reflect_get. by intros ->. Qed.

Lemma reflect_get_private k o :
  is_private k = true → reflect_get k o = Some (obj_get k o).
Proof.
  intros Hk. unfold reflect_get, obj_get.
  destruct (props_get k (o_props o)); [done|].
  by destruct k as [|[]].
Qed.

Lemma reflect_has_own k o : obj_has k o = true → reflect_has k o = Some true.
Proof. unfold reflect_has. by intros ->. Qed.

Lemma reflect_has_private k o :
  is_private k = true → reflect_has k o = Some (obj_has k o).
Proof.
  intros Hk. unfold reflect_has. destruct (obj_has k o); [done|].
  by destruct k as [|[]].
Qed.

Lemma reflect_set_own k v o d :
  props_get k (o_props o) = Some d →
  is_array o && bool_decide (k = KStr "length") = false →
  reflect_set k v o = Done (obj_set k v o).
Proof.
  intros Hd Ha. unfold reflect_set, obj_set. rewrite Hd, Ha.
  by destruct (p_writable d).
Qed.

Lemma reflect_set_refused k v o d :
  props_get k (o_props o) = Some d → p_writable d = false →
  reflect_set k v o = Done (o, false).
Proof. intros Hd Hw. unfold reflect_set. by rewrite Hd, Hw. Qed.

Lemma reflect_set_private k v o :
  is_private k = true → reflect_set k v o = Done (obj_set k v o).
Proof.
  intros Hk. unfold reflect_set, obj_set.
  destruct (props_get k (o_props o)) as [d|] eqn:Hd.
  - replace (is_array o && bool_decide (k = KStr "length")) with false
      by (destruct k; [done|]; by rewrite bool_decide_eq_false_2, andb_false_r).
    by destruct (p_writable d).
  - assert (Hi : array_index k = None) by (by destruct k).
    rewrite Hi. destruct k as [|[]]; try done; simpl; by destruct (is_array o).
Qed.

(** The tag of an object that has no [Symbol.toStringTag] of its own is
    the one of its class. *)
Lemma tag_of_class o : obj_has (KSym ToStringTag) o = false → tag_of o = class_tag (o_class o).
Proof.
  unfold obj_has, tag_of, reflect_get.
  destruct (props_get (KSym ToStringTag) (o_props o)); [done|]. intros _.
  by destruct (o_class o).
Qed.

(** ** Every function of the engine proceeds by steps *)

Lemma stable_True d : stable d (fun _ => True).
Proof. done. Qed.

Lemma stable_has_view d t cb : stable d (fun st => has_view st t cb).
Proof. intros st st' H. by eapply steps_has_view. Qed.

Lemma stable_generators_ok d : stable d generators_ok.
Proof. intros st st' H. by eapply steps_generators_ok. Qed.

Lemma stable_and d (P Q : State → Prop) :
  stable d P → stable d Q → stable d (fun st => P st ∧ Q st).
Proof. intros HP HQ st st' H [? ?]. split; eauto. Qed.

Lemma sound_weaken d (P Q : State → Prop) {A} (m : M A) :
  (∀ st, Q st → P st) → sound d P m → sound d Q m.
Proof. intros H Hm st HQ. apply Hm. auto. Qed.

Lemma sound_bind d P {A B} (m : M A) (k : A → M B) :
  stable d P → sound d P m → (∀ a, sound d P (k a)) → sound d P (bind m k).
Proof.
  intros HP Hm Hk st Hst. apply res_steps_bind; [by apply Hm|].
  intros a st1 _ Hst1. eapply res_steps_trans; [exact Hst1|]. apply Hk. eauto.
Qed.

Lemma sound_ret d P {A} (a : A) : sound d P (ret a).
Proof. intros st _. apply steps_refl. Qed.

Lemma sound_throw d P {A} e : sound d P (throw (A:=A) e).
Proof. intros st _. apply steps_refl. Qed.

Lemma sound_out_of_fuel d P {A} : sound d P (out_of_fuel (A:=A)).
Proof. by intros st _. Qed.

Lemma sound_get_state d P : sound d P get_state.
Proof. intros st _. apply steps_refl. Qed.

Lemma sound_when d P b m : sound d P m → sound d P (when b m).
Proof. destruct b; [done|]. intros _. apply sound_ret. Qed.

Lemma sound_for_each d P {A} (xs : list A) f :
  stable d P → (∀ x, sound d P (f x)) → sound d P (for_each xs f).
Proof.
  intros HP Hf. induction xs as [|x xs IH]; simpl; [apply sound_ret|].
  apply sound_bind; auto.
Qed.

Lemma sound_log d P e : d ≤ ev_depth e → sound d P (log e).
Proof. intros He st _. apply steps_prim. by constructor. Qed.

Lemma sound_raw_obj d P l : sound d P (raw_obj l).
Proof. intros st _. unfold raw_obj. by destruct (heap st !! l) as [[]|]; apply steps_refl. Qed.

Lemma raw_obj_inv l st o st' :
  raw_obj l st = Ok o st' → st' = st ∧ heap st !! l = Some (ORaw o).
Proof. unfold raw_obj. destruct (heap st !! l) as [[]|]; naive_solver. Qed.

Lemma get_state_inv st s st' : get_state st = Ok s st' → s = st ∧ st' = st.
Proof. by intros [= -> ->]. Qed.

Lemma update_raw_steps d st0 st l o o' :
  steps d st0 st → heap st !! l = Some (ORaw o) → raw_evolves o o' →
  res_steps d st0 (update_raw l o' st).
Proof.
  intros Hst Hl He. simpl. eapply steps_trans; [exact Hst|].
  apply steps_prim. by eapply prim_update.
Qed.

Lemma update_raw_inv l o' st st' :
  update_raw l o' st = Ok tt st' → st' = set_heap (<[l := ORaw o']> (heap st)) st.
Proof. by intros [= <-]. Qed.

Lemma sound_observeTargetKey d t k cb :
  sound d (fun st => has_view st t cb) (observeTargetKey t k cb).
Proof.
  intros st Hv. destruct (observeTargetKey_returns t k cb st) as [st' H].
  rewrite H. simpl. apply steps_prim. by eapply prim_observe.
Qed.

Lemma sound_clearReactivesForCallback d P cb : sound d P (clearReactivesForCallback cb).
Proof.
  intros st _. destruct (clearReactivesForCallback_returns cb st) as [st' H].
  rewrite H. simpl. apply steps_prim. by eapply prim_clear.
Qed.

Lemma sound_getSubscriptions d P cb : sound d P (getSubscriptions cb).
Proof. intros st _. apply steps_refl. Qed.

Lemma sound_any d (P : State → Prop) {A} (m : M A) :
  sound d (fun _ => True) m → sound d P m.
Proof. apply sound_weaken. done. Qed.

Lemma sound_get_state_bind d P {B} (k : State → M B) :
  (∀ st, P st → res_steps d st (k st st)) → sound d P (bind get_state k).
Proof. intros H st Hst. msteps. by apply H. Qed.

Lemma sound_use d (P : State → Prop) {A} (m : M A) st :
  sound d P m → P st → res_steps d st (m st).
Proof. intros H. apply H. Qed.

Lemma res_steps_sound d st0 st (P : State → Prop) {A} (m : M A) :
  steps d st0 st → sound d P m → P st → res_steps d st0 (m st).
Proof. intros Hst Hm HP. eapply res_steps_trans; [exact Hst|]. by apply Hm. Qed.

Lemma res_steps_ret d st0 st {A} (a : A) : steps d st0 st → res_steps d st0 (ret a st).
Proof. done. Qed.

Lemma res_steps_throw d st0 st {A} e :
  steps d st0 st → res_steps d st0 (throw (A:=A) e st).
Proof. done. Qed.

Lemma res_steps_raw_obj_bind d st0 st l {B} (k : RawObj → M B) :
  steps d st0 st →
  (∀ o, heap st !! l = Some (ORaw o) → res_steps d st0 (k o st)) →
  res_steps d st0 (bind (raw_obj l) k st).
Proof.
  intros Hst Hk. rewrite bind_unfold. unfold raw_obj.
  destruct (heap st !! l) as [[]|] eqn:Hl; simpl; auto.
Qed.

Lemma res_steps_update_bind d st0 st l o o' {B} (k : unit → M B) :
  steps d st0 st →
  heap st !! l = Some (ORaw o) →
  raw_evolves o o' →
  (∀ st1, steps d st0 st1 → res_steps d st0 (k tt st1)) →
  res_steps d st0 (bind (update_raw l o') k st).
Proof.
  intros Hst Hl He Hk. rewrite bind_unfold. unfold update_raw. msteps.
  apply Hk. eapply steps_trans; [exact Hst|]. apply steps_prim. by eapply prim_update.
Qed.

Lemma res_steps_alloc_raw_bind d st0 st o {B} (k : loc → M B) :
  steps d st0 st →
  obj_has (KSym TARGET) o = false →
  obj_has (KSym SKIP) o = false →
  obj_has (KSym ToStringTag) o = false →
  (∀ l st1, steps d st0 st1 → res_steps d st0 (k l st1)) →
  res_steps d st0 (bind (alloc (ORaw o)) k st).
Proof.
  intros Hst H1 H2 H3 Hk. rewrite bind_unfold. unfold alloc.
  apply Hk. eapply steps_trans; [exact Hst|]. apply steps_prim. by constructor.
Qed.

Lemma sound_within d P {A} (x : option A) : sound d P (within x).
Proof. destruct x; [apply sound_ret|apply sound_out_of_fuel]. Qed.

Lemma sound_outcome d P {A} (x : Outcome A) : sound d P (outcome x).
Proof. destruct x; [apply sound_ret|apply sound_throw|apply sound_out_of_fuel]. Qed.

Lemma within_inv {A} (x : option A) st a st' :
  within x st = Ok a st' → x = Some a ∧ st' = st.
Proof. destruct x; [by intros [= -> ->]|done]. Qed.

Lemma outcome_inv {A} (x : Outcome A) st a st' :
  outcome x st = Ok a st' → x = Done a ∧ st' = st.
Proof. destruct x; [by intros [= -> ->]|done..]. Qed.

Create HintDb sound.

Ltac sstable :=
  repeat first [ apply stable_True | apply stable_has_view | apply stable_generators_ok
               | apply stable_and ].

Ltac sweaken := intros ? ?; first [exact I | assumption | tauto].

Ltac sstep :=
  first
    [ apply sound_ret | apply sound_throw | apply sound_out_of_fuel
    | apply sound_within | apply sound_outcome
    | apply sound_get_state | apply sound_raw_obj | apply sound_getSubscriptions
    | apply sound_clearReactivesForCallback
    | apply sound_observeTargetKey
    | eapply sound_weaken; [|apply sound_observeTargetKey]; sweaken
    | apply sound_when
    | solve [eauto with sound]
    | apply sound_any; solve [eauto with sound]
    | eapply sound_weaken; [|solve [eauto with sound]]; sweaken
    | match goal with
      | |- sound _ _ (bind _ _) => apply sound_bind; [sstable | | intros ?]
      end
    | match goal with
      | |- sound _ _ (if ?b then _ else _) => destruct b
      | |- sound _ _ (match ?x with _ => _ end) => destruct x
      end ].

Ltac ssolve := repeat sstep.

(** From a goal at a given state to a goal on the code, under a
    condition that holds in that state. *)
Ltac sat P H :=
  match goal with
  | |- res_steps ?d ?st (?m ?st) =>
      let Hs := fresh in
      enough (sound d P m) as Hs by (apply Hs; exact H)
  end.

Section Soundness.

Variable depth : nat.
Variable fuel : nat.
Variable call : Callback → M unit.

Hypothesis call_sound : ∀ cb, sound (S depth) generators_ok (call cb).

Lemma sound_notifyReactives P t k :
  stable depth P → (∀ st, P st → generators_ok st) →
  sound depth P (notifyReactives depth call t k).
Proof.
  intros HP Hgen. unfold notifyReactives.
  apply sound_bind; [done|by apply sound_log|]. intros _.
  intros st Hst. msteps.
  destruct (targetToKeysToCallbacks st !! t) as [m|]; [|apply steps_refl].
  destruct (jsmap_get k m) as [cbs|]; [|apply steps_refl].
  revert st Hst. apply sound_for_each; [done|]. intros cb.
  apply sound_bind; [done|apply sound_clearReactivesForCallback|]. intros _.
  apply sound_bind; [done|by apply sound_log|]. intros _.
  intros st Hst. eapply res_steps_depth_mono; [|apply call_sound; auto]. lia.
Qed.

Lemma sound_notify t k : sound depth generators_ok (notifyReactives depth call t k).
Proof. apply sound_notifyReactives; [apply stable_generators_ok|done]. Qed.

Hint Resolve sound_notify : sound.

Lemma sound_basic_get_read cb t key :
  sound depth (fun st => has_view st t cb) (basic_get_read cb t key).
Proof. unfold basic_get_read. ssolve. Qed.

Lemma sound_collection_get_read cb t key :
  sound depth (fun st => has_view st t cb) (collection_get_read cb t key).
Proof. unfold collection_get_read. ssolve. Qed.

Lemma sound_proxy_get_read h cb t key :
  sound depth (fun st => has_view st t cb) (proxy_get_read h cb t key).
Proof.
  destruct h; [apply sound_basic_get_read|apply sound_collection_get_read].
Qed.

Hint Resolve sound_basic_get_read sound_collection_get_read sound_proxy_get_read : sound.

Lemma sound_tag_through b h cb t :
  sound depth (fun st => has_view st t cb) (tag_through b h cb t).
Proof. unfold tag_through. ssolve. Qed.

Hint Resolve sound_tag_through : sound.

Lemma sound_objectToString_tag obj :
  sound depth (fun _ => True) (objectToString_tag obj).
Proof.
  destruct obj; simpl; try apply sound_ret.
  apply sound_get_state_bind. intros st _.
  destruct (heap st !! l) as [[o|t cb h|g| |p]|] eqn:Hl; try apply steps_refl.
  - assert (Hv : has_view st t cb) by (by exists l, h).
    sat (fun st => has_view st t cb) Hv. ssolve.
  - destruct (heap st !! p) as [[o|t cb h|g| |p']|] eqn:Hp; try apply steps_refl.
    assert (Hv : has_view st t cb) by (by exists p, h).
    sat (fun st => has_view st t cb) Hv. ssolve.
Qed.

Lemma sound_rawType obj : sound depth (fun _ => True) (rawType obj).
Proof. apply sound_objectToString_tag. Qed.

Hint Resolve sound_rawType : sound.

Lemma sound_canBeMadeReactive v : sound depth (fun _ => True) (canBeMadeReactive v).
Proof. unfold canBeMadeReactive. ssolve. Qed.

Hint Resolve sound_canBeMadeReactive : sound.

Lemma sound_proxy_has cb t key :
  sound depth (fun st => has_view st t cb) (proxy_has cb t key).
Proof. unfold proxy_has. ssolve. Qed.

Hint Resolve sound_proxy_has : sound.

Lemma sound_has_property key obj : sound depth (fun _ => True) (has_property key obj).
Proof.
  unfold has_property. destruct obj; try apply sound_throw;
    try (destruct (is_private key); [apply sound_ret|apply sound_out_of_fuel]).
  apply sound_get_state_bind. intros st _.
  destruct (heap st !! l) as [[o|t cb h|g| |p]|] eqn:Hl; try apply steps_refl;
    try (destruct (is_private key); apply steps_refl || done).
  - sat (fun _ : State => True) I. apply sound_within.
  - assert (Hv : has_view st t cb) by (by exists l, h).
    sat (fun st => has_view st t cb) Hv. ssolve.
  - destruct (heap st !! p) as [[o|t cb h|g| |p']|] eqn:Hp; try apply steps_refl.
    assert (Hv : has_view st t cb) by (by exists p, h).
    sat (fun st => has_view st t cb) Hv. ssolve.
Qed.

Lemma sound_read_property key obj : sound depth (fun _ => True) (read_property key obj).
Proof.
  unfold read_property. destruct obj; try apply sound_throw;
    try (destruct (is_private key); [apply sound_ret|apply sound_out_of_fuel]).
  apply sound_get_state_bind. intros st _.
  destruct (heap st !! l) as [[o|t cb h|g| |p]|] eqn:Hl; try apply steps_refl;
    try (destruct (is_private key); apply steps_refl || done).
  - sat (fun _ : State => True) I. ssolve.
  - assert (Hv : has_view st t cb) by (by exists l, h).
    sat (fun st => has_view st t cb) Hv. ssolve.
  - destruct (heap st !! p) as [[o|t cb h|g| |p']|] eqn:Hp; try apply steps_refl.
    assert (Hv : has_view st t cb) by (by exists p, h).
    sat (fun st => has_view st t cb) Hv. ssolve.
Qed.

Hint Resolve sound_has_property sound_read_property : sound.

Lemma sound_toRaw v : sound depth (fun _ => True) (toRaw v).
Proof. unfold toRaw. ssolve. Qed.

Hint Resolve sound_toRaw : sound.

Lemma canBeMadeReactive_tag l o st :
  heap st !! l = Some (ORaw o) →
  canBeMadeReactive (VRef l) st = Ok (list_has (tag_of o) SUPPORTED_RAW_TYPES) st.
Proof.
  intros Hl. unfold canBeMadeReactive, rawType, objectToString_tag; simpl.
  msteps. rewrite Hl. by msteps.
Qed.

Lemma canBeMadeReactive_raw l o st :
  heap st !! l = Some (ORaw o) →
  obj_has (KSym ToStringTag) o = false →
  canBeMadeReactive (VRef l) st = Ok (supported (o_class o)) st.
Proof.
  intros Hl Htag. rewrite (canBeMadeReactive_tag _ _ _ Hl). by rewrite tag_of_class.
Qed.

Lemma has_property_raw k l o st :
  heap st !! l = Some (ORaw o) → is_private k = true →
  has_property k (VRef l) st = Ok (obj_has k o) st.
Proof.
  intros Hl Hk. unfold has_property. msteps. by rewrite Hl, reflect_has_private.
Qed.

Lemma read_property_raw k l o st :
  heap st !! l = Some (ORaw o) → is_private k = true →
  read_property k (VRef l) st = Ok (obj_get k o, false) st.
Proof.
  intros Hl Hk. unfold read_property. msteps. rewrite Hl, reflect_get_private by done.
  by msteps.
Qed.

Lemma read_property_proxy l t cb h st :
  heap st !! l = Some (OProxy t cb h) →
  read_property (KSym TARGET) (VRef l) st = Ok (VRef t, false) st.
Proof.
  intros Hl. unfold read_property. msteps. rewrite Hl.
  unfold proxy_get_read, basic_get_read, collection_get_read.
  by destruct h; rewrite decide_True.
Qed.

Lemma read_property_heir l p t cb h st :
  heap st !! l = Some (OHeir p) →
  heap st !! p = Some (OProxy t cb h) →
  read_property (KSym TARGET) (VRef l) st = Ok (VRef t, false) st.
Proof.
  intros Hl Hp. unfold read_property. msteps. rewrite Hl, Hp.
  unfold proxy_get_read, basic_get_read, collection_get_read.
  by destruct h; rewrite decide_True.
Qed.

(** The handler chosen from the raw type. *)
Lemma handler_for_tag tag :
  (if list_has tag COLLECTION_RAWTYPES
   then match rawTypeToFuncHandlers tag with
        | Some k => ret (HCollection k)
        | None => throw TypeError
        end
   else ret HBasic) = ret (handler_for tag).
Proof.
  unfold handler_for, rawTypeToFuncHandlers, list_has, COLLECTION_RAWTYPES.
  destruct (String.eqb tag "Set") eqn:E1.
  { apply String.eqb_eq in E1 as ->. done. }
  destruct (String.eqb tag "Map") eqn:E2.
  { apply String.eqb_eq in E2 as ->. done. }
  destruct (String.eqb tag "WeakMap") eqn:E3.
  { apply String.eqb_eq in E3 as ->. done. }
  apply String.eqb_neq in E1, E2, E3.
  rewrite bool_decide_eq_false_2; [done|].
  rewrite !elem_of_cons, elem_of_nil. intros [?|[?|[?|[]]]]; congruence.
Qed.

Lemma handler_for_class c : handler_for (class_tag c) = handler_of c.
Proof. by destruct c. Qed.

(** The handler chosen from the raw type is the one of the class. *)
Lemma handler_of_class c :
  (if list_has (class_tag c) COLLECTION_RAWTYPES
   then match rawTypeToFuncHandlers (class_tag c) with
        | Some k => ret (HCollection k)
        | None => throw TypeError
        end
   else ret HBasic) = ret (handler_of c).
Proof. by destruct c. Qed.

Lemma sound_reactive_cached l cb :
  sound depth
    (fun st => ∃ o, heap st !! l = Some (ORaw o) ∧
                    list_has (tag_of o) SUPPORTED_RAW_TYPES = true ∧
                    obj_has (KSym SKIP) o = false)
    (reactive_cached (VRef l) cb).
Proof.
  intros st (o & Hl & Hsup & Hskip). unfold reactive_cached.
  apply res_steps_bind.
  { msteps. simpl. destruct (reactiveCache st !! l) eqn:Hc; [apply steps_refl|].
    apply steps_prim. by constructor. }
  intros [] st1 [= <-] Hst1. msteps.
  set (st1 := match reactiveCache st !! l with
              | Some _ => st
              | None => set_cache (<[l:=∅]> (reactiveCache st)) st
              end) in *.
  assert (Hl1 : heap st1 !! l = Some (ORaw o)).
  { subst st1. by destruct (reactiveCache st !! l). }
  destruct (default ∅ (reactiveCache st1 !! l) !! cb) as [p|] eqn:Hmiss; [done|].
  unfold rawType, objectToString_tag. msteps. rewrite Hl1. msteps.
  rewrite handler_for_tag. msteps. unfold alloc. simpl.
  eapply steps_trans; [exact Hst1|].
  eapply rtc_l; [by eapply (prim_alloc_proxy _ l cb o)|].
  apply steps_prim.
  apply (prim_cache_set _ l cb (length (heap st1)) (handler_for (tag_of o))
           (set_heap (heap st1 ++ [OProxy l cb (handler_for (tag_of o))]) st1)).
  - simpl. by rewrite lookup_app_r, Nat.sub_diag.
  - exact Hmiss.
Qed.

Lemma reactive_n_S n target callback :
  reactive_n (S n) target callback =
    (ok <- canBeMadeReactive target ;;
     if negb ok then throw CannotMakeReactive
     else
       skip <- has_property (KSym SKIP) target ;;
       if skip then ret target
       else
         r <- read_property (KSym TARGET) target ;;
         if truthy r.1 then reactive_n n r.1 callback
         else reactive_cached target callback).
Proof. done. Qed.

Lemma canBeMadeReactive_primitive v st :
  (∀ l, v ≠ VRef l) → canBeMadeReactive v st = Ok false st.
Proof.
  intros Hv. unfold canBeMadeReactive, rawType, objectToString_tag.
  destruct v; simpl; msteps; try done. by destruct (Hv l).
Qed.

Lemma sound_reactive_n n : ∀ target cb,
  sound depth (fun _ => True) (reactive_n n target cb).
Proof.
  induction n as [|n IH]; intros target cb st _; [done|].
  rewrite reactive_n_S.
  assert (Hcases : (∃ l, target = VRef l) ∨ ∀ l, target ≠ VRef l)
    by (destruct target; eauto).
  destruct Hcases as [[l ->]|Hprim]; cycle 1.
  { rewrite bind_unfold, canBeMadeReactive_primitive by done.
    simpl. apply steps_refl. }
  destruct (heap st !! l) as [[o|t cb' h|g| |p]|] eqn:Hl.
  - rewrite bind_unfold, (canBeMadeReactive_tag _ _ _ Hl).
    destruct (list_has (tag_of o) SUPPORTED_RAW_TYPES) eqn:Hsup; simpl; [|apply steps_refl].
    rewrite bind_unfold, (has_property_raw _ _ _ _ Hl) by done.
    destruct (obj_has (KSym SKIP) o) eqn:Hskip; [apply steps_refl|].
    rewrite bind_unfold, (read_property_raw _ _ _ _ Hl) by done. simpl.
    destruct (truthy _); [by apply IH|].
    apply sound_reactive_cached. eauto.
  - apply res_steps_bind; [by apply sound_canBeMadeReactive|].
    intros ok st1 _ Hst1. destruct ok; simpl; [|done].
    apply res_steps_bind;
      [eapply res_steps_trans; [exact Hst1|]; by apply sound_has_property|].
    intros skip st2 _ Hst2. destruct skip; [done|].
    rewrite bind_unfold, (read_property_proxy l t cb' h)
      by (eapply steps_heap_proxy; eauto).
    simpl. eapply res_steps_trans; [exact Hst2|]. by apply IH.
  - unfold canBeMadeReactive, rawType, objectToString_tag; simpl. msteps.
    rewrite Hl. msteps. simpl. apply steps_refl.
  - unfold canBeMadeReactive, rawType, objectToString_tag; simpl. msteps.
    rewrite Hl. msteps. destruct k; simpl; apply steps_refl.
  - apply res_steps_bind; [by apply sound_canBeMadeReactive|].
    intros ok st1 _ Hst1. destruct ok; simpl; [|done].
    apply res_steps_bind;
      [eapply res_steps_trans; [exact Hst1|]; by apply sound_has_property|].
    intros skip st2 _ Hst2. destruct skip; [done|].
    pose proof (steps_heap_heir _ _ _ _ _ Hst2 Hl) as Hl2.
    destruct (heap st2 !! p) as [[o|t cb' h|g| |p']|] eqn:Hp2;
      try (unfold read_property; msteps; rewrite Hl2, Hp2; exact Hst2).
    rewrite bind_unfold, (read_property_heir l p t cb' h) by done.
    simpl. eapply res_steps_trans; [exact Hst2|]. by apply IH.
  - unfold canBeMadeReactive, rawType, objectToString_tag; simpl. msteps.
    rewrite Hl. msteps. apply steps_refl.
Qed.

Lemma sound_reactive target cb : sound depth (fun _ => True) (reactive fuel target cb).
Proof. apply sound_reactive_n. Qed.

Hint Resolve sound_reactive : sound.

Lemma sound_possiblyReactive val cb :
  sound depth (fun _ => True) (possiblyReactive fuel val cb).
Proof. unfold possiblyReactive. ssolve. Qed.

Hint Resolve sound_possiblyReactive : sound.

Lemma sound_finish_read cb r : sound depth (fun _ => True) (finish_read fuel cb r).
Proof. unfold finish_read. ssolve. Qed.

Hint Resolve sound_finish_read : sound.

Lemma sound_basic_get cb t key :
  sound depth (fun st => has_view st t cb) (basic_get fuel cb t key).
Proof. unfold basic_get. ssolve. Qed.

Lemma sound_basic_set t key value :
  key ≠ KSym TARGET → key ≠ KSym ToStringTag →
  sound depth generators_ok (basic_set depth call t key value).
Proof.
  intros Hk Hk' st Hgen. unfold basic_set.
  apply res_steps_raw_obj_bind; [apply steps_refl|]. intros o Hl.
  rewrite bind_unfold. destruct (reflect_get key o) as [ov|]; [|done]. simpl.
  rewrite bind_unfold. destruct (reflect_set key value o) as [r|e|] eqn:Hr; simpl;
    [|apply steps_refl|done].
  eapply res_steps_update_bind;
    [apply steps_refl|exact Hl|by eapply raw_evolves_reflect_set|].
  intros st2 Hst2. eapply res_steps_trans; [exact Hst2|].
  assert (Hgen2 : generators_ok st2) by eauto using steps_generators_ok.
  sat generators_ok Hgen2. ssolve.
Qed.

Lemma sound_basic_deleteProperty t key :
  key ≠ KSym SKIP →
  sound depth generators_ok (basic_deleteProperty depth call t key).
Proof.
  intros Hk st Hgen. unfold basic_deleteProperty.
  apply res_steps_raw_obj_bind; [apply steps_refl|]. intros o Hl.
  eapply res_steps_update_bind; [apply steps_refl|exact Hl|by apply raw_evolves_delete|].
  intros st2 Hst2. eapply res_steps_trans; [exact Hst2|].
  assert (Hgen2 : generators_ok st2) by eauto using steps_generators_ok.
  sat generators_ok Hgen2. ssolve.
Qed.

Lemma sound_basic_ownKeys cb t :
  sound depth (fun st => has_view st t cb) (basic_ownKeys cb t).
Proof. unfold basic_ownKeys. ssolve. Qed.

Hint Resolve sound_basic_get sound_basic_ownKeys : sound.

Lemma sound_markRaw v : sound depth generators_ok (markRaw depth call v).
Proof.
  unfold markRaw. destruct v; try apply sound_throw; try apply sound_ret.
  apply sound_get_state_bind. intros st Hgen.
  destruct (heap st !! l) as [[o|t cb h|g| |p]|] eqn:Hl; try apply steps_refl.
  - destruct (obj_set (KSym SKIP) (VBool true) o).2 eqn:E; [|apply steps_refl].
    eapply res_steps_update_bind; [apply steps_refl|exact Hl|by apply raw_evolves_set|].
    done.
  - apply res_steps_bind; [by apply sound_basic_set|].
    intros ok st1 _ Hst1. by destruct ok.
  - done.
Qed.

Hint Resolve sound_markRaw : sound.

(** *** Collections *)

Lemma sound_native_call name t key value :
  sound depth (fun _ => True) (native_call name t key value).
Proof.
  intros st _. unfold native_call.
  apply res_steps_raw_obj_bind; [apply steps_refl|]. intros o Hl.
  destruct (o_class o), name; try apply steps_refl;
    try (eapply res_steps_update_bind;
         [apply steps_refl|exact Hl|apply raw_evolves_data|done]).
  destruct (can_be_held_weakly key); [|apply steps_refl].
  eapply res_steps_update_bind; [apply steps_refl|exact Hl|apply raw_evolves_data|done].
Qed.

Lemma sound_native_keys t : sound depth (fun _ => True) (native_keys t).
Proof. unfold native_keys. ssolve. Qed.

Lemma sound_native_clear t : sound depth (fun _ => True) (native_clear t).
Proof.
  intros st _. unfold native_clear.
  apply res_steps_raw_obj_bind; [apply steps_refl|]. intros o Hl.
  destruct (o_class o); try apply steps_refl;
    apply steps_prim; eapply prim_update; eauto using raw_evolves_data.
Qed.

Lemma sound_native_size t : sound depth (fun _ => True) (native_size t).
Proof. unfold native_size. ssolve. Qed.

Hint Resolve sound_native_call sound_native_keys sound_native_clear sound_native_size
  : sound.

Lemma sound_native_forEach P n : ∀ t pos f,
  stable depth P →
  (∀ a b c, sound depth P (f a b c)) →
  sound depth P (native_forEach n t pos f).
Proof.
  induction n as [|n IH]; intros t pos f HP Hf; simpl; [apply sound_out_of_fuel|].
  apply sound_bind; [done|apply sound_raw_obj|]. intros o.
  destruct (o_class o); try apply sound_throw;
    (destruct (next_live _ _) as [[i [k v]]|]; [|apply sound_ret];
     apply sound_bind; [done|apply Hf|]; intros _; by apply IH).
Qed.

Lemma sound_makeKeyObserver name t cb key :
  sound depth (fun st => has_view st t cb) (makeKeyObserver fuel name t cb key).
Proof. unfold makeKeyObserver. ssolve. Qed.

Lemma sound_delegateAndNotify setter getter t key value :
  sound depth generators_ok (delegateAndNotify depth call setter getter t key value).
Proof. unfold delegateAndNotify. ssolve. Qed.

Lemma sound_makeClearNotifier t :
  sound depth generators_ok (makeClearNotifier depth call t).
Proof.
  unfold makeClearNotifier. ssolve.
  apply sound_for_each; [sstable|]. intros k. ssolve.
Qed.

Lemma sound_size_getter t cb :
  sound depth (fun st => has_view st t cb) (size_getter t cb).
Proof. unfold size_getter. ssolve. Qed.

Lemma sound_makeForEachObserver t cb f :
  (∀ a b c, sound depth generators_ok (f a b c)) →
  sound depth (fun st => has_view st t cb ∧ generators_ok st)
    (makeForEachObserver fuel t cb f).
Proof.
  intros Hf. unfold makeForEachObserver. ssolve.
  apply sound_native_forEach; [sstable|].
  intros val key targetObj. ssolve.
Qed.

Lemma sound_makeIteratorObserver k m t cb :
  sound depth (fun st => has_view st t cb) (makeIteratorObserver k m t cb).
Proof.
  intros st Hv. unfold makeIteratorObserver, alloc. msteps. simpl.
  apply steps_prim. by apply (prim_alloc_gen _ (mkGen t cb k m GenFresh 0 0)).
Qed.

Lemma sound_native_item k m e : sound depth (fun _ => True) (native_item k m e).
Proof.
  assert (Hentries : sound depth (fun _ : State => True)
            (l <- alloc (ORaw (entry_array e.1 e.2)) ;; ret (VRef l))).
  { intros st _. eapply res_steps_alloc_raw_bind; [apply steps_refl|done|done|done|].
    intros l st1 Hst1. done. }
  unfold native_item. destruct m, k; try apply sound_ret; exact Hentries.
Qed.

Hint Resolve sound_makeKeyObserver sound_delegateAndNotify sound_makeClearNotifier
  sound_size_getter sound_makeIteratorObserver sound_native_item : sound.

Lemma update_gen_steps st0 st g gen gen' :
  steps depth st0 st →
  heap st !! g = Some (OGen gen) →
  g_target gen' = g_target gen →
  g_callback gen' = g_callback gen →
  res_steps depth st0 (update_gen g gen' st).
Proof.
  intros Hst Hg Ht Hc. unfold update_gen. msteps. simpl.
  eapply steps_trans; [exact Hst|]. apply steps_prim. by eapply prim_update_gen.
Qed.

Lemma steps_heap_gen d st st' l gen :
  steps d st st' → heap st !! l = Some (OGen gen) →
  ∃ gen', heap st' !! l = Some (OGen gen') ∧
          g_target gen' = g_target gen ∧ g_callback gen' = g_callback gen.
Proof.
  intros H. revert gen. induction H as [|st1 st2 st3 H12 _ IH]; intros gen Hl.
  - by exists gen.
  - destruct (prim_heap_gen _ _ _ _ _ H12 Hl) as (g2 & Hl2 & Ht2 & Hc2).
    destruct (IH _ Hl2) as (g3 & Hl3 & Ht3 & Hc3).
    exists g3. split_and!; congruence.
Qed.

Lemma sound_generator_turn g gen :
  sound depth
    (fun st => has_view st (g_target gen) (g_callback gen) ∧
               ∃ gen0, heap st !! g = Some (OGen gen0) ∧
                       g_target gen0 = g_target gen ∧ g_callback gen0 = g_callback gen)
    (generator_turn fuel g gen).
Proof.
  intros st (Hv & gen0 & Hg & Ht & Hc). unfold generator_turn.
  apply res_steps_raw_obj_bind; [apply steps_refl|]. intros o Hl.
  destruct (next_live (o_data o) (g_items_pos gen)) as [[i e]|].
  - apply res_steps_bind; [by apply sound_native_item|].
    intros item st1 _ Hst1.
    apply res_steps_bind.
    { eapply res_steps_sound; [exact Hst1|apply sound_observeTargetKey|].
      by eapply steps_has_view. }
    intros [] st2 _ Hst2.
    destruct (steps_heap_gen _ _ _ _ _ Hst2 Hg) as (gen2 & Hg2 & Ht2 & Hc2).
    apply res_steps_bind.
    { eapply update_gen_steps; eauto; simpl; congruence. }
    intros [] st3 _ Hst3.
    apply res_steps_bind; [|by intros].
    eapply res_steps_sound; [exact Hst3|apply sound_possiblyReactive|done].
  - apply res_steps_bind; [|by intros].
    eapply update_gen_steps; eauto using steps_refl; simpl; congruence.
Qed.

Lemma sound_generator_next g : sound depth generators_ok (generator_next fuel g).
Proof.
  unfold generator_next. apply sound_get_state_bind. intros st Hgen.
  destruct (heap st !! g) as [[o|t cb h|gen| |p]|] eqn:Hg; try apply steps_refl.
  pose proof (Hgen _ _ Hg) as Hv.
  assert (Hturn : res_steps depth st (generator_turn fuel g gen st)).
  { eapply sound_use; [apply sound_generator_turn|]. cbv beta. eauto. }
  destruct (g_status gen); [|done|apply steps_refl].
  apply res_steps_bind; [by eapply sound_use; [apply sound_observeTargetKey|]|].
  intros [] st1 _ Hst1.
  destruct (steps_heap_gen _ _ _ _ _ Hst1 Hg) as (gen1 & Hg1 & Ht1 & Hc1).
  eapply res_steps_sound; [exact Hst1|apply sound_generator_turn|]. cbv beta.
  split; [by eapply steps_has_view|eauto].
Qed.

Hint Resolve sound_generator_next : sound.

Lemma sound_call_value d P f : sound d P (call_value f).
Proof. destruct f; first [apply sound_throw|apply sound_out_of_fuel]. Qed.

Hint Resolve sound_call_value : sound.

Lemma sound_collection_call k cb t m key value :
  sound depth (fun st => has_view st t cb ∧ generators_ok st)
    (collection_call depth fuel call k cb t m key value).
Proof.
  unfold collection_call. destruct (has_special k (method_key m)); [|ssolve].
  destruct m; ssolve.
Qed.

Lemma sound_collection_forEach k cb t f :
  (∀ a b c, sound depth generators_ok (f a b c)) →
  sound depth (fun st => has_view st t cb ∧ generators_ok st)
    (collection_forEach fuel k cb t f).
Proof.
  intros Hf. unfold collection_forEach.
  destruct (has_special k (KStr "forEach")); [by apply sound_makeForEachObserver|ssolve].
Qed.

Lemma sound_collection_get k cb t key :
  sound depth (fun st => has_view st t cb) (collection_get fuel k cb t key).
Proof. unfold collection_get. ssolve. Qed.

Hint Resolve sound_collection_call sound_collection_get : sound.

(** *** Operations of client code *)

Ltac by_cases_on_heap st l Hgen :=
  apply sound_get_state_bind; intros st Hgen;
  let Hl := fresh "Hl" in
  destruct (heap st !! l) as [[?o|?t ?cb ?h|?gen| |?p]|] eqn:Hl; try apply steps_refl.

(** A proxy found in the heap is a view of its target. *)
Lemma lookup_has_view st l t cb h :
  heap st !! l = Some (OProxy t cb h) → has_view st t cb.
Proof. intros Hl. by exists l, h. Qed.

Lemma sound_view_get st l key :
  res_steps depth st (view_get fuel (heap st !! l) key st).
Proof.
  destruct (heap st !! l) as [[o|t cb h|g| |p]|] eqn:Hl; try apply steps_refl.
  pose proof (lookup_has_view _ _ _ _ _ Hl) as Hv.
  destruct h; simpl; sat (fun st => has_view st t cb) Hv; ssolve.
Qed.

Lemma sound_view_call st l m key value :
  generators_ok st →
  res_steps depth st (view_call depth fuel call (heap st !! l) m key value st).
Proof.
  intros Hgen.
  destruct (heap st !! l) as [[o|t cb h|g| |p]|] eqn:Hl; try apply steps_refl.
  pose proof (lookup_has_view _ _ _ _ _ Hl) as Hv.
  destruct h; simpl.
  - sat (fun st => has_view st t cb) Hv. ssolve.
  - eapply sound_use; [apply sound_collection_call|]. cbv beta. done.
Qed.

Lemma sound_view_forEach st l f :
  (∀ a b c, sound depth generators_ok (f a b c)) →
  generators_ok st →
  res_steps depth st (view_forEach fuel (heap st !! l) f st).
Proof.
  intros Hf Hgen.
  destruct (heap st !! l) as [[o|t cb h|g| |p]|] eqn:Hl; try apply steps_refl.
  pose proof (lookup_has_view _ _ _ _ _ Hl) as Hv.
  destruct h; simpl.
  - sat (fun st => has_view st t cb) Hv. ssolve.
  - eapply sound_use; [by apply sound_collection_forEach|]. cbv beta. done.
Qed.

Lemma sound_js_get v key : sound depth generators_ok (js_get fuel v key).
Proof.
  unfold js_get. destruct v; try apply sound_throw;
    try (destruct (is_private key); [apply sound_ret|apply sound_out_of_fuel]).
  by_cases_on_heap st l Hgen;
    try (destruct (is_private key); apply steps_refl || done).
  - sat generators_ok Hgen. ssolve.
  - rewrite <- Hl. apply sound_view_get.
  - apply sound_view_get.
Qed.

Lemma sound_js_set v key x :
  key ≠ KSym TARGET → key ≠ KSym ToStringTag →
  sound depth generators_ok (js_set depth call v key x).
Proof.
  intros Hk Hk'. unfold js_set. destruct v; try apply sound_throw; try apply sound_ret;
    try apply sound_out_of_fuel.
  by_cases_on_heap st l Hgen; try done.
  - rewrite bind_unfold. destruct (reflect_set key x o) as [r|e|] eqn:Hr; simpl;
      [|apply steps_refl|done].
    destruct r.2; [|apply steps_refl].
    apply steps_prim. eapply prim_update; eauto using raw_evolves_reflect_set.
  - apply res_steps_bind; [by apply sound_basic_set|].
    intros ok st1 _ Hst1. by destruct ok.
Qed.

Lemma sound_js_delete v key :
  key ≠ KSym SKIP → sound depth generators_ok (js_delete depth call v key).
Proof.
  intros Hk. unfold js_delete. destruct v; try apply sound_throw; try apply sound_ret;
    try (destruct (is_private key); [apply sound_ret|apply sound_out_of_fuel]).
  by_cases_on_heap st l Hgen.
  - destruct (obj_delete key o).2; [|apply steps_refl].
    apply steps_prim. eapply prim_update; eauto using raw_evolves_delete.
  - apply res_steps_bind; [by apply sound_basic_deleteProperty|].
    intros ok st1 _ Hst1. by destruct ok.
Qed.

Lemma sound_js_ownKeys v : sound depth generators_ok (js_ownKeys v).
Proof.
  unfold js_ownKeys. destruct v; try apply sound_throw; try apply sound_ret;
    try apply sound_out_of_fuel.
  by_cases_on_heap st l Hgen.
  assert (Hv : has_view st t cb) by (by exists l, h).
  sat (fun st => has_view st t cb) Hv. ssolve.
Qed.

Lemma sound_untrapped_target v : sound depth generators_ok (untrapped_target v).
Proof.
  unfold untrapped_target. destruct v; try apply sound_throw; try apply sound_out_of_fuel.
  by_cases_on_heap st l Hgen; done.
Qed.

Lemma sound_js_defineProperty v key d :
  key ≠ KSym TARGET → key ≠ KSym ToStringTag →
  sound depth generators_ok (js_defineProperty v key d).
Proof.
  intros Hk Hk' st Hgen. unfold js_defineProperty.
  apply res_steps_bind; [by apply sound_untrapped_target|].
  intros l st1 _ Hst1.
  apply res_steps_raw_obj_bind; [done|]. intros o Hl.
  rewrite bind_unfold. destruct (define_own key d o) as [o'|e|] eqn:Hd; simpl;
    [|exact Hst1|done].
  eapply steps_trans; [exact Hst1|]. apply steps_prim.
  eapply prim_update; eauto using raw_evolves_define_own.
Qed.

Lemma sound_js_freeze v : sound depth generators_ok (js_freeze v).
Proof.
  unfold js_freeze. destruct v; try apply sound_ret.
  by_cases_on_heap st l Hgen.
  - apply steps_prim. eapply prim_update; eauto using raw_evolves_freeze.
  - pose proof (lookup_has_view _ _ _ _ _ Hl) as Hv.
    apply res_steps_raw_obj_bind; [apply steps_refl|]. intros o Ht.
    eapply res_steps_update_bind;
      [apply steps_refl|exact Ht|apply raw_evolves_prevent|].
    intros st1 Hst1.
    apply res_steps_bind.
    { eapply res_steps_sound; [exact Hst1|apply sound_basic_ownKeys|].
      cbv beta. eauto using steps_has_view. }
    intros ks st2 _ Hst2.
    apply res_steps_raw_obj_bind; [done|]. intros o2 Ht2.
    eapply steps_trans; [exact Hst2|]. apply steps_prim.
    eapply prim_update; eauto using raw_evolves_freeze.
Qed.

Lemma sound_js_call v m key value :
  sound depth generators_ok (js_call depth fuel call v m key value).
Proof.
  unfold js_call. destruct v; try apply sound_throw; try apply sound_out_of_fuel.
  by_cases_on_heap st l Hgen; try done.
  - destruct (class_kind (o_class o)) as [k|]; [|sat generators_ok Hgen; ssolve].
    destruct (has_special k (method_key m)); [|sat generators_ok Hgen; ssolve].
    destruct (native_method m) as [n|].
    { by apply sound_native_call. }
    destruct (iter_method m) as [im|].
    { unfold alloc. msteps. simpl. apply steps_prim. constructor. }
    apply res_steps_bind; [by apply sound_native_clear|]. by intros.
  - rewrite <- Hl. by apply sound_view_call.
  - by apply sound_view_call.
Qed.

Lemma sound_native_next it t k im pos finished :
  sound depth (fun st => ∃ t0 k0 m0 p0 f0, heap st !! it = Some (OIter t0 k0 m0 p0 f0))
    (native_next it t k im pos finished).
Proof.
  intros st (t0 & k0 & m0 & p0 & f0 & Hit). unfold native_next.
  destruct finished; [apply steps_refl|].
  apply res_steps_raw_obj_bind; [apply steps_refl|]. intros o Hl.
  destruct (next_live (o_data o) pos) as [[i e]|].
  - apply res_steps_bind.
    { msteps. simpl. apply steps_prim. by eapply prim_update_iter. }
    intros [] st1 _ Hst1. apply res_steps_bind; [|by intros].
    eapply res_steps_sound; [exact Hst1|apply sound_native_item|done].
  - apply res_steps_bind; [|by intros].
    msteps. simpl. apply steps_prim. by eapply prim_update_iter.
Qed.

Lemma sound_js_next g : sound depth generators_ok (js_next fuel g).
Proof.
  unfold js_next. destruct g; try apply sound_throw.
  apply sound_get_state_bind. intros st Hgen.
  destruct (heap st !! l) as [[o|t cb h|gen|t k m pos finished|p]|] eqn:Hl;
    try apply steps_refl.
  - by apply sound_generator_next.
  - eapply sound_use; [apply sound_native_next|]. cbv beta. eauto 10.
Qed.

Lemma sound_js_forEach v f :
  (∀ a b c, sound depth generators_ok (f a b c)) →
  sound depth generators_ok (js_forEach fuel v f).
Proof.
  intros Hf. unfold js_forEach. destruct v; try apply sound_throw;
    try apply sound_out_of_fuel.
  by_cases_on_heap st l Hgen; try done.
  - destruct (is_sized (o_class o)); [|done].
    eapply sound_use; [|exact Hgen].
    apply sound_native_forEach; [apply stable_generators_ok|done].
  - rewrite <- Hl. by apply sound_view_forEach.
  - by apply sound_view_forEach.
Qed.

Lemma sound_js_new c : sound depth generators_ok (js_new c).
Proof.
  intros st _. unfold js_new.
  eapply res_steps_alloc_raw_bind; [apply steps_refl|by destruct c..|].
  by intros.
Qed.

Lemma sound_js_create v : sound depth generators_ok (js_create v).
Proof.
  unfold js_create. destruct v; try apply sound_throw; try apply sound_out_of_fuel.
  by_cases_on_heap st l Hgen; try done.
  unfold alloc. msteps. simpl. apply steps_prim. by eapply prim_alloc_heir.
Qed.

Lemma ukey_not_internal k : ukey k ≠ KSym TARGET ∧ ukey k ≠ KSym SKIP.
Proof. by destruct k. Qed.

Lemma ukey_not_tag k : ukey k ≠ KSym ToStringTag.
Proof. by destruct k. Qed.

Lemma sound_exec_op op : sound depth generators_ok (exec_op depth fuel call op).
Proof.
  destruct op; simpl;
    (apply sound_bind; [apply stable_generators_ok| |intros ?; apply sound_ret]).
  - apply sound_any, sound_reactive.
  - apply sound_markRaw.
  - apply sound_any, sound_toRaw.
  - apply sound_getSubscriptions.
  - apply sound_js_new.
  - apply sound_js_create.
  - apply sound_js_get.
  - apply sound_js_set; [apply ukey_not_internal|apply ukey_not_tag].
  - apply sound_js_delete, ukey_not_internal.
  - apply sound_any, sound_has_property.
  - apply sound_js_ownKeys.
  - apply sound_js_defineProperty; [apply ukey_not_internal|apply ukey_not_tag].
  - apply sound_js_freeze.
  - apply sound_js_call.
  - apply sound_js_next.
Qed.

End Soundness.

(** ** Client programs proceed by steps *)

Lemma run_unfold body fuel depth p :
  run body fuel depth p =
    match p with
    | PDone => ret tt
    | PThrow n => throw (ClientError n)
    | PDo op k =>
        a <- exec_op depth fuel (callback_call body fuel depth) op ;;
        run body fuel depth (k a)
    | PForEach v f k =>
        js_forEach fuel v (fun a b c => run body fuel depth (f a b c)) ;;;
        run body fuel depth k
    | PTry p handler k =>
        try_catch (run body fuel depth p) (run body fuel depth handler) ;;;
        run body fuel depth k
    end.
Proof. destruct fuel, p; reflexivity. Qed.

Lemma sound_try_catch d P (m handler : M unit) :
  stable d P → sound d P m → sound d P handler → sound d P (try_catch m handler).
Proof.
  intros HP Hm Hh st Hst. unfold try_catch. specialize (Hm st Hst).
  destruct (m st) as [a st'|e st'|]; simpl in *; [done| |done].
  eapply res_steps_trans; [exact Hm|]. apply Hh. eauto.
Qed.

Lemma sound_run body fuel : ∀ depth p, sound depth generators_ok (run body fuel depth p).
Proof.
  induction fuel as [|fuel IHfuel]; intros depth p.
  - assert (Hcall : ∀ cb, sound (S depth) generators_ok (callback_call body 0 depth cb))
      by (by intros cb st _).
    induction p as [| |op k IH|v f IHf k IHk|p IHp h IHh k IHk];
      rewrite run_unfold.
    + apply sound_ret.
    + apply sound_throw.
    + apply sound_bind; [apply stable_generators_ok|by apply sound_exec_op|done].
    + apply sound_bind; [apply stable_generators_ok| |done].
      by apply sound_js_forEach.
    + apply sound_bind; [apply stable_generators_ok| |done].
      by apply sound_try_catch; [apply stable_generators_ok|..].
  - assert (Hcall : ∀ cb, sound (S depth) generators_ok
                             (callback_call body (S fuel) depth cb))
      by (intros cb; apply IHfuel).
    induction p as [| |op k IH|v f IHf k IHk|p IHp h IHh k IHk];
      rewrite run_unfold.
    + apply sound_ret.
    + apply sound_throw.
    + apply sound_bind; [apply stable_generators_ok|by apply sound_exec_op|done].
    + apply sound_bind; [apply stable_generators_ok| |done].
      by apply sound_js_forEach.
    + apply sound_bind; [apply stable_generators_ok| |done].
      by apply sound_try_catch; [apply stable_generators_ok|..].
Qed.

Lemma sound_callback_call body fuel depth cb :
  sound (S depth) generators_ok (callback_call body fuel depth cb).
Proof. destruct fuel; [by intros st _|apply sound_run]. Qed.

(** ** Reachable states *)

Lemma reachable_init : reachable init.
Proof. apply steps_refl. Qed.

Lemma reachable_steps d st st' : reachable st → steps d st st' → reachable st'.
Proof.
  intros H Hst. eapply steps_trans; [exact H|]. eapply steps_depth_mono; [|exact Hst]. lia.
Qed.

Lemma reachable_generators_ok st : reachable st → generators_ok st.
Proof.
  intros H. eapply steps_generators_ok; [exact H|]. intros l g Hl. done.
Qed.

Lemma reachable_run body fuel depth p st st' :
  reachable st → state_of (run body fuel depth p st) = Some st' → reachable st'.
Proof.
  intros Hr Hrun. eapply reachable_steps; [exact Hr|].
  pose proof (sound_run body fuel depth p st (reachable_generators_ok _ Hr)) as H.
  destruct (run body fuel depth p st); simpl in *; by simplify_eq.
Qed.

(** ** Invariants *)

Lemma observeTargetKey_lookup_ne t k cb st st' t' :
  observeTargetKey t k cb st = Ok tt st' → t' ≠ t →
  targetToKeysToCallbacks st' !! t' = targetToKeysToCallbacks st !! t'.
Proof.
  unfold observeTargetKey. intros [= <-] Hne; simpl.
  destruct (targetToKeysToCallbacks st !! t); by rewrite !lookup_insert_ne.
Qed.

Lemma clearReactivesForCallback_lookup_None cb st st' t :
  clearReactivesForCallback cb st = Ok tt st' →
  targetToKeysToCallbacks st' !! t = None ↔ targetToKeysToCallbacks st !! t = None.
Proof.
  unfold clearReactivesForCallback.
  destruct (callbacksToTargets st !! cb) as [ts|]; intros [= <-]; simpl; [|done].
  rewrite foldl_clear_target_lookup. case_bool_decide; [|done].
  by rewrite fmap_None.
Qed.

Lemma prim_registry_ok d st st' : prim d st st' → registry_ok st → registry_ok st'.
Proof.
  intros H Hok. destruct H; try done.
  - by eapply observeTargetKey_registry_ok.
  - by eapply clearReactivesForCallback_registry_ok.
Qed.

Lemma prim_cache_ok d st st' : prim d st st' → cache_ok st → cache_ok st'.
Proof.
  intros H Hok t m cb p Ht Hm.
  assert (Hkeep : ∀ m0, reactiveCache st !! t = Some m0 → m0 !! cb = Some p →
                        ∃ h, heap st' !! p = Some (OProxy t cb h)).
  { intros m0 H1 H2. destruct (Hok _ _ _ _ H1 H2) as [h Hh].
    exists h. by eapply prim_heap_proxy. }
  destruct H; simpl in *.
  1, 4, 5, 6, 9, 10, 11, 12, 13: by eauto.
  - destruct (observeTargetKey_frame _ _ _ _ _ H0) as (_ & Hc & _).
    rewrite Hc in Ht. eauto.
  - destruct (clearReactivesForCallback_frame _ _ _ H) as (_ & Hc & _).
    rewrite Hc in Ht. eauto.
  - destruct (decide (t0 = t)) as [->|].
    + rewrite lookup_insert_eq in Ht. by simplify_eq.
    + rewrite lookup_insert_ne in Ht by done. eauto.
  - destruct (decide (t0 = t)) as [->|].
    + rewrite lookup_insert_eq in Ht. simplify_eq.
      destruct (decide (cb0 = cb)) as [->|].
      * rewrite lookup_insert_eq in Hm. simplify_eq. eauto.
      * rewrite lookup_insert_ne in Hm by done.
        destruct (reactiveCache st !! t) eqn:Hc; simpl in *; [eauto|done].
    + rewrite lookup_insert_ne in Ht by done. eauto.
Qed.

Lemma prim_heap_proxy_inv d st st' p t cb h :
  prim d st st' → heap st' !! p = Some (OProxy t cb h) →
  heap st !! p = Some (OProxy t cb h) ∨
  ∃ o, heap st !! t = Some (ORaw o) ∧
       list_has (tag_of o) SUPPORTED_RAW_TYPES = true ∧
       obj_has (KSym SKIP) o = false ∧ h = handler_for (tag_of o).
Proof.
  assert (Happ : ∀ (hp : list Obj) o, (∀ t cb h, o ≠ OProxy t cb h) →
            (hp ++ [o]) !! p = Some (OProxy t cb h) → hp !! p = Some (OProxy t cb h)).
  { intros hp o Ho [Hl|[_ Hl]]%lookup_app_Some; [done|].
    apply list_lookup_singleton_Some in Hl as [_ ->]. by destruct (Ho t cb h). }
  assert (Hins : ∀ (hp : list Obj) l o, (∀ t cb h, o ≠ OProxy t cb h) →
            <[l := o]> hp !! p = Some (OProxy t cb h) → hp !! p = Some (OProxy t cb h)).
  { intros hp l o Ho Hl. destruct (decide (l = p)) as [->|].
    - apply list_lookup_insert_Some in Hl as [(_ & Heq & _)|[? _]]; [|done].
      by destruct (Ho t cb h).
    - by rewrite list_lookup_insert_ne in Hl. }
  intros H Hp. destruct H; simpl in *.
  - eauto.
  - destruct (observeTargetKey_frame _ _ _ _ _ H0) as (Hh & _). rewrite Hh in Hp. eauto.
  - destruct (clearReactivesForCallback_frame _ _ _ H) as (Hh & _). rewrite Hh in Hp. eauto.
  - left. by eapply (Happ _ (ORaw o)).
  - left. by eapply (Hins _ l (ORaw o')).
  - apply lookup_app_Some in Hp as [Hp|[_ Hp]]; [by left|].
    apply list_lookup_singleton_Some in Hp as [_ Hp]. simplify_eq. right. eauto.
  - eauto.
  - eauto.
  - left. by eapply (Happ _ (OGen gen)).
  - left. by eapply (Hins _ l (OGen gen')).
  - left. by eapply (Happ _ (OIter t0 k m pos finished)).
  - left. by eapply (Hins _ l (OIter t' k' m' pos' finished')).
  - left. by eapply (Happ _ (OHeir p0)).
Qed.

(** In a state where no native object has a tag of its own, the probe
    goes by the class. *)
Lemma supported_tag o :
  obj_has (KSym ToStringTag) o = false →
  list_has (tag_of o) SUPPORTED_RAW_TYPES = supported (o_class o) ∧
  handler_for (tag_of o) = handler_of (o_class o).
Proof. intros H. by rewrite (tag_of_class _ H), handler_for_class. Qed.

Lemma prim_proxies_ok d st st' :
  prim d st st' → no_tag_prop st → proxies_ok st → proxies_ok st'.
Proof.
  intros H Htag Hok p t cb h Hp.
  assert (Hraw : ∀ o, heap st !! t = Some (ORaw o) → supported (o_class o) = true →
                      h = handler_of (o_class o) →
                      ∃ o', heap st' !! t = Some (ORaw o') ∧ supported (o_class o') = true ∧
                            h = handler_of (o_class o')).
  { intros o Ho Hs Hh. destruct (prim_heap_raw _ _ _ _ _ H Ho) as (o' & Ho' & Hc & _).
    exists o'. by rewrite Hc. }
  destruct (prim_heap_proxy_inv _ _ _ _ _ _ _ H Hp) as [Hold|(o & Ho & Hs & _ & Hh)].
  - destruct (Hok _ _ _ _ Hold) as (o & Ho & Hs & Hh). eauto.
  - destruct (supported_tag o (Htag _ _ Ho)) as [E1 E2].
    rewrite E1 in Hs. rewrite E2 in Hh. eauto.
Qed.

Lemma prim_heap_raw_inv d st st' l o' :
  prim d st st' → heap st' !! l = Some (ORaw o') →
  (∃ o, heap st !! l = Some (ORaw o) ∧ raw_evolves o o') ∨
  (heap st !! l = None ∧ obj_has (KSym TARGET) o' = false ∧
   obj_has (KSym SKIP) o' = false ∧ obj_has (KSym ToStringTag) o' = false).
Proof.
  assert (Happ : ∀ (hp : list Obj) o, (∀ r, o ≠ ORaw r) →
            (hp ++ [o]) !! l = Some (ORaw o') → hp !! l = Some (ORaw o')).
  { intros hp o Ho [Hl|[_ Hl]]%lookup_app_Some; [done|].
    apply list_lookup_singleton_Some in Hl as [_ ->]. by destruct (Ho o'). }
  assert (Hins : ∀ (hp : list Obj) l0 o, (∀ r, o ≠ ORaw r) → (∀ r, hp !! l0 ≠ Some (ORaw r)) →
            <[l0 := o]> hp !! l = Some (ORaw o') → hp !! l = Some (ORaw o')).
  { intros hp l0 o Ho Hl0 Hl. destruct (decide (l0 = l)) as [->|].
    - apply list_lookup_insert_Some in Hl as [(_ & Heq & _)|[? _]]; [|done].
      by destruct (Ho o').
    - by rewrite list_lookup_insert_ne in Hl. }
  intros H Hl. destruct H; simpl in *.
  - eauto using raw_evolves_refl.
  - destruct (observeTargetKey_frame _ _ _ _ _ H0) as (Hh & _). rewrite Hh in Hl.
    eauto using raw_evolves_refl.
  - destruct (clearReactivesForCallback_frame _ _ _ H) as (Hh & _). rewrite Hh in Hl.
    eauto using raw_evolves_refl.
  - apply lookup_app_Some in Hl as [Hl|[Hlen Hl]]; [eauto using raw_evolves_refl|].
    apply list_lookup_singleton_Some in Hl as [_ Hl]. simplify_eq. right.
    split; [|done]. apply lookup_ge_None. lia.
  - destruct (decide (l0 = l)) as [->|].
    + apply list_lookup_insert_Some in Hl as [(_ & Hl & _)|[? _]]; [|done].
      simplify_eq. eauto.
    + rewrite list_lookup_insert_ne in Hl by done. eauto using raw_evolves_refl.
  - left. exists o'. split; [by eapply (Happ _ (OProxy t cb (handler_for (tag_of o))))|done].
  - eauto using raw_evolves_refl.
  - eauto using raw_evolves_refl.
  - left. exists o'. split; [by eapply (Happ _ (OGen gen))|done].
  - left. exists o'. split; [|done].
    eapply (Hins _ l0 (OGen gen')); [done|congruence|exact Hl].
  - left. exists o'. split; [by eapply (Happ _ (OIter t k m pos finished))|done].
  - left. exists o'. split; [|done].
    eapply (Hins _ l0 (OIter t' k' m' pos' finished')); [done|congruence|exact Hl].
  - left. exists o'. split; [by eapply (Happ _ (OHeir p))|done].
Qed.

Lemma prim_no_target_prop d st st' : prim d st st' → no_target_prop st → no_target_prop st'.
Proof.
  intros H Hok l o' Hl.
  destruct (prim_heap_raw_inv _ _ _ _ _ H Hl) as [(o & Ho & _ & _ & Ht & _)|(_ & Ht & _)];
    eauto.
Qed.

Lemma prim_no_tag_prop d st st' : prim d st st' → no_tag_prop st → no_tag_prop st'.
Proof.
  intros H Hok l o' Hl.
  destruct (prim_heap_raw_inv _ _ _ _ _ H Hl)
    as [(o & Ho & _ & _ & _ & Ht)|(_ & _ & _ & Ht)]; eauto.
Qed.

Lemma prim_heirs_ok d st st' : prim d st st' → heirs_ok st → heirs_ok st'.
Proof.
  intros H Hok l p Hl.
  assert (Hold : heap st !! l = Some (OHeir p) →
                 ∃ t cb h, heap st' !! p = Some (OProxy t cb h)).
  { intros Hl0. destruct (Hok _ _ Hl0) as (t & cb & h & Hp).
    exists t, cb, h. by eapply prim_heap_proxy. }
  assert (Happ : ∀ o, heap st' = heap st ++ [o] → (∀ q, o ≠ OHeir q) →
                      ∃ t cb h, heap st' !! p = Some (OProxy t cb h)).
  { intros o Heq Ho. rewrite Heq in Hl.
    apply lookup_app_Some in Hl as [Hl|[_ Hl]]; [by apply Hold|].
    apply list_lookup_singleton_Some in Hl as [_ Ho']. by destruct (Ho p). }
  assert (Hins : ∀ l0 o, heap st' = <[l0 := o]> (heap st) → (∀ q, o ≠ OHeir q) →
                         ∃ t cb h, heap st' !! p = Some (OProxy t cb h)).
  { intros l0 o Heq Ho. rewrite Heq in Hl.
    destruct (decide (l0 = l)) as [->|].
    - apply list_lookup_insert_Some in Hl as [(_ & Ho' & _)|[? _]]; [|done].
      by destruct (Ho p).
    - rewrite list_lookup_insert_ne in Hl by done. by apply Hold. }
  destruct H; simpl in *.
  - by apply Hold.
  - destruct (observeTargetKey_frame _ _ _ _ _ H0) as (Hh & _). rewrite Hh in Hl.
    by apply Hold.
  - destruct (clearReactivesForCallback_frame _ _ _ H) as (Hh & _). rewrite Hh in Hl.
    by apply Hold.
  - by eapply (Happ (ORaw o)).
  - by eapply (Hins l0 (ORaw o')).
  - by eapply (Happ (OProxy t cb (handler_for (tag_of o)))).
  - by apply Hold.
  - by apply Hold.
  - by eapply (Happ (OGen gen)).
  - by eapply (Hins l0 (OGen gen')).
  - by eapply (Happ (OIter t k m pos finished)).
  - by eapply (Hins l0 (OIter t' k' m' pos' finished')).
  - apply lookup_app_Some in Hl as [Hl|[_ Hl]]; [by apply Hold|].
    apply list_lookup_singleton_Some in Hl as [_ Hq]. simplify_eq.
    exists t, cb, h. by apply lookup_app_l_Some.
Qed.

Lemma steps_heirs_ok d st st' : steps d st st' → heirs_ok st → heirs_ok st'.
Proof. induction 1; eauto using prim_heirs_ok. Qed.

Lemma prim_registry_views d st st' : prim d st st' → registry_views st → registry_views st'.
Proof.
  intros H [Hok1 Hok2].
  assert (Hv : ∀ t cb, has_view st t cb → has_view st' t cb)
    by (intros; by eapply prim_has_view).
  split.
  - intros t Ht.
    assert (Hsame : targetToKeysToCallbacks st' = targetToKeysToCallbacks st →
                    ∃ cb, has_view st' t cb).
    { intros Heq. rewrite Heq in Ht. destruct (Hok1 _ Ht) as [cb ?]. eauto. }
    destruct H; simpl in *.
    1, 4, 5, 6, 7, 8, 9, 10, 11, 12, 13: by eauto.
    + destruct (decide (t = t0)) as [->|Hne]; [eauto|].
      rewrite (observeTargetKey_lookup_ne _ _ _ _ _ _ H0 Hne) in Ht.
      destruct (Hok1 _ Ht) as [cb' ?]. eauto.
    + assert (is_Some (targetToKeysToCallbacks st !! t)) as Ht'.
      { apply not_eq_None_Some. rewrite <- (clearReactivesForCallback_lookup_None _ _ _ _ H).
        by apply not_eq_None_Some. }
      destruct (Hok1 _ Ht') as [cb' ?]. eauto.
  - intros t cb Ht.
    assert (Hsame : callbacksToTargets st' = callbacksToTargets st → has_view st' t cb).
    { intros Heq. unfold targets_of in Ht. rewrite Heq in Ht. eauto. }
    destruct H; simpl in *.
    1, 4, 5, 6, 7, 8, 9, 10, 11, 12, 13: by eauto.
    + rewrite (observeTargetKey_targets _ _ _ _ _ _ H0) in Ht.
      case_decide; subst; [|eauto].
      apply elem_of_jsset_add in Ht as [->|Ht]; eauto.
    + rewrite (clearReactivesForCallback_targets _ _ _ _ H) in Ht.
      case_decide; [by apply elem_of_nil in Ht|eauto].
Qed.

Lemma prim_wf d st st' : prim d st st' → wf st → wf st'.
Proof.
  intros H (?&?&?&?&?&?&?).
  split_and!; eauto using prim_registry_ok, prim_cache_ok, prim_proxies_ok,
    prim_no_target_prop, prim_no_tag_prop, prim_generators_ok, prim_registry_views.
Qed.

Lemma steps_wf d st st' : steps d st st' → wf st → wf st'.
Proof. induction 1; eauto using prim_wf. Qed.

Lemma wf_init : wf init.
Proof.
  split_and!.
  - intros t obs k cbs Hl. simpl in Hl. by rewrite lookup_empty in Hl.
  - intros t m cb p Hl. simpl in Hl. by rewrite lookup_empty in Hl.
  - intros p t cb h Hl. done.
  - intros l o Hl. done.
  - intros l o Hl. done.
  - intros l g Hl. done.
  - split.
    + intros t [x Hx]. simpl in Hx. by rewrite lookup_empty in Hx.
    + intros t cb Ht. unfold targets_of in Ht. simpl in Ht.
      rewrite lookup_empty in Ht. by apply elem_of_nil in Ht.
Qed.

Lemma reachable_wf st : reachable st → wf st.
Proof. intros H. eapply steps_wf; [exact H|apply wf_init]. Qed.

Lemma reachable_no_tag st l o :
  reachable st → heap st !! l = Some (ORaw o) → obj_has (KSym ToStringTag) o = false.
Proof. intros (_&_&_&_&Htag&_)%reachable_wf Hl. eauto. Qed.

Lemma reachable_heirs_ok st : reachable st → heirs_ok st.
Proof. intros H. eapply steps_heirs_ok; [exact H|]. intros l p Hl. done. Qed.

(** ** Callbacks of client programs *)

Lemma prim_quiet d st st' : prim (S d) st st' → quiet d st st'.
Proof.
  assert (Hsame : trace st' = trace st → quiet d st st').
  { intros Heq. exists []. by rewrite app_nil_r. }
  intros H. destruct H; try (by apply Hsame).
  - exists [e]. split; [done|]. constructor; [lia|constructor].
  - apply Hsame. by destruct (observeTargetKey_frame _ _ _ _ _ H0) as (_ & _ & ->).
  - apply Hsame. by destruct (clearReactivesForCallback_frame _ _ _ H) as (_ & _ & ->).
Qed.

Lemma steps_quiet d st st' : steps (S d) st st' → quiet d st st'.
Proof.
  induction 1 as [st|st1 st2 st3 H12 _ IH].
  - exists []. by rewrite app_nil_r.
  - destruct (prim_quiet _ _ _ H12) as (e1 & He1 & Hd1).
    destruct IH as (e2 & He2 & Hd2).
    exists (e1 ++ e2). split; [by rewrite He2, He1, app_assoc|].
    by apply Forall_app.
Qed.

Lemma callback_call_wf body fuel depth cb st st' :
  wf st → state_of (callback_call body fuel depth cb st) = Some st' → wf st'.
Proof.
  intros Hwf Hst.
  pose proof (sound_callback_call body fuel depth cb st) as H.
  destruct (callback_call body fuel depth cb st) as [a s|e s|]; simpl in *; [| |done];
    simplify_eq; (eapply steps_wf; [apply H|done]); apply Hwf.
Qed.

Lemma callback_call_quiet body fuel depth cb st st' :
  wf st → state_of (callback_call body fuel depth cb st) = Some st' → quiet depth st st'.
Proof.
  intros Hwf Hst. apply steps_quiet.
  pose proof (sound_callback_call body fuel depth cb st) as H.
  destruct (callback_call body fuel depth cb st) as [a s|e s|]; simpl in *; [| |done];
    simplify_eq; apply H; apply Hwf.
Qed.

Lemma wf_add_event e st : wf st → wf (add_event e st).
Proof. apply (prim_wf 0). constructor. lia. Qed.

Lemma wf_clear cb st st' : clearReactivesForCallback cb st = Ok tt st' → wf st → wf st'.
Proof. intros H. apply (prim_wf 0). by eapply prim_clear. Qed.

Lemma wf_registry_ok st : wf st → registry_ok st.
Proof. by intros [? _]. Qed.

Lemma registry_ok_NoDup st t k : registry_ok st → NoDup (subscribers st t k).
Proof.
  intros Hok. unfold subscribers.
  destruct (targetToKeysToCallbacks st !! t) as [m|] eqn:Hm; [|constructor].
  destruct (jsmap_get k m) as [cbs|] eqn:Hk; simpl; [|constructor].
  eapply Hok; eauto using jsmap_get_elem_of.
Qed.

Lemma reachable_state_after body p : reachable (state_after body p).
Proof.
  unfold state_after.
  destruct (run body 3 0 p init) as [a st|e st|] eqn:Hrun; [| |apply reachable_init];
    eapply (reachable_run body 3 0 p init); try apply reachable_init;
    by rewrite Hrun.
Qed.

(** ** The claims on the notifier *)

(** C1: [notifyReactives(target, key)] works on the callbacks subscribed
    to [(target, key)] when the call starts; for each of them, in
    registration order and once, it first removes every registry entry of
    the callback, on all containers and keys, and only then calls it, so
    that what the callback subscribes to during its own run stays.  In
    Rocq: from a reachable state and whatever the client code of the
    callbacks, [notifyReactives] equals the notifier written from the
    words of the specification, whose clearing step leaves the callback
    in no set of the registry; and when the call returns, the callbacks
    called at this depth are the snapshot, in order. *)
Theorem notify_clears_then_calls body fuel depth st target key :
  reachable st →
  notifyReactives depth (callback_call body fuel depth) target key st =
    notify_spec depth (callback_call body fuel depth) target key st ∧
  NoDup (subscribers st target key) ∧
  (∀ cb s t k, cb ∉ subscribers (remove_everywhere cb s) t k) ∧
  (∀ st', notifyReactives depth (callback_call body fuel depth) target key st = Ok tt st' →
          calls depth (new_events st st') = subscribers st target key).
Proof.
  intros Hr. pose proof (reachable_wf _ Hr) as Hwf. split_and!.
  - apply (notifyReactives_refines depth _ wf);
      eauto using wf_clear, wf_add_event, callback_call_wf, wf_registry_ok.
  - apply registry_ok_NoDup, Hwf.
  - intros cb s t k. rewrite remove_everywhere_subscribers, elem_of_jsset_delete. tauto.
  - intros st' Hst'.
    pose proof (notifyReactives_events depth (callback_call body fuel depth) wf
                  wf_clear wf_add_event (callback_call_wf body fuel depth)
                  (callback_call_quiet body fuel depth) target key st Hwf) as H.
    rewrite Hst' in H. destruct H as (_ & evs & Htr & _ & Hc).
    by rewrite (new_events_app _ _ _ Htr).
Qed.

Lemma notify_clears_then_calls_witness :
  notifyReactives 0 (callback_call idle 1 0) 0 (VStr "a") (state_after idle two_readers) =
    notify_spec 0 (callback_call idle 1 0) 0 (VStr "a") (state_after idle two_readers) ∧
  subscribers (state_after idle two_readers) 0 (VStr "a") = [1; 2].
Proof.
  split.
  - apply (notify_clears_then_calls idle 1 0 (state_after idle two_readers) 0 (VStr "a")).
    apply reachable_state_after.
  - vm_compute. reflexivity.
Defined.

(** C10: clearing is per callback.  When a callback [cb] is cleared, the
    subscriptions of every other callback [cb2], those on the same
    containers and keys as [cb] included, stay in the registry, in the
    same order; and a whole [notifyReactives] leaves the subscriptions
    of [cb2] as they were unless [cb2] is among the callbacks it
    notifies, as far as the engine is concerned, that is when the code of
    the callbacks called does not itself touch them. *)
Theorem clearing_is_per_callback depth call cb cb2 :
  cb2 ≠ cb →
  (∀ st st',
     clearReactivesForCallback cb st = Ok tt st' →
     same_subscriptions cb2 st st' ∧
     ∀ t k, jsset_delete cb (subscribers st' t k) = jsset_delete cb (subscribers st t k)) ∧
  (∀ t k st st',
     (∀ c st1 st2, c ≠ cb2 → state_of (call c st1) = Some st2 →
                   same_subscriptions cb2 st1 st2) →
     cb2 ∉ subscribers st t k →
     state_of (notifyReactives depth call t k st) = Some st' →
     same_subscriptions cb2 st st').
Proof.
  intros Hne. split.
  - intros st st' Hc. by apply clearReactivesForCallback_others.
  - intros t k st st' Hframe Hnot Hst. by eapply notifyReactives_others.
Qed.

Lemma returns_inv {A} (r : Res A) : returns r → ∃ a st', r = Ok a st'.
Proof. destruct r; by eauto. Qed.

Lemma clearing_is_per_callback_witness :
  (∃ st', clearReactivesForCallback 1 (state_after idle two_readers) = Ok tt st' ∧
          same_subscriptions 2 (state_after idle two_readers) st') ∧
  (∃ st', notifyReactives 0 (callback_call idle 1 0) 0 (VStr "b")
            (state_after idle two_readers) = Ok tt st' ∧
          same_subscriptions 2 (state_after idle two_readers) st').
Proof.
  assert (Hne : 2 ≠ 1) by lia.
  destruct (clearing_is_per_callback 0 (callback_call idle 1 0) 1 2 Hne) as [HA HB].
  split.
  - destruct (clearReactivesForCallback_returns 1 (state_after idle two_readers))
      as [st' Hc].
    exists st'. split; [exact Hc|]. exact (proj1 (HA _ _ Hc)).
  - assert (Hret : returns (notifyReactives 0 (callback_call idle 1 0) 0 (VStr "b")
                              (state_after idle two_readers)))
      by (vm_compute; exact I).
    destruct (returns_inv _ Hret) as ([] & st' & Hn). clear Hret.
    exists st'. split; [exact Hn|].
    apply (HB 0 (VStr "b")).
    + intros c st1 st2 _ Hcall. change (Some st1 = Some st2) in Hcall.
      injection Hcall as <-. apply same_subscriptions_refl.
    + assert (Hs : subscribers (state_after idle two_readers) 0 (VStr "b") = [1])
        by (vm_compute; reflexivity).
      rewrite Hs. clear. intros [?|[]%elem_of_nil]%elem_of_cons. lia.
    + rewrite Hn. reflexivity.
Defined.

(** ** The claims on the mutations, for any behaviour of the callbacks *)


Lemma obj_has_delete k o :
  (obj_delete k o).2 = true → obj_has k (obj_delete k o).1 = false.
Proof.
  unfold obj_delete.
  destruct (props_get k (o_props o)) as [d|] eqn:Hk;
    [|intros _; unfold obj_has; simpl; by rewrite Hk].
  destruct (p_configurable d); [|done]. intros _.
  change (obj_has k (with_props (props_remove k (o_props o)) o) = false).
  rewrite obj_has_remove. by rewrite decide_True.
Qed.

Lemma same_but_refl ks o : same_but ks o o.
Proof. done. Qed.




Lemma same_but_remove k o :
  same_but (only k) o (with_props (props_remove k (o_props o)) o).
Proof.
  split_and!; try done. intros k' Hk'. simpl. rewrite props_get_remove.
  unfold only in Hk'. apply bool_decide_eq_false in Hk'. by rewrite decide_False.
Qed.








(** What [Reflect.set] does to a native object, case by case. *)
Lemma reflect_set_new k v o :
  props_get k (o_props o) = None →
  proto_lookup (o_class o) k = NotInherited ∨ proto_lookup (o_class o) k = InheritedMethod →
  is_array o = false ∨ array_index k = None →
  reflect_set k v o = Done (obj_set k v o).
Proof.
  intros Hk Hp Ha. unfold reflect_set. rewrite Hk.
  destruct Hp as [-> | ->]; destruct Ha as [-> | ->]; try done; by destruct (is_array o).
Qed.



(** The [set] trap once the reads it starts with are made. *)
Lemma basic_set_unfold depth call t key value st o original r :
  heap st !! t = Some (ORaw o) →
  reflect_get key o = Some original →
  reflect_set key value o = Done r →
  basic_set depth call t key value st =
    (when (negb (obj_has key o)) (notifyReactives depth call t (VSym KEYCHANGES)) ;;;
     when (negb (strict_eq original value)
           || (is_array o && bool_decide (key = KStr "length")))
       (notifyReactives depth call t (key_value key)) ;;;
     ret r.2)
      (set_heap (<[t := ORaw r.1]> (heap st)) st).
Proof.
  intros Hl Hg Hs. unfold basic_set, raw_obj, update_raw. msteps. rewrite Hl. msteps.
  rewrite Hg. simpl. msteps. rewrite Hs. simpl. by msteps.
Qed.


Lemma basic_deleteProperty_unfold depth call t key st o :
  heap st !! t = Some (ORaw o) →
  basic_deleteProperty depth call t key st =
    (notifyReactives depth call t (VSym KEYCHANGES) ;;;
     notifyReactives depth call t (key_value key) ;;;
     ret (obj_delete key o).2)
      (set_heap (<[t := ORaw (obj_delete key o).1]> (heap st)) st).
Proof.
  intros Hl. unfold basic_deleteProperty, raw_obj, update_raw. msteps. rewrite Hl.
  by msteps.
Qed.

Section Mutations.

Variable depth : nat.
Variable call : Callback → M unit.

Hypothesis call_quiet : quiet_calls depth call.

Let always : State → Prop := fun _ => True.

(** The events of a notification, as far as this depth is concerned. *)
Lemma notify_trace t k st st' :
  notifyReactives depth call t k st = Ok tt st' →
  ∃ evs, trace st' = trace st ++ evs ∧ notifications depth evs = [(t, k)].
Proof.
  intros H.
  pose proof (notifyReactives_events depth call always) as Hev.
  specialize (Hev ltac:(done) ltac:(done) ltac:(done)).
  specialize (Hev (fun cb s s' _ => call_quiet cb s s') t k st I).
  rewrite H in Hev. destruct Hev as (_ & evs & Htr & Hn & _). eauto.
Qed.

Lemma when_notify_trace b t k st st' :
  when b (notifyReactives depth call t k) st = Ok tt st' →
  ∃ evs, trace st' = trace st ++ evs ∧
         notifications depth evs = if b then [(t, k)] else [].
Proof.
  destruct b; simpl; [apply notify_trace|].
  intros [= <-]. exists []. by rewrite app_nil_r.
Qed.

Lemma when_notify_returns b t k st :
  (∀ cb s, returns (call cb s)) →
  returns (when b (notifyReactives depth call t k) st).
Proof. intros H. destruct b; simpl; [by apply notifyReactives_returns|done]. Qed.

Lemma when_notify_heap b t k st st' :
  (∀ cb s s', state_of (call cb s) = Some s' → heap s' = heap s) →
  state_of (when b (notifyReactives depth call t k) st) = Some st' →
  heap st' = heap st.
Proof.
  intros Hcall. destruct b; simpl; [|by intros [= <-]].
  apply (notifyReactives_preserves depth call (fun s => heap s = heap st)); [| | |done].
  - intros cb s s' Hc Hs. by destruct (clearReactivesForCallback_frame _ _ _ Hc) as (-> & _).
  - done.
  - intros cb s s' Hs Hc. rewrite <- Hs. eauto.
Qed.


(** C4, as amended: on a wrapped record or list, deleting [key]
    removes it, unless it is an own property that is not configurable,
    which stays, the delete being refused; and whether [key] was
    removed, kept or absent, the trap fires both [notify(KEYCHANGES)]
    and [notify(key)], in this order.  The statement is on the
    [deleteProperty] trap of [basicProxyHandler], with [o] the container
    before the deletion: the trap answers [true] exactly when [key] was
    absent or configurable; the container it leaves, seen when the
    callbacks leave the heap alone, has no [key] then and the same other
    properties, and is [o] itself otherwise. *)
Theorem delete_always_notifies target key st o :
  heap st !! target = Some (ORaw o) →
  (∀ r st',
     basic_deleteProperty depth call target key st = Ok r st' →
     (r = true ↔ ∀ d, props_get key (o_props o) = Some d → p_configurable d = true) ∧
     notifications depth (new_events st st') =
       [(target, VSym KEYCHANGES); (target, key_value key)]) ∧
  (∀ r st',
     (∀ cb s s', state_of (call cb s) = Some s' → heap s' = heap s) →
     basic_deleteProperty depth call target key st = Ok r st' →
     ∃ o', heap st' = <[target := ORaw o']> (heap st) ∧
           (r = true → obj_has key o' = false ∧ same_but (only key) o o') ∧
           (r = false → o' = o)) ∧
  ((∀ cb s, returns (call cb s)) →
   returns (basic_deleteProperty depth call target key st)).
Proof.
  intros Hl.
  assert (Hunfold : basic_deleteProperty depth call target key st =
    (when true (notifyReactives depth call target (VSym KEYCHANGES)) ;;;
     when true (notifyReactives depth call target (key_value key)) ;;;
     ret (obj_delete key o).2)
      (set_heap (<[target := ORaw (obj_delete key o).1]> (heap st)) st)).
  { by rewrite (basic_deleteProperty_unfold _ _ _ _ _ _ Hl). }
  rewrite Hunfold. clear Hunfold.
  set (st0 := set_heap _ st).
  assert (Hverdict : (obj_delete key o).2 = true ↔
            ∀ d, props_get key (o_props o) = Some d → p_configurable d = true).
  { unfold obj_delete. destruct (props_get key (o_props o)) as [d|].
    - destruct (p_configurable d) eqn:Hc; simpl.
      + split; [|done]. by intros _ d' [= <-].
      + split; [done|]. intros H. specialize (H d eq_refl). congruence.
    - simpl. split; [|done]. by intros _ d. }
  split_and!.
  - intros r st'. msteps.
    destruct (when _ _ st0) as [[] st1|e st1|] eqn:H1; [|done|done].
    msteps.
    destruct (when _ _ st1) as [[] st2|e st2|] eqn:H2; [|done|done].
    msteps. intros [= <- <-]. split; [exact Hverdict|].
    destruct (when_notify_trace _ _ _ _ _ H1) as (evs1 & Htr1 & Hn1).
    destruct (when_notify_trace _ _ _ _ _ H2) as (evs2 & Htr2 & Hn2).
    rewrite (new_events_app st st2 (evs1 ++ evs2)).
    + by rewrite notifications_app, Hn1, Hn2.
    + rewrite Htr2, Htr1. by rewrite app_assoc.
  - intros r st' Hheap. msteps.
    destruct (when _ _ st0) as [[] st1|e st1|] eqn:H1; [|done|done].
    msteps.
    destruct (when _ _ st1) as [[] st2|e st2|] eqn:H2; [|done|done].
    msteps. intros [= <- <-]. exists (obj_delete key o).1. split_and!.
    + rewrite (when_notify_heap _ _ _ st1 st2 Hheap) by (by rewrite H2).
      by rewrite (when_notify_heap _ _ _ st0 st1 Hheap) by (by rewrite H1).
    + intros Hr. split; [by apply obj_has_delete|].
      revert Hr. unfold obj_delete. destruct (props_get key (o_props o)) as [d|]; [|done].
      destruct (p_configurable d); [|done]. intros _. apply same_but_remove.
    + unfold obj_delete. destruct (props_get key (o_props o)) as [d|]; [|done].
      by destruct (p_configurable d).
  - intros Hret. msteps.
    pose proof (when_notify_returns true target (VSym KEYCHANGES) st0 Hret) as H1.
    destruct (when _ _ st0) as [[] st1|e st1|]; [|done|done].
    msteps.
    pose proof (when_notify_returns true target (key_value key) st1 Hret) as H2.
    destruct (when _ _ st1) as [[] st2|e st2|]; [|done|done].
    by msteps.
Qed.

(** *** Mutators of the collections *)

Lemma native_has_eval target k v st o kind :
  heap st !! target = Some (ORaw o) → class_kind (o_class o) = Some kind →
  native_call NHas target k v st = Ok (VBool (data_has k (o_data o))) st.
Proof.
  intros Hl Hk. unfold native_call, raw_obj. msteps. rewrite Hl. msteps.
  by destruct (o_class o).
Qed.

Lemma native_getter_eval target k v st o kind m :
  heap st !! target = Some (ORaw o) → class_kind (o_class o) = Some kind →
  is_mutator m = true → has_special kind (method_key m) = true →
  native_call (match m with MSet => NGet | _ => NHas end) target k v st =
    Ok (prior_value m k (o_data o)) st.
Proof.
  intros Hl Hk Hm Hs. unfold native_call, raw_obj. msteps. rewrite Hl. msteps.
  by destruct (o_class o), m, kind.
Qed.

Lemma native_setter_eval target k v st o kind m :
  heap st !! target = Some (ORaw o) → class_kind (o_class o) = Some kind →
  is_mutator m = true → has_special kind (method_key m) = true →
  (kind = KWeakMap → m = MSet → can_be_held_weakly k = true) →
  ∃ r, native_call (match m with MSet => NSet | MAdd => NAdd | _ => NDelete end)
         target k v st =
       Ok r (set_heap (<[target := ORaw (with_data (data_after m k v (o_data o)) o)]>
                         (heap st)) st).
Proof.
  intros Hl Hk Hm Hs Hw. unfold native_call, raw_obj, update_raw. msteps.
  rewrite Hl. msteps.
  destruct (o_class o), m, kind; try done; simpl; msteps; eauto.
  rewrite Hw by done. msteps. eauto.
Qed.

(** C2, as amended: on a wrapped set, map or weak map, a call to [add],
    [set] or [delete] whose key unwraps to [k] (this is where [null] and
    [undefined] throw) and on which the native mutator returns (a weak
    map refuses a key that is not an object) captures whether [k] was
    present and the prior value with the paired read ([has] for [add]
    and [delete], [get] for [set]) before it delegates; afterwards it
    fires [notify(KEYCHANGES)] exactly when the presence of [k] changed
    and [notify(k)] exactly when the captured value differs by [!==]
    from [value]; in particular setting an existing key of a map to its
    current value fires nothing, unless that value is [NaN]. *)
Theorem mutator_notifies fuel kind cb target m key value k st o :
  heap st !! target = Some (ORaw o) →
  class_kind (o_class o) = Some kind →
  is_mutator m = true →
  has_special kind (method_key m) = true →
  toRaw key st = Ok k st →
  (kind = KWeakMap → m = MSet → can_be_held_weakly k = true) →
  (∀ r st',
     collection_call depth fuel call kind cb target m key value st = Ok r st' →
     notifications depth (new_events st st') =
       (if negb (eqb (data_has k (o_data o))
                     (data_has k (data_after m k value (o_data o))))
        then [(target, VSym KEYCHANGES)] else []) ++
       (if negb (strict_eq (prior_value m k (o_data o)) value)
        then [(target, k)] else [])) ∧
  (∀ r st',
     m = MSet → data_find k (o_data o) = Some value → value ≠ VNaN →
     collection_call depth fuel call kind cb target m key value st = Ok r st' →
     notifications depth (new_events st st') = []) ∧
  ((∀ c s, returns (call c s)) →
   returns (collection_call depth fuel call kind cb target m key value st)).
Proof.
  intros Hl Hk Hm Hs HtoRaw Hw.
  destruct (native_setter_eval target k value st o kind m Hl Hk Hm Hs Hw) as [r0 Hset].
  set (o1 := with_data (data_after m k value (o_data o)) o) in *.
  set (st1 := set_heap (<[target := ORaw o1]> (heap st)) st) in *.
  assert (Hl1 : heap st1 !! target = Some (ORaw o1)).
  { subst st1; simpl. apply list_lookup_insert_eq. by eapply lookup_lt_Some. }
  assert (Hunfold : collection_call depth fuel call kind cb target m key value st =
    (when (negb (strict_eq (VBool (data_has k (o_data o)))
                           (VBool (data_has k (o_data o1)))))
       (notifyReactives depth call target (VSym KEYCHANGES)) ;;;
     when (negb (strict_eq (prior_value m k (o_data o)) value))
       (notifyReactives depth call target k) ;;;
     ret r0) st1).
  { unfold collection_call. rewrite Hs.
    pose proof (native_getter_eval target k VUndef st o kind m Hl Hk Hm Hs) as Hget.
    destruct m; try done; unfold delegateAndNotify; msteps; rewrite HtoRaw; msteps;
      rewrite (native_has_eval target k VUndef st o kind Hl Hk); msteps;
      rewrite Hget; msteps; rewrite Hset; msteps;
      rewrite (native_has_eval target k VUndef st1 o1 kind Hl1 Hk); by msteps. }
  assert (Hpres : strict_eq (VBool (data_has k (o_data o))) (VBool (data_has k (o_data o1)))
                  = eqb (data_has k (o_data o)) (data_has k (o_data o1))).
  { by destruct (data_has k (o_data o)), (data_has k (o_data o1)). }
  assert (Hnotif : ∀ r st',
     collection_call depth fuel call kind cb target m key value st = Ok r st' →
     notifications depth (new_events st st') =
       (if negb (eqb (data_has k (o_data o)) (data_has k (o_data o1)))
        then [(target, VSym KEYCHANGES)] else []) ++
       (if negb (strict_eq (prior_value m k (o_data o)) value)
        then [(target, k)] else [])).
  { intros r st'. rewrite Hunfold, Hpres. msteps.
    destruct (when _ _ st1) as [[] st2|e st2|] eqn:H1; [|done|done].
    msteps.
    destruct (when _ _ st2) as [[] st3|e st3|] eqn:H2; [|done|done].
    msteps. intros [= <- <-].
    destruct (when_notify_trace _ _ _ _ _ H1) as (evs1 & Htr1 & Hn1).
    destruct (when_notify_trace _ _ _ _ _ H2) as (evs2 & Htr2 & Hn2).
    rewrite (new_events_app st st3 (evs1 ++ evs2)).
    - by rewrite notifications_app, Hn1, Hn2.
    - rewrite Htr2, Htr1. by rewrite app_assoc. }
  split_and!.
  - exact Hnotif.
  - intros r st' -> Hfind Hnan Hcall. rewrite (Hnotif r st' Hcall).
    subst o1. simpl.
    assert (Hhas : data_has k (o_data o) = true) by (unfold data_has; by rewrite Hfind).
    assert (Hput : data_has k (data_put k value (o_data o)) = true).
    { clear -Hhas. unfold data_has in *.
      induction (o_data o) as [|[[k0 v0]|] d IH]; simpl in *; [done| |auto].
      destruct (same_value_zero k0 k) eqn:E; simpl; rewrite E; [done|auto]. }
    rewrite Hhas, Hput. simpl. unfold data_get. rewrite Hfind.
    assert (strict_eq value value = true) as ->; [|done].
    destruct value; simpl; try done; by rewrite bool_decide_eq_true_2.
  - intros Hret. rewrite Hunfold. msteps.
    match goal with
    | |- context [when ?b ?n st1] =>
        pose proof (when_notify_returns b target (VSym KEYCHANGES) st1 Hret) as H1;
        destruct (when b n st1) as [[] st2|e st2|]; [|done|done]
    end.
    msteps.
    match goal with
    | |- context [when ?b ?n st2] =>
        pose proof (when_notify_returns b target k st2 Hret) as H2;
        destruct (when b n st2) as [[] st3|e st3|]; [|done|done]
    end.
    by msteps.
Qed.

End Mutations.

Lemma idle_quiet fuel depth : quiet_calls depth (callback_call idle (S fuel) depth).
Proof.
  intros cb st st' H. unfold callback_call, idle in H. rewrite run_unfold in H.
  injection H as <-. exists []. split; [by rewrite app_nil_r|constructor].
Qed.

Lemma idle_returns fuel depth cb st : returns (callback_call idle (S fuel) depth cb st).
Proof. unfold callback_call, idle. by rewrite run_unfold. Qed.

Lemma two_readers_heap :
  heap (state_after idle two_readers) !! 0 = Some (ORaw two_readers_object).
Proof. vm_compute. reflexivity. Qed.

Lemma idle_heap fuel depth cb s s' :
  state_of (callback_call idle (S fuel) depth cb s) = Some s' → heap s' = heap s.
Proof. unfold callback_call, idle. rewrite run_unfold. by intros [= <-]. Qed.



Lemma delete_always_notifies_witness :
  ∃ st',
    basic_deleteProperty 0 (callback_call idle 1 0) 0 (KStr "a")
      (state_after idle two_readers) = Ok true st' ∧
    notifications 0 (new_events (state_after idle two_readers) st') =
      [(0, VSym KEYCHANGES); (0, VStr "a")] ∧
    ∃ o', heap st' !! 0 = Some (ORaw o') ∧ obj_has (KStr "a") o' = false ∧
          obj_get (KStr "b") o' = VNum 2.
Proof.
  destruct (delete_always_notifies 0 (callback_call idle 1 0) (idle_quiet 0 0)
              0 (KStr "a") (state_after idle two_readers) two_readers_object
              two_readers_heap) as (H1 & H2 & H3).
  destruct (returns_inv _ (H3 (idle_returns 0 0))) as (r & st' & Hs).
  destruct (H1 r st' Hs) as [Hr Hn].
  assert (Hrt : r = true).
  { apply Hr. intros d Hd. vm_compute in Hd. by injection Hd as <-. }
  destruct (H2 r st' (idle_heap 0 0) Hs) as (o' & Hheap & Hgone & _).
  destruct (Hgone Hrt) as (Hno & _ & _ & _ & Hother).
  exists st'. split_and!.
  - rewrite Hs, Hrt. reflexivity.
  - exact Hn.
  - exists o'. split_and!.
    + rewrite Hheap. apply list_lookup_insert_eq.
      apply lookup_lt_Some with (ORaw two_readers_object). exact two_readers_heap.
    + exact Hno.
    + unfold obj_get. rewrite (Hother (KStr "b") eq_refl). reflexivity.
Defined.

(** C4, the claim as written: the removal is not always performed.
    With [x = {a: 1}], [v = reactive(x, cb1)], [v.a] read and [x]
    frozen, [delete v.a] is refused: [x.a] is still there, both
    notifications have fired and [cb1] has run before the
    [TypeError]. *)
Lemma refused_delete_notifies :
  ∃ st',
    js_delete 0 (callback_call idle 1 0) (VRef 1) (KStr "a")
      (state_after idle read_then_freeze) = Throw TypeError st' ∧
    heap (state_after idle read_then_freeze) !! 1 = Some (OProxy 0 1 HBasic) ∧
    heap st' !! 0 = Some (ORaw frozen_object) ∧
    obj_has (KStr "a") frozen_object = true ∧
    notifications 0 (new_events (state_after idle read_then_freeze) st') =
      [(0, VSym KEYCHANGES); (0, VStr "a")] ∧
    calls 0 (new_events (state_after idle read_then_freeze) st') = [1].
Proof. eexists. split_and!; vm_compute; reflexivity. Qed.

Lemma nan_map_heap :
  heap (state_after idle nan_map) !! 0 = Some (ORaw nan_map_object).
Proof. vm_compute. reflexivity. Qed.

Lemma mutator_notifies_witness :
  ∃ st',
    collection_call 0 1 (callback_call idle 1 0) KMap 1 0 MSet (VStr "k") (VNum 3)
      (state_after idle nan_map) = Ok (VRef 0) st' ∧
    notifications 0 (new_events (state_after idle nan_map) st') = [(0, VStr "k")].
Proof.
  assert (Hw : KMap = KWeakMap → MSet = MSet → can_be_held_weakly (VStr "k") = true)
    by (intros H; discriminate H).
  destruct (mutator_notifies 0 (callback_call idle 1 0) (idle_quiet 0 0)
              1 KMap 1 0 MSet (VStr "k") (VNum 3) (VStr "k")
              (state_after idle nan_map) nan_map_object
              nan_map_heap eq_refl eq_refl eq_refl eq_refl Hw) as (H1 & _ & H3).
  destruct (returns_inv _ (H3 (idle_returns 0 0))) as (r & st' & Hs).
  pose proof (H1 r st' Hs) as Hn.
  assert (Hr : r = VRef 0).
  { assert (Hv : match collection_call 0 1 (callback_call idle 1 0) KMap 1 0 MSet
                         (VStr "k") (VNum 3) (state_after idle nan_map) with
                 | Ok v _ => v = VRef 0
                 | _ => True
                 end) by (vm_compute; reflexivity).
    rewrite Hs in Hv. exact Hv. }
  exists st'. split.
  - rewrite Hs, Hr. reflexivity.
  - rewrite Hn. reflexivity.
Defined.

(** C2 as stated fails.  The key ["k"] of the map holds [NaN]; setting
    it to [NaN] again, its current value, fires [notify("k")] and calls
    the subscribed callback, since [NaN !== NaN].  And a call with the
    key [null] throws a [TypeError] where the claim has it notify. *)
Lemma set_to_current_value_notifies :
  heap (state_after idle nan_map) !! 0 = Some (ORaw nan_map_object) ∧
  data_find (VStr "k") (o_data nan_map_object) = Some VNaN ∧
  returns (collection_call 0 1 (callback_call idle 1 0) KMap 1 0 MSet (VStr "k") VNaN
             (state_after idle nan_map)) ∧
  notifications 0
    (new_events (state_after idle nan_map)
       (final_state (collection_call 0 1 (callback_call idle 1 0) KMap 1 0 MSet
                       (VStr "k") VNaN (state_after idle nan_map)))) = [(0, VStr "k")] ∧
  calls 0
    (new_events (state_after idle nan_map)
       (final_state (collection_call 0 1 (callback_call idle 1 0) KMap 1 0 MSet
                       (VStr "k") VNaN (state_after idle nan_map)))) = [1] ∧
  collection_call 0 1 (callback_call idle 1 0) KMap 1 0 MSet VNull (VNum 1)
    (state_after idle nan_map) = Throw TypeError (state_after idle nan_map).
Proof.
  split_and!.
  - apply nan_map_heap.
  - reflexivity.
  - vm_compute. exact I.
  - vm_compute. reflexivity.
  - vm_compute. reflexivity.
  - vm_compute. reflexivity.
Qed.

(** ** The wrapper factory *)

Lemma prim_cached d st st' l cb p :
  prim d st st' → cached st l cb = Some p → cached st' l cb = Some p.
Proof.
  unfold cached. intros H Hc. destruct H; simpl in *; try done.
  - by destruct (observeTargetKey_frame _ _ _ _ _ H0) as (_ & -> & _).
  - by destruct (clearReactivesForCallback_frame _ _ _ H) as (_ & -> & _).
  - destruct (decide (t = l)) as [->|]; [by rewrite H in Hc|].
    by rewrite lookup_insert_ne.
  - destruct (decide (t = l)) as [->|]; [|by rewrite lookup_insert_ne].
    rewrite lookup_insert_eq. simpl.
    destruct (decide (cb0 = cb)) as [->|]; [congruence|].
    by rewrite lookup_insert_ne.
Qed.

Lemma steps_cached d st st' l cb p :
  steps d st st' → cached st l cb = Some p → cached st' l cb = Some p.
Proof. induction 1; eauto using prim_cached. Qed.

Lemma reactive_raw n l o cb st :
  heap st !! l = Some (ORaw o) →
  obj_has (KSym ToStringTag) o = false →
  supported (o_class o) = true →
  obj_has (KSym SKIP) o = false →
  obj_has (KSym TARGET) o = false →
  reactive_n (S n) (VRef l) cb st = reactive_cached (VRef l) cb st.
Proof.
  intros Hl Htag Hsup Hskip Htarget. rewrite reactive_n_S.
  rewrite bind_unfold, (canBeMadeReactive_raw _ _ _ Hl Htag), Hsup. simpl.
  rewrite bind_unfold, (has_property_raw (KSym SKIP) _ _ _ Hl eq_refl), Hskip.
  rewrite bind_unfold, (read_property_raw (KSym TARGET) _ _ _ Hl eq_refl). simpl.
  unfold obj_get. unfold obj_has in Htarget.
  by destruct (props_get (KSym TARGET) (o_props o)).
Qed.

Lemma reactive_marked n l o cb st :
  heap st !! l = Some (ORaw o) →
  obj_has (KSym ToStringTag) o = false →
  supported (o_class o) = true →
  obj_has (KSym SKIP) o = true →
  reactive_n (S n) (VRef l) cb st = Ok (VRef l) st.
Proof.
  intros Hl Htag Hsup Hskip. rewrite reactive_n_S.
  rewrite bind_unfold, (canBeMadeReactive_raw _ _ _ Hl Htag), Hsup. simpl.
  by rewrite bind_unfold, (has_property_raw (KSym SKIP) _ _ _ Hl eq_refl), Hskip.
Qed.

Lemma reactive_cached_hit l cb p st :
  cached st l cb = Some p → reactive_cached (VRef l) cb st = Ok (VRef p) st.
Proof.
  unfold cached, reactive_cached. intros Hc. msteps.
  destruct (reactiveCache st !! l) as [m|] eqn:Hm; [|done].
  rewrite Hm. simpl in *. by rewrite Hc.
Qed.

Lemma reactive_cached_miss_tag l o cb st :
  cached st l cb = None →
  heap st !! l = Some (ORaw o) →
  ∃ st',
    reactive_cached (VRef l) cb st = Ok (VRef (length (heap st))) st' ∧
    heap st' = heap st ++ [OProxy l cb (handler_for (tag_of o))] ∧
    cached st' l cb = Some (length (heap st)) ∧
    targetToKeysToCallbacks st' = targetToKeysToCallbacks st ∧
    callbacksToTargets st' = callbacksToTargets st ∧
    trace st' = trace st.
Proof.
  unfold cached, reactive_cached. intros Hc Hl. msteps.
  set (st1 := match reactiveCache st !! l with
              | Some _ => st
              | None => set_cache (<[l:=∅]> (reactiveCache st)) st
              end).
  assert (Hst1 : heap st1 = heap st ∧
                 default ∅ (reactiveCache st1 !! l) = default ∅ (reactiveCache st !! l) ∧
                 targetToKeysToCallbacks st1 = targetToKeysToCallbacks st ∧
                 callbacksToTargets st1 = callbacksToTargets st ∧
                 trace st1 = trace st).
  { subst st1. destruct (reactiveCache st !! l) eqn:Hm.
    - rewrite Hm. by split_and!.
    - simpl. rewrite lookup_insert_eq. by split_and!. }
  destruct Hst1 as (Hh1 & Hc1 & Ht1 & Hr1 & Htr1).
  rewrite Hc1, Hc. unfold rawType, objectToString_tag. msteps.
  rewrite Hh1, Hl. msteps. rewrite handler_for_tag. msteps.
  unfold alloc. msteps. rewrite Hh1. simpl.
  eexists. split; [reflexivity|]. simpl.
  rewrite lookup_insert_eq. simpl. rewrite lookup_insert_eq. by split_and!.
Qed.

Lemma reactive_cached_miss l o cb st :
  cached st l cb = None →
  heap st !! l = Some (ORaw o) →
  obj_has (KSym ToStringTag) o = false →
  ∃ st',
    reactive_cached (VRef l) cb st = Ok (VRef (length (heap st))) st' ∧
    heap st' = heap st ++ [OProxy l cb (handler_of (o_class o))] ∧
    cached st' l cb = Some (length (heap st)) ∧
    targetToKeysToCallbacks st' = targetToKeysToCallbacks st ∧
    callbacksToTargets st' = callbacksToTargets st ∧
    trace st' = trace st.
Proof.
  intros Hc Hl Htag. rewrite <- (proj2 (supported_tag o Htag)).
  by apply reactive_cached_miss_tag.
Qed.

Lemma reachable_raw st l o :
  reachable st → heap st !! l = Some (ORaw o) → obj_has (KSym TARGET) o = false.
Proof. intros (_&_&_&Hnt&_)%reachable_wf Hl. eauto. Qed.

Lemma wf_cached st l cb p :
  wf st → cached st l cb = Some p → ∃ h, heap st !! p = Some (OProxy l cb h).
Proof.
  intros (_&Hc&_) Hp. unfold cached in Hp.
  destruct (reactiveCache st !! l) as [m|] eqn:Hm; [|done]. eauto.
Qed.

(** What [reactive] answers for a container that is not marked: the
    proxy of the cache, made now if there was none. *)
Lemma reactive_raw_view n l o cb st :
  reachable st →
  heap st !! l = Some (ORaw o) →
  supported (o_class o) = true →
  obj_has (KSym SKIP) o = false →
  ∃ p st',
    reactive_n (S n) (VRef l) cb st = Ok (VRef p) st' ∧
    cached st' l cb = Some p ∧
    (∃ h, heap st' !! p = Some (OProxy l cb h)) ∧
    steps 0 st st' ∧
    (cached st l cb = Some p → st' = st).
Proof.
  intros Hr Hl Hsup Hskip.
  pose proof (reachable_raw _ _ _ Hr Hl) as Htarget.
  pose proof (reachable_no_tag _ _ _ Hr Hl) as Htag.
  assert (Hsteps : ∀ r, reactive_n (S n) (VRef l) cb st = r → res_steps 0 st r).
  { intros r <-. by apply (sound_reactive_n 0). }
  rewrite (reactive_raw n l o cb st Hl Htag Hsup Hskip Htarget) in *.
  destruct (cached st l cb) as [p|] eqn:Hc.
  - exists p, st. rewrite (reactive_cached_hit _ _ _ _ Hc).
    split_and!; [done|done| |apply steps_refl|done].
    eapply wf_cached; eauto using reachable_wf.
  - destruct (reactive_cached_miss l o cb st Hc Hl Htag) as (st' & Hrun & Hh & Hc' & _).
    exists (length (heap st)), st'. split_and!; [done|done| | |done].
    + eexists. rewrite Hh. by rewrite lookup_app_r, Nat.sub_diag.
    + apply (Hsteps _ Hrun).
Qed.

(** C6: for a container [x] that can be wrapped and is not marked,
    [reactive(x, cb)] called twice gives the same proxy, the second call
    changing nothing; it still gives that proxy after any further steps
    of the engine and its clients, as long as [x] is not marked then;
    and for two distinct callbacks the proxies are distinct, whenever
    the two calls are made. *)
Theorem reactive_is_memoized fuel st x o cb :
  reachable st →
  heap st !! x = Some (ORaw o) →
  supported (o_class o) = true →
  obj_has (KSym SKIP) o = false →
  ∃ p st1,
    reactive (S fuel) (VRef x) cb st = Ok (VRef p) st1 ∧
    (∃ h, heap st1 !! p = Some (OProxy x cb h)) ∧
    reactive (S fuel) (VRef x) cb st1 = Ok (VRef p) st1 ∧
    (∀ st2 o2,
       steps 0 st1 st2 →
       heap st2 !! x = Some (ORaw o2) → obj_has (KSym SKIP) o2 = false →
       reactive (S fuel) (VRef x) cb st2 = Ok (VRef p) st2) ∧
    (∀ st2 o2 cb2 p2 st3,
       cb2 ≠ cb →
       steps 0 st1 st2 →
       heap st2 !! x = Some (ORaw o2) → obj_has (KSym SKIP) o2 = false →
       reactive (S fuel) (VRef x) cb2 st2 = Ok (VRef p2) st3 →
       p2 ≠ p).
Proof.
  intros Hr Hl Hsup Hskip. unfold reactive.
  destruct (reactive_raw_view fuel x o cb st Hr Hl Hsup Hskip)
    as (p & st1 & Hrun & Hc & [h Hp] & Hst & _).
  assert (Hr1 : reachable st1) by eauto using reachable_steps.
  assert (Hagain : ∀ st2 o2, steps 0 st1 st2 →
            heap st2 !! x = Some (ORaw o2) → obj_has (KSym SKIP) o2 = false →
            reactive_n (S fuel) (VRef x) cb st2 = Ok (VRef p) st2).
  { intros st2 o2 Hst2 Hl2 Hskip2.
    assert (Hr2 : reachable st2) by eauto using reachable_steps.
    destruct (steps_heap_raw _ _ _ _ _ (steps_trans _ _ _ _ Hst Hst2) Hl)
      as (o2' & Hl2' & Hcl & _).
    assert (o2' = o2) as -> by congruence.
    rewrite (reactive_raw fuel x o2 cb st2 Hl2) by
      (rewrite ?Hcl; eauto using reachable_raw, reachable_no_tag).
    apply reactive_cached_hit. eauto using steps_cached. }
  exists p, st1. split_and!; [done|eauto| | |].
  - destruct (steps_heap_raw _ _ _ _ _ Hst Hl) as (o1 & Hl1 & _ & Hk1 & _).
    apply (Hagain st1 o1); [apply steps_refl|done|].
    destruct (obj_has (KSym SKIP) o1) eqn:E; [|done].
    assert (Hmark : reactive_n (S fuel) (VRef x) cb st = Ok (VRef p) st1) by done.
    clear -Hst Hl Hl1 Hskip E Hrun Hc Hr Hsup.
    exfalso.
    pose proof (reachable_raw _ _ _ Hr Hl) as Htarget.
    pose proof (reachable_no_tag _ _ _ Hr Hl) as Htag.
    rewrite (reactive_raw fuel x o cb st Hl Htag Hsup Hskip Htarget) in Hrun.
    destruct (cached st x cb) as [q|] eqn:Hq.
    + rewrite (reactive_cached_hit _ _ _ _ Hq) in Hrun. injection Hrun as _ <-.
      congruence.
    + destruct (reactive_cached_miss x o cb st Hq Hl Htag) as (st' & Hrun' & Hh & _).
      rewrite Hrun' in Hrun. injection Hrun as _ <-.
      rewrite Hh in Hl1. apply lookup_app_Some in Hl1 as [Hl1|[Hlen Hl1]].
      * congruence.
      * apply lookup_lt_Some in Hl. lia.
  - exact Hagain.
  - intros st2 o2 cb2 p2 st3 Hne Hst2 Hl2 Hskip2 Hrun2 ->.
    assert (Hr2 : reachable st2) by eauto using reachable_steps.
    destruct (steps_heap_raw _ _ _ _ _ (steps_trans _ _ _ _ Hst Hst2) Hl)
      as (o2' & Hl2' & Hcl & _).
    assert (o2' = o2) as -> by congruence.
    assert (Hsup2 : supported (o_class o2) = true) by (by rewrite Hcl).
    destruct (reactive_raw_view fuel x o2 cb2 st2 Hr2 Hl2 Hsup2 Hskip2)
      as (p' & st3' & Hrun' & _ & [h' Hp'] & Hst3 & _).
    rewrite Hrun' in Hrun2. injection Hrun2 as -> ->.
    pose proof (steps_heap_proxy _ _ _ _ _ _ _ (steps_trans _ _ _ _ Hst2 Hst3) Hp) as Hp3.
    congruence.
Qed.

Lemma one_object_heap : heap (state_after idle one_object) !! 0 = Some (ORaw empty_object).
Proof. vm_compute. reflexivity. Qed.

Lemma reactive_is_memoized_witness :
  ∃ p st1,
    reactive 1 (VRef 0) 7 (state_after idle one_object) = Ok (VRef p) st1 ∧
    reactive 1 (VRef 0) 7 st1 = Ok (VRef p) st1.
Proof.
  destruct (reactive_is_memoized 0 (state_after idle one_object) 0 empty_object 7
              (reachable_state_after idle one_object) one_object_heap eq_refl eq_refl)
    as (p & st1 & H1 & _ & H2 & _).
  exists p, st1. split; assumption.
Defined.

(** *** [toRaw] *)

Lemma toRaw_view l t cb h st :
  heap st !! l = Some (OProxy t cb h) → toRaw (VRef l) st = Ok (VRef t) st.
Proof.
  intros Hl. unfold toRaw. rewrite bind_unfold, (read_property_proxy _ _ _ _ _ Hl).
  by msteps.
Qed.

Lemma obj_get_absent k o : obj_has k o = false → obj_get k o = VUndef.
Proof. unfold obj_has, obj_get. by destruct (props_get k (o_props o)). Qed.

Lemma toRaw_heir l p t cb h st :
  heap st !! l = Some (OHeir p) → heap st !! p = Some (OProxy t cb h) →
  toRaw (VRef l) st = Ok (VRef t) st.
Proof.
  intros Hl Hp. unfold toRaw.
  rewrite bind_unfold, (read_property_heir _ _ _ _ _ _ Hl Hp). by msteps.
Qed.

(** C7, as amended: [toRaw(reactive(x, cb))] is [x] for a container [x]
    that can be wrapped and is not marked, and [toRaw] returns unchanged
    any value that is not a proxy, does not inherit from one, and is
    neither [null] nor [undefined].  Of an object that inherits from a
    proxy, [toRaw] gives the target of the proxy. *)
Theorem toRaw_recovers_target fuel st :
  reachable st →
  (∀ x o cb,
     heap st !! x = Some (ORaw o) →
     supported (o_class o) = true →
     obj_has (KSym SKIP) o = false →
     ∃ v st1,
       reactive (S fuel) (VRef x) cb st = Ok v st1 ∧
       is_view st1 v ∧ toRaw v st1 = Ok (VRef x) st1) ∧
  (∀ v,
     v ≠ VNull → v ≠ VUndef →
     value_ok st v → ¬ is_view st v → ¬ is_heir st v →
     toRaw v st = Ok v st) ∧
  (∀ l p,
     heap st !! l = Some (OHeir p) →
     ∃ t cb h, heap st !! p = Some (OProxy t cb h) ∧
               toRaw (VRef l) st = Ok (VRef t) st).
Proof.
  intros Hr. split_and!.
  - intros x o cb Hl Hsup Hskip.
    destruct (reactive_raw_view fuel x o cb st Hr Hl Hsup Hskip)
      as (p & st1 & Hrun & _ & [h Hp] & _).
    exists (VRef p), st1. split; [exact Hrun|].
    split; [by exists p, x, cb, h|]. by eapply toRaw_view.
  - intros v Hnull Hundef Hok Hview Hheir. unfold toRaw.
    destruct v as [| | | | | | | |l];
      try done; try (unfold read_property; by msteps).
    destruct (Hok l eq_refl) as [obj Hobj].
    destruct obj as [o|t cb h|g|t k m pos fin|p].
    + rewrite bind_unfold, (read_property_raw (KSym TARGET) _ _ _ Hobj eq_refl).
      msteps. simpl.
      by rewrite (obj_get_absent _ _ (reachable_raw _ _ _ Hr Hobj)).
    + destruct Hview. by exists l, t, cb, h.
    + unfold read_property. msteps. rewrite Hobj. by msteps.
    + unfold read_property. msteps. rewrite Hobj. by msteps.
    + destruct Hheir. by exists l, p.
  - intros l p Hl.
    destruct (reachable_heirs_ok st Hr l p Hl) as (t & cb & h & Hp).
    exists t, cb, h. split; [done|]. by eapply toRaw_heir.
Qed.

Lemma toRaw_recovers_target_witness :
  (∃ v st1,
     reactive 1 (VRef 0) 7 (state_after idle one_object) = Ok v st1 ∧
     toRaw v st1 = Ok (VRef 0) st1) ∧
  toRaw (VNum 5) (state_after idle one_object) = Ok (VNum 5) (state_after idle one_object) ∧
  toRaw (VRef 0) (state_after idle one_object) = Ok (VRef 0) (state_after idle one_object).
Proof.
  destruct (toRaw_recovers_target 0 (state_after idle one_object)
              (reachable_state_after idle one_object)) as (Hround & H & _).
  split; [|split].
  - destruct (Hround 0 empty_object 7 one_object_heap eq_refl eq_refl)
      as (v & st1 & Hrun & _ & Hraw).
    exists v, st1. split; assumption.
  - apply H.
    + intros E; discriminate E.
    + intros E; discriminate E.
    + intros l E; discriminate E.
    + intros (l & t & cb & h & E & _); discriminate E.
    + intros (l & p & E & _); discriminate E.
  - apply H.
    + intros E; discriminate E.
    + intros E; discriminate E.
    + intros l E. injection E as <-. rewrite one_object_heap. eexists. reflexivity.
    + intros (l & t & cb & h & E & Hl). injection E as <-.
      rewrite one_object_heap in Hl. discriminate Hl.
    + intros (l & p & E & Hl). injection E as <-.
      rewrite one_object_heap in Hl. discriminate Hl.
Defined.

(** C7 as stated fails: [null] and [undefined] are not proxies, and
    [toRaw] throws a [TypeError] on them instead of returning them; and
    with [x = {}], [v = reactive(x, cb7)] and [h = Object.create(v)],
    [h] is not a proxy and [toRaw(h)] is [x], not [h]. *)
Lemma toRaw_null_throws :
  ¬ is_view init VNull ∧ toRaw VNull init = Throw TypeError init ∧
  ¬ is_view init VUndef ∧ toRaw VUndef init = Throw TypeError init ∧
  heap (state_after idle heir_of_view) =
    [ORaw empty_object; OProxy 0 7 HBasic; OHeir 1] ∧
  ¬ is_view (state_after idle heir_of_view) (VRef 2) ∧
  toRaw (VRef 2) (state_after idle heir_of_view) =
    Ok (VRef 0) (state_after idle heir_of_view).
Proof.
  split_and!; try (vm_compute; reflexivity);
    try (by intros (l & t & cb & h & E & _)).
  intros (l & t & cb & h & E & Hl). injection E as <-. vm_compute in Hl.
  discriminate Hl.
Qed.

(** *** The probe and the error of [reactive] *)














Lemma heir_of_view_ok : value_ok (state_after idle heir_of_view) (VRef 2).
Proof. intros l E. injection E as <-. vm_compute. eexists. reflexivity. Qed.



(** *** [markRaw] *)

Lemma obj_has_set k v o : (obj_set k v o).2 = true → obj_has k (obj_set k v o).1 = true.
Proof.
  unfold obj_set. destruct (props_get k (o_props o)) as [d|].
  - destruct (p_writable d); [|done]. intros _. simpl.
    rewrite obj_has_put. by case_decide.
  - destruct (o_extensible o); [|done]. intros _. simpl.
    rewrite obj_has_put. by case_decide.
Qed.







(** ** [batched] *)

Lemma invokes_app evs1 evs2 : invokes (evs1 ++ evs2) = invokes evs1 + invokes evs2.
Proof.
  induction evs1 as [|e evs1 IH]; simpl; [done|]. destruct e; simpl; by rewrite ?IH.
Qed.

Lemma invokes_triggers n : invokes (repeat BTrigger n) = 0.
Proof. induction n; simpl; done. Qed.

Lemma invokes_logged code : invokes (logged code) = 0.
Proof. induction code as [|a code IH]; simpl; [done|]. by destruct a. Qed.

Lemma queued_not_reset code j : j ∈ queued code → j ≠ JReset.
Proof.
  induction code as [|a code IH]; simpl; [by intros ?%elem_of_nil|].
  destruct a; [| |by intros ?%elem_of_nil];
    intros [->|Hin]%elem_of_cons; auto; discriminate.
Qed.

(** Synchronous code only queues microtasks and leaves the flag alone. *)
Lemma exec_closed code st :
  exec code st =
    mkB (called st) (microtasks st ++ queued code) (history st ++ logged code).
Proof.
  revert st. induction code as [|a code IH]; intros st; simpl.
  - rewrite !app_nil_r. by destruct st.
  - destruct a; simpl.
    + rewrite IH. simpl. by rewrite <- !app_assoc.
    + rewrite IH. simpl. by rewrite <- !app_assoc.
    + rewrite !app_nil_r. by destruct st.
Qed.

Lemma exec_invocations code st : invocations (exec code st) = invocations st.
Proof.
  rewrite exec_closed. unfold invocations. simpl.
  rewrite invokes_app, invokes_logged. lia.
Qed.

Lemma queued_triggers n : queued (repeat ATrigger n) = repeat JResume n.
Proof. induction n; simpl; congruence. Qed.

Lemma logged_triggers n : logged (repeat ATrigger n) = repeat BTrigger n.
Proof. induction n; simpl; congruence. Qed.

Lemma exec_triggers n st :
  exec (repeat ATrigger n) st =
    mkB (called st) (microtasks st ++ repeat JResume n) (history st ++ repeat BTrigger n).
Proof. by rewrite exec_closed, queued_triggers, logged_triggers. Qed.

Lemma run_jobs_add callback a b st :
  run_jobs callback (a + b) st = run_jobs callback b (run_jobs callback a st).
Proof.
  revert st. induction a as [|a IH]; intros st; simpl; [done|].
  destruct (next_job callback st) as [st'|] eqn:Hn; [apply IH|].
  destruct b; simpl; [done|]. by rewrite Hn.
Qed.

(** While the flag is set, the calls that resume return at once. *)
Lemma run_jobs_skip callback k q evs :
  run_jobs callback k (mkB true (repeat JResume k ++ q) evs) = mkB true q evs.
Proof. induction k as [|k IH]; simpl; [done|]. apply IH. Qed.

Ltac count_invokes :=
  unfold invocations; cbn [history called];
  repeat (rewrite ?invokes_app, ?invokes_triggers, ?invokes_logged; cbn [invokes app]);
  try lia.

(** One window: from a state in which the flag is clear and nothing is
    queued, [S n] calls of the batched function. *)
Lemma window_first callback n evs :
  run_jobs callback 1 (exec (repeat ATrigger (S n)) (mkB false [] evs)) =
    mkB true
      (repeat JResume n ++ JReset :: queued (callback (invokes evs)))
      (evs ++ repeat BTrigger (S n) ++ BInvoke :: logged (callback (invokes evs))).
Proof.
  rewrite exec_triggers. cbn [called microtasks history app repeat run_jobs next_job run_job].
  unfold resume. cbn [called microtasks history]. rewrite exec_closed.
  cbn [called microtasks history]. unfold invocations. cbn [history].
  rewrite invokes_app. change (BTrigger :: repeat BTrigger n) with (repeat BTrigger (S n)).
  rewrite invokes_triggers, Nat.add_0_r.
  by rewrite <- !app_assoc.
Qed.

Lemma window_during callback n evs j :
  j ≤ n →
  run_jobs callback (S j) (exec (repeat ATrigger (S n)) (mkB false [] evs)) =
    mkB true
      (repeat JResume (n - j) ++ JReset :: queued (callback (invokes evs)))
      (evs ++ repeat BTrigger (S n) ++ BInvoke :: logged (callback (invokes evs))).
Proof.
  intros Hj. change (S j) with (1 + j). rewrite run_jobs_add, window_first.
  replace n with (j + (n - j)) at 1 by lia.
  rewrite repeat_app, <- app_assoc. apply run_jobs_skip.
Qed.

Lemma window_closed callback n evs :
  run_jobs callback (S (S n)) (exec (repeat ATrigger (S n)) (mkB false [] evs)) =
    mkB false
      (queued (callback (invokes evs)))
      (evs ++ repeat BTrigger (S n) ++ BInvoke :: logged (callback (invokes evs)) ++ [BReset]).
Proof.
  replace (S (S n)) with (S n + 1) by lia.
  rewrite run_jobs_add, (window_during callback n evs n) by lia.
  rewrite Nat.sub_diag. cbn [repeat app run_jobs next_job run_job microtasks called history].
  f_equal. rewrite <- !app_assoc. f_equal. simpl. f_equal.
  by rewrite <- app_assoc.
Qed.

(** The first call to resume while the flag is clear calls the
    callback: after the microtasks queued before it, none of which is a
    reset, the callback has been called once more at least. *)
Lemma resume_invokes callback q : ∀ st q' n,
  microtasks st = q ++ JResume :: q' →
  (∀ j, j ∈ q → j ≠ JReset) →
  n ≤ invocations st →
  called st = false ∨ n < invocations st →
  n < invocations (run_jobs callback (S (length q)) st).
Proof.
  induction q as [|j q IH]; intros [c ms evs] q' n Hms Hq Hn Hc;
    simpl in Hms; subst ms; unfold invocations in *; simpl in *.
  - unfold resume; simpl. destruct c.
    + destruct Hc as [?|?]; [done|]. done.
    + rewrite exec_closed; simpl. rewrite !invokes_app, invokes_logged. simpl. lia.
  - destruct j as [| |code]; simpl.
    + unfold resume; simpl. destruct c.
      * eapply (IH (mkB true _ _)); simpl; [done| |done|done].
        intros j Hj. apply Hq. by right.
      * rewrite exec_closed; simpl.
        eapply (IH (mkB true _ _)); simpl.
        -- by rewrite <- !app_assoc.
        -- intros j Hj. apply Hq. by right.
        -- unfold invocations; simpl. rewrite !invokes_app, invokes_logged. simpl. lia.
        -- right. unfold invocations; simpl.
           rewrite !invokes_app, invokes_logged. simpl. lia.
    + destruct (Hq JReset); [by left|done].
    + rewrite exec_closed; simpl.
      eapply (IH (mkB c _ _)); simpl.
      * by rewrite <- !app_assoc.
      * intros j Hj. apply Hq. by right.
      * unfold invocations; simpl. rewrite !invokes_app, invokes_logged. lia.
      * unfold invocations; simpl. rewrite !invokes_app, invokes_logged.
        rewrite Nat.add_0_r. done.
Qed.

(** C5: [N ≥ 1] calls of the batched function in one piece of
    synchronous code call the callback once.  No synchronous code calls
    it, so not the [N] calls; it is called by the first of the [N]
    microtasks they queue, and while these run it has been called once.
    The next microtask is the reset, after which the flag is clear
    again, and the first call of the batched function to resume after
    that calls the callback again. *)
Theorem batched_invokes_once callback N :
  1 ≤ N →
  (∀ code st, invocations (exec code st) = invocations st ∧
              called (exec code st) = called st) ∧
  exec (repeat ATrigger N) quiescent =
    mkB false (repeat JResume N) (repeat BTrigger N) ∧
  (∀ j, 1 ≤ j ≤ N →
     invocations (run_jobs callback j (exec (repeat ATrigger N) quiescent)) = 1 ∧
     called (run_jobs callback j (exec (repeat ATrigger N) quiescent)) = true) ∧
  run_jobs callback (S N) (exec (repeat ATrigger N) quiescent) =
    mkB false (queued (callback 0))
      (repeat BTrigger N ++ BInvoke :: logged (callback 0) ++ [BReset]) ∧
  invocations (run_jobs callback (S N) (exec (repeat ATrigger N) quiescent)) = 1 ∧
  (∀ M, 1 ≤ M →
     2 ≤ invocations
           (run_jobs callback (S (length (queued (callback 0))))
              (exec (repeat ATrigger M)
                 (run_jobs callback (S N) (exec (repeat ATrigger N) quiescent))))) ∧
  (queued (callback 0) = [] →
   ∀ M, 1 ≤ M →
     invocations
       (run_jobs callback M
          (exec (repeat ATrigger M)
             (run_jobs callback (S N) (exec (repeat ATrigger N) quiescent)))) = 2).
Proof.
  intros HN. destruct N as [|n]; [lia|].
  assert (Hclosed := window_closed callback n []). simpl invokes in Hclosed.
  rewrite app_nil_l in Hclosed. fold quiescent in Hclosed.
  split_and!.
  - intros code st. split; [apply exec_invocations|]. by rewrite exec_closed.
  - by rewrite exec_triggers.
  - intros j [Hj1 Hj2]. destruct j as [|j]; [lia|].
    unfold quiescent. rewrite window_during by lia.
    split; [|done]. count_invokes.
  - exact Hclosed.
  - rewrite Hclosed. count_invokes.
  - intros M HM. rewrite Hclosed. destruct M as [|m]; [lia|].
    rewrite exec_triggers. cbn [called microtasks history].
    apply (resume_invokes callback (queued (callback 0)) _ (repeat JResume m) 1).
    + done.
    + apply queued_not_reset.
    + count_invokes.
    + by left.
  - intros Hq M HM. rewrite Hclosed, Hq. destruct M as [|m]; [lia|].
    rewrite (window_during callback m _ m) by lia. count_invokes.
Qed.

Lemma batched_invokes_once_witness :
  invocations (run_jobs retrigger 3 (exec (repeat ATrigger 3) quiescent)) = 1 ∧
  invocations (run_jobs retrigger 4 (exec (repeat ATrigger 3) quiescent)) = 1 ∧
  called (run_jobs retrigger 4 (exec (repeat ATrigger 3) quiescent)) = false.
Proof.
  assert (H3 : 1 ≤ 3) by lia.
  destruct (batched_invokes_once retrigger 3 H3) as (_ & _ & Hduring & Hclosed & Hone & _).
  split; [|split].
  - assert (Hj : 1 ≤ 3 ≤ 3) by lia. exact (proj1 (Hduring 3 Hj)).
  - exact Hone.
  - rewrite Hclosed. reflexivity.
Defined.
(** * Further properties of the engine *)

(** ** The registry *)

Lemma jsset_add_elem `{EqDecision A} (x : A) s : x ∈ s → jsset_add x s = s.
Proof. intros H. unfold jsset_add. by rewrite bool_decide_eq_true_2. Qed.

Lemma jsset_add_idemp `{EqDecision A} (x : A) s : jsset_add x (jsset_add x s) = jsset_add x s.
Proof. apply jsset_add_elem, elem_of_jsset_add. by left. Qed.

Lemma jsmap_get_is_Some {V} (k : Value) (m : list (Value * V)) :
  is_Some (jsmap_get k m) ↔ k ∈ m.*1.
Proof.
  induction m as [|[k' v] m IH]; simpl.
  - split; [by intros [? ?]|by intros ?%elem_of_nil].
  - unfold same_value_zero. case_bool_decide as E.
    + subst. split; [intros _; by left|by eauto].
    + rewrite IH, elem_of_cons. split; [by right|]. intros [->|?]; [congruence|done].
Qed.

Lemma observeTargetKey_idemp t k cb st st1 :
  observeTargetKey t k cb st = Ok tt st1 → observeTargetKey t k cb st1 = Ok tt st1.
Proof.
  unfold observeTargetKey. intros [= <-]. f_equal.
  unfold set_c2t, set_t2k; simpl.
  set (t2k1 := match targetToKeysToCallbacks st !! t with
               | Some _ => targetToKeysToCallbacks st
               | None => <[t:=[]]> (targetToKeysToCallbacks st)
               end).
  set (m := default [] (t2k1 !! t)).
  set (m1 := match jsmap_get k m with Some _ => m | None => jsmap_set k [] m end).
  set (c2t1 := match callbacksToTargets st !! cb with
               | Some _ => callbacksToTargets st
               | None => <[cb:=[]]> (callbacksToTargets st)
               end).
  rewrite !lookup_insert_eq. simpl. rewrite !jsmap_get_set, !decide_True by done.
  simpl. rewrite ?jsset_add_idemp, ?jsmap_set_set, ?insert_insert_eq.
  rewrite ?jsmap_get_set, ?decide_True by done. simpl.
  by rewrite ?jsset_add_idemp.
Qed.

(** X1: [observeTargetKey(target, key, callback)] subscribes the
    callback to the key: a callback that was not subscribed is put
    after the ones that were, one that was keeps its place and is not
    listed twice; no other key and no other container is touched; the
    container is entered in the reverse index; and observing again
    changes nothing. *)
Theorem observe_subscribes_once t k cb st :
  ∃ st1,
    observeTargetKey t k cb st = Ok tt st1 ∧
    subscribers st1 t k =
      (if bool_decide (cb ∈ subscribers st t k) then subscribers st t k
       else subscribers st t k ++ [cb]) ∧
    (∀ t' k', ¬ (t = t' ∧ k = k') → subscribers st1 t' k' = subscribers st t' k') ∧
    (∀ cb', targets_of st1 cb' =
       if decide (cb = cb') then jsset_add t (targets_of st cb) else targets_of st cb') ∧
    t ∈ targets_of st1 cb ∧
    observeTargetKey t k cb st1 = Ok tt st1.
Proof.
  destruct (observeTargetKey_returns t k cb st) as [st1 H]. exists st1.
  split_and!.
  - exact H.
  - rewrite (observeTargetKey_subscribers _ _ _ _ _ t k H), decide_True by done. done.
  - intros t' k' Hne. by rewrite (observeTargetKey_subscribers _ _ _ _ _ t' k' H), decide_False.
  - intros cb'. apply (observeTargetKey_targets _ _ _ _ _ cb' H).
  - rewrite (observeTargetKey_targets _ _ _ _ _ cb H), decide_True by done.
    apply elem_of_jsset_add. by left.
  - by eapply observeTargetKey_idemp.
Qed.

Lemma clearReactivesForCallback_forgets cb st st1 :
  registry_ok st →
  clearReactivesForCallback cb st = Ok tt st1 →
  (∀ t k, subscribers st1 t k = jsset_delete cb (subscribers st t k)) ∧
  targets_of st1 cb = [].
Proof.
  intros Hok Hc. split.
  - intros t k. rewrite (clearReactivesForCallback_everywhere _ _ Hok) in Hc.
    injection Hc as <-. apply remove_everywhere_subscribers.
  - rewrite (clearReactivesForCallback_targets _ _ _ cb Hc). by rewrite decide_True.
Qed.

Lemma clearReactivesForCallback_idemp cb st st1 :
  clearReactivesForCallback cb st = Ok tt st1 →
  clearReactivesForCallback cb st1 = Ok tt st1.
Proof.
  unfold clearReactivesForCallback.
  destruct (callbacksToTargets st !! cb) as [ts|] eqn:Hts; intros [= <-].
  - simpl. rewrite lookup_insert_eq. simpl. f_equal.
    unfold set_c2t, set_t2k; simpl. by rewrite insert_insert_eq.
  - by rewrite Hts.
Qed.

Lemma getSubscriptions_unfold cb st :
  getSubscriptions cb st =
    Ok ((fun target =>
           match targetToKeysToCallbacks st !! target with
           | Some keysToCallbacks => (target, keysToCallbacks.*1)
           | None => (target, [])
           end) <$> targets_of st cb) st.
Proof. unfold getSubscriptions. by msteps. Qed.

(** X2: in a reachable state, [clearReactivesForCallback(callback)]
    leaves the callback subscribed to no key of any container: the
    reverse index it walks knows every container the callback is
    subscribed on.  The other subscribers of each key stay, in their
    order; [getSubscriptions] then answers with an empty list; and
    clearing again changes nothing. *)
Theorem clear_forgets_callback cb st :
  reachable st →
  ∃ st1,
    clearReactivesForCallback cb st = Ok tt st1 ∧
    (∀ t k, subscribers st1 t k = filter (λ c, c ≠ cb) (subscribers st t k)) ∧
    (∀ t k, cb ∉ subscribers st1 t k) ∧
    targets_of st1 cb = [] ∧
    getSubscriptions cb st1 = Ok [] st1 ∧
    clearReactivesForCallback cb st1 = Ok tt st1.
Proof.
  intros Hr. pose proof (wf_registry_ok _ (reachable_wf _ Hr)) as Hok.
  destruct (clearReactivesForCallback_returns cb st) as [st1 Hc]. exists st1.
  destruct (clearReactivesForCallback_forgets _ _ _ Hok Hc) as [Hsub Hts].
  split_and!; try done.
  - intros t k. rewrite Hsub, elem_of_jsset_delete. by intros [? _].
  - by rewrite getSubscriptions_unfold, Hts.
  - by eapply clearReactivesForCallback_idemp.
Qed.

Lemma clear_forgets_callback_witness :
  ∃ st1,
    clearReactivesForCallback 1 (state_after idle two_readers) = Ok tt st1 ∧
    subscribers st1 0 (VStr "a") = [2].
Proof.
  destruct (clear_forgets_callback 1 (state_after idle two_readers)
              (reachable_state_after idle two_readers)) as (st1 & Hc & Hsub & _).
  exists st1. split; [exact Hc|]. rewrite Hsub. vm_compute. reflexivity.
Defined.

(** X3: [getSubscriptions(callback)] changes nothing; in a reachable
    state it lists the containers of the reverse index, each with all
    the keys observed on it, by whatever callback; and every
    subscription of the callback is among them. *)
Theorem getSubscriptions_covers_subscriptions cb st :
  reachable st →
  ∃ subs,
    getSubscriptions cb st = Ok subs st ∧
    subs.*1 = targets_of st cb ∧
    (∀ t keys k,
       (t, keys) ∈ subs →
       k ∈ keys ↔ ∃ obs, targetToKeysToCallbacks st !! t = Some obs ∧
                         is_Some (jsmap_get k obs)) ∧
    (∀ t k, cb ∈ subscribers st t k → ∃ keys, (t, keys) ∈ subs ∧ k ∈ keys).
Proof.
  intros Hr. pose proof (wf_registry_ok _ (reachable_wf _ Hr)) as Hok.
  eexists. split; [apply getSubscriptions_unfold|]. split_and!.
  - rewrite <- list_fmap_compose. rewrite <- (list_fmap_id (targets_of st cb)) at 2.
    apply list_fmap_ext. intros i t _. simpl.
    by destruct (targetToKeysToCallbacks st !! t).
  - intros t keys k (t' & Heq & _)%list_elem_of_fmap.
    destruct (targetToKeysToCallbacks st !! t') as [obs|] eqn:Hobs;
      injection Heq as -> ->.
    + rewrite <- jsmap_get_is_Some. rewrite Hobs.
      split; [by eauto|]. by intros (obs0 & [= <-] & H).
    + rewrite Hobs. split; [by intros ?%elem_of_nil|]. by intros (? & ? & _).
  - intros t k Hin. unfold subscribers in Hin.
    destruct (targetToKeysToCallbacks st !! t) as [obs|] eqn:Hobs;
      [|by apply elem_of_nil in Hin].
    destruct (jsmap_get k obs) as [cbs|] eqn:Hk; simpl in Hin;
      [|by apply elem_of_nil in Hin].
    destruct (Hok t obs k cbs Hobs (jsmap_get_elem_of _ _ _ Hk)) as [_ Hts].
    exists (obs.*1). split.
    + apply list_elem_of_fmap. exists t. rewrite Hobs. split; [done|]. by apply Hts.
    + apply jsmap_get_is_Some. by rewrite Hk.
Qed.

Lemma getSubscriptions_covers_subscriptions_witness :
  ∃ subs,
    getSubscriptions 1 (state_after idle two_readers) =
      Ok subs (state_after idle two_readers) ∧
    subs.*1 = [0].
Proof.
  destruct (getSubscriptions_covers_subscriptions 1 (state_after idle two_readers)
              (reachable_state_after idle two_readers)) as (subs & Hg & Hts & _).
  exists subs. split; [exact Hg|]. rewrite Hts. vm_compute. reflexivity.
Defined.

(** X4: in every reachable state, whatever the client code and the
    callbacks did, the two indexes of the registry agree: a callback
    subscribed to a key of a container has this container in the reverse
    index and owns a proxy of it; no key lists a callback twice. *)
Theorem registry_is_consistent st :
  reachable st →
  (∀ t k cb, cb ∈ subscribers st t k → t ∈ targets_of st cb ∧ has_view st t cb) ∧
  (∀ t k, NoDup (subscribers st t k)) ∧
  (∀ t, is_Some (targetToKeysToCallbacks st !! t) → ∃ cb, has_view st t cb).
Proof.
  intros Hr. pose proof (reachable_wf _ Hr) as (Hok & _ & _ & _ & _ & _ & Hv1 & Hv2).
  split_and!.
  - intros t k cb Hin. unfold subscribers in Hin.
    destruct (targetToKeysToCallbacks st !! t) as [obs|] eqn:Hobs;
      [|by apply elem_of_nil in Hin].
    destruct (jsmap_get k obs) as [cbs|] eqn:Hk; simpl in Hin;
      [|by apply elem_of_nil in Hin].
    destruct (Hok t obs k cbs Hobs (jsmap_get_elem_of _ _ _ Hk)) as [_ Hts].
    split; [by apply Hts|]. by apply Hv2, Hts.
  - intros t k. by apply registry_ok_NoDup.
  - exact Hv1.
Qed.

Lemma registry_is_consistent_witness :
  0 ∈ targets_of (state_after idle two_readers) 2.
Proof.
  destruct (registry_is_consistent (state_after idle two_readers)
              (reachable_state_after idle two_readers)) as (H & _).
  apply (H 0 (VStr "a") 2). vm_compute. apply list_elem_of_In. right. left. reflexivity.
Defined.

(** ** The wrapper factory, on any reachable state *)

(** What [reactive] does on a native container that can be wrapped:
    the proxy of the cache, or a new proxy put at the end of the heap
    and entered in the cache; nothing else changes. *)
Lemma reactive_raw_eval n x o cb st :
  heap st !! x = Some (ORaw o) →
  obj_has (KSym ToStringTag) o = false →
  supported (o_class o) = true →
  obj_has (KSym SKIP) o = false →
  obj_has (KSym TARGET) o = false →
  ∃ q st1,
    reactive_n (S n) (VRef x) cb st = Ok (VRef q) st1 ∧
    cached st1 x cb = Some q ∧
    (heap st1 = heap st ∨
     heap st1 = heap st ++ [OProxy x cb (handler_of (o_class o))] ∧ q = length (heap st)) ∧
    targetToKeysToCallbacks st1 = targetToKeysToCallbacks st ∧
    callbacksToTargets st1 = callbacksToTargets st ∧
    trace st1 = trace st ∧
    (∀ p, cached st x cb = Some p → q = p ∧ st1 = st).
Proof.
  intros Hl Htag Hsup Hskip Htarget.
  rewrite (reactive_raw n x o cb st Hl Htag Hsup Hskip Htarget).
  destruct (cached st x cb) as [p|] eqn:Hc.
  - exists p, st. rewrite (reactive_cached_hit _ _ _ _ Hc).
    split_and!; try done; [by left|]. by intros ? [= <-].
  - destruct (reactive_cached_miss x o cb st Hc Hl Htag)
      as (st' & Hrun & Hh & Hc' & ? & ? & ?).
    exists (length (heap st)), st'. split_and!; try done. by right.
Qed.


(** The proxies, the cache and the native objects of a reachable
    state. *)
Lemma reachable_views st :
  reachable st →
  (∀ p t cb h,
     heap st !! p = Some (OProxy t cb h) →
     ∃ o, heap st !! t = Some (ORaw o) ∧ supported (o_class o) = true ∧
          h = handler_of (o_class o)) ∧
  (∀ t cb p, cached st t cb = Some p → ∃ h, heap st !! p = Some (OProxy t cb h)) ∧
  (∀ l o, heap st !! l = Some (ORaw o) → obj_has (KSym TARGET) o = false).
Proof.
  intros Hr. pose proof (reachable_wf _ Hr) as Hwf.
  pose proof Hwf as (Hreg & Hcache & Hprox & Hnt & Hrest).
  split_and!; [exact Hprox| |exact Hnt].
  intros t cb p Hc. eapply wf_cached; [exact Hwf|exact Hc].
Qed.



Lemma has_property_proxy_eval k l t cb h o st b :
  heap st !! l = Some (OProxy t cb h) → heap st !! t = Some (ORaw o) →
  reflect_has k o = Some b →
  ∃ st1,
    observeTargetKey t (VSym KEYCHANGES) cb st = Ok tt st1 ∧
    has_property k (VRef l) st = Ok b st1.
Proof.
  intros Hl Ht Hb. unfold has_property, proxy_has, raw_obj. msteps. rewrite Hl. msteps.
  destruct (observeTargetKey_returns t (VSym KEYCHANGES) cb st) as [st' Hobs].
  destruct (observeTargetKey_frame _ _ _ _ _ Hobs) as (Hh & _).
  exists st'. split; [done|]. rewrite Hobs. msteps. rewrite Hh, Ht. msteps.
  by rewrite Hb.
Qed.




(** X7: in a reachable state, [toRaw] changes nothing and never
    returns a proxy: applied to its own result it returns it again, and
    its result differs from its argument only if the argument is a
    proxy or an object that inherits from one. *)
Theorem toRaw_is_never_a_view st v :
  reachable st →
  value_ok st v →
  v ≠ VNull → v ≠ VUndef →
  ∃ r,
    toRaw v st = Ok r st ∧
    ¬ is_view st r ∧
    toRaw r st = Ok r st ∧
    (r ≠ v → is_view st v ∨ is_heir st v).
Proof.
  intros Hr Hok Hnull Hundef.
  destruct (reachable_views st Hr) as (Hprox & _ & Hnt).
  assert (Hraw : ∀ l o, heap st !! l = Some (ORaw o) →
            toRaw (VRef l) st = Ok (VRef l) st ∧ ¬ is_view st (VRef l)).
  { intros l o Hl. split.
    - unfold toRaw.
      rewrite bind_unfold, (read_property_raw (KSym TARGET) _ _ _ Hl eq_refl).
      msteps. simpl. by rewrite (obj_get_absent _ _ (Hnt _ _ Hl)).
    - intros (l' & t & cb & h & [= <-] & Hl'). congruence. }
  assert (Hprim : ∀ w, (∀ l, w ≠ VRef l) → w ≠ VNull → w ≠ VUndef →
            toRaw w st = Ok w st ∧ ¬ is_view st w).
  { intros w Hw ? ?. split.
    - unfold toRaw, read_property. destruct w as [| | | | | | | |l']; try done; try by msteps.
      by destruct (Hw l').
    - intros (l' & t & cb & h & -> & _). by destruct (Hw l'). }
  assert (Hfull : ∀ w, (∀ l, w ≠ VRef l) → w ≠ VNull → w ≠ VUndef →
            ∃ r, toRaw w st = Ok r st ∧ ¬ is_view st r ∧ toRaw r st = Ok r st ∧
                 (r ≠ w → is_view st w ∨ is_heir st w)).
  { intros w Hw ? ?. destruct (Hprim w) as [? ?]; try done. exists w. by split_and!. }
  destruct v as [| | | | | | | |l]; try (by apply Hfull).
  destruct (Hok l eq_refl) as [obj Hobj].
  destruct obj as [o|t cb h|g|t k m pos fin|p].
  - destruct (Hraw _ _ Hobj). exists (VRef l). by split_and!.
  - destruct (Hprox _ _ _ _ Hobj) as (o & Ht & _).
    destruct (Hraw _ _ Ht). exists (VRef t). split_and!; try done.
    + by eapply toRaw_view.
    + intros _. left. by exists l, t, cb, h.
  - exists (VRef l).
    assert (Hv : ¬ is_view st (VRef l)).
    { intros (l' & t' & cb & h & [= <-] & Hl'). congruence. }
    assert (Ht : toRaw (VRef l) st = Ok (VRef l) st).
    { unfold toRaw, read_property. msteps. rewrite Hobj. by msteps. }
    by split_and!.
  - exists (VRef l).
    assert (Hv : ¬ is_view st (VRef l)).
    { intros (l' & t' & cb & h & [= <-] & Hl'). congruence. }
    assert (Ht : toRaw (VRef l) st = Ok (VRef l) st).
    { unfold toRaw, read_property. msteps. rewrite Hobj. by msteps. }
    by split_and!.
  - destruct (reachable_heirs_ok st Hr l p Hobj) as (t & cb & h & Hp).
    destruct (Hprox _ _ _ _ Hp) as (o & Ht & _).
    destruct (Hraw _ _ Ht). exists (VRef t). split_and!; try done.
    + by eapply toRaw_heir.
    + intros _. right. by exists l, p.
Qed.

Lemma toRaw_is_never_a_view_witness :
  toRaw (VRef 1) (state_after idle two_readers) =
    Ok (VRef 0) (state_after idle two_readers) ∧
  toRaw (VRef 2) (state_after idle heir_of_view) =
    Ok (VRef 0) (state_after idle heir_of_view).
Proof.
  split.
  - destruct (toRaw_is_never_a_view (state_after idle two_readers) (VRef 1)
                (reachable_state_after idle two_readers)) as (r & Ht & _).
    + intros l E. injection E as <-. eexists. vm_compute. reflexivity.
    + intros E; discriminate E.
    + intros E; discriminate E.
    + assert (Hr : match toRaw (VRef 1) (state_after idle two_readers) with
                   | Ok v _ => v = VRef 0
                   | _ => True
                   end) by (vm_compute; reflexivity).
      rewrite Ht in Hr. rewrite Ht, Hr. reflexivity.
  - destruct (toRaw_is_never_a_view (state_after idle heir_of_view) (VRef 2)
                (reachable_state_after idle heir_of_view)) as (r & Ht & _).
    + exact heir_of_view_ok.
    + intros E; discriminate E.
    + intros E; discriminate E.
    + assert (Hr : match toRaw (VRef 2) (state_after idle heir_of_view) with
                   | Ok v _ => v = VRef 0
                   | _ => True
                   end) by (vm_compute; reflexivity).
      rewrite Ht in Hr. rewrite Ht, Hr. reflexivity.
Defined.



(** ** Reads and writes through a proxy *)

Lemma filter_all {A} (P : A → Prop) `{∀ x, Decision (P x)} (l : list A) :
  (∀ x, x ∈ l → P x) → filter P l = l.
Proof.
  induction l as [|x l IH]; intros Hl; [done|].
  rewrite filter_cons_True by (apply Hl; by left).
  f_equal. apply IH. intros y Hy. apply Hl. by right.
Qed.

Lemma filter_none {A} (P : A → Prop) `{∀ x, Decision (P x)} (l : list A) :
  (∀ x, x ∈ l → ¬ P x) → filter P l = [].
Proof.
  induction l as [|x l IH]; intros Hl; [done|].
  rewrite filter_cons_False by (apply Hl; by left).
  apply IH. intros y Hy. apply Hl. by right.
Qed.

(** A [set] trap that returns has read a value at the key and has had
    an answer from [Reflect.set]. *)
Lemma basic_set_inv depth call t key value st o r st' :
  heap st !! t = Some (ORaw o) →
  basic_set depth call t key value st = Ok r st' →
  ∃ original r0, reflect_get key o = Some original ∧ reflect_set key value o = Done r0.
Proof.
  intros Hl. unfold basic_set, raw_obj. msteps. rewrite Hl. msteps.
  destruct (reflect_get key o) as [original|]; [|done]. simpl. msteps.
  destruct (reflect_set key value o) as [r0| |]; [|done..]. eauto.
Qed.

Lemma subscribers_set_heap hp st t k : subscribers (set_heap hp st) t k = subscribers st t k.
Proof. done. Qed.

Lemma registry_ok_ext st st' :
  targetToKeysToCallbacks st' = targetToKeysToCallbacks st →
  callbacksToTargets st' = callbacksToTargets st →
  registry_ok st → registry_ok st'.
Proof.
  intros Ht Hc Hok t obs k cbs Hl Hin. rewrite Ht in Hl.
  destruct (Hok t obs k cbs Hl Hin) as [Hnd Hts]. split; [done|].
  intros cb Hcb. unfold targets_of. rewrite Hc. by apply Hts.
Qed.

Lemma subscribers_ext st st' t k :
  targetToKeysToCallbacks st' = targetToKeysToCallbacks st →
  subscribers st' t k = subscribers st t k.
Proof. intros Ht. unfold subscribers. by rewrite Ht. Qed.

Section Writes.

Variable depth : nat.
Variable call : Callback → M unit.

Hypothesis call_quiet : quiet_calls depth call.

(** The events of a notification at this depth: the notification and
    the calls of the subscribers. *)
Lemma when_notify_events b t k st st' :
  when b (notifyReactives depth call t k) st = Ok tt st' →
  ∃ evs, trace st' = trace st ++ evs ∧
         notifications depth evs = (if b then [(t, k)] else []) ∧
         calls depth evs = (if b then subscribers st t k else []).
Proof.
  destruct b; simpl.
  - intros H.
    pose proof (notifyReactives_events depth call (fun _ => True)
                  ltac:(done) ltac:(done) ltac:(done)
                  (fun cb s s' _ => call_quiet cb s s') t k st I) as Hev.
    rewrite H in Hev. destruct Hev as (_ & evs & ? & ? & ?). eauto.
  - intros [= <-]. exists []. by rewrite app_nil_r.
Qed.

(** The events of a write through the [set] trap: the subscribers of
    the key set are notified when the key is new, then the subscribers
    of the key when the value changes. *)
Lemma basic_set_calls t key value st o r st' :
  heap st !! t = Some (ORaw o) →
  basic_set depth call t key value st = Ok r st' →
  ∃ original st1 evs1 evs2,
    reflect_get key o = Some original ∧
    trace st' = trace st ++ evs1 ++ evs2 ∧
    notifications depth (evs1 ++ evs2) =
      (if negb (obj_has key o) then [(t, VSym KEYCHANGES)] else []) ++
      (if negb (strict_eq original value)
          || (is_array o && bool_decide (key = KStr "length"))
       then [(t, key_value key)] else []) ∧
    calls depth evs1 =
      (if negb (obj_has key o) then subscribers st t (VSym KEYCHANGES) else []) ∧
    calls depth evs2 =
      (if negb (strict_eq original value)
          || (is_array o && bool_decide (key = KStr "length"))
       then subscribers st1 t (key_value key) else []) ∧
    (obj_has key o = true → subscribers st1 t (key_value key) = subscribers st t (key_value key)).
Proof.
  intros Hl Hrun.
  destruct (basic_set_inv _ _ _ _ _ _ _ _ _ Hl Hrun) as (original & r0 & Hg & Hs).
  revert Hrun. rewrite (basic_set_unfold _ _ _ _ _ _ _ _ _ Hl Hg Hs).
  set (st0 := set_heap _ st). msteps.
  destruct (when _ _ st0) as [[] st1|e st1|] eqn:H1; [|done|done].
  msteps.
  destruct (when _ _ st1) as [[] st2|e st2|] eqn:H2; [|done|done].
  msteps. intros [= <- <-].
  destruct (when_notify_events _ _ _ _ _ H1) as (evs1 & Htr1 & Hn1 & Hc1).
  destruct (when_notify_events _ _ _ _ _ H2) as (evs2 & Htr2 & Hn2 & Hc2).
  exists original, st1, evs1, evs2. split_and!.
  - exact Hg.
  - rewrite Htr2, Htr1. by rewrite app_assoc.
  - by rewrite notifications_app, Hn1, Hn2.
  - exact Hc1.
  - exact Hc2.
  - intros Hhas. rewrite Hhas in H1. simpl in H1. by injection H1 as <-.
Qed.

Lemma basic_deleteProperty_calls t key st o r st' :
  heap st !! t = Some (ORaw o) →
  basic_deleteProperty depth call t key st = Ok r st' →
  ∃ evs1 evs2,
    trace st' = trace st ++ evs1 ++ evs2 ∧
    calls depth evs1 = subscribers st t (VSym KEYCHANGES).
Proof.
  intros Hl. rewrite (basic_deleteProperty_unfold _ _ _ _ _ _ Hl).
  set (st0 := set_heap _ st). msteps.
  destruct (notifyReactives _ _ _ _ st0) as [[] st1|e st1|] eqn:H1; [|done|done].
  msteps.
  destruct (notifyReactives _ _ _ _ st1) as [[] st2|e st2|] eqn:H2; [|done|done].
  msteps. intros [= <- <-].
  destruct (when_notify_events true _ _ _ _ H1) as (evs1 & Htr1 & _ & Hc1).
  destruct (when_notify_events true _ _ _ _ H2) as (evs2 & Htr2 & _ & Hc2).
  exists evs1, evs2. split; [|exact Hc1].
  rewrite Htr2, Htr1. by rewrite app_assoc.
Qed.

(** X9: the test [key in proxy] and the listing of the own keys of a
    proxy subscribe its callback to the changes of the key set of the
    container, whatever the key tested, and answer as the container
    does: the test as [Reflect.has], which finds the inherited keys
    too, and the listing with the own keys.  From then on the callback
    is called by the addition of any new key and by any [delete], also
    of a key that is not there; the assignment of another value to an
    existing key calls it only if it is subscribed to that key. *)
Theorem key_test_subscribes_to_the_key_set st p t cb h o k b :
  heap st !! p = Some (OProxy t cb h) →
  heap st !! t = Some (ORaw o) →
  reflect_has k o = Some b →
  ∃ st1,
    has_property k (VRef p) st = Ok b st1 ∧
    js_ownKeys (VRef p) st = Ok (obj_own_keys o) st1 ∧
    heap st1 = heap st ∧
    cb ∈ subscribers st1 t (VSym KEYCHANGES) ∧
    (∀ k2 v r st2,
       obj_has k2 o = false →
       basic_set depth call t k2 v st1 = Ok r st2 →
       cb ∈ calls depth (new_events st1 st2)) ∧
    (∀ k2 r st2,
       basic_deleteProperty depth call t k2 st1 = Ok r st2 →
       cb ∈ calls depth (new_events st1 st2)) ∧
    (∀ k2 v r st2,
       obj_has k2 o = true →
       is_array o = false →
       cb ∉ subscribers st1 t (key_value k2) →
       basic_set depth call t k2 v st1 = Ok r st2 →
       cb ∉ calls depth (new_events st1 st2)).
Proof.
  intros Hp Ht Hb.
  destruct (has_property_proxy_eval k p t cb h o st b Hp Ht Hb) as (st1 & Hobs & Hhas).
  destruct (observeTargetKey_frame _ _ _ _ _ Hobs) as (Hh & _).
  assert (Ht1 : heap st1 !! t = Some (ORaw o)) by (by rewrite Hh).
  assert (Hsub : cb ∈ subscribers st1 t (VSym KEYCHANGES)).
  { rewrite (observeTargetKey_subscribers _ _ _ _ _ t (VSym KEYCHANGES) Hobs).
    rewrite decide_True by done. apply elem_of_jsset_add. by left. }
  exists st1. split_and!; try done.
  - unfold js_ownKeys, basic_ownKeys, raw_obj. msteps. rewrite Hp. msteps.
    rewrite Hobs. msteps. rewrite Ht1. by msteps.
  - intros k2 v r st2 Hnew Hset.
    destruct (basic_set_calls _ _ _ _ _ _ _ Ht1 Hset)
      as (ov & s & evs1 & evs2 & _ & Htr & _ & Hc1 & _).
    rewrite (new_events_app _ _ _ Htr), calls_app, Hc1, Hnew. simpl.
    apply elem_of_app. by left.
  - intros k2 r st2 Hdel.
    destruct (basic_deleteProperty_calls _ _ _ _ _ _ Ht1 Hdel) as (evs1 & evs2 & Htr & Hc1).
    rewrite (new_events_app _ _ _ Htr), calls_app, Hc1.
    apply elem_of_app. by left.
  - intros k2 v r st2 Hold Harr Hnot Hset.
    destruct (basic_set_calls _ _ _ _ _ _ _ Ht1 Hset)
      as (ov & s & evs1 & evs2 & _ & Htr & _ & Hc1 & Hc2 & Hsame).
    rewrite (new_events_app _ _ _ Htr), calls_app, Hc1, Hc2, Hold, Harr. simpl.
    rewrite orb_false_r, (Hsame Hold).
    destruct (strict_eq ov v); simpl; [apply not_elem_of_nil|exact Hnot].
Qed.

End Writes.

Lemma key_test_subscribes_to_the_key_set_witness :
  (∃ st1,
     has_property (KStr "zz") (VRef 1) (state_after idle two_readers) = Ok false st1 ∧
     1 ∈ subscribers st1 0 (VSym KEYCHANGES)) ∧
  (∃ st1,
     has_property (KStr "toString") (VRef 1) (state_after idle two_readers) = Ok true st1 ∧
     1 ∈ subscribers st1 0 (VSym KEYCHANGES)).
Proof.
  assert (Hp : heap (state_after idle two_readers) !! 1 = Some (OProxy 0 1 HBasic))
    by (vm_compute; reflexivity).
  split.
  - destruct (key_test_subscribes_to_the_key_set 0 (callback_call idle 1 0) (idle_quiet 0 0)
                (state_after idle two_readers) 1 0 1 HBasic two_readers_object (KStr "zz")
                false Hp two_readers_heap eq_refl) as (st1 & Hhas & _ & _ & Hsub & _).
    exists st1. split; [exact Hhas|exact Hsub].
  - destruct (key_test_subscribes_to_the_key_set 0 (callback_call idle 1 0) (idle_quiet 0 0)
                (state_after idle two_readers) 1 0 1 HBasic two_readers_object
                (KStr "toString") true Hp two_readers_heap eq_refl)
      as (st1 & Hhas & _ & _ & Hsub & _).
    exists st1. split; [exact Hhas|exact Hsub].
Defined.

(** *** Callbacks that only schedule work

    The callback the React hook passes to [reactive] asks React for a
    render and touches neither the containers nor the registry.  For
    such callbacks the effect of a notification is known in full. *)

Section Inert.

Variable depth : nat.
Variable call : Callback → M unit.

Hypothesis call_quiet : quiet_calls depth call.
Hypothesis call_inert :
  ∀ c s s', state_of (call c s) = Some s' →
    heap s' = heap s ∧
    targetToKeysToCallbacks s' = targetToKeysToCallbacks s ∧
    callbacksToTargets s' = callbacksToTargets s.
Hypothesis call_returns : ∀ c s, returns (call c s).

Lemma notify_loop_inert (cbs : list Callback) : ∀ st,
  registry_ok st →
  ∃ st',
    for_each cbs (fun callback =>
      clearReactivesForCallback callback ;;;
      log (EvCall depth callback) ;;;
      call callback) st = Ok tt st' ∧
    heap st' = heap st ∧
    registry_ok st' ∧
    (∀ t k, subscribers st' t k = filter (λ c, c ∉ cbs) (subscribers st t k)).
Proof.
  induction cbs as [|cb cbs IH]; intros st Hok; simpl.
  - exists st. msteps. split_and!; try done.
    intros t k. rewrite filter_all; [done|]. intros c _. apply not_elem_of_nil.
  - msteps.
    destruct (clearReactivesForCallback_returns cb st) as [st1 Hc]. rewrite Hc. msteps.
    destruct (clearReactivesForCallback_forgets _ _ _ Hok Hc) as [Hsub1 _].
    destruct (clearReactivesForCallback_frame _ _ _ Hc) as (Hh1 & _).
    pose proof (clearReactivesForCallback_registry_ok _ _ _ Hc Hok) as Hok1.
    pose proof (call_returns cb (add_event (EvCall depth cb) st1)) as Hret.
    destruct (call cb _) as [[] st2|e st2|] eqn:Hcall; [|done|done].
    destruct (call_inert cb _ st2 ltac:(by rewrite Hcall)) as (Hh2 & Ht2 & Hc2).
    assert (Hok2 : registry_ok st2).
    { eapply (registry_ok_ext (add_event (EvCall depth cb) st1)); [done|done|].
      eapply (registry_ok_ext st1); [done|done|exact Hok1]. }
    destruct (IH st2 Hok2) as (st' & Hrun & Hh & Hok' & Hsub).
    exists st'. split_and!; try done.
    + rewrite Hh, Hh2. simpl. exact Hh1.
    + intros t k. rewrite Hsub, (subscribers_ext (add_event (EvCall depth cb) st1) st2) by done.
      rewrite subscribers_add_event, Hsub1. unfold jsset_delete.
      rewrite list_filter_filter. apply list_filter_iff. intros c.
      rewrite not_elem_of_cons. tauto.
Qed.

(** A notification calls the subscribers of the key and leaves them
    subscribed to nothing; the other callbacks keep their subscriptions. *)
Lemma notify_inert t k st :
  registry_ok st →
  ∃ st',
    notifyReactives depth call t k st = Ok tt st' ∧
    heap st' = heap st ∧
    registry_ok st' ∧
    (∀ t' k', subscribers st' t' k' =
       filter (λ c, c ∉ subscribers st t k) (subscribers st t' k')) ∧
    calls depth (new_events st st') = subscribers st t k.
Proof.
  intros Hok.
  assert (Hloop := notify_loop_inert (subscribers st t k)
                     (add_event (EvNotify depth t k) st)
                     (registry_ok_ext st _ eq_refl eq_refl Hok)).
  destruct Hloop as (st' & Hrun & Hh & Hok' & Hsub).
  assert (Hnot : notifyReactives depth call t k st = Ok tt st').
  { unfold notifyReactives. msteps. simpl. unfold subscribers in Hrun.
    destruct (targetToKeysToCallbacks st !! t) as [m|]; [|by injection Hrun as <-].
    destruct (jsmap_get k m) as [cbs|]; simpl in Hrun; [done|by injection Hrun as <-]. }
  exists st'. split_and!; try done.
  destruct (when_notify_events depth call call_quiet true t k st st' Hnot)
    as (evs & Htr & _ & Hcalls).
  by rewrite (new_events_app _ _ _ Htr).
Qed.

(** X10: subscriptions are used once.  A read of a property through a
    proxy subscribes the callback of the proxy to the key and returns
    the value stored; the next assignment of another value to the key
    calls the subscribers of that moment, the callback among them, each
    once, and leaves them subscribed to nothing; so one more assignment
    calls nobody, until somebody reads again.  The key is not the
    length of an array, whose assignment can fail. *)
Theorem subscriptions_are_used_once fuel st p t cb o key d v1 v2 :
  reachable st →
  heap st !! p = Some (OProxy t cb HBasic) →
  heap st !! t = Some (ORaw o) →
  props_get key (o_props o) = Some d →
  p_writable d = true →
  is_array o = false ∨ key ≠ KStr "length" →
  (∀ l, p_value d ≠ VRef l) →
  strict_eq (p_value d) v1 = false →
  strict_eq v1 v2 = false →
  ∃ st1 st2 st3,
    js_get fuel (VRef p) key st = Ok (p_value d) st1 ∧
    cb ∈ subscribers st1 t (key_value key) ∧
    js_set depth call (VRef p) key v1 st1 = Ok tt st2 ∧
    calls depth (new_events st1 st2) = subscribers st1 t (key_value key) ∧
    (∀ c t' k', c ∈ subscribers st1 t (key_value key) → c ∉ subscribers st2 t' k') ∧
    js_set depth call (VRef p) key v2 st2 = Ok tt st3 ∧
    calls depth (new_events st2 st3) = [].
Proof.
  intros Hr Hp Ht Hd Hw Hnl Hprim Hne1 Hne2.
  pose proof (reachable_wf _ Hr) as (Hok & _ & _ & Hnt & _).
  assert (Hhas : obj_has key o = true) by (unfold obj_has; by rewrite Hd).
  assert (Hget : reflect_get key o = Some (p_value d)) by (by apply reflect_get_own).
  assert (Hlen : ∀ o', o_class o' = o_class o →
            is_array o' && bool_decide (key = KStr "length") = false).
  { intros o' Hcl. unfold is_array in *. rewrite Hcl.
    destruct Hnl as [-> | Hk]; [done|]. rewrite (bool_decide_eq_false_2 _ Hk).
    apply andb_false_r. }
  assert (Hkey : key ≠ KSym TARGET).
  { intros ->. pose proof (Hnt _ _ Ht). congruence. }
  (* the read *)
  destruct (observeTargetKey_returns t (key_value key) cb st) as [st1 Hobs].
  destruct (observeTargetKey_frame _ _ _ _ _ Hobs) as (Hh1 & _).
  assert (Hread : js_get fuel (VRef p) key st = Ok (p_value d) st1).
  { unfold js_get. msteps. rewrite Hp.
    unfold view_get, basic_get, basic_get_read, raw_obj.
    rewrite decide_False by done. msteps. rewrite Ht. msteps.
    rewrite Hd. simpl. rewrite Hw. simpl. msteps. rewrite Hobs. msteps.
    rewrite Hh1, Ht. msteps. rewrite Hget. simpl. msteps. unfold finish_read. simpl.
    unfold possiblyReactive. by rewrite bind_unfold, canBeMadeReactive_primitive. }
  assert (Hsub1 : cb ∈ subscribers st1 t (key_value key)).
  { rewrite (observeTargetKey_subscribers _ _ _ _ _ t (key_value key) Hobs).
    rewrite decide_True by done. apply elem_of_jsset_add. by left. }
  pose proof (observeTargetKey_registry_ok _ _ _ _ _ Hobs Hok) as Hok1.
  (* the first write *)
  set (o1 := (obj_set key v1 o).1).
  assert (Hset1 : obj_set key v1 o =
            (with_props (props_put key (mkProp v1 true (p_configurable d)) (o_props o)) o,
             true)).
  { unfold obj_set. by rewrite Hd, Hw. }
  set (st1' := set_heap (<[t := ORaw o1]> (heap st1)) st1).
  destruct (notify_inert t (key_value key) st1'
              (registry_ok_ext st1 _ eq_refl eq_refl Hok1))
    as (st2 & Hn2 & Hh2 & Hok2 & Hsub2 & Hcalls2).
  assert (Hpt : p ≠ t) by (intros ->; congruence).
  assert (Hwrite1 : js_set depth call (VRef p) key v1 st1 = Ok tt st2).
  { unfold js_set. msteps. rewrite Hh1, Hp.
    rewrite bind_unfold,
      (basic_set_unfold _ _ _ _ _ _ o (p_value d) (obj_set key v1 o))
      by (rewrite ?Hh1; first [done | by apply reflect_set_own with d, Hlen]).
    rewrite Hhas, Hne1. simpl. fold o1. fold st1'. msteps.
    rewrite Hn2. msteps. by rewrite Hset1. }
  assert (Htr12 : new_events st1 st2 = new_events st1' st2) by done.
  (* the second write *)
  assert (Hp2 : heap st2 !! p = Some (OProxy t cb HBasic)).
  { rewrite Hh2. simpl. rewrite list_lookup_insert_ne by done. by rewrite Hh1. }
  assert (Ht2 : heap st2 !! t = Some (ORaw o1)).
  { rewrite Hh2. simpl. apply list_lookup_insert_eq. rewrite Hh1. by eapply lookup_lt_Some. }
  assert (Hd1 : props_get key (o_props o1) = Some (mkProp v1 true (p_configurable d))).
  { unfold o1. rewrite Hset1. simpl. rewrite props_get_put. by rewrite decide_True. }
  assert (Hhas1 : obj_has key o1 = true) by (unfold obj_has; by rewrite Hd1).
  assert (Hget1 : reflect_get key o1 = Some v1)
    by (by rewrite (reflect_get_own _ _ _ Hd1)).
  assert (Hcl1 : o_class o1 = o_class o) by (unfold o1; by rewrite Hset1).
  set (o2 := (obj_set key v2 o1).1).
  set (st2' := set_heap (<[t := ORaw o2]> (heap st2)) st2).
  destruct (notify_inert t (key_value key) st2'
              (registry_ok_ext st2 _ eq_refl eq_refl Hok2))
    as (st3 & Hn3 & Hh3 & Hok3 & Hsub3 & Hcalls3).
  assert (Hwrite2 : js_set depth call (VRef p) key v2 st2 = Ok tt st3).
  { unfold js_set. msteps. rewrite Hp2.
    rewrite bind_unfold, (basic_set_unfold _ _ _ _ _ _ o1 v1 (obj_set key v2 o1))
      by first [done | by apply reflect_set_own with (mkProp v1 true (p_configurable d)),
                            Hlen].
    rewrite Hhas1, Hne2. simpl. fold o2. fold st2'. msteps.
    rewrite Hn3. msteps. unfold obj_set. by rewrite Hd1. }
  assert (Hgone : ∀ c t' k', c ∈ subscribers st1 t (key_value key) →
            c ∉ subscribers st2 t' k').
  { intros c t' k' Hc. rewrite Hsub2. rewrite list_elem_of_filter.
    intros [Hnot _]. by apply Hnot. }
  exists st1, st2, st3. split_and!; try done.
  change (new_events st2 st3) with (new_events st2' st3). rewrite Hcalls3.
  change (subscribers st2' t (key_value key)) with (subscribers st2 t (key_value key)).
  rewrite Hsub2. apply filter_none. intros c Hc Hnot. by apply Hnot.
Qed.

End Inert.

Lemma idle_inert fuel depth c s s' :
  state_of (callback_call idle (S fuel) depth c s) = Some s' →
  heap s' = heap s ∧
  targetToKeysToCallbacks s' = targetToKeysToCallbacks s ∧
  callbacksToTargets s' = callbacksToTargets s.
Proof. unfold callback_call, idle. rewrite run_unfold. by intros [= <-]. Qed.

Lemma subscriptions_are_used_once_witness :
  ∃ st1 st2,
    js_get 1 (VRef 1) (KStr "b") (state_after idle two_readers) = Ok (VNum 2) st1 ∧
    js_set 0 (callback_call idle 1 0) (VRef 1) (KStr "b") (VNum 3) st1 = Ok tt st2 ∧
    calls 0 (new_events st1 st2) = subscribers st1 0 (VStr "b").
Proof.
  assert (Hp : heap (state_after idle two_readers) !! 1 = Some (OProxy 0 1 HBasic))
    by (vm_compute; reflexivity).
  assert (Hd : props_get (KStr "b") (o_props two_readers_object) =
               Some (mkProp (VNum 2) true true)) by (vm_compute; reflexivity).
  assert (Hprim : ∀ l, p_value (mkProp (VNum 2) true true) ≠ VRef l)
    by (intros l E; discriminate E).
  destruct (subscriptions_are_used_once 0 (callback_call idle 1 0) (idle_quiet 0 0)
              (idle_inert 0 0) (idle_returns 0 0)
              1 (state_after idle two_readers) 1 0 1 two_readers_object (KStr "b")
              (mkProp (VNum 2) true true) (VNum 3) (VNum 4)
              (reachable_state_after idle two_readers) Hp two_readers_heap Hd
              eq_refl (or_introl eq_refl) Hprim eq_refl eq_refl)
    as (st1 & st2 & st3 & Hread & _ & Hwrite & Hcalls & _).
  exists st1, st2. split; [exact Hread|]. split; [exact Hwrite|exact Hcalls].
Defined.

(** *** The [get] trap *)

Lemma basic_get_frozen fuel cb t key st o d :
  heap st !! t = Some (ORaw o) →
  key ≠ KSym TARGET →
  props_get key (o_props o) = Some d →
  p_writable d = false → p_configurable d = false →
  basic_get fuel cb t key st = Ok (p_value d) st.
Proof.
  intros Ht Hkey Hd Hw Hc. unfold basic_get, basic_get_read, raw_obj.
  rewrite decide_False by done. msteps. rewrite Ht. msteps.
  rewrite Hd. simpl. rewrite Hw, Hc. simpl. msteps.
  rewrite (reflect_get_own _ _ _ Hd). simpl. by msteps.
Qed.

(** X11: a property that is neither writable nor configurable is read
    through a proxy as the container holds it: the read subscribes
    nobody, changes nothing, and does not wrap the value, were it a
    container.  After [Object.freeze(proxy)], which freezes the
    container behind the proxy, this is so for every own property. *)
Theorem frozen_property_is_read_as_is fuel st p t cb o :
  heap st !! p = Some (OProxy t cb HBasic) →
  heap st !! t = Some (ORaw o) →
  (∀ key d,
     key ≠ KSym TARGET →
     props_get key (o_props o) = Some d →
     p_writable d = false → p_configurable d = false →
     js_get fuel (VRef p) key st = Ok (p_value d) st) ∧
  ∃ st1,
    js_freeze (VRef p) st = Ok tt st1 ∧
    ∀ key,
      key ≠ KSym TARGET → obj_has key o = true →
      js_get fuel (VRef p) key st1 = Ok (obj_get key o) st1.
Proof.
  intros Hp Ht. split.
  - intros key d Hkey Hd Hw Hc. unfold js_get. msteps. rewrite Hp.
    by eapply basic_get_frozen.
  - set (o0 := mkRaw (o_class o) (o_props o) false (o_data o)).
    set (st0 := set_heap (<[t := ORaw o0]> (heap st)) st).
    destruct (observeTargetKey_returns t (VSym KEYCHANGES) cb st0) as [sta Hobs].
    destruct (observeTargetKey_frame _ _ _ _ _ Hobs) as (Hha & _).
    assert (Hlt : t < length (heap st)) by (by eapply lookup_lt_Some).
    assert (Ht0 : heap sta !! t = Some (ORaw o0)).
    { rewrite Hha. simpl. by apply list_lookup_insert_eq. }
    assert (Hpt : p ≠ t) by (intros ->; congruence).
    exists (set_heap (<[t := ORaw (freeze_props o0)]> (heap sta)) sta). split.
    + unfold js_freeze, basic_ownKeys, raw_obj, update_raw. msteps.
      rewrite Hp. msteps. rewrite Ht. msteps. fold o0. fold st0.
      rewrite Hobs. msteps. rewrite Ht0. msteps. rewrite Ht0. by msteps.
    + intros key Hkey Hhas. unfold obj_has in Hhas.
      destruct (props_get key (o_props o)) as [d|] eqn:Hd; [|done].
      unfold js_get. msteps. simpl. rewrite list_lookup_insert_ne by done.
      rewrite Hha. simpl. rewrite list_lookup_insert_ne by done. rewrite Hp.
      unfold view_get.
      rewrite (basic_get_frozen fuel cb t key _ (freeze_props o0)
                 (mkProp (p_value d) false false)); try done.
      * unfold obj_get. by rewrite Hd.
      * simpl. apply list_lookup_insert_eq. by rewrite length_insert.
      * simpl. by rewrite props_get_fmap, Hd.
Qed.

Lemma frozen_property_is_read_as_is_witness :
  ∃ st1,
    js_freeze (VRef 1) (state_after idle two_readers) = Ok tt st1 ∧
    js_get 1 (VRef 1) (KStr "a") st1 = Ok (VNum 1) st1.
Proof.
  assert (Hp : heap (state_after idle two_readers) !! 1 = Some (OProxy 0 1 HBasic))
    by (vm_compute; reflexivity).
  destruct (frozen_property_is_read_as_is 1 (state_after idle two_readers) 1 0 1
              two_readers_object Hp two_readers_heap) as (_ & st1 & Hf & Hget).
  exists st1. split; [exact Hf|].
  apply (Hget (KStr "a")); [intros E; discriminate E|reflexivity].
Defined.

Lemma observeTargetKey_again t k cb st st1 st2 :
  observeTargetKey t k cb st = Ok tt st1 →
  targetToKeysToCallbacks st2 = targetToKeysToCallbacks st1 →
  callbacksToTargets st2 = callbacksToTargets st1 →
  observeTargetKey t k cb st2 = Ok tt st2.
Proof.
  intros Hobs Ht Hc. pose proof (observeTargetKey_idemp _ _ _ _ _ Hobs) as Hid.
  unfold observeTargetKey in *. rewrite Ht, Hc.
  injection Hid as Hid. f_equal.
  apply (f_equal targetToKeysToCallbacks) in Hid as H1.
  apply (f_equal callbacksToTargets) in Hid as H2.
  simpl in H1, H2. unfold set_c2t, set_t2k. simpl. rewrite H1, H2, <- Ht, <- Hc.
  by destruct st2.
Qed.

(** X12: a container held by a wrapped container is handed out wrapped
    for the same callback.  The read of a key whose value is a
    container that can be wrapped and is not marked subscribes the
    callback to the key and returns the proxy of the value for the
    callback of the proxy read from: the one [reactive] returns for
    them, and the one the same read returns again, the second read
    changing nothing. *)
Theorem nested_container_is_wrapped fuel st p t cb o key x ox :
  reachable st →
  heap st !! p = Some (OProxy t cb HBasic) →
  heap st !! t = Some (ORaw o) →
  is_frozen_prop (props_get key (o_props o)) = false →
  obj_get key o = VRef x →
  heap st !! x = Some (ORaw ox) →
  supported (o_class ox) = true →
  obj_has (KSym SKIP) ox = false →
  ∃ q st1,
    js_get (S fuel) (VRef p) key st = Ok (VRef q) st1 ∧
    (∃ h, heap st1 !! q = Some (OProxy x cb h)) ∧
    cb ∈ subscribers st1 t (key_value key) ∧
    reactive (S fuel) (VRef x) cb st1 = Ok (VRef q) st1 ∧
    js_get (S fuel) (VRef p) key st1 = Ok (VRef q) st1.
Proof.
  intros Hr Hp Ht Hfrozen Hget Hx Hsup Hskip.
  destruct (reachable_views st Hr) as (_ & _ & Hnt).
  assert (Hkey : key ≠ KSym TARGET).
  { intros ->. rewrite (obj_get_absent _ _ (Hnt _ _ Ht)) in Hget. done. }
  pose proof (Hnt _ _ Hx) as Htarget.
  pose proof (reachable_no_tag _ _ _ Hr Hx) as Htag.
  assert (Hrget : reflect_get key o = Some (VRef x)).
  { revert Hget. unfold obj_get, reflect_get.
    destruct (props_get key (o_props o)); [by intros ->|done]. }
  destruct (observeTargetKey_returns t (key_value key) cb st) as [sta Hobs].
  destruct (observeTargetKey_frame _ _ _ _ _ Hobs) as (Hha & Hca & _).
  assert (Hxa : heap sta !! x = Some (ORaw ox)) by (by rewrite Hha).
  destruct (reactive_raw_eval fuel x ox cb sta Hxa Htag Hsup Hskip Htarget)
    as (q & st1 & Hrun & Hq & Hheap & Ht2k & Hc2t & _ & _).
  assert (Hread : ∀ s s',
            heap s !! p = Some (OProxy t cb HBasic) →
            heap s !! t = Some (ORaw o) →
            observeTargetKey t (key_value key) cb s = Ok tt s' →
            js_get (S fuel) (VRef p) key s =
              (ok <- canBeMadeReactive (VRef x) ;;
               if ok then reactive (S fuel) (VRef x) cb else ret (VRef x)) s').
  { intros s s' Hps Hts Ho.
    destruct (observeTargetKey_frame _ _ _ _ _ Ho) as (Hhs & _).
    unfold js_get. msteps. rewrite Hps.
    unfold view_get, basic_get, basic_get_read, raw_obj.
    rewrite decide_False by done. msteps. rewrite Hts. msteps. rewrite Hfrozen.
    msteps. rewrite Ho. msteps. rewrite Hhs, Hts. msteps. rewrite Hrget. simpl.
    by msteps. }
  assert (Hwrap : ∀ s, heap s !! x = Some (ORaw ox) →
            (ok <- canBeMadeReactive (VRef x) ;;
             if ok then reactive (S fuel) (VRef x) cb else ret (VRef x)) s =
            reactive_n (S fuel) (VRef x) cb s).
  { intros s Hxs. by rewrite bind_unfold, (canBeMadeReactive_raw _ _ _ Hxs Htag), Hsup. }
  assert (Hsame : ∀ l obj, heap st !! l = Some obj → heap st1 !! l = Some obj).
  { intros l obj Hl. rewrite <- Hha in Hl.
    destruct Hheap as [->|[-> _]]; [done|by apply lookup_app_l_Some]. }
  assert (Hx1 : heap st1 !! x = Some (ORaw ox)) by (by apply Hsame).
  assert (Hagain : reactive_n (S fuel) (VRef x) cb st1 = Ok (VRef q) st1).
  { rewrite (reactive_raw fuel x ox cb st1 Hx1 Htag Hsup Hskip Htarget).
    by apply reactive_cached_hit. }
  exists q, st1. split_and!.
  - rewrite (Hread st sta Hp Ht Hobs), (Hwrap sta Hxa). exact Hrun.
  - destruct Hheap as [Hsame'|[Hnew ->]].
    + assert (Hra : reachable sta).
      { eapply reachable_steps; [exact Hr|]. eapply (steps_prim 0).
        eapply prim_observe; [|exact Hobs]. by exists p, HBasic. }
      assert (Hr1 : reachable st1).
      { eapply reachable_steps; [exact Hra|].
        pose proof (sound_reactive_n 0 (S fuel) (VRef x) cb sta I) as Hs1.
        rewrite Hrun in Hs1. exact Hs1. }
      destruct (reachable_views st1 Hr1) as (_ & Hcache1 & _). eauto.
    + eexists. rewrite Hnew. by rewrite lookup_app_r, Nat.sub_diag.
  - unfold subscribers. rewrite Ht2k. fold (subscribers sta t (key_value key)).
    rewrite (observeTargetKey_subscribers _ _ _ _ _ t (key_value key) Hobs).
    rewrite decide_True by done. apply elem_of_jsset_add. by left.
  - exact Hagain.
  - rewrite (Hread st1 st1); [by rewrite (Hwrap st1 Hx1)|by apply Hsame..|].
    by eapply observeTargetKey_again.
Qed.

(** *** [markRaw] *)

(** X13: [markRaw] throws a [TypeError] where the write of the mark is
    refused: on a container that is not extensible and not yet marked,
    which stays as it was, so that [reactive] still wraps it; and on
    [undefined], [null] and the other values that are not objects. *)
Theorem markRaw_refused depth call fuel st x o cb :
  reachable st →
  heap st !! x = Some (ORaw o) →
  supported (o_class o) = true →
  obj_has (KSym SKIP) o = false →
  o_extensible o = false →
  markRaw depth call (VRef x) st = Throw TypeError st ∧
  (∃ q st1,
     reactive (S fuel) (VRef x) cb st = Ok (VRef q) st1 ∧
     ∃ h, heap st1 !! q = Some (OProxy x cb h)) ∧
  (∀ v, (∀ l, v ≠ VRef l) → (∀ f, v ≠ VFun f) →
        markRaw depth call v st = Throw TypeError st).
Proof.
  intros Hr Hx Hsup Hskip Hext. split_and!.
  - unfold markRaw, obj_set. msteps. rewrite Hx.
    unfold obj_has in Hskip. destruct (props_get _ _); [done|]. by rewrite Hext.
  - destruct (reactive_raw_view fuel x o cb st Hr Hx Hsup Hskip)
      as (q & st1 & Hrun & _ & Hq & _). eauto.
  - intros v Hv Hf. unfold markRaw. destruct v as [| | | | | | |f|l]; try done.
    + by destruct (Hf f).
    + by destruct (Hv l).
Qed.

Section Marking.

Variable depth : nat.
Variable call : Callback → M unit.

Hypothesis call_quiet : quiet_calls depth call.

(** X14: [markRaw(proxy)] marks the container behind the proxy, by a
    write through the [set] trap: as the mark is a new key, the write
    notifies the changes of the key set, and calls the callbacks
    subscribed to them, then notifies the key [SKIP].  When the
    callbacks leave the heap alone, [reactive] from then on returns the
    container itself.  The container has no [Symbol.toStringTag] of its
    own, which could make [reactive] reject it. *)
Theorem marking_through_a_proxy st p t cb h o :
  heap st !! p = Some (OProxy t cb h) →
  heap st !! t = Some (ORaw o) →
  supported (o_class o) = true →
  obj_has (KSym ToStringTag) o = false →
  obj_has (KSym SKIP) o = false →
  o_extensible o = true →
  (∀ r st',
     markRaw depth call (VRef p) st = Ok r st' →
     r = VRef p ∧
     notifications depth (new_events st st') = [(t, VSym KEYCHANGES); (t, VSym SKIP)] ∧
     subscribers st t (VSym KEYCHANGES) `prefix_of` calls depth (new_events st st')) ∧
  ((∀ c s, returns (call c s)) → returns (markRaw depth call (VRef p) st)) ∧
  (∀ r st',
     (∀ c s s', state_of (call c s) = Some s' → heap s' = heap s) →
     markRaw depth call (VRef p) st = Ok r st' →
     ∀ fuel cb', reactive (S fuel) (VRef t) cb' st' = Ok (VRef t) st').
Proof.
  intros Hp Ht Hsup Htag Hskip Hext.
  assert (Hset : obj_set (KSym SKIP) (VBool true) o =
            (with_props (props_put (KSym SKIP) (mkProp (VBool true) true true) (o_props o)) o,
             true)).
  { unfold obj_set. unfold obj_has in Hskip.
    destruct (props_get _ _); [done|]. by rewrite Hext. }
  assert (Hget : reflect_get (KSym SKIP) o = Some VUndef).
  { rewrite reflect_get_private by done. by rewrite obj_get_absent. }
  assert (Hrset : reflect_set (KSym SKIP) (VBool true) o =
                  Done (obj_set (KSym SKIP) (VBool true) o))
    by (by apply reflect_set_private).
  assert (Hmark : markRaw depth call (VRef p) st =
            (ok <- basic_set depth call t (KSym SKIP) (VBool true) ;;
             if ok then ret (VRef p) else throw TypeError) st).
  { unfold markRaw. msteps. by rewrite Hp. }
  split_and!.
  - intros r st'. rewrite Hmark, bind_unfold.
    destruct (basic_set _ _ _ _ _ st) as [ok st1|e st1|] eqn:Hbs; [|done|done].
    destruct (basic_set_calls depth call call_quiet _ _ _ _ _ _ _ Ht Hbs)
      as (ov & s & evs1 & evs2 & Hov & Htr & Hn & Hc1 & _).
    assert (ov = VUndef) as -> by congruence.
    destruct ok; msteps; [|done]. intros [= <- <-]. split; [done|].
    rewrite (new_events_app _ _ _ Htr), Hn, Hskip. split; [done|].
    rewrite calls_app, Hc1, Hskip. simpl. by apply prefix_app_r.
  - intros Hret.
    rewrite Hmark, bind_unfold, (basic_set_unfold _ _ _ _ _ _ _ _ _ Ht Hget Hrset).
    rewrite Hskip, Hset. simpl. msteps.
    pose proof (notifyReactives_returns depth call t (VSym KEYCHANGES)
                  (set_heap (<[t := ORaw (obj_set (KSym SKIP) (VBool true) o).1]> (heap st)) st)
                  Hret) as H1.
    rewrite Hset in H1. simpl in H1.
    destruct (notifyReactives _ _ _ _ _) as [[] st1|e st1|]; [|done|done].
    msteps.
    pose proof (notifyReactives_returns depth call t (VSym SKIP) st1 Hret) as H2.
    destruct (notifyReactives _ _ _ _ st1) as [[] st2|e st2|]; [|done|done].
    by msteps.
  - intros r st' Hheap.
    rewrite Hmark, bind_unfold, (basic_set_unfold _ _ _ _ _ _ _ _ _ Ht Hget Hrset).
    set (st0 := set_heap _ st). msteps.
    destruct (when _ _ st0) as [[] st1|e st1|] eqn:H1; [|done|done].
    msteps.
    destruct (when _ _ st1) as [[] st2|e st2|] eqn:H2; [|done|done].
    msteps. rewrite Hset. simpl. msteps. intros [= <- <-] fuel cb'.
    assert (Hh : heap st2 = heap st0).
    { rewrite (when_notify_heap _ _ _ _ _ st1 st2 Hheap) by (by rewrite H2).
      by rewrite (when_notify_heap _ _ _ _ _ st0 st1 Hheap) by (by rewrite H1). }
    unfold reactive.
    eapply reactive_marked;
      [| | |by apply (obj_has_set (KSym SKIP) (VBool true) o); rewrite Hset].
    + rewrite Hh. simpl. apply list_lookup_insert_eq. by eapply lookup_lt_Some.
    + rewrite Hset. simpl. unfold obj_has in *. simpl. rewrite props_get_put.
      by rewrite decide_False.
    + by rewrite Hset.
Qed.

End Marking.

Lemma marking_through_a_proxy_witness :
  ∃ st',
    markRaw 0 (callback_call idle 1 0) (VRef 1) (state_after idle two_readers) =
      Ok (VRef 1) st' ∧
    notifications 0 (new_events (state_after idle two_readers) st') =
      [(0, VSym KEYCHANGES); (0, VSym SKIP)].
Proof.
  assert (Hp : heap (state_after idle two_readers) !! 1 = Some (OProxy 0 1 HBasic))
    by (vm_compute; reflexivity).
  destruct (marking_through_a_proxy 0 (callback_call idle 1 0) (idle_quiet 0 0)
              (state_after idle two_readers) 1 0 1 HBasic two_readers_object
              Hp two_readers_heap eq_refl eq_refl eq_refl eq_refl) as (H1 & H2 & _).
  destruct (returns_inv _ (H2 (idle_returns 0 0))) as (r & st' & Hs).
  destruct (H1 r st' Hs) as (Hr & Hn & _).
  exists st'. split.
  - rewrite Hs, Hr. reflexivity.
  - exact Hn.
Defined.

Lemma nested_heap : heap (state_after idle nested) !! 0 = Some (ORaw nested_object).
Proof. vm_compute. reflexivity. Qed.

Lemma nested_container_is_wrapped_witness :
  ∃ q st1,
    js_get 1 (VRef 2) (KStr "child") (state_after idle nested) = Ok (VRef q) st1 ∧
    reactive 1 (VRef 1) 1 st1 = Ok (VRef q) st1.
Proof.
  assert (Hp : heap (state_after idle nested) !! 2 = Some (OProxy 0 1 HBasic))
    by (vm_compute; reflexivity).
  assert (Hx : heap (state_after idle nested) !! 1 = Some (ORaw empty_object))
    by (vm_compute; reflexivity).
  destruct (nested_container_is_wrapped 0 (state_after idle nested) 2 0 1 nested_object
              (KStr "child") 1 empty_object
              (reachable_state_after idle nested) Hp nested_heap eq_refl eq_refl Hx
              eq_refl eq_refl) as (q & st1 & Hread & _ & _ & Hre & _).
  exists q, st1. split; [exact Hread|exact Hre].
Defined.

Lemma frozen_heap : heap (state_after idle frozen) !! 0 = Some (ORaw frozen_object).
Proof. vm_compute. reflexivity. Qed.

Lemma markRaw_refused_witness :
  markRaw 0 (callback_call idle 1 0) (VRef 0) (state_after idle frozen) =
    Throw TypeError (state_after idle frozen) ∧
  ∃ q st1, reactive 1 (VRef 0) 1 (state_after idle frozen) = Ok (VRef q) st1.
Proof.
  destruct (markRaw_refused 0 (callback_call idle 1 0) 0 (state_after idle frozen) 0
              frozen_object 1 (reachable_state_after idle frozen) frozen_heap
              eq_refl eq_refl eq_refl) as (Hthrow & (q & st1 & Hrun & _) & _).
  split; [exact Hthrow|]. exists q, st1. exact Hrun.
Defined.

(** ** Reads log nothing and leave the containers alone *)

Lemma same_object_refl a : same_object a a.
Proof. by destruct a. Qed.

Lemma same_object_trans a b c : same_object a b → same_object b c → same_object a c.
Proof. destruct a, b, c; simpl; try done; congruence. Qed.

Lemma untouched_refl st : untouched st st.
Proof. split; [done|]. intros l a Hl. exists a. split; [done|apply same_object_refl]. Qed.

Lemma untouched_trans st1 st2 st3 : untouched st1 st2 → untouched st2 st3 → untouched st1 st3.
Proof.
  intros [Ht1 Hh1] [Ht2 Hh2]. split; [congruence|].
  intros l a Hl. destruct (Hh1 l a Hl) as (b & Hb & Hab).
  destruct (Hh2 l b Hb) as (c & Hc & Hbc). exists c. split; [done|].
  by eapply same_object_trans.
Qed.

Lemma untouched_heap st st' :
  heap st' = heap st → trace st' = trace st → untouched st st'.
Proof.
  intros Hh Ht. split; [done|]. intros l a Hl. exists a. rewrite Hh.
  split; [done|apply same_object_refl].
Qed.

Lemma untouched_alloc st a :
  untouched st (set_heap (heap st ++ [a]) st).
Proof.
  split; [done|]. intros l b Hl. exists b. simpl.
  split; [by apply lookup_app_l_Some|apply same_object_refl].
Qed.

Lemma untouched_update st l a b :
  heap st !! l = Some a → same_object a b →
  untouched st (set_heap (<[l := b]> (heap st)) st).
Proof.
  intros Hl Hab. split; [done|]. intros l' a' Hl'. simpl.
  destruct (decide (l' = l)) as [->|Hne].
  - exists b. rewrite list_lookup_insert_eq by (by eapply lookup_lt_Some).
    split; [done|]. congruence.
  - exists a'. rewrite list_lookup_insert_ne by done. split; [done|apply same_object_refl].
Qed.

Section Respects.

Variable R : State → State → Prop.
Hypothesis R_refl : ∀ st, R st st.
Hypothesis R_trans : ∀ st1 st2 st3, R st1 st2 → R st2 st3 → R st1 st3.

Lemma keeps_bind {A B} (m : M A) (k : A → M B) st :
  keeps R st (m st) →
  (∀ a st1, m st = Ok a st1 → keeps R st1 (k a st1)) →
  keeps R st (bind m k st).
Proof.
  intros Hm Hk. rewrite bind_unfold.
  destruct (m st) as [a st1|e st1|] eqn:E; simpl in *; [|done|done].
  specialize (Hk a st1 eq_refl).
  destruct (k a st1) as [b st2|e st2|]; simpl in *; eauto.
Qed.

Lemma keeps_trans {A} st st1 (r : Res A) : R st st1 → keeps R st1 r → keeps R st r.
Proof. intros H. destruct r; simpl; eauto. Qed.

Lemma respects_bind {A B} (m : M A) (k : A → M B) :
  respects R m → (∀ a, respects R (k a)) → respects R (bind m k).
Proof. intros Hm Hk st. apply keeps_bind; [apply Hm|]. intros a st1 _. apply Hk. Qed.

Lemma respects_ret {A} (a : A) : respects R (ret a).
Proof. intros st. apply R_refl. Qed.

Lemma respects_throw {A} e : respects R (throw (A:=A) e).
Proof. intros st. apply R_refl. Qed.

Lemma respects_out_of_fuel {A} : respects R (out_of_fuel (A:=A)).
Proof. by intros st. Qed.

Lemma respects_get_state : respects R get_state.
Proof. intros st. apply R_refl. Qed.

Lemma respects_state {B} (k : State → M B) :
  (∀ st, keeps R st (k st st)) → respects R (st <- get_state ;; k st).
Proof. intros Hk st. rewrite bind_unfold. apply Hk. Qed.

Lemma respects_raw_obj l : respects R (raw_obj l).
Proof. intros st. unfold raw_obj. destruct (heap st !! l) as [[]|]; apply R_refl. Qed.

Lemma respects_when b (m : M unit) : respects R m → respects R (when b m).
Proof. intros Hm. destruct b; [done|apply respects_ret]. Qed.

Lemma respects_within {A} (x : option A) : respects R (within x).
Proof. destruct x; [apply respects_ret|apply respects_out_of_fuel]. Qed.

Lemma respects_outcome {A} (x : Outcome A) : respects R (outcome x).
Proof.
  destruct x; [apply respects_ret|apply respects_throw|apply respects_out_of_fuel].
Qed.

Lemma respects_call_value f : respects R (call_value f).
Proof.
  destruct f; first [apply respects_throw|apply respects_out_of_fuel].
Qed.

Lemma respects_private {A} key (a : A) :
  respects R (if is_private key then ret a else out_of_fuel).
Proof. destruct (is_private key); [apply respects_ret|apply respects_out_of_fuel]. Qed.

Lemma respects_read o key (b : bool) :
  respects R (v <- within (reflect_get key o) ;; ret (v, b)).
Proof.
  apply respects_bind; [apply respects_within|]. intros v. apply respects_ret.
Qed.

Lemma respects_for_each {A} (xs : list A) (f : A → M unit) :
  (∀ x, respects R (f x)) → respects R (for_each xs f).
Proof.
  intros Hf. induction xs as [|x xs IH]; simpl; [apply respects_ret|].
  apply respects_bind; [apply Hf|done].
Qed.

End Respects.

Section Reads.

Let R := untouched.
Let Rr := untouched_refl.
Let Rt := untouched_trans.

Local Ltac rbind := apply (respects_bind R Rt).
Local Ltac rret := apply (respects_ret R Rr).
Local Ltac rthrow := apply (respects_throw R Rr).

Lemma reads_observeTargetKey t k cb : respects R (observeTargetKey t k cb).
Proof.
  intros st. destruct (observeTargetKey_returns t k cb st) as [st' H]. rewrite H.
  destruct (observeTargetKey_frame _ _ _ _ _ H) as (Hh & _ & Ht).
  by apply untouched_heap.
Qed.

Lemma reads_alloc a : respects R (alloc a).
Proof. intros st. apply untouched_alloc. Qed.

Lemma reads_cache f : respects R (modify (fun st => set_cache (f st) st)).
Proof. intros st. by apply untouched_heap. Qed.

Lemma reads_proxy_get_read h cb t key : respects R (proxy_get_read h cb t key).
Proof.
  unfold proxy_get_read, basic_get_read, collection_get_read.
  destruct h; case_decide; try rret.
  - rbind; [apply (respects_raw_obj R Rr)|]. intros o.
    destruct (is_frozen_prop _); [apply (respects_read R Rr Rt)|].
    rbind; [apply reads_observeTargetKey|]. intros _.
    rbind; [apply (respects_raw_obj R Rr)|]. intros o'. apply (respects_read R Rr Rt).
  - rbind; [apply reads_observeTargetKey|]. intros _.
    rbind; [apply (respects_raw_obj R Rr)|]. intros o'. apply (respects_read R Rr Rt).
Qed.

Lemma reads_tag_through b h cb t : respects R (tag_through b h cb t).
Proof.
  unfold tag_through. rbind; [apply reads_proxy_get_read|]. intros r.
  rbind; [apply (respects_raw_obj R Rr)|]. intros o.
  destruct r.1; try rret. destruct r.2; [apply (respects_out_of_fuel R)|rret].
Qed.

Lemma reads_rawType v : respects R (rawType v).
Proof.
  unfold rawType, objectToString_tag. destruct v; try rret.
  apply (respects_state R). intros st.
  destruct (heap st !! l) as [[o|t cb h|g|t k m pos fin|p]|]; try apply Rr.
  - apply reads_tag_through.
  - destruct (heap st !! p) as [[o|t cb h|g|t k m pos fin|p']|]; try apply Rr.
    apply reads_tag_through.
Qed.

Lemma reads_canBeMadeReactive v : respects R (canBeMadeReactive v).
Proof.
  unfold canBeMadeReactive. destruct (negb _); [rret|].
  rbind; [apply reads_rawType|]. intros t. rret.
Qed.

Lemma reads_proxy_has cb t key : respects R (proxy_has cb t key).
Proof.
  unfold proxy_has. rbind; [apply reads_observeTargetKey|]. intros _.
  rbind; [apply (respects_raw_obj R Rr)|]. intros o. apply (respects_within R Rr).
Qed.

Lemma reads_private {A} key (a : A) :
  respects R (if is_private key then ret a else out_of_fuel).
Proof. destruct (is_private key); [rret|apply (respects_out_of_fuel R)]. Qed.

Lemma reads_has_property key v : respects R (has_property key v).
Proof.
  unfold has_property. destruct v; try rthrow; try apply reads_private.
  apply (respects_state R). intros st.
  destruct (heap st !! l) as [[o|t cb h|g|t k m pos fin|p]|]; try apply Rr;
    try apply reads_private.
  - apply (respects_within R Rr).
  - apply reads_proxy_has.
  - destruct (heap st !! p) as [[o|t cb h|g|t k m pos fin|p']|]; try apply Rr.
    apply reads_proxy_has.
Qed.

Lemma reads_read_property key v : respects R (read_property key v).
Proof.
  unfold read_property. destruct v; try rthrow; try apply reads_private.
  apply (respects_state R). intros st.
  destruct (heap st !! l) as [[o|t cb h|g|t k m pos fin|p]|]; try apply Rr;
    try apply reads_private.
  - apply (respects_read R Rr Rt).
  - apply reads_proxy_get_read.
  - destruct (heap st !! p) as [[o|t cb h|g|t k m pos fin|p']|]; try apply Rr.
    apply reads_proxy_get_read.
Qed.

Lemma reads_toRaw v : respects R (toRaw v).
Proof. unfold toRaw. rbind; [apply reads_read_property|]. intros r. rret. Qed.

Lemma reads_reactive_cached v cb : respects R (reactive_cached v cb).
Proof.
  unfold reactive_cached. destruct v; try rthrow.
  rbind; [|intros _].
  { intros st. rewrite modify_unfold. destruct (reactiveCache st !! l); [apply Rr|].
    by apply untouched_heap. }
  apply (respects_state R). intros st.
  destruct (_ !! cb); [apply Rr|].
  apply (respects_bind R Rt); [apply reads_rawType|]. intros ty.
  rbind.
  { destruct (list_has _ _); [|rret]. destruct (rawTypeToFuncHandlers ty); [rret|rthrow]. }
  intros h. rbind; [apply reads_alloc|]. intros p.
  rbind; [apply reads_cache|]. intros _. rret.
Qed.

Lemma reads_reactive_n n : ∀ v cb, respects R (reactive_n n v cb).
Proof.
  induction n as [|n IH]; intros v cb; [apply (respects_out_of_fuel R)|].
  rewrite reactive_n_S.
  rbind; [apply reads_canBeMadeReactive|]. intros ok.
  destruct (negb ok); [rthrow|].
  rbind; [apply reads_has_property|]. intros skip.
  destruct skip; [rret|].
  rbind; [apply reads_read_property|]. intros r.
  destruct (truthy _); [apply IH|apply reads_reactive_cached].
Qed.

Lemma reads_possiblyReactive fuel v cb : respects R (possiblyReactive fuel v cb).
Proof.
  unfold possiblyReactive. rbind; [apply reads_canBeMadeReactive|]. intros ok.
  destruct ok; [apply reads_reactive_n|rret].
Qed.

Lemma reads_finish_read fuel cb r : respects R (finish_read fuel cb r).
Proof. unfold finish_read. destruct r.2; [apply reads_possiblyReactive|rret]. Qed.

Lemma reads_basic_get fuel cb t key : respects R (basic_get fuel cb t key).
Proof.
  unfold basic_get. rbind; [apply (reads_proxy_get_read HBasic)|]. intros r.
  apply reads_finish_read.
Qed.

Lemma reads_native_size l : respects R (native_size l).
Proof.
  unfold native_size. rbind; [apply (respects_raw_obj R Rr)|]. intros o.
  destruct (o_class o); rret.
Qed.

Lemma reads_collection_get fuel k cb t key : respects R (collection_get fuel k cb t key).
Proof.
  unfold collection_get, size_getter. case_decide; [rret|].
  destruct (has_special k key).
  - case_bool_decide; [|apply (respects_out_of_fuel R)].
    rbind; [apply reads_observeTargetKey|]. intros _. apply reads_native_size.
  - rbind; [apply (reads_proxy_get_read (HCollection k))|]. intros r.
    apply reads_finish_read.
Qed.

Lemma reads_view_get fuel view key : respects R (view_get fuel view key).
Proof.
  unfold view_get. destruct view as [[o|t cb [|k]|g|t k m pos fin|p]|]; try rthrow.
  - apply reads_basic_get.
  - apply reads_collection_get.
Qed.

Lemma reads_js_get fuel v key : respects R (js_get fuel v key).
Proof.
  unfold js_get. destruct v; try rthrow; try apply reads_private.
  apply (respects_state R). intros st.
  destruct (heap st !! l) as [[o|t cb h|g|t k m pos fin|p]|]; try apply Rr;
    try apply reads_private.
  - destruct (_ && _); [apply reads_native_size|apply (respects_within R Rr)].
  - apply (reads_view_get fuel (Some (OProxy t cb h))).
  - apply reads_view_get.
Qed.

Lemma reads_js_ownKeys v : respects R (js_ownKeys v).
Proof.
  unfold js_ownKeys, basic_ownKeys. destruct v; try rthrow;
    try apply (respects_out_of_fuel R).
  apply (respects_state R). intros st.
  destruct (heap st !! l) as [[o|t cb h|g|t k m pos fin|p]|]; try apply Rr.
  apply (respects_bind R Rt); [apply reads_observeTargetKey|]. intros _.
  rbind; [apply (respects_raw_obj R Rr)|]. intros o. rret.
Qed.

Lemma reads_getSubscriptions cb : respects R (getSubscriptions cb).
Proof. intros st. rewrite getSubscriptions_unfold. apply Rr. Qed.

Lemma reads_native_call n t key value :
  n = NHas ∨ n = NGet → respects R (native_call n t key value).
Proof.
  intros Hn. unfold native_call. rbind; [apply (respects_raw_obj R Rr)|]. intros o.
  destruct Hn as [-> | ->]; destruct (o_class o); try rret; rthrow.
Qed.

Lemma reads_makeKeyObserver fuel n t cb key :
  n = NHas ∨ n = NGet → respects R (makeKeyObserver fuel n t cb key).
Proof.
  intros Hn. unfold makeKeyObserver.
  rbind; [apply reads_toRaw|]. intros k.
  rbind; [apply reads_observeTargetKey|]. intros _.
  rbind; [by apply reads_native_call|]. intros r.
  apply reads_possiblyReactive.
Qed.

Lemma reads_makeIteratorObserver k im t cb : respects R (makeIteratorObserver k im t cb).
Proof. unfold makeIteratorObserver. rbind; [apply reads_alloc|]. intros g. rret. Qed.

Lemma reads_collection_call depth fuel call k cb t m key value :
  is_mutator m = false → m ≠ MClear →
  respects R (collection_call depth fuel call k cb t m key value).
Proof.
  intros Hm Hc. unfold collection_call. destruct (has_special k (method_key m)).
  - destruct m; try done; try apply reads_makeIteratorObserver;
      apply reads_makeKeyObserver; auto.
  - rbind; [apply (reads_proxy_get_read (HCollection k))|]. intros r.
    rbind; [apply reads_finish_read|]. intros f. apply (respects_call_value R Rr).
Qed.

Lemma reads_view_call depth fuel call view m key value :
  is_mutator m = false → m ≠ MClear →
  respects R (view_call depth fuel call view m key value).
Proof.
  intros Hm Hc. unfold view_call.
  destruct view as [[o|t cb [|k]|g|t k im pos fin|p]|]; try rthrow.
  - rbind; [apply reads_basic_get|]. intros f. apply (respects_call_value R Rr).
  - by apply reads_collection_call.
Qed.

Lemma reads_js_call depth fuel call v m key value :
  is_mutator m = false → m ≠ MClear →
  respects R (js_call depth fuel call v m key value).
Proof.
  intros Hm Hc. unfold js_call. destruct v; try apply (respects_out_of_fuel R).
  apply (respects_state R). intros st.
  assert (Hcall : ∀ o, respects R (f <- within (reflect_get (method_key m) o) ;;
                                    call_value f)).
  { intros o. rbind; [apply (respects_within R Rr)|]. intros f.
    apply (respects_call_value R Rr). }
  destruct (heap st !! l) as [[o|t cb h|g|t k im pos fin|p]|]; try done.
  - destruct (class_kind (o_class o)) as [k|]; [|apply Hcall].
    destruct (has_special k (method_key m)); [|apply Hcall].
    destruct m; try done; cbn [native_method iter_method];
      try (apply reads_native_call; auto);
      (apply (respects_bind R Rt); [apply reads_alloc|intros it; rret]).
  - by apply (reads_view_call depth fuel call (Some (OProxy t cb h))).
  - by apply reads_view_call.
Qed.

Lemma reads_native_item k im e : respects R (native_item k im e).
Proof.
  unfold native_item.
  assert (He : respects R (l <- alloc (ORaw (entry_array e.1 e.2)) ;; ret (VRef l))).
  { rbind; [apply reads_alloc|]. intros l. rret. }
  destruct im, k; try rret; exact He.
Qed.

Lemma reads_update_gen g gen st :
  (∃ gen0, heap st !! g = Some (OGen gen0)) → keeps R st (update_gen g gen st).
Proof.
  intros [gen0 Hg]. unfold update_gen. rewrite modify_unfold. simpl.
  by eapply untouched_update.
Qed.

Lemma untouched_gen st st' g gen0 :
  untouched st st' → heap st !! g = Some (OGen gen0) →
  ∃ gen1, heap st' !! g = Some (OGen gen1).
Proof.
  intros [_ Hh] Hg. destruct (Hh _ _ Hg) as (b & Hb & Hs).
  destruct b; try done. eauto.
Qed.

Lemma reads_generator_turn fuel g gen st :
  (∃ gen0, heap st !! g = Some (OGen gen0)) → keeps R st (generator_turn fuel g gen st).
Proof.
  intros Hg. unfold generator_turn.
  apply (keeps_bind R Rt); [apply (respects_raw_obj R Rr)|].
  intros o s1 [-> _]%raw_obj_inv.
  destruct (next_live _ _) as [[i e]|].
  - apply (keeps_bind R Rt); [apply reads_native_item|]. intros item s2 Hitem.
    assert (H2 : untouched st s2).
    { pose proof (reads_native_item (g_kind gen) (g_method gen) e st) as H.
      by rewrite Hitem in H. }
    apply (keeps_bind R Rt); [apply reads_observeTargetKey|]. intros [] s3 Hobs.
    destruct (observeTargetKey_frame _ _ _ _ _ Hobs) as (Hh3 & _).
    destruct Hg as [gen0 Hg]. destruct (untouched_gen _ _ _ _ H2 Hg) as [gen2 Hg2].
    apply (keeps_bind R Rt).
    { apply reads_update_gen. exists gen2. by rewrite Hh3. }
    intros _ s4 _.
    apply (keeps_bind R Rt); [apply reads_possiblyReactive|]. intros y s5 _. apply Rr.
  - apply (keeps_bind R Rt); [by apply reads_update_gen|]. intros _ s2 _. apply Rr.
Qed.

Lemma reads_generator_next fuel g : respects R (generator_next fuel g).
Proof.
  unfold generator_next. apply (respects_state R). intros st.
  destruct (heap st !! g) as [[o|t cb h|gen|t k m pos fin|hp]|] eqn:Hg; try apply Rr.
  destruct (g_status gen); [| |apply Rr].
  - apply (keeps_bind R Rt); [apply reads_observeTargetKey|]. intros [] s1 Hobs.
    destruct (observeTargetKey_frame _ _ _ _ _ Hobs) as (Hh & _).
    apply reads_generator_turn. exists gen. by rewrite Hh.
  - apply reads_generator_turn. eauto.
Qed.

Lemma reads_native_next it t k im pos fin st :
  (∃ t' k' m' pos' fin', heap st !! it = Some (OIter t' k' m' pos' fin')) →
  keeps R st (native_next it t k im pos fin st).
Proof.
  intros (t' & k' & m' & pos' & fin' & Hit). unfold native_next.
  destruct fin; [apply Rr|].
  apply (keeps_bind R Rt); [apply (respects_raw_obj R Rr)|].
  intros o s1 [-> _]%raw_obj_inv.
  destruct (next_live _ _) as [[i e]|].
  - apply (keeps_bind R Rt).
    { rewrite modify_unfold. simpl. by eapply untouched_update. }
    intros _ s2 _.
    apply (keeps_bind R Rt); [apply reads_native_item|]. intros item s3 _. apply Rr.
  - apply (keeps_bind R Rt).
    { rewrite modify_unfold. simpl. by eapply untouched_update. }
    intros _ s2 _. apply Rr.
Qed.

Lemma reads_js_next fuel g : respects R (js_next fuel g).
Proof.
  unfold js_next. destruct g; try rthrow.
  apply (respects_state R). intros st.
  destruct (heap st !! l) as [[o|t cb h|gen|t k m pos fin|hp]|] eqn:Hl; try apply Rr.
  - apply reads_generator_next.
  - apply reads_native_next. eauto 10.
Qed.

(** X15: no read notifies, calls a callback or changes a container.
    Whatever a read operation of client code is applied to, and whether
    it returns or throws, it logs no event, and it leaves every native
    object and every proxy of the heap as it was; an iterator may have
    advanced.  The read operations are [reactive], [toRaw],
    [getSubscriptions], the read of a property, the test [in], the
    listing of the own keys, the methods [has], [get], [keys], [values],
    [entries] and [Symbol.iterator] of the collections, and [next]. *)
Theorem reads_change_nothing depth fuel call op st :
  is_read op = true →
  keeps untouched st (exec_op depth fuel call op st).
Proof.
  intros Hop. destruct op; try done; unfold exec_op;
    (apply (keeps_bind R Rt); [|intros ? ? _; apply Rr]).
  - apply reads_reactive_n.
  - apply reads_toRaw.
  - apply reads_getSubscriptions.
  - apply reads_js_get.
  - apply reads_has_property.
  - apply reads_js_ownKeys.
  - apply reads_js_call; by destruct m.
  - apply reads_js_next.
Qed.

End Reads.

Lemma reads_change_nothing_witness :
  ∃ st',
    state_of (exec_op 0 1 (callback_call idle 1 0) (OGet (VRef 1) (UStr "a"))
                (state_after idle two_readers)) = Some st' ∧
    trace st' = trace (state_after idle two_readers).
Proof.
  pose proof (reads_change_nothing 0 1 (callback_call idle 1 0) (OGet (VRef 1) (UStr "a"))
                (state_after idle two_readers) eq_refl) as H.
  destruct (exec_op 0 1 (callback_call idle 1 0) (OGet (VRef 1) (UStr "a"))
              (state_after idle two_readers)) as [a st'|e st'|] eqn:E.
  - exists st'. split; [reflexivity|exact (proj1 H)].
  - exists st'. split; [reflexivity|exact (proj1 H)].
  - exfalso. assert (Hf : state_of (exec_op 0 1 (callback_call idle 1 0)
                (OGet (VRef 1) (UStr "a")) (state_after idle two_readers)) ≠ None)
      by (vm_compute; discriminate).
    apply Hf. rewrite E. reflexivity.
Defined.

(** ** Writes subscribe nobody *)

Lemma no_new_subscription_refl st : no_new_subscription st st.
Proof. by intros t k cb. Qed.

Lemma no_new_subscription_trans st1 st2 st3 :
  no_new_subscription st1 st2 → no_new_subscription st2 st3 → no_new_subscription st1 st3.
Proof. intros H1 H2 t k cb Hin. by apply H1, H2. Qed.

Lemma no_new_subscription_ext st st' :
  targetToKeysToCallbacks st' = targetToKeysToCallbacks st → no_new_subscription st st'.
Proof. intros Ht t k cb. by rewrite (subscribers_ext st st'). Qed.

Lemma toRaw_same_state v st : keeps (fun s s' => s' = s) st (toRaw v st).
Proof.
  unfold toRaw. destruct v; try (unfold read_property; msteps; done).
  destruct (heap st !! l) as [[o|t cb h|g|t k m pos fin|hp]|] eqn:Hl;
    try (unfold read_property; msteps; rewrite Hl; msteps; done).
  - rewrite bind_unfold, (read_property_raw (KSym TARGET) _ _ _ Hl eq_refl). by msteps.
  - rewrite bind_unfold, (read_property_proxy _ _ _ _ _ Hl). by msteps.
  - destruct (heap st !! hp) as [[o|t cb h|g|t k m pos fin|hp']|] eqn:Hp;
      try (unfold read_property; msteps; rewrite Hl, Hp; msteps; done).
    rewrite bind_unfold, (read_property_heir _ _ _ _ _ _ Hl Hp). by msteps.
Qed.

Section NoSubscription.

Variable depth : nat.
Variable fuel : nat.
Variable call : Callback → M unit.

Hypothesis call_adds_nothing :
  ∀ c s s', state_of (call c s) = Some s' → no_new_subscription s s'.

Let R := no_new_subscription.
Let Rr := no_new_subscription_refl.
Let Rt := no_new_subscription_trans.

Local Ltac rbind := apply (respects_bind R Rt).
Local Ltac rret := apply (respects_ret R Rr).
Local Ltac rthrow := apply (respects_throw R Rr).

Lemma writes_update_raw l o : respects R (update_raw l o).
Proof. intros st. unfold update_raw. rewrite modify_unfold. by apply no_new_subscription_ext. Qed.

Lemma writes_notifyReactives t k : respects R (notifyReactives depth call t k).
Proof.
  intros st.
  pose proof (notifyReactives_preserves depth call (fun s => R st s)) as H.
  assert (H1 : ∀ cb s s', clearReactivesForCallback cb s = Ok tt s' → R st s → R st s').
  { intros cb s s' Hc Hs. eapply Rt; [exact Hs|]. intros t' k' c.
    rewrite (clearReactivesForCallback_subscribers _ _ _ _ _ Hc).
    case_bool_decide; [|done]. rewrite elem_of_jsset_delete. tauto. }
  assert (H2 : ∀ e s, R st s → R st (add_event e s)).
  { intros e s Hs. eapply Rt; [exact Hs|]. by apply no_new_subscription_ext. }
  assert (H3 : ∀ cb s s', R st s → state_of (call cb s) = Some s' → R st s').
  { intros cb s s' Hs Hc. eapply Rt; [exact Hs|]. by eapply call_adds_nothing. }
  pose proof (H H1 H2 H3 t k st) as Hkeep. cbv beta in Hkeep.
  specialize (fun st' => Hkeep st' (Rr st)).
  destruct (notifyReactives depth call t k st); simpl; auto.
Qed.

Lemma writes_toRaw v : respects R (toRaw v).
Proof.
  intros st. pose proof (toRaw_same_state v st) as H.
  destruct (toRaw v st); simpl in *; subst; try apply Rr; done.
Qed.

Lemma writes_basic_set t key value : respects R (basic_set depth call t key value).
Proof.
  unfold basic_set. rbind; [apply (respects_raw_obj R Rr)|]. intros o.
  rbind; [apply (respects_within R Rr)|]. intros originalValue.
  rbind; [apply (respects_outcome R Rr)|]. intros r.
  rbind; [apply writes_update_raw|]. intros _.
  rbind; [apply (respects_when R Rr), writes_notifyReactives|]. intros _.
  rbind; [apply (respects_when R Rr), writes_notifyReactives|]. intros _. rret.
Qed.

Lemma writes_basic_deleteProperty t key : respects R (basic_deleteProperty depth call t key).
Proof.
  unfold basic_deleteProperty. rbind; [apply (respects_raw_obj R Rr)|]. intros o.
  rbind; [apply writes_update_raw|]. intros _.
  rbind; [apply writes_notifyReactives|]. intros _.
  rbind; [apply writes_notifyReactives|]. intros _. rret.
Qed.

Lemma writes_native_call n t key value : respects R (native_call n t key value).
Proof.
  unfold native_call. rbind; [apply (respects_raw_obj R Rr)|]. intros o.
  destruct (o_class o), n; try rret; try rthrow;
    try (rbind; [apply writes_update_raw|intros _; rret]).
  destruct (can_be_held_weakly key); [|rthrow].
  rbind; [apply writes_update_raw|intros _; rret].
Qed.

Lemma writes_delegateAndNotify setter getter t key value :
  respects R (delegateAndNotify depth call setter getter t key value).
Proof.
  unfold delegateAndNotify.
  rbind; [apply writes_toRaw|]. intros k.
  rbind; [apply writes_native_call|]. intros hadKey.
  rbind; [apply writes_native_call|]. intros originalValue.
  rbind; [apply writes_native_call|]. intros ret_.
  rbind; [apply writes_native_call|]. intros hasKey.
  rbind; [apply (respects_when R Rr), writes_notifyReactives|]. intros _.
  rbind; [apply (respects_when R Rr), writes_notifyReactives|]. intros _. rret.
Qed.

Lemma writes_makeClearNotifier t : respects R (makeClearNotifier depth call t).
Proof.
  unfold makeClearNotifier, native_keys, native_clear.
  rbind.
  { rbind; [apply (respects_raw_obj R Rr)|]. intros o. destruct (o_class o); try rthrow; rret. }
  intros allKeys. rbind.
  { rbind; [apply (respects_raw_obj R Rr)|]. intros o.
    destruct (o_class o); try rthrow; apply writes_update_raw. }
  intros _. rbind; [apply writes_notifyReactives|]. intros _.
  apply (respects_for_each R Rr Rt). intros key. apply writes_notifyReactives.
Qed.

Lemma writes_untrapped_target v : respects R (untrapped_target v).
Proof.
  unfold untrapped_target. destruct v; try rthrow; try apply (respects_out_of_fuel R).
  apply (respects_state R). intros st.
  destruct (heap st !! l) as [[o|t cb h|g|t k m pos fin|hp]|]; first [apply Rr|done].
Qed.

(** X16: no write subscribes anybody.  When the callbacks called by
    the notifications add no subscription themselves, an assignment, a
    [delete], [markRaw] and [Object.defineProperty], on a proxy or not,
    and the methods [set], [add], [delete] and [clear] of a wrapped
    collection leave every callback subscribed to a part of what it was
    subscribed to, also when they throw.  So does [Object.freeze] of a
    value that is not a proxy; [Object.freeze] of a proxy lists the own
    keys through the [ownKeys] trap, which subscribes the callback of
    the proxy to the changes of the key set of the container, and adds
    no other subscription. *)
Theorem writes_subscribe_nobody :
  (∀ op st, is_write op = true →
     keeps no_new_subscription st (exec_op depth fuel call op st)) ∧
  (∀ k cb t m key value st,
     is_mutator m = true ∨ m = MClear →
     has_special k (method_key m) = true →
     keeps no_new_subscription st (collection_call depth fuel call k cb t m key value st)) ∧
  (∀ v st,
     ¬ is_view st v →
     keeps no_new_subscription st (js_freeze v st)) ∧
  (∀ p t cb h st,
     heap st !! p = Some (OProxy t cb h) →
     keeps (subscribes_at_most t (VSym KEYCHANGES) cb) st (js_freeze (VRef p) st) ∧
     ∀ st', js_freeze (VRef p) st = Ok tt st' →
            cb ∈ subscribers st' t (VSym KEYCHANGES)).
Proof.
  split_and!.
  - intros op st Hop. destruct op; try done; unfold exec_op;
      (apply (keeps_bind R Rt); [|intros ? ? _; apply Rr]).
    + unfold markRaw. destruct v; try apply Rr.
      apply (respects_state R). intros s.
      destruct (heap s !! l) as [[o|t cb h|g|t k m pos fin|hp]|]; try apply Rr; try done.
      * destruct (obj_set _ _ _).2; [|apply Rr].
        apply (respects_bind R Rt); [apply writes_update_raw|]. intros _. rret.
      * apply (respects_bind R Rt); [apply writes_basic_set|]. intros ok.
        destruct ok; [rret|rthrow].
    + unfold js_set. destruct v; try apply Rr; try done.
      apply (respects_state R). intros s.
      destruct (heap s !! l) as [[o|t cb h|g|t k' m pos fin|hp]|]; try apply Rr; try done.
      * apply (respects_bind R Rt); [apply (respects_outcome R Rr)|]. intros r.
        destruct r.2; [apply writes_update_raw|rthrow].
      * apply (respects_bind R Rt); [apply writes_basic_set|]. intros ok.
        destruct ok; [rret|rthrow].
    + unfold js_delete. destruct v as [| | | | | | | |l]; try apply Rr;
        try apply (respects_private R Rr).
      apply (respects_state R). intros s.
      destruct (heap s !! l) as [[o|t cb h|g|t k' m pos fin|hp]|]; try apply Rr.
      * destruct (obj_delete _ _).2; [|apply Rr]. apply writes_update_raw.
      * apply (respects_bind R Rt); [apply writes_basic_deleteProperty|]. intros ok.
        destruct ok; [rret|rthrow].
    + unfold js_defineProperty.
      apply (respects_bind R Rt); [apply writes_untrapped_target|]. intros l.
      rbind; [apply (respects_raw_obj R Rr)|]. intros o.
      rbind; [apply (respects_outcome R Rr)|]. intros o'. apply writes_update_raw.
  - intros k cb t m key value st Hm Hs. unfold collection_call. rewrite Hs.
    destruct Hm as [Hm| ->].
    + destruct m; try done; apply writes_delegateAndNotify.
    + apply (respects_bind R Rt); [apply writes_makeClearNotifier|]. intros _. rret.
  - intros v st Hv. unfold js_freeze. destruct v; try apply Rr.
    rewrite bind_unfold. simpl.
    destruct (heap st !! l) as [[o|t cb h|g|t k m pos fin|hp]|] eqn:Hl; try apply Rr.
    + apply writes_update_raw.
    + destruct Hv. by exists l, t, cb, h.
  - intros p t cb h st Hp.
    assert (Hrun : ∀ o, heap st !! t = Some (ORaw o) →
              ∃ sta, observeTargetKey t (VSym KEYCHANGES) cb
                       (set_heap (<[t := ORaw (mkRaw (o_class o) (o_props o) false
                                                (o_data o))]> (heap st)) st) = Ok tt sta ∧
                     js_freeze (VRef p) st =
                       Ok tt (set_heap (<[t := ORaw (freeze_props
                                          (mkRaw (o_class o) (o_props o) false
                                             (o_data o)))]> (heap sta)) sta)).
    { intros o Ht.
      set (o0 := mkRaw (o_class o) (o_props o) false (o_data o)).
      set (st0 := set_heap (<[t := ORaw o0]> (heap st)) st).
      destruct (observeTargetKey_returns t (VSym KEYCHANGES) cb st0) as [sta Hobs].
      destruct (observeTargetKey_frame _ _ _ _ _ Hobs) as (Hha & _).
      assert (Ht0 : heap sta !! t = Some (ORaw o0)).
      { rewrite Hha. simpl. apply list_lookup_insert_eq. by eapply lookup_lt_Some. }
      exists sta. split; [done|].
      unfold js_freeze, basic_ownKeys, raw_obj, update_raw. msteps.
      rewrite Hp. msteps. rewrite Ht. msteps. fold o0. fold st0.
      rewrite Hobs. msteps. rewrite Ht0. msteps. rewrite Ht0. by msteps. }
    destruct (heap st !! t) as [[o|t' cb' h'|g|t' k m pos fin|hp]|] eqn:Ht;
      try (split; [|intros st'];
           unfold js_freeze, raw_obj; msteps; rewrite Hp; msteps; rewrite Ht; msteps;
           first [done | by intros t0 k0 cb0; left]).
    destruct (Hrun o eq_refl) as (sta & Hobs & ->). simpl.
    assert (Hsub : ∀ t0 k0, subscribers
                     (set_heap (<[t := ORaw (freeze_props
                        (mkRaw (o_class o) (o_props o) false (o_data o)))]> (heap sta)) sta)
                     t0 k0 =
                   if decide (t = t0 ∧ VSym KEYCHANGES = k0)
                   then jsset_add cb (subscribers st t (VSym KEYCHANGES))
                   else subscribers st t0 k0).
    { intros t0 k0. rewrite subscribers_set_heap.
      rewrite (observeTargetKey_subscribers _ _ _ _ _ t0 k0 Hobs).
      by rewrite !subscribers_set_heap. }
    split.
    + intros t0 k0 cb0. rewrite Hsub. case_decide as Hd; [|by left].
      destruct Hd as [<- <-]. intros [->|Hin]%elem_of_jsset_add; [by right|by left].
    + intros st' [= <-]. rewrite Hsub, decide_True by done.
      apply elem_of_jsset_add. by left.
Qed.

End NoSubscription.

Lemma idle_adds_nothing fuel depth c s s' :
  state_of (callback_call idle (S fuel) depth c s) = Some s' → no_new_subscription s s'.
Proof.
  unfold callback_call, idle. rewrite run_unfold. intros [= <-].
  apply no_new_subscription_refl.
Qed.

Lemma writes_subscribe_nobody_witness :
  keeps no_new_subscription (state_after idle two_readers)
    (exec_op 0 1 (callback_call idle 1 0) (OSet (VRef 1) (UStr "a") (VNum 7))
       (state_after idle two_readers)) ∧
  keeps no_new_subscription (state_after idle two_readers)
    (js_freeze (VRef 0) (state_after idle two_readers)) ∧
  ∃ st', js_freeze (VRef 2) (state_after idle two_readers) = Ok tt st' ∧
         2 ∈ subscribers st' 0 (VSym KEYCHANGES) ∧
         2 ∉ subscribers (state_after idle two_readers) 0 (VSym KEYCHANGES).
Proof.
  destruct (writes_subscribe_nobody 0 1 (callback_call idle 1 0) (idle_adds_nothing 0 0))
    as (Hw & _ & Hraw & Hview).
  split_and!.
  - exact (Hw (OSet (VRef 1) (UStr "a") (VNum 7)) (state_after idle two_readers) eq_refl).
  - apply Hraw. intros (l & t & cb & h & E & Hl). injection E as <-.
    rewrite two_readers_heap in Hl. discriminate Hl.
  - assert (Hp : heap (state_after idle two_readers) !! 2 = Some (OProxy 0 2 HBasic))
      by (vm_compute; reflexivity).
    destruct (Hview 2 0 2 HBasic (state_after idle two_readers) Hp) as [_ Hsub].
    assert (Hret : returns (js_freeze (VRef 2) (state_after idle two_readers)))
      by (vm_compute; exact I).
    destruct (js_freeze (VRef 2) (state_after idle two_readers)) as [[] st'|e st'|] eqn:E;
      [|destruct Hret..].
    exists st'. split_and!; [reflexivity|by apply Hsub|].
    vm_compute. intros Hin. apply list_elem_of_In in Hin. destruct Hin.
Defined.

(** ** The wrapped collections *)

Lemma same_value_zero_refl k : same_value_zero k k = true.
Proof. unfold same_value_zero. by rewrite bool_decide_eq_true_2. Qed.

Lemma data_find_put k v d : data_find k (data_put k v d) = Some v.
Proof.
  induction d as [|[[k0 v0]|] d IH]; simpl.
  - by rewrite same_value_zero_refl.
  - destruct (same_value_zero k0 k) eqn:E; simpl; by rewrite E.
  - done.
Qed.

Lemma data_has_put k v d : data_has k (data_put k v d) = true.
Proof. unfold data_has. by rewrite data_find_put. Qed.

Lemma data_get_put k v d : data_get k (data_put k v d) = v.
Proof. unfold data_get. by rewrite data_find_put. Qed.

Lemma data_find_app_Some k d1 d2 v :
  data_find k d1 = Some v → data_find k (d1 ++ d2) = Some v.
Proof.
  induction d1 as [|[[k0 v0]|] d1 IH]; simpl; [done| |done].
  by destruct (same_value_zero k0 k).
Qed.

Lemma data_find_app_None k d1 d2 :
  data_find k d1 = None → data_find k (d1 ++ d2) = data_find k d2.
Proof.
  induction d1 as [|[[k0 v0]|] d1 IH]; simpl; [done| |done].
  by destruct (same_value_zero k0 k).
Qed.

Lemma data_has_add k d : data_has k (data_add k d) = true.
Proof.
  unfold data_add. destruct (data_has k d) eqn:E; [done|].
  unfold data_has in *. destruct (data_find k d) eqn:F; [done|].
  rewrite (data_find_app_None _ _ _ F). simpl. by rewrite same_value_zero_refl.
Qed.

Lemma data_find_keys k d : data_find k d = None ↔ k ∉ data_keys d.
Proof.
  unfold data_keys, data_entries.
  induction d as [|[[k0 v0]|] d IH]; simpl.
  - split; [intros _; apply not_elem_of_nil|done].
  - unfold same_value_zero. case_bool_decide as E.
    + subst. split; [done|]. intros H. destruct H. by left.
    + rewrite IH, not_elem_of_cons. split; [by intros ?; split|by intros [_ ?]].
  - done.
Qed.

Lemma data_has_remove k d :
  NoDup (data_keys d) → data_has k (data_remove k d) = false.
Proof.
  unfold data_has. intros Hnd.
  assert (H : data_find k (data_remove k d) = None); [|by rewrite H].
  revert Hnd. unfold data_keys, data_entries.
  induction d as [|[[k0 v0]|] d IH]; simpl; intros Hnd; [done| |by apply IH].
  apply NoDup_cons in Hnd as [Hnot Hnd].
  unfold same_value_zero. case_bool_decide as E; simpl.
  - subst. by apply data_find_keys.
  - unfold same_value_zero. rewrite bool_decide_eq_false_2 by done. by apply IH.
Qed.

(** Unwrapping the key gives the same after a change of the entries of a
    collection. *)
Lemma toRaw_after_data t o d key st :
  heap st !! t = Some (ORaw o) →
  toRaw key (set_heap (<[t := ORaw (with_data d o)]> (heap st)) st) =
    match toRaw key st with
    | Ok r _ => Ok r (set_heap (<[t := ORaw (with_data d o)]> (heap st)) st)
    | Throw e _ => Throw e (set_heap (<[t := ORaw (with_data d o)]> (heap st)) st)
    | OutOfFuel => OutOfFuel
    end.
Proof.
  intros Ht. unfold toRaw, read_property. destruct key; msteps; try done. simpl.
  assert (Hlt : t < length (heap st)) by (by eapply lookup_lt_Some).
  assert (Hview : ∀ h cb t' s,
            proxy_get_read h cb t' (KSym TARGET) s = Ok (VRef t', false) s).
  { intros h cb t' s. unfold proxy_get_read, basic_get_read, collection_get_read.
    by destruct h; rewrite decide_True. }
  destruct (decide (l = t)) as [->|Hne].
  - rewrite list_lookup_insert_eq by done. rewrite Ht.
    change (reflect_get (KSym TARGET) (with_data d o))
      with (reflect_get (KSym TARGET) o).
    destruct (reflect_get (KSym TARGET) o); by msteps.
  - rewrite list_lookup_insert_ne by done.
    destruct (heap st !! l) as [[o'|t' cb h|g|t' k m pos fin|hp]|]; msteps; try done.
    + destruct (reflect_get (KSym TARGET) o'); by msteps.
    + rewrite !Hview. by msteps.
    + destruct (decide (hp = t)) as [->|Hnp].
      * rewrite list_lookup_insert_eq by done. rewrite Ht. by msteps.
      * rewrite list_lookup_insert_ne by done.
        destruct (heap st !! hp) as [[o'|t' cb h|g|t' k m pos fin|hp']|]; msteps;
          try done.
        rewrite !Hview. by msteps.
Qed.

(** A call of [add], [set] or [delete] on a wrapped collection, once
    the key is unwrapped and the native mutator has run. *)
Lemma mutator_unfold depth fuel call kind cb t m key value k st o :
  heap st !! t = Some (ORaw o) →
  class_kind (o_class o) = Some kind →
  is_mutator m = true →
  has_special kind (method_key m) = true →
  toRaw key st = Ok k st →
  (kind = KWeakMap → m = MSet → can_be_held_weakly k = true) →
  ∃ r0,
    collection_call depth fuel call kind cb t m key value st =
      (when (negb (strict_eq (VBool (data_has k (o_data o)))
                             (VBool (data_has k (data_after m k value (o_data o))))))
         (notifyReactives depth call t (VSym KEYCHANGES)) ;;;
       when (negb (strict_eq (prior_value m k (o_data o)) value))
         (notifyReactives depth call t k) ;;;
       ret r0)
        (set_heap (<[t := ORaw (with_data (data_after m k value (o_data o)) o)]> (heap st)) st).
Proof.
  intros Hl Hk Hm Hs HtoRaw Hw.
  destruct (native_setter_eval t k value st o kind m Hl Hk Hm Hs Hw) as [r0 Hset].
  exists r0.
  set (o1 := with_data (data_after m k value (o_data o)) o) in *.
  set (st1 := set_heap (<[t := ORaw o1]> (heap st)) st) in *.
  assert (Hl1 : heap st1 !! t = Some (ORaw o1)).
  { subst st1; simpl. apply list_lookup_insert_eq. by eapply lookup_lt_Some. }
  unfold collection_call. rewrite Hs.
  pose proof (native_getter_eval t k VUndef st o kind m Hl Hk Hm Hs) as Hget.
  destruct m; try done; unfold delegateAndNotify; msteps; rewrite HtoRaw; msteps;
    rewrite (native_has_eval t k VUndef st o kind Hl Hk); msteps;
    rewrite Hget; msteps; rewrite Hset; msteps;
    rewrite (native_has_eval t k VUndef st1 o1 kind Hl1 Hk); by msteps.
Qed.

Lemma lookup_eval depth fuel call kind cb t m key k st o :
  heap st !! t = Some (ORaw o) →
  class_kind (o_class o) = Some kind →
  m = MHas ∨ m = MGet →
  has_special kind (method_key m) = true →
  toRaw key st = Ok k st →
  (∀ l, lookup_answer m k (o_data o) ≠ VRef l) →
  ∃ st1,
    observeTargetKey t k cb st = Ok tt st1 ∧
    collection_call depth fuel call kind cb t m key VUndef st =
      Ok (lookup_answer m k (o_data o)) st1.
Proof.
  intros Hl Hk Hm Hs HtoRaw Hprim.
  destruct (observeTargetKey_returns t k cb st) as [st1 Hobs].
  destruct (observeTargetKey_frame _ _ _ _ _ Hobs) as (Hh & _).
  exists st1. split; [done|].
  unfold collection_call. rewrite Hs.
  destruct Hm as [-> | ->]; unfold makeKeyObserver; msteps; rewrite HtoRaw; msteps;
    rewrite Hobs; msteps.
  - rewrite (native_has_eval t k VUndef st1 o kind) by (by rewrite ?Hh). msteps.
    unfold possiblyReactive. by rewrite bind_unfold, canBeMadeReactive_primitive.
  - assert (Hget : native_call NGet t k VUndef st1 = Ok (data_get k (o_data o)) st1).
    { unfold native_call, raw_obj. msteps. rewrite Hh, Hl. msteps.
      destruct (o_class o); try done. simpl in Hk. injection Hk as <-. done. }
    rewrite Hget. msteps. unfold possiblyReactive.
    by rewrite bind_unfold, canBeMadeReactive_primitive.
Qed.

Lemma toRaw_ext key s s' :
  heap s' = heap s →
  toRaw key s' =
    match toRaw key s with
    | Ok r _ => Ok r s'
    | Throw e _ => Throw e s'
    | OutOfFuel => OutOfFuel
    end.
Proof.
  intros Hh. unfold toRaw, read_property. destruct key; msteps; try done.
  rewrite Hh.
  assert (Hview : ∀ h cb t' s,
            proxy_get_read h cb t' (KSym TARGET) s = Ok (VRef t', false) s).
  { intros h cb t' s0. unfold proxy_get_read, basic_get_read, collection_get_read.
    by destruct h; rewrite decide_True. }
  destruct (heap s !! l) as [[o'|t' cb h|g|t' k m pos fin|hp]|]; msteps; try done.
  - destruct (reflect_get (KSym TARGET) o'); by msteps.
  - rewrite !Hview. by msteps.
  - destruct (heap s !! hp) as [[o'|t' cb h|g|t' k m pos fin|hp']|]; msteps; try done.
    rewrite !Hview. by msteps.
Qed.

Lemma has_special_has kind : has_special kind (KStr "has") = true.
Proof. by destruct kind. Qed.

Lemma method_key_not_target m : method_key m ≠ KSym TARGET.
Proof. by destruct m. Qed.

(** The prototype of a collection has no method that the handlers of
    its kind leave out. *)
Lemma unwrapped_method_absent c kind m :
  class_kind c = Some kind →
  has_special kind (method_key m) = false →
  proto_lookup c (method_key m) = NotInherited.
Proof.
  destruct c; try done; intros [= <-] H; destruct m;
    vm_compute in H; try discriminate H; vm_compute; reflexivity.
Qed.

Lemma reflect_get_absent k o :
  obj_has k o = false → proto_lookup (o_class o) k = NotInherited →
  reflect_get k o = Some VUndef.
Proof.
  unfold obj_has, reflect_get. destruct (props_get k (o_props o)); [done|].
  by intros _ ->.
Qed.

(** X17: [has] and [get] on a wrapped collection unwrap the key they
    are given, so that a proxy stands for the container behind it,
    subscribe the callback to the unwrapped key, and answer as the
    native collection does.  A key that is [null] throws a [TypeError]
    and nothing changes.  A method that is not wrapped for the kind of
    the collection, as [get] on a set or [add] on a map, is read as a
    property, which subscribes the callback to its name, and the call
    throws a [TypeError]. *)
Theorem lookup_unwraps_its_key depth fuel call kind cb t st o :
  heap st !! t = Some (ORaw o) →
  class_kind (o_class o) = Some kind →
  (∀ m key k,
     m = MHas ∨ m = MGet →
     has_special kind (method_key m) = true →
     toRaw key st = Ok k st →
     (∀ l, lookup_answer m k (o_data o) ≠ VRef l) →
     ∃ st1,
       observeTargetKey t k cb st = Ok tt st1 ∧
       collection_call depth fuel call kind cb t m key VUndef st =
         Ok (lookup_answer m k (o_data o)) st1) ∧
  (∀ m value,
     m = MHas ∨ m = MGet ∨ is_mutator m = true →
     has_special kind (method_key m) = true →
     collection_call depth fuel call kind cb t m VNull value st = Throw TypeError st) ∧
  (∀ m key value,
     has_special kind (method_key m) = false →
     obj_has (method_key m) o = false →
     ∃ st1,
       observeTargetKey t (key_value (method_key m)) cb st = Ok tt st1 ∧
       collection_call depth fuel call kind cb t m key value st = Throw TypeError st1).
Proof.
  intros Hl Hk. split_and!.
  - intros m key k Hm Hs HtoRaw Hprim. by eapply lookup_eval.
  - intros m value Hm Hs. unfold collection_call. rewrite Hs.
    destruct Hm as [-> |[-> |Hm]]; [done|done|].
    destruct m; done.
  - intros m key value Hs Hno.
    destruct (observeTargetKey_returns t (key_value (method_key m)) cb st) as [st1 Hobs].
    destruct (observeTargetKey_frame _ _ _ _ _ Hobs) as (Hh & _).
    exists st1. split; [done|]. unfold collection_call. rewrite Hs.
    unfold collection_get_read, raw_obj.
    rewrite decide_False by apply method_key_not_target.
    msteps. rewrite Hobs. msteps. rewrite Hh, Hl. msteps.
    rewrite (reflect_get_absent _ _ Hno (unwrapped_method_absent _ _ _ Hk Hs)).
    simpl. msteps. unfold finish_read. simpl.
    unfold possiblyReactive. by msteps.
Qed.

Lemma lookup_unwraps_its_key_witness :
  ∃ st1,
    collection_call 0 1 (callback_call idle 1 0) KMap 1 0 MGet (VRef 1) VUndef
      (state_after idle nan_map) = Ok VUndef st1 ∧
    observeTargetKey 0 (VRef 0) 1 (state_after idle nan_map) = Ok tt st1.
Proof.
  destruct (lookup_unwraps_its_key 0 1 (callback_call idle 1 0) KMap 1 0
              (state_after idle nan_map) nan_map_object nan_map_heap eq_refl)
    as (H & _).
  destruct (H MGet (VRef 1) (VRef 0)) as (st1 & Hobs & Hcall).
  - right. reflexivity.
  - reflexivity.
  - vm_compute. reflexivity.
  - intros l E. discriminate E.
  - exists st1. split; [exact Hcall|exact Hobs].
Defined.

Section RoundTrip.

Variable depth : nat.
Variable fuel : nat.
Variable call : Callback → M unit.

Hypothesis call_heap : ∀ c s s', state_of (call c s) = Some s' → heap s' = heap s.
Hypothesis call_returns : ∀ c s, returns (call c s).

(** A mutator of a wrapped collection returns and leaves the heap the
    native mutator made, when the callbacks return and leave the heap
    alone. *)
Lemma mutator_heap kind cb t m key value k st o :
  heap st !! t = Some (ORaw o) →
  class_kind (o_class o) = Some kind →
  is_mutator m = true →
  has_special kind (method_key m) = true →
  toRaw key st = Ok k st →
  (kind = KWeakMap → m = MSet → can_be_held_weakly k = true) →
  ∃ r st1,
    collection_call depth fuel call kind cb t m key value st = Ok r st1 ∧
    heap st1 = <[t := ORaw (with_data (data_after m k value (o_data o)) o)]> (heap st).
Proof.
  intros Hl Hk Hm Hs HtoRaw Hw.
  destruct (mutator_unfold depth fuel call kind cb t m key value k st o Hl Hk Hm Hs HtoRaw Hw)
    as [r0 Hunfold].
  rewrite Hunfold. set (st0 := set_heap _ st). msteps.
  match goal with
  | |- context [when ?b ?n st0] =>
      pose proof (when_notify_returns depth call b t (VSym KEYCHANGES) st0 call_returns) as H1;
      pose proof (when_notify_heap depth call b t (VSym KEYCHANGES) st0) as Hh1;
      destruct (when b n st0) as [[] st1|e st1|]; [|done|done]
  end.
  specialize (Hh1 st1 call_heap eq_refl). msteps.
  match goal with
  | |- context [when ?b ?n st1] =>
      pose proof (when_notify_returns depth call b t k st1 call_returns) as H2;
      pose proof (when_notify_heap depth call b t k st1) as Hh2;
      destruct (when b n st1) as [[] st2|e st2|]; [|done|done]
  end.
  specialize (Hh2 st2 call_heap eq_refl). msteps.
  exists r0, st2. split; [done|]. by rewrite Hh2, Hh1.
Qed.

(** X18: what is written through a wrapped collection is read back
    through it.  After [set(key, value)] or [add(key)], [has(key)]
    answers [true], and after [set(key, value)] with a value that is
    not an object [get(key)] answers [value]; after [delete(key)],
    [has(key)] answers [false].  The key may be given as a proxy: it
    is unwrapped by the writes as by the reads. *)
Theorem written_entries_are_read_back kind cb t m key value k st o :
  heap st !! t = Some (ORaw o) →
  class_kind (o_class o) = Some kind →
  is_mutator m = true →
  has_special kind (method_key m) = true →
  toRaw key st = Ok k st →
  (kind = KWeakMap → m = MSet → can_be_held_weakly k = true) →
  ∃ r st1,
    collection_call depth fuel call kind cb t m key value st = Ok r st1 ∧
    (m ≠ MDelete →
     ∃ st2, collection_call depth fuel call kind cb t MHas key VUndef st1 =
              Ok (VBool true) st2) ∧
    (m = MSet → (∀ l, value ≠ VRef l) →
     ∃ st2, collection_call depth fuel call kind cb t MGet key VUndef st1 =
              Ok value st2) ∧
    (m = MDelete → NoDup (data_keys (o_data o)) →
     ∃ st2, collection_call depth fuel call kind cb t MHas key VUndef st1 =
              Ok (VBool false) st2).
Proof.
  intros Hl Hk Hm Hs HtoRaw Hw.
  destruct (mutator_heap kind cb t m key value k st o Hl Hk Hm Hs HtoRaw Hw)
    as (r & st1 & Hcall & Hh).
  set (o1 := with_data (data_after m k value (o_data o)) o) in *.
  assert (Hl1 : heap st1 !! t = Some (ORaw o1)).
  { rewrite Hh. apply list_lookup_insert_eq. by eapply lookup_lt_Some. }
  assert (HtoRaw1 : toRaw key st1 = Ok k st1).
  { rewrite (toRaw_ext key (set_heap (<[t := ORaw o1]> (heap st)) st) st1) by done.
    unfold o1. by rewrite (toRaw_after_data t o _ key st Hl), HtoRaw. }
  exists r, st1. split_and!; [done|..].
  - intros Hnd.
    destruct (lookup_eval depth fuel call kind cb t MHas key k st1 o1 Hl1 Hk)
      as (st2 & _ & Hhas); [by left|apply has_special_has|done|done|].
    exists st2. rewrite Hhas. simpl. unfold o1. simpl.
    destruct m; try done; simpl; by rewrite ?data_has_put, ?data_has_add.
  - intros -> Hprim.
    assert (Hsg : has_special kind (KStr "get") = true) by (by destruct kind).
    destruct (lookup_eval depth fuel call kind cb t MGet key k st1 o1 Hl1 Hk)
      as (st2 & _ & Hget); [by right|done|done| |].
    + simpl. unfold o1. simpl. by rewrite data_get_put.
    + exists st2. rewrite Hget. simpl. unfold o1. simpl. by rewrite data_get_put.
  - intros -> Hnd.
    destruct (lookup_eval depth fuel call kind cb t MHas key k st1 o1 Hl1 Hk)
      as (st2 & _ & Hhas); [by left|apply has_special_has|done|done|].
    exists st2. rewrite Hhas. simpl. unfold o1. simpl. by rewrite data_has_remove.
Qed.

End RoundTrip.

Lemma written_entries_are_read_back_witness :
  ∃ r st1 st2,
    collection_call 0 1 (callback_call idle 1 0) KMap 1 0 MSet (VStr "k") (VNum 3)
      (state_after idle nan_map) = Ok r st1 ∧
    collection_call 0 1 (callback_call idle 1 0) KMap 1 0 MGet (VStr "k") VUndef st1 =
      Ok (VNum 3) st2.
Proof.
  assert (Hw : KMap = KWeakMap → MSet = MSet → can_be_held_weakly (VStr "k") = true)
    by (intros H; discriminate H).
  assert (Hprim : ∀ l, VNum 3 ≠ VRef l) by (intros l E; discriminate E).
  destruct (written_entries_are_read_back 0 1 (callback_call idle 1 0)
              (idle_heap 0 0) (idle_returns 0 0)
              KMap 1 0 MSet (VStr "k") (VNum 3) (VStr "k")
              (state_after idle nan_map) nan_map_object
              nan_map_heap eq_refl eq_refl eq_refl eq_refl Hw)
    as (r & st1 & Hcall & _ & Hget & _).
  destruct (Hget eq_refl Hprim) as [st2 Hget2].
  exists r, st1, st2. split; [exact Hcall|exact Hget2].
Defined.

Section Collections.

Variable depth : nat.
Variable fuel : nat.
Variable call : Callback → M unit.

Hypothesis call_quiet : quiet_calls depth call.







(** The callbacks a mutator of a wrapped collection calls. *)
Lemma mutator_calls kind cb t m key value k st o r st' :
  heap st !! t = Some (ORaw o) →
  class_kind (o_class o) = Some kind →
  is_mutator m = true →
  has_special kind (method_key m) = true →
  toRaw key st = Ok k st →
  (kind = KWeakMap → m = MSet → can_be_held_weakly k = true) →
  collection_call depth fuel call kind cb t m key value st = Ok r st' →
  ∃ st1 evs1 evs2,
    trace st' = trace st ++ evs1 ++ evs2 ∧
    calls depth evs1 =
      (if negb (eqb (data_has k (o_data o))
                    (data_has k (data_after m k value (o_data o))))
       then subscribers st t (VSym KEYCHANGES) else []) ∧
    calls depth evs2 =
      (if negb (strict_eq (prior_value m k (o_data o)) value)
       then subscribers st1 t k else []) ∧
    (data_has k (o_data o) = data_has k (data_after m k value (o_data o)) →
     subscribers st1 t k = subscribers st t k).
Proof.
  intros Hl Hk Hm Hs HtoRaw Hw.
  destruct (mutator_unfold depth fuel call kind cb t m key value k st o Hl Hk Hm Hs HtoRaw Hw)
    as [r0 Hunfold].
  rewrite Hunfold. set (st0 := set_heap _ st). msteps.
  assert (Hpres : ∀ a b, strict_eq (VBool a) (VBool b) = eqb a b) by (by intros [] []).
  rewrite Hpres.
  destruct (when _ _ st0) as [[] st1|e st1|] eqn:H1; [|done|done].
  msteps.
  destruct (when _ _ st1) as [[] st2|e st2|] eqn:H2; [|done|done].
  msteps. intros [= <- <-].
  destruct (when_notify_events depth call call_quiet _ _ _ _ _ H1) as (evs1 & Htr1 & _ & Hc1).
  destruct (when_notify_events depth call call_quiet _ _ _ _ _ H2) as (evs2 & Htr2 & _ & Hc2).
  exists st1, evs1, evs2. split_and!.
  - rewrite Htr2, Htr1. by rewrite app_assoc.
  - exact Hc1.
  - exact Hc2.
  - intros Heq. rewrite Heq, eqb_reflx in H1. simpl in H1. by injection H1 as <-.
Qed.

(** X20: the [size] of a wrapped set or map is the number of its
    entries, and reading it subscribes the callback to the changes of
    the key set only.  From then on the callback is called when
    [add] or [set] brings a key that was not there; it is not called
    when they are given a key that is there already, unless it is
    subscribed to that key. *)
Theorem size_subscribes_to_the_key_set st p t cb kind o :
  heap st !! p = Some (OProxy t cb (HCollection kind)) →
  heap st !! t = Some (ORaw o) →
  class_kind (o_class o) = Some kind →
  kind ≠ KWeakMap →
  ∃ st1,
    observeTargetKey t (VSym KEYCHANGES) cb st = Ok tt st1 ∧
    js_get fuel (VRef p) (KStr "size") st =
      Ok (VNum (Z.of_nat (length (data_entries (o_data o))))) st1 ∧
    (∀ cb2 m key k value r st2,
       m = MAdd ∨ m = MSet →
       has_special kind (method_key m) = true →
       toRaw key st1 = Ok k st1 →
       data_has k (o_data o) = false →
       collection_call depth fuel call kind cb2 t m key value st1 = Ok r st2 →
       cb ∈ calls depth (new_events st1 st2)) ∧
    (∀ cb2 m key k value r st2,
       m = MAdd ∨ m = MSet →
       has_special kind (method_key m) = true →
       toRaw key st1 = Ok k st1 →
       data_has k (o_data o) = true →
       cb ∉ subscribers st1 t k →
       collection_call depth fuel call kind cb2 t m key value st1 = Ok r st2 →
       cb ∉ calls depth (new_events st1 st2)).
Proof.
  intros Hp Hl Hk Hkind.
  destruct (observeTargetKey_returns t (VSym KEYCHANGES) cb st) as [st1 Hobs].
  destruct (observeTargetKey_frame _ _ _ _ _ Hobs) as (Hh & _).
  assert (Hl1 : heap st1 !! t = Some (ORaw o)) by (by rewrite Hh).
  assert (Hsub : cb ∈ subscribers st1 t (VSym KEYCHANGES)).
  { rewrite (observeTargetKey_subscribers _ _ _ _ _ t (VSym KEYCHANGES) Hobs).
    rewrite decide_True by done. apply elem_of_jsset_add. by left. }
  assert (Hweak : ∀ m k, m = MAdd ∨ m = MSet → has_special kind (method_key m) = true →
            kind = KWeakMap → m = MSet → can_be_held_weakly k = true) by done.
  exists st1. split_and!; [done|..].
  - unfold js_get. msteps. rewrite Hp. unfold view_get, collection_get, size_getter.
    rewrite decide_False by done.
    assert (Hs : has_special kind (KStr "size") = true) by (by destruct kind).
    rewrite Hs, bool_decide_eq_true_2 by done. msteps. rewrite Hobs. msteps.
    unfold native_size, raw_obj. msteps. rewrite Hl1. msteps.
    destruct (o_class o); try done. simpl in Hk. by injection Hk as <-.
  - intros cb2 m key k value r st2 Hm Hs HtoRaw Hno Hcall.
    assert (Hmut : is_mutator m = true) by (by destruct Hm as [-> | ->]).
    destruct (mutator_calls kind cb2 t m key value k st1 o r st2 Hl1 Hk Hmut Hs HtoRaw
                (Hweak m k Hm Hs) Hcall) as (s & evs1 & evs2 & Htr & Hc1 & _).
    rewrite (new_events_app _ _ _ Htr), calls_app, Hc1, Hno.
    assert (Hafter : data_has k (data_after m k value (o_data o)) = true).
    { destruct Hm as [-> | ->]; simpl; by rewrite ?data_has_put, ?data_has_add. }
    rewrite Hafter. simpl. apply elem_of_app. by left.
  - intros cb2 m key k value r st2 Hm Hs HtoRaw Hyes Hnot Hcall.
    assert (Hmut : is_mutator m = true) by (by destruct Hm as [-> | ->]).
    destruct (mutator_calls kind cb2 t m key value k st1 o r st2 Hl1 Hk Hmut Hs HtoRaw
                (Hweak m k Hm Hs) Hcall) as (s & evs1 & evs2 & Htr & Hc1 & Hc2 & Hsame).
    assert (Hafter : data_has k (data_after m k value (o_data o)) = true).
    { destruct Hm as [-> | ->]; simpl; by rewrite ?data_has_put, ?data_has_add. }
    rewrite (new_events_app _ _ _ Htr), calls_app, Hc1, Hc2, Hyes, Hafter. simpl.
    rewrite Hsame by (by rewrite Hyes, Hafter).
    destruct (strict_eq (prior_value m k (o_data o)) value); simpl;
      [apply not_elem_of_nil|exact Hnot].
Qed.

End Collections.

Lemma nan_map_proxy :
  heap (state_after idle nan_map) !! 1 = Some (OProxy 0 1 (HCollection KMap)).
Proof. vm_compute. reflexivity. Qed.


Lemma size_subscribes_to_the_key_set_witness :
  ∃ st1,
    js_get 1 (VRef 1) (KStr "size") (state_after idle nan_map) = Ok (VNum 1) st1 ∧
    observeTargetKey 0 (VSym KEYCHANGES) 1 (state_after idle nan_map) = Ok tt st1.
Proof.
  assert (Hkind : KMap ≠ KWeakMap) by (intros E; discriminate E).
  destruct (size_subscribes_to_the_key_set 0 1 (callback_call idle 1 0) (idle_quiet 0 0)
              (state_after idle nan_map) 1 0 1 KMap nan_map_object
              nan_map_proxy nan_map_heap eq_refl Hkind) as (st1 & Hobs & Hget & _).
  exists st1. split; [exact Hget|exact Hobs].
Defined.

(** *** Iteration through a proxy *)

Lemma next_live_from_spec l : ∀ base,
  match next_live_from l base with
  | None => omap id l = []
  | Some (i, e) =>
      ∃ j, i = base + j ∧ l !! j = Some (Some e) ∧
           omap id l = e :: omap id (drop (S j) l)
  end.
Proof.
  induction l as [|[e|] l IH]; intros base; simpl.
  - done.
  - exists 0. split_and!; [lia|done|]. by rewrite drop_0.
  - specialize (IH (S base)). destruct (next_live_from l (S base)) as [[i e]|]; [|done].
    destruct IH as (j & -> & Hj & Hl). exists (S j). split_and!; [lia|done|done].
Qed.

Lemma next_live_spec d pos :
  match next_live d pos with
  | None => omap id (drop pos d) = []
  | Some (i, e) =>
      pos ≤ i ∧ i < length d ∧ omap id (drop pos d) = e :: omap id (drop (S i) d)
  end.
Proof.
  unfold next_live. pose proof (next_live_from_spec (drop pos d) pos) as H.
  destruct (next_live_from (drop pos d) pos) as [[i e]|]; [|done].
  destruct H as (j & -> & Hj & Hl). rewrite lookup_drop in Hj.
  split_and!; [lia|by eapply lookup_lt_Some|].
  rewrite Hl, drop_drop. by replace (pos + S j) with (S (pos + j)) by lia.
Qed.

(** One turn of the generator of [makeIteratorObserver] over entries
    whose items are not objects. *)
Lemma js_next_turn fuel g t cb kind im status pos s o :
  heap s !! g = Some (OGen (mkGen t cb kind im status pos pos)) →
  status ≠ GenCompleted →
  heap s !! t = Some (ORaw o) →
  im = IKeys ∨ im = IValues →
  (∀ e l, e ∈ data_entries (o_data o) → item_of im e ≠ VRef l) →
  ∃ s0,
    heap s0 = heap s ∧
    (status = GenFresh → observeTargetKey t (VSym KEYCHANGES) cb s = Ok tt s0) ∧
    (status = GenSuspended → s0 = s) ∧
    match next_live (o_data o) pos with
    | None =>
        js_next fuel (VRef g) s =
          Ok None (set_heap (<[g := OGen (mkGen t cb kind im GenCompleted pos pos)]> (heap s0)) s0)
    | Some (i, e) =>
        ∃ s1,
          observeTargetKey t e.1 cb s0 = Ok tt s1 ∧
          js_next fuel (VRef g) s =
            Ok (Some (item_of im e))
               (set_heap (<[g := OGen (mkGen t cb kind im GenSuspended (S i) (S i))]> (heap s1)) s1)
    end.
Proof.
  intros Hg Hstatus Ht Him Hprim.
  assert (Hturn : ∀ s0, heap s0 = heap s →
    match next_live (o_data o) pos with
    | None =>
        generator_turn fuel g (mkGen t cb kind im status pos pos) s0 =
          Ok None (set_heap (<[g := OGen (mkGen t cb kind im GenCompleted pos pos)]> (heap s0)) s0)
    | Some (i, e) =>
        ∃ s1,
          observeTargetKey t e.1 cb s0 = Ok tt s1 ∧
          generator_turn fuel g (mkGen t cb kind im status pos pos) s0 =
            Ok (Some (item_of im e))
               (set_heap (<[g := OGen (mkGen t cb kind im GenSuspended (S i) (S i))]> (heap s1)) s1)
    end).
  { intros s0 Hh0. pose proof (next_live_spec (o_data o) pos) as Hspec.
    unfold generator_turn, raw_obj, update_gen. simpl.
    destruct (next_live (o_data o) pos) as [[i e]|] eqn:Hnl.
    - destruct Hspec as (_ & _ & Hdrop).
      assert (Hin : e ∈ data_entries (o_data o)).
      { unfold data_entries. apply list_elem_of_omap.
        assert (He : e ∈ omap id (drop pos (o_data o))) by (rewrite Hdrop; by left).
        apply list_elem_of_omap in He as (x & Hx & Hxe). exists x. split; [|done].
        apply list_elem_of_lookup in Hx as [j Hj]. rewrite lookup_drop in Hj.
        by eapply list_elem_of_lookup_2. }
      destruct (observeTargetKey_returns t e.1 cb s0) as [s1 Hobs].
      exists s1. split; [done|]. msteps. rewrite Hh0, Ht. msteps. rewrite Hnl.
      assert (Hitem : native_item kind im e s0 = Ok (item_of im e) s0).
      { unfold native_item. by destruct Him as [-> | ->]. }
      rewrite bind_unfold, Hitem. msteps. rewrite Hobs. msteps.
      unfold possiblyReactive.
      rewrite bind_unfold, canBeMadeReactive_primitive by (intros l; by apply Hprim).
      by msteps.
    - msteps. rewrite Hh0, Ht. msteps. rewrite Hnl. msteps. by rewrite Hh0. }
  destruct status; [| |done].
  - destruct (observeTargetKey_returns t (VSym KEYCHANGES) cb s) as [s0 Hobs].
    destruct (observeTargetKey_frame _ _ _ _ _ Hobs) as (Hh0 & _).
    exists s0. split_and!; [done|done|done|].
    specialize (Hturn s0 Hh0).
    assert (Hnext : js_next fuel (VRef g) s =
              generator_turn fuel g (mkGen t cb kind im GenFresh pos pos) s0).
    { unfold js_next, generator_next. msteps. rewrite Hg. msteps. rewrite Hg. simpl.
      msteps. by rewrite Hobs. }
    rewrite Hnext. exact Hturn.
  - exists s. split_and!; [done|done|done|].
    specialize (Hturn s eq_refl).
    assert (Hnext : js_next fuel (VRef g) s =
              generator_turn fuel g (mkGen t cb kind im GenSuspended pos pos) s).
    { unfold js_next, generator_next. msteps. rewrite Hg. msteps. by rewrite Hg. }
    rewrite Hnext. exact Hturn.
Qed.

Lemma observeTargetKey_mono t k cb st st' t' k' c :
  observeTargetKey t k cb st = Ok tt st' →
  c ∈ subscribers st t' k' → c ∈ subscribers st' t' k'.
Proof.
  intros Hobs Hc. rewrite (observeTargetKey_subscribers _ _ _ _ _ t' k' Hobs).
  case_decide as E; [|done]. destruct E as [<- <-]. apply elem_of_jsset_add. by right.
Qed.

Lemma observeTargetKey_elem t k cb st st' :
  observeTargetKey t k cb st = Ok tt st' → cb ∈ subscribers st' t k.
Proof.
  intros Hobs. rewrite (observeTargetKey_subscribers _ _ _ _ _ t k Hobs).
  rewrite decide_True by done. apply elem_of_jsset_add. by left.
Qed.

Lemma drain_from fuel g t cb kind im o :
  im = IKeys ∨ im = IValues →
  (∀ e l, e ∈ data_entries (o_data o) → item_of im e ≠ VRef l) →
  ∀ n pos s status,
    length (o_data o) - pos < n →
    status ≠ GenCompleted →
    heap s !! g = Some (OGen (mkGen t cb kind im status pos pos)) →
    heap s !! t = Some (ORaw o) →
    ∃ s',
      drain fuel n (VRef g) s =
        Ok (item_of im <$> omap id (drop pos (o_data o))) s' ∧
      (∃ pos', heap s' !! g = Some (OGen (mkGen t cb kind im GenCompleted pos' pos'))) ∧
      (status = GenFresh → cb ∈ subscribers s' t (VSym KEYCHANGES)) ∧
      (∀ t' k' c, c ∈ subscribers s t' k' → c ∈ subscribers s' t' k') ∧
      (∀ e, e ∈ omap id (drop pos (o_data o)) → cb ∈ subscribers s' t e.1).
Proof.
  intros Him Hprim. induction n as [|n IH]; intros pos s status Hn Hstatus Hg Ht; [lia|].
  destruct (js_next_turn fuel g t cb kind im status pos s o Hg Hstatus Ht Him Hprim)
    as (s0 & Hh0 & Hfresh & Hsusp & Hturn).
  assert (Hmono0 : ∀ t' k' c, c ∈ subscribers s t' k' → c ∈ subscribers s0 t' k').
  { intros t' k' c Hc. destruct status; [| |done].
    - by eapply observeTargetKey_mono; [apply Hfresh|].
    - by rewrite (Hsusp eq_refl). }
  assert (Hkc : status = GenFresh → cb ∈ subscribers s0 t (VSym KEYCHANGES)).
  { intros Hf. eapply observeTargetKey_elem. by apply Hfresh. }
  assert (Hgt : g ≠ t) by (intros ->; congruence).
  pose proof (next_live_spec (o_data o) pos) as Hspec.
  simpl. destruct (next_live (o_data o) pos) as [[i e]|].
  - destruct Hspec as (Hle & Hlt & Hdrop).
    destruct Hturn as (s1 & Hobs & Hnext).
    destruct (observeTargetKey_frame _ _ _ _ _ Hobs) as (Hh1 & _).
    set (s2 := set_heap (<[g := OGen (mkGen t cb kind im GenSuspended (S i) (S i))]> (heap s1)) s1)
      in *.
    assert (Hg2 : heap s2 !! g = Some (OGen (mkGen t cb kind im GenSuspended (S i) (S i)))).
    { simpl. apply list_lookup_insert_eq. rewrite Hh1, Hh0. by eapply lookup_lt_Some. }
    assert (Ht2 : heap s2 !! t = Some (ORaw o)).
    { simpl. rewrite list_lookup_insert_ne by done. by rewrite Hh1, Hh0. }
    destruct (IH (S i) s2 GenSuspended ltac:(lia) ltac:(done) Hg2 Ht2)
      as (s' & Hdrain & Hdone & _ & Hmono & Hkeys).
    exists s'. rewrite bind_unfold, Hnext, bind_unfold, Hdrain. msteps.
    split_and!.
    + by rewrite Hdrop.
    + exact Hdone.
    + intros Hf. apply Hmono. change (subscribers s2 t (VSym KEYCHANGES))
        with (subscribers s1 t (VSym KEYCHANGES)).
      eapply observeTargetKey_mono; [exact Hobs|]. by apply Hkc.
    + intros t' k' c Hc. apply Hmono.
      change (subscribers s2 t' k') with (subscribers s1 t' k').
      eapply observeTargetKey_mono; [exact Hobs|]. by apply Hmono0.
    + intros e' He'. rewrite Hdrop in He'. apply elem_of_cons in He' as [-> |He'].
      * apply Hmono. change (subscribers s2 t e.1) with (subscribers s1 t e.1).
        by eapply observeTargetKey_elem.
      * by apply Hkeys.
  - rewrite bind_unfold, Hturn. msteps.
    set (s' := set_heap _ s0).
    exists s'. split_and!.
    + by rewrite Hspec.
    + exists pos. simpl. apply list_lookup_insert_eq. rewrite Hh0. by eapply lookup_lt_Some.
    + exact Hkc.
    + exact Hmono0.
    + intros e He. rewrite Hspec in He. by apply elem_of_nil in He.
Qed.

(** X21: iterating the keys or the values of a wrapped set or map.
    [keys()] and [values()] only make the iterator: nothing is
    subscribed before the first [next()].  Taken to its end, over
    entries whose items are not objects, the iterator gives the items
    of the entries in insertion order, and has subscribed the callback
    to the changes of the key set and to the key of every entry; after
    that [next()] tells that the iteration is over and changes
    nothing. *)
Theorem iteration_subscribes_to_every_key depth fuel call kind cb t im st o :
  heap st !! t = Some (ORaw o) →
  class_kind (o_class o) = Some kind →
  kind ≠ KWeakMap →
  im = IKeys ∨ im = IValues →
  (∀ e l, e ∈ data_entries (o_data o) → item_of im e ≠ VRef l) →
  ∃ st1,
    collection_call depth fuel call kind cb t (iterator_method im) VUndef VUndef st =
      Ok (VRef (length (heap st))) st1 ∧
    targetToKeysToCallbacks st1 = targetToKeysToCallbacks st ∧
    callbacksToTargets st1 = callbacksToTargets st ∧
    ∃ st2,
      drain fuel (S (length (o_data o))) (VRef (length (heap st))) st1 =
        Ok (item_of im <$> data_entries (o_data o)) st2 ∧
      cb ∈ subscribers st2 t (VSym KEYCHANGES) ∧
      (∀ k, k ∈ data_keys (o_data o) → cb ∈ subscribers st2 t k) ∧
      js_next fuel (VRef (length (heap st))) st2 = Ok None st2.
Proof.
  intros Ht Hk Hkind Him Hprim.
  set (g := length (heap st)).
  set (st1 := set_heap (heap st ++ [OGen (mkGen t cb kind im GenFresh 0 0)]) st).
  assert (Hs : has_special kind (method_key (iterator_method im)) = true).
  { destruct Him as [-> | ->]; by destruct kind. }
  assert (Hcall : collection_call depth fuel call kind cb t (iterator_method im)
                    VUndef VUndef st = Ok (VRef g) st1).
  { unfold collection_call. rewrite Hs.
    destruct Him as [-> | ->]; simpl; unfold makeIteratorObserver, alloc; by msteps. }
  assert (Hg1 : heap st1 !! g = Some (OGen (mkGen t cb kind im GenFresh 0 0))).
  { simpl. by rewrite lookup_app_r, Nat.sub_diag. }
  assert (Ht1 : heap st1 !! t = Some (ORaw o)) by (simpl; by apply lookup_app_l_Some).
  destruct (drain_from fuel g t cb kind im o Him Hprim (S (length (o_data o))) 0 st1 GenFresh
              ltac:(lia) ltac:(done) Hg1 Ht1)
    as (st2 & Hdrain & [pos' Hdone] & Hkc & _ & Hkeys).
  rewrite drop_0 in Hdrain, Hkeys.
  exists st1. split_and!; [done|done|done|].
  exists st2. split_and!; [done|by apply Hkc| |].
  - intros k (e & -> & He)%list_elem_of_fmap. by apply Hkeys.
  - unfold js_next, generator_next. msteps. rewrite Hdone. msteps. by rewrite Hdone.
Qed.

Lemma two_members_heap :
  heap (state_after idle two_members) !! 0 = Some (ORaw two_members_object).
Proof. vm_compute. reflexivity. Qed.

Lemma iteration_subscribes_to_every_key_witness :
  ∃ st1 st2,
    collection_call 0 1 (callback_call idle 1 0) KSet 1 0 MValues VUndef VUndef
      (state_after idle two_members) = Ok (VRef 2) st1 ∧
    drain 1 3 (VRef 2) st1 = Ok [VNum 1; VNum 2] st2.
Proof.
  assert (Hkind : KSet ≠ KWeakMap) by (intros E; discriminate E).
  assert (Hprim : ∀ e l, e ∈ data_entries (o_data two_members_object) →
            item_of IValues e ≠ VRef l).
  { intros e l He. apply list_elem_of_In in He.
    destruct He as [<-|[<-|[]]]; intros E; discriminate E. }
  destruct (iteration_subscribes_to_every_key 0 1 (callback_call idle 1 0) KSet 1 0 IValues
              (state_after idle two_members) two_members_object
              two_members_heap eq_refl Hkind (or_intror eq_refl) Hprim)
    as (st1 & Hcall & _ & _ & st2 & Hdrain & _).
  exists st1, st2. split; [exact Hcall|exact Hdrain].
Defined.

(** ** [batched], in any state *)

Lemma resets_app q1 q2 : resets (q1 ++ q2) = resets q1 + resets q2.
Proof.
  induction q1 as [|j q1 IH]; simpl; [done|]. destruct j; simpl; by rewrite ?IH.
Qed.

Lemma resets_queued code : resets (queued code) = 0.
Proof. induction code as [|a code IH]; simpl; [done|]. by destruct a. Qed.

Lemma alternates_app flag evs1 evs2 :
  alternates flag (evs1 ++ evs2) =
    match alternates flag evs1 with
    | Some flag' => alternates flag' evs2
    | None => None
    end.
Proof.
  revert flag. induction evs1 as [|e evs1 IH]; intros flag; simpl; [done|].
  destruct e, flag; simpl; by rewrite ?IH.
Qed.

Lemma alternates_logged flag code : alternates flag (logged code) = Some flag.
Proof. induction code as [|a code IH]; simpl; [done|]. by destruct a. Qed.

(** X22: in every state a batched function can reach, whatever the
    client and the callback do, the flag [called] is set exactly when
    one reset is queued, and no reset is queued when it is clear: a set
    flag is always going to be cleared.  And in the history the calls
    of the callback and the resets alternate, starting with a call: the
    callback is never called twice without a reset in between. *)
Theorem batched_flag_follows_the_queue callback st :
  batch_reachable callback st →
  resets (microtasks st) = (if called st then 1 else 0) ∧
  alternates false (history st) = Some (called st).
Proof.
  induction 1 as [|code st _ [IHq IHh]|st st' _ [IHq IHh] Hjob].
  - done.
  - rewrite exec_closed. simpl.
    rewrite resets_app, resets_queued, alternates_app, IHh, alternates_logged.
    split; [lia|done].
  - unfold next_job in Hjob. destruct st as [c q evs]. simpl in *.
    destruct q as [|j q]; [done|]. injection Hjob as <-.
    destruct j as [| |code]; simpl in *.
    + unfold resume. simpl. destruct c.
      * done.
      * rewrite exec_closed. simpl.
        rewrite !resets_app, resets_queued, !alternates_app, IHh. simpl.
        rewrite alternates_logged. split; [lia|done].
    + destruct c; [|lia]. rewrite alternates_app, IHh. simpl. split; [lia|done].
    + rewrite exec_closed. simpl.
      rewrite resets_app, resets_queued, alternates_app, IHh, alternates_logged.
      split; [lia|done].
Qed.

Lemma batch_reachable_run_jobs callback n : ∀ st,
  batch_reachable callback st → batch_reachable callback (run_jobs callback n st).
Proof.
  induction n as [|n IH]; intros st Hst; simpl; [done|].
  destruct (next_job callback st) as [st'|] eqn:Hjob; [|done].
  apply IH. by eapply batch_job.
Qed.

Lemma batched_flag_follows_the_queue_witness :
  resets (microtasks (run_jobs retrigger 2 (exec [ATrigger; ATrigger] quiescent))) = 1.
Proof.
  assert (Hr : batch_reachable retrigger
                 (run_jobs retrigger 2 (exec [ATrigger; ATrigger] quiescent))).
  { apply batch_reachable_run_jobs, batch_exec, batch_start. }
  destruct (batched_flag_follows_the_queue retrigger _ Hr) as [Hq _].
  rewrite Hq. reflexivity.
Defined.

(** ** Writes that are refused, callbacks that throw *)

Section Refused.

Variable depth : nat.
Variable call : Callback → M unit.

Hypothesis call_quiet : quiet_calls depth call.

(** X23: an assignment through a proxy that the container refuses,
    its property not being writable, still notifies.  The [set] trap
    compares the value it was asked to store with the value held, not
    with the value held afterwards: the subscribers of the key are
    notified and called although the container is as before, and then
    the assignment throws a [TypeError]. *)
Theorem refused_write_still_notifies st p t cb h o key d value :
  heap st !! p = Some (OProxy t cb h) →
  heap st !! t = Some (ORaw o) →
  props_get key (o_props o) = Some d →
  p_writable d = false →
  strict_eq (p_value d) value = false →
  (∀ c s, returns (call c s)) →
  ∃ st',
    js_set depth call (VRef p) key value st = Throw TypeError st' ∧
    notifications depth (new_events st st') = [(t, key_value key)] ∧
    calls depth (new_events st st') = subscribers st t (key_value key) ∧
    ((∀ c s s', state_of (call c s) = Some s' → heap s' = heap s) → heap st' = heap st).
Proof.
  intros Hp Ht Hd Hw Hne Hret.
  assert (Hhas : obj_has key o = true) by (unfold obj_has; by rewrite Hd).
  assert (Hget : reflect_get key o = Some (p_value d)) by (by apply reflect_get_own).
  assert (Hset : reflect_set key value o = Done (o, false))
    by (by eapply reflect_set_refused).
  assert (Hjs : js_set depth call (VRef p) key value st =
            (ok <- basic_set depth call t key value ;;
             if ok then ret tt else throw TypeError) st).
  { unfold js_set. msteps. by rewrite Hp. }
  set (st0 := set_heap (<[t := ORaw o]> (heap st)) st).
  pose proof (notifyReactives_returns depth call t (key_value key) st0 Hret) as H1.
  destruct (notifyReactives depth call t (key_value key) st0) as [[] st'|e1 s1|] eqn:Hn1;
    [|done|done].
  assert (Hbs : basic_set depth call t key value st = Ok false st').
  { rewrite (basic_set_unfold _ _ _ _ _ _ _ _ _ Ht Hget Hset), Hhas, Hne. simpl.
    fold st0. msteps. rewrite Hn1. by msteps. }
  destruct (basic_set_calls depth call call_quiet _ _ _ _ _ _ _ Ht Hbs)
    as (ov & s & evs1 & evs2 & Hov & Htr & Hn & Hc1 & Hc2 & Hsame).
  assert (ov = p_value d) as -> by congruence.
  exists st'. split_and!.
  - rewrite Hjs, bind_unfold, Hbs. done.
  - rewrite (new_events_app _ _ _ Htr), Hn, Hhas, Hne. done.
  - rewrite (new_events_app _ _ _ Htr), calls_app, Hc1, Hc2, Hhas, Hne. simpl.
    by rewrite (Hsame Hhas).
  - intros Hheap.
    rewrite (when_notify_heap depth call true t (key_value key) st0 st' Hheap)
      by (simpl; by rewrite Hn1).
    simpl. by apply list_insert_id.
Qed.

Hypothesis call_inert :
  ∀ c s s', state_of (call c s) = Some s' →
    targetToKeysToCallbacks s' = targetToKeysToCallbacks s ∧
    callbacksToTargets s' = callbacksToTargets s.

Lemma quiet_calls_silent c s s' :
  state_of (call c s) = Some s' →
  ∃ evs, trace s' = trace s ++ evs ∧ calls depth evs = [].
Proof.
  intros Hc. destruct (call_quiet c s s' Hc) as (evs & Htr & Hdeep).
  exists evs. split; [done|]. by apply deeper_events_silent.
Qed.

Lemma notify_loop_throws (cbs : list Callback) : ∀ st e st',
  registry_ok st →
  for_each cbs (fun callback =>
    clearReactivesForCallback callback ;;;
    log (EvCall depth callback) ;;;
    call callback) st = Throw e st' →
  ∃ before c rest evs,
    cbs = before ++ c :: rest ∧
    trace st' = trace st ++ evs ∧
    calls depth evs = before ++ [c] ∧
    (∀ t k, subscribers st' t k =
       filter (λ x, x ∉ before ++ [c]) (subscribers st t k)).
Proof.
  induction cbs as [|cb cbs IH]; intros st e st' Hok; simpl; [by msteps|].
  msteps.
  destruct (clearReactivesForCallback_returns cb st) as [st1 Hc]. rewrite Hc. msteps.
  destruct (clearReactivesForCallback_forgets _ _ _ Hok Hc) as [Hsub1 _].
  destruct (clearReactivesForCallback_frame _ _ _ Hc) as (_ & _ & Htr1).
  pose proof (clearReactivesForCallback_registry_ok _ _ _ Hc Hok) as Hok1.
  set (s1 := add_event (EvCall depth cb) st1).
  destruct (call cb s1) as [[] st2|e2 st2|] eqn:Hcall; [| |done].
  - destruct (call_inert cb s1 st2 ltac:(by rewrite Hcall)) as (Ht2 & Hc2).
    destruct (quiet_calls_silent cb s1 st2 ltac:(by rewrite Hcall)) as (evs2 & Htr2 & Hs2).
    assert (Hok2 : registry_ok st2).
    { eapply (registry_ok_ext s1); [done|done|].
      eapply (registry_ok_ext st1); [done|done|exact Hok1]. }
    intros Hrun. destruct (IH st2 e st' Hok2 Hrun) as (before & c & rest & evs & -> & Htr & Hcalls & Hsub).
    exists (cb :: before), c, rest, ([EvCall depth cb] ++ evs2 ++ evs).
    split_and!.
    + done.
    + rewrite Htr, Htr2. simpl. rewrite Htr1. by rewrite <- !app_assoc.
    + rewrite !calls_app, calls_call, Hs2, Hcalls. done.
    + intros t k. rewrite Hsub, (subscribers_ext s1 st2) by done.
      unfold s1. rewrite subscribers_add_event, Hsub1. unfold jsset_delete.
      rewrite list_filter_filter. apply list_filter_iff. intros x. simpl.
      rewrite not_elem_of_cons. tauto.
  - intros [= <- <-].
    destruct (call_inert cb s1 st2 ltac:(by rewrite Hcall)) as (Ht2 & Hc2).
    destruct (quiet_calls_silent cb s1 st2 ltac:(by rewrite Hcall)) as (evs2 & Htr2 & Hs2).
    exists [], cb, cbs, ([EvCall depth cb] ++ evs2). split_and!.
    + done.
    + rewrite Htr2. simpl. rewrite Htr1. by rewrite <- !app_assoc.
    + by rewrite calls_app, calls_call, Hs2.
    + intros t k. rewrite (subscribers_ext s1 st2) by done.
      unfold s1. rewrite subscribers_add_event, Hsub1. unfold jsset_delete.
      apply list_filter_iff. intros x. simpl. rewrite list_elem_of_singleton. tauto.
Qed.

(** X24: a callback that throws ends the notification.  The error
    leaves [notifyReactives], and with it the write that notified,
    after the callbacks subscribed before the thrower and the thrower
    have been called and have lost their subscriptions; the callbacks
    subscribed after it are not called and stay subscribed.  The
    callbacks here touch no subscription themselves. *)
Theorem a_throwing_callback_ends_the_notification t k st e st' :
  reachable st →
  notifyReactives depth call t k st = Throw e st' →
  ∃ before c rest,
    subscribers st t k = before ++ c :: rest ∧
    calls depth (new_events st st') = before ++ [c] ∧
    (∀ c' t' k', c' ∈ before ++ [c] → c' ∉ subscribers st' t' k') ∧
    (∀ c', c' ∈ rest → c' ∈ subscribers st' t k).
Proof.
  intros Hr Hthrow.
  pose proof (wf_registry_ok _ (reachable_wf _ Hr)) as Hok.
  pose proof (registry_ok_NoDup st t k Hok) as Hnd.
  assert (Hloop : for_each (subscribers st t k) (fun callback =>
            clearReactivesForCallback callback ;;;
            log (EvCall depth callback) ;;;
            call callback) (add_event (EvNotify depth t k) st) = Throw e st').
  { revert Hthrow. unfold notifyReactives, subscribers. msteps. simpl.
    destruct (targetToKeysToCallbacks st !! t) as [m|]; [|by msteps].
    destruct (jsmap_get k m) as [cbs|]; simpl; [done|by msteps]. }
  destruct (notify_loop_throws (subscribers st t k) (add_event (EvNotify depth t k) st) e st'
              (registry_ok_ext st (add_event (EvNotify depth t k) st) eq_refl eq_refl Hok) Hloop)
    as (before & c & rest & evs & Hcbs & Htr & Hcalls & Hsub).
  exists before, c, rest. split_and!.
  - exact Hcbs.
  - rewrite (new_events_app st st' ([EvNotify depth t k] ++ evs)).
    + by rewrite calls_app, calls_notify, Hcalls.
    + rewrite Htr. simpl. by rewrite <- app_assoc.
  - intros c' t' k' Hc'. rewrite Hsub, list_elem_of_filter. by intros [Hnot _].
  - intros c' Hc'. rewrite Hsub, list_elem_of_filter.
    change (subscribers (add_event (EvNotify depth t k) st) t k) with (subscribers st t k).
    rewrite Hcbs in Hnd |- *. split.
    + apply NoDup_app in Hnd as (_ & Hdisj & Hnd2). apply NoDup_cons in Hnd2 as [Hc _].
      intros [Hin| ->%list_elem_of_singleton]%elem_of_app; [|done].
      apply (Hdisj c' Hin). by right.
    + apply elem_of_app. right. by right.
Qed.

End Refused.

Lemma thrower_quiet fuel depth : quiet_calls depth (callback_call thrower (S fuel) depth).
Proof.
  intros cb st st'. unfold callback_call, thrower. rewrite run_unfold.
  case_decide; rewrite ?run_unfold; intros [= <-]; exists []; by rewrite app_nil_r.
Qed.

Lemma thrower_inert fuel depth c s s' :
  state_of (callback_call thrower (S fuel) depth c s) = Some s' →
  targetToKeysToCallbacks s' = targetToKeysToCallbacks s ∧
  callbacksToTargets s' = callbacksToTargets s.
Proof.
  unfold callback_call, thrower. case_decide; rewrite run_unfold; by intros [= <-].
Qed.

Lemma a_throwing_callback_ends_the_notification_witness :
  ∃ st',
    notifyReactives 0 (callback_call thrower 1 0) 0 (VStr "a")
      (state_after idle two_readers) = Throw (ClientError 0) st' ∧
    calls 0 (new_events (state_after idle two_readers) st') = [1] ∧
    2 ∈ subscribers st' 0 (VStr "a").
Proof.
  assert (Hrun : ∃ st',
            notifyReactives 0 (callback_call thrower 1 0) 0 (VStr "a")
              (state_after idle two_readers) = Throw (ClientError 0) st').
  { eexists. vm_compute. reflexivity. }
  destruct Hrun as [st' Hrun]. exists st'. split; [exact Hrun|].
  destruct (a_throwing_callback_ends_the_notification 0 (callback_call thrower 1 0)
              (thrower_quiet 0 0) (thrower_inert 0 0) 0 (VStr "a")
              (state_after idle two_readers) (ClientError 0) st'
              (reachable_state_after idle two_readers) Hrun)
    as (before & c & rest & Hcbs & Hcalls & _ & Hrest).
  assert (Hsub : subscribers (state_after idle two_readers) 0 (VStr "a") = [1; 2])
    by (vm_compute; reflexivity).
  rewrite Hsub in Hcbs.
  destruct before as [|b before].
  - injection Hcbs as <- <-. split; [exact Hcalls|]. apply Hrest. left.
  - exfalso. clear -Hrun Hcalls Hcbs.
    assert (Hc : match notifyReactives 0 (callback_call thrower 1 0) 0 (VStr "a")
                         (state_after idle two_readers) with
                 | Throw _ s => length (calls 0 (new_events (state_after idle two_readers) s)) = 1
                 | _ => True
                 end) by (vm_compute; reflexivity).
    rewrite Hrun, Hcalls in Hc. rewrite length_app in Hc. simpl in Hc. lia.
Defined.

Lemma refused_write_still_notifies_witness :
  ∃ st',
    js_set 0 (callback_call idle 1 0) (VRef 1) (KStr "a") (VNum 2)
      (state_after idle read_then_freeze) = Throw TypeError st' ∧
    calls 0 (new_events (state_after idle read_then_freeze) st') = [1].
Proof.
  assert (Hp : heap (state_after idle read_then_freeze) !! 1 = Some (OProxy 0 1 HBasic))
    by (vm_compute; reflexivity).
  assert (Ht : heap (state_after idle read_then_freeze) !! 0 = Some (ORaw frozen_object))
    by (vm_compute; reflexivity).
  assert (Hd : props_get (KStr "a") (o_props frozen_object) =
               Some (mkProp (VNum 1) false false)) by (vm_compute; reflexivity).
  destruct (refused_write_still_notifies 0 (callback_call idle 1 0) (idle_quiet 0 0)
              (state_after idle read_then_freeze) 1 0 1 HBasic frozen_object (KStr "a")
              (mkProp (VNum 1) false false) (VNum 2) Hp Ht Hd eq_refl eq_refl
              (idle_returns 0 0)) as (st' & Hthrow & _ & Hcalls & _).
  exists st'. split; [exact Hthrow|]. rewrite Hcalls. vm_compute. reflexivity.
Defined.

(** *** [forEach] through a proxy *)

Section ForEach.

Variable fuel : nat.
Variable t : loc.
Variable cb : Callback.
Variable p : loc.
Variable o : RawObj.
Variable forEachCb : Value → Value → Value → M unit.

(** The collection is as it was and its proxy is in the cache. *)
Let steady (s : State) : Prop :=
  heap s !! t = Some (ORaw o) ∧ cached s t cb = Some p.

Hypothesis class_ok : o_class o = CSet ∨ o_class o = CMap.
Hypothesis unmarked : obj_has (KSym SKIP) o = false.
Hypothesis no_target : obj_has (KSym TARGET) o = false.
Hypothesis no_tag : obj_has (KSym ToStringTag) o = false.
Hypothesis entries_prim :
  ∀ e l, e ∈ data_entries (o_data o) → e.1 ≠ VRef l ∧ e.2 ≠ VRef l.
Hypothesis forEachCb_steady :
  ∀ a b c s s', steady s → forEachCb a b c s = Ok tt s' → steady s'.

Let visit : Value → Value → Value → M unit := fun val key targetObj =>
  observeTargetKey t key cb ;;;
  a <- possiblyReactive (S fuel) val cb ;;
  b <- possiblyReactive (S fuel) key cb ;;
  c <- possiblyReactive (S fuel) targetObj cb ;;
  forEachCb a b c.

Lemma visit_eval e s :
  e ∈ data_entries (o_data o) →
  steady s →
  visit e.2 e.1 (VRef t) s = (observeTargetKey t e.1 cb ;;; forEachCb e.2 e.1 (VRef p)) s ∧
  ∀ s', visit e.2 e.1 (VRef t) s = Ok tt s' → steady s'.
Proof.
  intros He [Ht Hc]. destruct (entries_prim e 0 He) as [_ _].
  assert (Hk : ∀ l, e.1 ≠ VRef l) by (intros l; by destruct (entries_prim e l He)).
  assert (Hv : ∀ l, e.2 ≠ VRef l) by (intros l; by destruct (entries_prim e l He)).
  destruct (observeTargetKey_returns t e.1 cb s) as [s1 Hobs].
  destruct (observeTargetKey_frame _ _ _ _ _ Hobs) as (Hh1 & Hc1 & _).
  assert (Hs1 : steady s1).
  { split; [by rewrite Hh1|]. unfold cached. by rewrite Hc1. }
  assert (Hsup : supported (o_class o) = true) by (by destruct class_ok as [-> | ->]).
  assert (Heq : visit e.2 e.1 (VRef t) s = forEachCb e.2 e.1 (VRef p) s1).
  { destruct Hs1 as [Ht1 Hcached1].
    unfold visit, possiblyReactive. msteps. rewrite Hobs. msteps.
    rewrite (canBeMadeReactive_primitive _ _ Hv). msteps.
    rewrite (canBeMadeReactive_primitive _ _ Hk). msteps.
    rewrite (canBeMadeReactive_raw _ _ _ Ht1 no_tag), Hsup. msteps.
    unfold reactive.
    rewrite (reactive_raw fuel t o cb s1 Ht1 no_tag Hsup unmarked no_target).
    by rewrite (reactive_cached_hit _ _ _ _ Hcached1). }
  split.
  - rewrite Heq. msteps. by rewrite Hobs.
  - intros s'. rewrite Heq. by apply forEachCb_steady.
Qed.

Lemma native_forEach_steady : ∀ n pos s,
  length (o_data o) - pos < n →
  steady s →
  native_forEach n t pos visit s =
    for_each (omap id (drop pos (o_data o)))
      (fun e => observeTargetKey t e.1 cb ;;; forEachCb e.2 e.1 (VRef p)) s.
Proof.
  induction n as [|n IH]; intros pos s Hn Hs; [lia|].
  pose proof Hs as [Ht _]. simpl. unfold raw_obj. msteps. rewrite Ht. msteps.
  assert (Hcls : ∀ (A : Type) (x y : A),
            match o_class o with CSet | CMap => x | _ => y end = x).
  { intros A x y. by destruct class_ok as [-> | ->]. }
  rewrite Hcls.
  pose proof (next_live_spec (o_data o) pos) as Hspec.
  destruct (next_live (o_data o) pos) as [[i [k v]]|].
  - destruct Hspec as (Hle & Hlt & Hdrop). rewrite Hdrop. simpl.
    assert (Hin : (k, v) ∈ data_entries (o_data o)).
    { unfold data_entries. apply list_elem_of_omap.
      assert (He : (k, v) ∈ omap id (drop pos (o_data o))) by (rewrite Hdrop; by left).
      apply list_elem_of_omap in He as (x & Hx & Hxe). exists x. split; [|done].
      apply list_elem_of_lookup in Hx as [j Hj]. rewrite lookup_drop in Hj.
      by eapply list_elem_of_lookup_2. }
    destruct (visit_eval (k, v) s Hin Hs) as [Heq Hkeep]. simpl in Heq, Hkeep.
    rewrite (bind_unfold (visit v k (VRef t))).
    rewrite (bind_unfold (observeTargetKey t k cb ;;; forEachCb v k (VRef p))).
    rewrite <- Heq.
    destruct (visit v k (VRef t) s) as [[] s'|e s'|] eqn:Hvisit; [|done|done].
    apply IH; [lia|]. by apply Hkeep.
  - rewrite Hspec. simpl. by msteps.
Qed.

(** X25: [forEach] on a wrapped set or map, with a function that
    leaves the collection alone.  It subscribes the callback to the
    changes of the key set, then visits the entries in insertion order:
    for each it subscribes the callback to the key and calls the
    function with the value, the key and the proxy of the collection
    itself, the one of the cache, and an exception of the function
    ends the visit.  The items of the entries are not objects here, the
    collection has no [Symbol.toStringTag] of its own, and the fuel
    exceeds the number of entries. *)
Theorem forEach_visits_the_entries_in_order kind st :
  class_kind (o_class o) = Some kind →
  heap st !! t = Some (ORaw o) →
  cached st t cb = Some p →
  length (o_data o) < S fuel →
  collection_forEach (S fuel) kind cb t forEachCb st =
    (observeTargetKey t (VSym KEYCHANGES) cb ;;;
     for_each (data_entries (o_data o))
       (fun e => observeTargetKey t e.1 cb ;;; forEachCb e.2 e.1 (VRef p))) st.
Proof.
  intros Hk Ht Hc Hfuel.
  assert (Hs : has_special kind (KStr "forEach") = true).
  { destruct class_ok as [E|E]; rewrite E in Hk; by injection Hk as <-. }
  unfold collection_forEach. rewrite Hs. unfold makeForEachObserver.
  fold visit.
  destruct (observeTargetKey_returns t (VSym KEYCHANGES) cb st) as [s1 Hobs].
  destruct (observeTargetKey_frame _ _ _ _ _ Hobs) as (Hh1 & Hc1 & _).
  rewrite !bind_unfold, Hobs.
  rewrite native_forEach_steady; [by rewrite drop_0|lia|].
  split; [by rewrite Hh1|]. unfold cached. by rewrite Hc1.
Qed.

End ForEach.

Lemma forEach_visits_the_entries_in_order_witness :
  collection_forEach 3 KSet 1 0 (fun _ _ _ => ret tt) (state_after idle two_members) =
    (observeTargetKey 0 (VSym KEYCHANGES) 1 ;;;
     for_each [(VNum 1, VNum 1); (VNum 2, VNum 2)]
       (fun e => observeTargetKey 0 e.1 1 ;;; ret tt)) (state_after idle two_members).
Proof.
  assert (Hprim : ∀ e l, e ∈ data_entries (o_data two_members_object) →
            e.1 ≠ VRef l ∧ e.2 ≠ VRef l).
  { intros e l He. apply list_elem_of_In in He.
    destruct He as [<-|[<-|[]]]; split; intros E; discriminate E. }
  assert (Hc : cached (state_after idle two_members) 0 1 = Some 1)
    by (vm_compute; reflexivity).
  assert (Hkeep : ∀ (a b c : Value) s s',
            heap s !! 0 = Some (ORaw two_members_object) ∧ cached s 0 1 = Some 1 →
            ret tt s = Ok tt s' →
            heap s' !! 0 = Some (ORaw two_members_object) ∧ cached s' 0 1 = Some 1).
  { intros a b c s s' Hs E. injection E as <-. exact Hs. }
  assert (Hlen : length (o_data two_members_object) < 3) by (simpl; lia).
  exact (forEach_visits_the_entries_in_order 2 0 1 1 two_members_object
           (fun _ _ _ => ret tt) (or_introl eq_refl) eq_refl eq_refl eq_refl Hprim Hkeep
           KSet (state_after idle two_members) eq_refl two_members_heap Hc Hlen).
Defined.

(** *** Reading a key that is not there *)

Section MissingKey.

Variable depth : nat.
Variable call : Callback → M unit.

Hypothesis call_quiet : quiet_calls depth call.
Hypothesis call_inert :
  ∀ c s s', state_of (call c s) = Some s' →
    heap s' = heap s ∧
    targetToKeysToCallbacks s' = targetToKeysToCallbacks s ∧
    callbacksToTargets s' = callbacksToTargets s.
Hypothesis call_returns : ∀ c s, returns (call c s).

(** X26: the read of a key the container does not have, neither as
    an own property nor from its prototype, gives [undefined] and
    subscribes the callback to that key all the same.  When the key is
    created later with a value other than [undefined], the callback is
    called, once: as a subscriber of the changes of the key set if it
    is one, as a subscriber of the key otherwise.  The key is not an
    index of an array, whose creation can move the length. *)
Theorem missing_key_read_is_a_subscription fuel st p t cb o key value :
  reachable st →
  heap st !! p = Some (OProxy t cb HBasic) →
  heap st !! t = Some (ORaw o) →
  key ≠ KSym TARGET →
  obj_has key o = false →
  proto_lookup (o_class o) key = NotInherited →
  is_array o = false ∨ array_index key = None →
  o_extensible o = true →
  strict_eq VUndef value = false →
  ∃ st1 st2,
    js_get fuel (VRef p) key st = Ok VUndef st1 ∧
    cb ∈ subscribers st1 t (key_value key) ∧
    js_set depth call (VRef p) key value st1 = Ok tt st2 ∧
    cb ∈ calls depth (new_events st1 st2) ∧
    NoDup (calls depth (new_events st1 st2)) ∧
    (∀ t' k', cb ∉ subscribers st2 t' k').
Proof.
  intros Hr Hp Ht Hkey Hno Hproto Hidx Hext Hne.
  pose proof (wf_registry_ok _ (reachable_wf _ Hr)) as Hok.
  assert (Hd : props_get key (o_props o) = None).
  { unfold obj_has in Hno. by destruct (props_get key (o_props o)). }
  assert (Hget : reflect_get key o = Some VUndef) by (by apply reflect_get_absent).
  assert (Hrset : reflect_set key value o = Done (obj_set key value o))
    by (apply reflect_set_new; auto).
  destruct (observeTargetKey_returns t (key_value key) cb st) as [st1 Hobs].
  destruct (observeTargetKey_frame _ _ _ _ _ Hobs) as (Hh1 & _).
  pose proof (observeTargetKey_registry_ok _ _ _ _ _ Hobs Hok) as Hok1.
  pose proof (observeTargetKey_elem _ _ _ _ _ Hobs) as Hsub1.
  assert (Hread : js_get fuel (VRef p) key st = Ok VUndef st1).
  { unfold js_get. msteps. rewrite Hp.
    unfold view_get, basic_get, basic_get_read, raw_obj.
    rewrite decide_False by done. msteps. rewrite Ht. msteps.
    rewrite Hd. simpl. msteps. rewrite Hobs. msteps.
    rewrite Hh1, Ht. msteps. rewrite Hget. simpl. msteps. unfold finish_read. simpl.
    unfold possiblyReactive. by msteps. }
  assert (Hset : obj_set key value o =
            (with_props (props_put key (mkProp value true true) (o_props o)) o, true)).
  { unfold obj_set. by rewrite Hd, Hext. }
  set (o1 := (obj_set key value o).1).
  set (s0 := set_heap (<[t := ORaw o1]> (heap st1)) st1).
  destruct (notify_inert depth call call_quiet call_inert call_returns
              t (VSym KEYCHANGES) s0 (registry_ok_ext st1 s0 eq_refl eq_refl Hok1))
    as (sa & Hna & Hha & Hoka & Hsuba & Hcallsa).
  destruct (notify_inert depth call call_quiet call_inert call_returns
              t (key_value key) sa Hoka)
    as (st2 & Hnb & Hhb & Hokb & Hsubb & Hcallsb).
  assert (Hwrite : js_set depth call (VRef p) key value st1 = Ok tt st2).
  { unfold js_set. msteps. rewrite Hh1, Hp.
    rewrite bind_unfold, (basic_set_unfold _ _ _ _ _ _ o VUndef (obj_set key value o))
      by (rewrite ?Hh1; done).
    rewrite Hno, Hne. simpl. fold o1. fold s0. msteps.
    rewrite Hna. msteps. rewrite Hnb. msteps. by rewrite Hset. }
  assert (Htrace : new_events st1 st2 = new_events s0 sa ++ new_events sa st2).
  { destruct (when_notify_events depth call call_quiet true _ _ _ _ Hna) as (e1 & Htr1 & _).
    destruct (when_notify_events depth call call_quiet true _ _ _ _ Hnb) as (e2 & Htr2 & _).
    rewrite (new_events_app _ _ _ Htr1), (new_events_app _ _ _ Htr2).
    apply new_events_app. rewrite Htr2, Htr1. simpl. by rewrite app_assoc. }
  assert (Hcalls : calls depth (new_events st1 st2) =
            subscribers st1 t (VSym KEYCHANGES) ++
            filter (λ c, c ∉ subscribers st1 t (VSym KEYCHANGES))
              (subscribers st1 t (key_value key))).
  { rewrite Htrace, calls_app, Hcallsa, Hcallsb, Hsuba. done. }
  exists st1, st2. split_and!; try done.
  - rewrite Hcalls. apply elem_of_app.
    destruct (decide (cb ∈ subscribers st1 t (VSym KEYCHANGES))) as [Hin|Hnot];
      [by left|right].
    by apply list_elem_of_filter.
  - rewrite Hcalls. apply NoDup_app. split_and!.
    + by apply registry_ok_NoDup.
    + intros c Hc [Hnot _]%list_elem_of_filter. by apply Hnot.
    + apply NoDup_filter. by apply registry_ok_NoDup.
  - intros t' k' Hin. rewrite Hsubb in Hin.
    apply list_elem_of_filter in Hin as [Hn2 Hin].
    rewrite Hsuba in Hin. apply list_elem_of_filter in Hin as [Hn1 _].
    destruct (decide (cb ∈ subscribers st1 t (VSym KEYCHANGES))) as [Hk|Hk].
    + by apply Hn1.
    + apply Hn2. rewrite Hsuba. apply list_elem_of_filter. split; [exact Hk|exact Hsub1].
Qed.

End MissingKey.

Lemma missing_key_read_is_a_subscription_witness :
  ∃ st1 st2,
    js_get 1 (VRef 1) (KStr "c") (state_after idle two_readers) = Ok VUndef st1 ∧
    js_set 0 (callback_call idle 1 0) (VRef 1) (KStr "c") (VNum 3) st1 = Ok tt st2 ∧
    1 ∈ calls 0 (new_events st1 st2).
Proof.
  assert (Hp : heap (state_after idle two_readers) !! 1 = Some (OProxy 0 1 HBasic))
    by (vm_compute; reflexivity).
  assert (Hkey : KStr "c" ≠ KSym TARGET) by (intros E; discriminate E).
  destruct (missing_key_read_is_a_subscription 0 (callback_call idle 1 0) (idle_quiet 0 0)
              (idle_inert 0 0) (idle_returns 0 0)
              1 (state_after idle two_readers) 1 0 1 two_readers_object (KStr "c") (VNum 3)
              (reachable_state_after idle two_readers) Hp two_readers_heap Hkey
              eq_refl eq_refl (or_introl eq_refl) eq_refl eq_refl)
    as (st1 & st2 & Hread & _ & Hwrite & Hcalls & _).
  exists st1, st2. split; [exact Hread|]. split; [exact Hwrite|exact Hcalls].
Defined.
